(** * flowdiscovery-digital-rock: a shallow embedding of the core algorithms

    The development follows the C++ sources of the repository:
    - [src/cluster_label/cluster_label.cc]   (enhanced Hoshen-Kopelman labelling),
    - [src/skeleton/skeletonizer_by_ift.h]   (image-foresting transform),
    - [src/skeleton/heaps/*.h]               (binary heaps),
    - [src/skeleton/graph/*.h], [src/skeleton/centerline/*.h] (graphs, centerlines).

    Integers of fixed width are represented in [Z] (or [nat] for container
    indices), with the wrap-around written out where the source can reach it.
    A C++ call either returns, throws, terminates the process, or has undefined
    behaviour; this is the [result] type below. *)

From Stdlib Require Import ZArith Lia Permutation Floats Uint63.
From stdpp Require Import base option list gmap.

Local Open Scope Z_scope.

(** ** Outcomes of C++ operations *)

Inductive fault : Type :=
| Exception            (* a C++ exception leaves the function *)
| Terminated           (* std::terminate / a failed assert *)
| UndefinedBehaviour   (* unchecked access outside a container, dangling pointer *)
| OutOfFuel.           (* the model's bound on loop iterations was reached *)

Inductive result (A : Type) : Type :=
| Ok (a : A)
| Fail (f : fault).
Arguments Ok {A} a.
Arguments Fail {A} f.

#[export] Instance result_ret : MRet result := fun A a => Ok a.
#[export] Instance result_bind : MBind result := fun A B k m =>
  match m with Ok a => k a | Fail f => Fail f end.
#[export] Instance result_fmap : FMap result := fun A B g m =>
  match m with Ok a => Ok (g a) | Fail f => Fail f end.

(** [v.at(i)]: bounds-checked, throws [std::out_of_range]. *)
Definition vec_at {A} (v : list A) (i : nat) : result A :=
  match v !! i with Some x => Ok x | None => Fail Exception end.

(** [v[i]]: unchecked, undefined outside the vector. *)
Definition vec_index {A} (v : list A) (i : nat) : result A :=
  match v !! i with Some x => Ok x | None => Fail UndefinedBehaviour end.

(** A [noexcept] function turns an escaping exception into [std::terminate]. *)
Definition noexcept {A} (m : result A) : result A :=
  match m with Fail Exception => Fail Terminated | r => r end.

(** [v.pop_back()] on a non-empty vector. *)
Definition pop_back {A} (v : list A) : list A := take (length v - 1) v.

Definition is_ok {A} (m : result A) : bool :=
  match m with Ok _ => true | Fail _ => false end.

(** ** src/skeleton/heaps/handle_based_binary_heap.h *)

Module HandleHeap.
Section Heap.
Context {TKey : Type}.
(** [comparer_.IsLess] of the [TKeyComparer] template argument. *)
Variable IsLess : TKey -> TKey -> bool.
(** The value of a default-constructed key ([TKey maximum_key;] in [Insert]). *)
Variable maximum_key : TKey.

(** A [Handle] object.  Each one is allocated by [Insert] and owned by exactly
    one slot of [elements_]; the model keeps the object in its slot and names
    it by its allocation number [hid], which is what a caller's [Handle*]
    stands for. *)
Record Handle : Type := mkHandle {
  hid : nat;
  priority_ : TKey;
  index_ : nat
}.

Definition SetPriority (h : Handle) (p : TKey) : Handle :=
  mkHandle (hid h) p (index_ h).
Definition SetIndex (h : Handle) (i : nat) : Handle :=
  mkHandle (hid h) (priority_ h) i.

Record Heap : Type := mkHeap {
  elements_ : list Handle;
  allocated : nat;            (* number of [new Handle] executed so far *)
  decreaseCounter_ : Z;
  removeCounter_ : Z
}.

Definition empty : Heap := mkHeap [] 0 0 0.

Definition Parent (index : nat) : nat := ((index - 1) / 2)%nat.
Definition Left (index : nat) : nat := (1 + index * 2)%nat.
Definition Right (index : nat) : nat := (2 + index * 2)%nat.
Definition HeapSize (els : list Handle) : nat := length els.
Definition IsValid (els : list Handle) (index : nat) : bool :=
  bool_decide (index < HeapSize els)%nat.

Definition IsLessH (l r : Handle) : bool := IsLess (priority_ l) (priority_ r).

(** [Swap]: two checked reads, two unchecked writes, then both handles learn
    their new position. *)
Definition Swap (els : list Handle) (index1 index2 : nat) : result (list Handle) :=
  copy_of_2 ← vec_at els index2;
  h1 ← vec_at els index1;
  let els := <[index2 := h1]> els in
  let els := <[index1 := copy_of_2]> els in
  e1 ← vec_index els index1;
  let els := <[index1 := SetIndex e1 index1]> els in
  e2 ← vec_index els index2;
  Ok (<[index2 := SetIndex e2 index2]> els).

(** [MinHeapify] is recursive in the source; [fuel] bounds the depth. *)
Fixpoint MinHeapify (fuel : nat) (els : list Handle) (index : nat)
  : result (list Handle) :=
  let left := Left index in
  let right := Right index in
  smallest ←
    (if IsValid els left then
       l ← vec_at els left; x ← vec_at els index;
       Ok (if IsLessH l x then left else index)
     else Ok index);
  smallest ←
    (if IsValid els right then
       r ← vec_at els right; s ← vec_at els smallest;
       Ok (if IsLessH r s then right else smallest)
     else Ok smallest);
  if bool_decide (smallest ≠ index) then
    els ← Swap els index smallest;
    match fuel with
    | O => Fail OutOfFuel
    | S fuel => MinHeapify fuel els smallest
    end
  else Ok els.

(** The [while] loop of [DecreasePriority]. *)
Fixpoint sift_up (fuel : nat) (els : list Handle) (index : nat)
  : result (list Handle) :=
  if bool_decide (0 < index)%nat then
    x ← vec_at els index;
    p ← vec_at els (Parent index);
    if IsLessH x p then
      let parent_index := Parent index in
      els ← Swap els index parent_index;
      match fuel with
      | O => Fail OutOfFuel
      | S fuel => sift_up fuel els parent_index
      end
    else Ok els
  else Ok els.

(** Position of the object a [Handle*] points to; a pointer to a deleted
    handle is dangling. *)
Fixpoint position (els : list Handle) (p : nat) : option nat :=
  match els with
  | [] => None
  | h :: els => if bool_decide (hid h = p) then Some 0%nat
                else S <$> position els p
  end.

Definition DecreasePriority (h : Heap) (old_priority_handle : nat)
    (new_priority : TKey) : result Heap :=
  match position (elements_ h) old_priority_handle with
  | None => Fail UndefinedBehaviour
  | Some pos =>
    obj ← vec_index (elements_ h) pos;
    if IsLess (priority_ obj) new_priority then Fail Exception
    else
      let index := index_ obj in
      let els := <[pos := SetPriority obj new_priority]> (elements_ h) in
      els ← sift_up index els index;
      Ok (mkHeap els (allocated h) (decreaseCounter_ h + 1) (removeCounter_ h))
  end.

(** [Insert] returns the new handle (its allocation number). *)
Definition Insert (h : Heap) (key : TKey) : result (nat * Heap) :=
  let maximum_handle := mkHandle (allocated h) maximum_key (HeapSize (elements_ h)) in
  let h1 := mkHeap (elements_ h ++ [maximum_handle]) (S (allocated h))
                   (decreaseCounter_ h) (removeCounter_ h) in
  h2 ← DecreasePriority h1 (hid maximum_handle) key;
  Ok (hid maximum_handle, h2).

Definition First (h : Heap) : result TKey :=
  priority_ <$> vec_at (elements_ h) 0.

Definition Remove (h : Heap) : result (TKey * Heap) :=
  if bool_decide (HeapSize (elements_ h) < 1)%nat then Fail Exception
  else
    minimum ← First h;
    _ ← vec_at (elements_ h) 0;                                (* delete elements_.at(0) *)
    last ← vec_at (elements_ h) (HeapSize (elements_ h) - 1);
    let els := <[0%nat := last]> (elements_ h) in             (* elements_.at(0) = ... *)
    let els := pop_back els in                               (* pop_back *)
    front ← vec_index els 0;                                   (* elements_[0]->SetIndex(0) *)
    let els := <[0%nat := SetIndex front 0]> els in
    els ← noexcept (MinHeapify (HeapSize els) els 0);
    Ok (minimum, mkHeap els (allocated h) (decreaseCounter_ h) (removeCounter_ h + 1)).

Definition IsEmpty (h : Heap) : bool := bool_decide (elements_ h = []).
Definition HasElements (h : Heap) : bool := negb (IsEmpty h).

(** Inserting a list of keys, one after the other, from left to right. *)
Fixpoint insert_all (h : Heap) (keys : list TKey) : result Heap :=
  match keys with
  | [] => Ok h
  | k :: keys => '(_, h) ← Insert h k; insert_all h keys
  end.

(** [n] successive removals; the removed keys in removal order. *)
Fixpoint remove_n (n : nat) (h : Heap) : result (list TKey * Heap) :=
  match n with
  | O => Ok ([], h)
  | S n => '(k, h) ← Remove h; '(ks, h) ← remove_n n h; Ok (k :: ks, h)
  end.

End Heap.

(** Key types the heap is instantiated with.  [Key<int32_t>] is the key of
    test/src/skeleton/binary_heap_test.h: an [int] compared with [<], whose
    default value is [INT32_MAX]. *)
Definition Key_int32_IsLess (a b : Z) : bool := a <? b.
Definition Key_int32_default : Z := 2147483647.

(** A key whose comparison looks at the priority only and not at the
    payload that comes with it: (priority, payload). *)
Definition TaggedKey_IsLess (a b : Z * nat) : bool := a.1 <? b.1.
Definition TaggedKey_default : Z * nat := (2147483647, 0%nat).

End HandleHeap.


(** ** src/skeleton/points, src/skeleton/annotations, src/skeleton/images *)

(** [uint16_t], [uint32_t] and [int32_t] values after wrap-around. *)
Definition uint16 (z : Z) : Z := z mod 65536.
Definition uint32 (z : Z) : Z := z mod 4294967296.
Definition int32 (z : Z) : Z := (z + 2147483648) mod 4294967296 - 2147483648.
Definition INT32_MAX : Z := 2147483647.

(** [static_cast<double>] of a non-negative integer below 2^63. *)
Definition Z_to_double (z : Z) : float := PrimFloat.of_uint63 (Uint63.of_Z z).

(** [Voxel = Point<3, uint16_t>]. *)
Record Voxel : Type := mkVoxel { vx : Z; vy : Z; vz : Z }.

#[export] Instance Voxel_eq_dec : EqDecision Voxel.
Proof. solve_decision. Defined.

#[export] Instance Voxel_countable : Countable Voxel.
Proof.
  refine (inj_countable' (fun p => (vx p, vy p, vz p))
                         (fun t => mkVoxel t.1.1 t.1.2 t.2) _).
  by intros [].
Defined.

Definition GetCoordinate (p : Voxel) (index : nat) : Z :=
  match index with O => vx p | S O => vy p | _ => vz p end.

(** [Point()] is zero-initialised. *)
Definition Voxel_default : Voxel := mkVoxel 0 0 0.

(** annotations/annotation_status.h *)
Inductive AnnotationStatus : Type := initial | inserted | removed.

#[export] Instance AnnotationStatus_eq_dec : EqDecision AnnotationStatus.
Proof. solve_decision. Defined.

(** annotations/annotation.h: [Annotation<Voxel>]. *)
Record Annotation : Type := mkAnnotation {
  distance : Z;                    (* uint32_t *)
  displacements : Z * Z * Z;       (* std::array<int32_t, 3> *)
  contour_label : Z;               (* uint32_t *)
  pixel_label : Z;                 (* uint32_t *)
  tag : Z;                         (* uint32_t *)
  status : AnnotationStatus;
  point : Voxel
}.

(** The default constructor [Annotation(void)]. *)
Definition Annotation_default : Annotation :=
  mkAnnotation INT32_MAX (INT32_MAX, INT32_MAX, INT32_MAX) 0 0 0 initial Voxel_default.

Definition GetAccumulatedDistance (a : Annotation) (index : nat) : Z :=
  match index with
  | O => (displacements a).1.1
  | S O => (displacements a).1.2
  | _ => (displacements a).2
  end.

(** images/annotated_image.h: [AnnotatedImage<Voxel, Annotation<Voxel>>], an
    [unordered_map] from points to annotations. *)
Abbreviation AnnotatedImage := (gmap Voxel Annotation).

Definition HasAnnotation (image : AnnotatedImage) (p : Voxel) : bool :=
  bool_decide (is_Some (image !! p)).

Definition ReadAnnotation (image : AnnotatedImage) (p : Voxel) : result Annotation :=
  match image !! p with Some a => Ok a | None => Fail Exception end.

Definition ModifyAnnotation (image : AnnotatedImage) (p : Voxel) (new_value : Annotation)
  : result AnnotatedImage :=
  match image !! p with Some _ => Ok (<[p := new_value]> image) | None => Fail Exception end.

Definition TryAddAnnotation (image : AnnotatedImage) (p : Voxel) (new_value : Annotation)
  : bool * AnnotatedImage :=
  match image !! p with Some _ => (false, image) | None => (true, <[p := new_value]> image) end.

Definition AddPointAnnotation (image : AnnotatedImage) (p : Voxel) (a : Annotation)
  : result AnnotatedImage :=
  let '(added, image) := TryAddAnnotation image p a in
  if added then Ok image else Fail Exception.

(** An [arma::Cube]: column-major storage, element [(i, j, k)] at
    [i + j * n_rows + k * n_rows * n_cols]. *)
Record Cube : Type := mkCube {
  n_rows : nat; n_cols : nat; n_slices : nat;
  mem : list Z
}.

Definition n_elem (c : Cube) : nat := (n_rows c * n_cols c * n_slices c)%nat.

Definition cube_index (c : Cube) (i j k : nat) : nat :=
  (i + j * n_rows c + k * (n_rows c * n_cols c))%nat.

Definition in_cube (c : Cube) (i j k : nat) : bool :=
  bool_decide (i < n_rows c)%nat && bool_decide (j < n_cols c)%nat
  && bool_decide (k < n_slices c)%nat.

(** [c(i, j, k)] with Armadillo's bounds check. *)
Definition cube_get (c : Cube) (i j k : nat) : option Z :=
  if in_cube c i j k then mem c !! cube_index c i j k else None.

Definition cube_set (c : Cube) (i j k : nat) (v : Z) : Cube :=
  mkCube (n_rows c) (n_cols c) (n_slices c) (<[cube_index c i j k := v]> (mem c)).

(** images/ternary_image.h: [TernaryImage<Voxel>]; a voxel of value 0 is an
    object (pore) point, a voxel of value 1 a contour point.  [sizes_] are the
    extents as [uint16_t], given to the constructor next to the cube. *)
Record TernaryImage : Type := mkTernaryImage {
  points_ : Cube;
  sizes_ : Z * Z * Z
}.

(** [CenterlineManager::PrepareImage]: the sizes are the extents of the cube. *)
Definition TernaryImage_of_cube (c : Cube) : TernaryImage :=
  mkTernaryImage c (uint16 (Z.of_nat (n_rows c)), uint16 (Z.of_nat (n_cols c)),
                    uint16 (Z.of_nat (n_slices c))).

Definition IsOffLimitsPoint (img : TernaryImage) (p : Voxel) : bool :=
  let '(sx, sy, sz) := sizes_ img in
  (vx p <? 0) || (sx <=? vx p) || ((vy p <? 0) || (sy <=? vy p))
  || ((vz p <? 0) || (sz <=? vz p)).

(** The value of the cube at an in-limits point.  The access cannot leave
    the cube when [sizes_] are its extents. *)
Definition point_value (img : TernaryImage) (p : Voxel) : option Z :=
  cube_get (points_ img) (Z.to_nat (vx p)) (Z.to_nat (vy p)) (Z.to_nat (vz p)).

Definition IsObjectPoint (img : TernaryImage) (p : Voxel) : bool :=
  if IsOffLimitsPoint img p then false
  else match point_value img p with Some v => v =? 0 | None => false end.

Definition IsContourPoint (img : TernaryImage) (p : Voxel) : bool :=
  if IsOffLimitsPoint img p then false
  else match point_value img p with Some v => v =? 1 | None => false end.

Definition GetTotalSize (img : TernaryImage) : nat :=
  let '(sx, sy, sz) := sizes_ img in Z.to_nat (sx * sy * sz).

Definition ConvertToLinearIndex (p : Voxel) (sizes : Z * Z * Z) : nat :=
  let '(sx, sy, _) := sizes in
  Z.to_nat (vx p + sx * vy p + (sx * sy) * vz p).

(** [TernaryImage::Iterator]: [operator++] and the end test. *)
Definition Iterator_next (sizes : Z * Z * Z) (cur : Voxel) : Voxel :=
  let '(sx, sy, _) := sizes in
  let c0 := uint16 (vx cur + 1) in
  if sx <=? c0 then
    let c1 := uint16 (vy cur + 1) in
    if sy <=? c1 then mkVoxel 0 0 (uint16 (vz cur + 1))
    else mkVoxel 0 c1 (vz cur)
  else mkVoxel c0 (vy cur) (vz cur).

Definition Iterator_IsEnd (sizes : Z * Z * Z) (cur : Voxel) : bool :=
  sizes.2 <=? vz cur.

Fixpoint points_from (fuel : nat) (sizes : Z * Z * Z) (cur : Voxel) : list Voxel :=
  if Iterator_IsEnd sizes cur then []
  else match fuel with
       | O => []
       | S fuel => cur :: points_from fuel sizes (Iterator_next sizes cur)
       end.

(** The points of [for (const auto &point : image)], x fastest. *)
Definition image_points (img : TernaryImage) : list Voxel :=
  let '(sx, sy, sz) := sizes_ img in
  points_from (Z.to_nat (Z.max sx 1 * Z.max sy 1 * sz)) (sizes_ img) (mkVoxel 0 0 0).

(** neighbours/twenty_six_neighbour_calculator.h *)
Definition PushPoint (p : Voxel) (dx dy dz : Z) : Voxel :=
  mkVoxel (uint16 (dx + vx p - 1)) (uint16 (dy + vy p - 1)) (uint16 (dz + vz p - 1)).

Definition GetNeighbours (p : Voxel) : list Voxel :=
  dx ← [0; 1; 2]; dy ← [0; 1; 2]; dz ← [0; 1; 2];
  if (Z.abs (dx - 1) =? 1) || (Z.abs (dy - 1) =? 1) || (Z.abs (dz - 1) =? 1)
  then [PushPoint p dx dy dz] else [].

(** paths/quadratic_path_calculator.h: [GetSquaredDistance] (the differences
    and their squares are [int]; exact below 46341). *)
Definition GetSquaredDistance (a b : Voxel) : Z :=
  (vx a - vx b) * (vx a - vx b) + (vy a - vy b) * (vy a - vy b)
  + (vz a - vz b) * (vz a - vz b).

Definition GetWeight (a b : Voxel) : float :=
  PrimFloat.sqrt (Z_to_double (GetSquaredDistance a b)).

(** points/point.h: the neighbour predicates.  The four of them run the same
    loop over the axes: [diff] is a [coordinate] ([uint16_t]) that accumulates
    the absolute differences, and the test [diff - prev_diff > 1] is taken in
    [int].  [None] stands for the early [return false]. *)
Definition axis_difference (a b : Z) : Z := if b <? a then a - b else b - a.

Fixpoint accumulate_differences (p other : Voxel) (axes : list nat) (diff : Z) : option Z :=
  match axes with
  | [] => Some diff
  | i :: axes =>
    let prev_diff := diff in
    let diff := uint16 (diff + axis_difference (GetCoordinate p i) (GetCoordinate other i)) in
    if 1 <? diff - prev_diff then None
    else accumulate_differences p other axes diff
  end.

Definition IsFaceNeighbour (p other : Voxel) : bool :=
  match accumulate_differences p other [0; 1; 2]%nat 0 with
  | Some diff => diff =? 1
  | None => false
  end.

Definition IsVertexNeighbour (p other : Voxel) : bool :=
  match accumulate_differences p other [0; 1; 2]%nat 0 with
  | Some diff => diff =? 3
  | None => false
  end.

Definition IsEdgeNeighbour (p other : Voxel) : bool :=
  match accumulate_differences p other [0; 1; 2]%nat 0 with
  | Some diff => diff =? 2
  | None => false
  end.

Definition IsNeighbour (p other : Voxel) : bool :=
  match accumulate_differences p other [0; 1; 2]%nat 0 with
  | Some diff => (diff <=? 3) && (1 <=? diff)
  | None => false
  end.

(** [operator<] and [operator>]: lexicographic, first coordinate first. *)
Fixpoint Point_less (a b : list Z) : bool :=
  match a, b with
  | x :: a, y :: b =>
    if x <? y then true else if y <? x then false else Point_less a b
  | _, _ => false
  end.

Definition values_ (p : Voxel) : list Z := [vx p; vy p; vz p].

Definition Point_lt (p other : Voxel) : bool := Point_less (values_ p) (values_ other).

Fixpoint Point_greater (a b : list Z) : bool :=
  match a, b with
  | x :: a, y :: b =>
    if y <? x then true else if x <? y then false else Point_greater a b
  | _, _ => false
  end.

Definition Point_gt (p other : Voxel) : bool := Point_greater (values_ p) (values_ other).

(** neighbours/six_neighbour_calculator.h *)
Definition SixNeighbour_GetNeighbours (p : Voxel) : list Voxel :=
  dx ← [0; 1; 2]; dy ← [0; 1; 2]; dz ← [0; 1; 2];
  if negb (Z.abs (dx - 1) + Z.abs (dy - 1) + Z.abs (dz - 1) =? 1) then []
  else [PushPoint p dx dy dz].

(** [TwentySixNeighbourCalculator::GetNeighboursInPlane]: the offsets of the
    axis [direction] are pinned to 1 (no displacement). *)
Definition plane_offsets (direction : Z) (axis : Z) : list Z :=
  if direction =? axis then [1] else [0; 1; 2].

Definition GetNeighboursInPlane (p : Voxel) (direction : Z) : list Voxel :=
  dx ← plane_offsets direction 0; dy ← plane_offsets direction 1;
  dz ← plane_offsets direction 2;
  if (Z.abs (dx - 1) =? 1) || (Z.abs (dy - 1) =? 1) || (Z.abs (dz - 1) =? 1)
  then [PushPoint p dx dy dz] else [].

(** ** src/skeleton/centerline/vertex.h, src/skeleton/graph *)

Module Graph.

(** [Vertex<Voxel, double>]: a point and its property value.  Equality and
    hash of a vertex look at the point only. *)
Record Vertex : Type := mkVertex {
  Point : Voxel;
  PropertyValue : float
}.

Definition Vertex_default : Vertex := mkVertex Voxel_default 0%float.

(** [AnnotatedVertexHelper<...>::Annotation], the per-vertex record of the
    router. *)
Record VertexAnnotation : Type := mkVertexAnnotation {
  distance_ : float;
  predecessor_ : Vertex;
  counter_value_ : Z;
  tag_ : option nat;
  has_predecessor_ : bool;
  is_removed_ : bool;
  is_local_maximal_set_ : bool;
  is_local_maximal_ : bool;
  cluster_id_ : Z
}.

(** [Annotation(void)]: [numeric_limits<double>::max()], no predecessor. *)
Definition VertexAnnotation_default : VertexAnnotation :=
  mkVertexAnnotation 0x1.fffffffffffffp+1023%float Vertex_default 18446744073709551615
                     None false false false false (-1).

(** *** graph/memory_graph.h *)

(** [std::unordered_map<vertex_key_type, vertex_annotation_type>] hashed and
    compared by point; each entry keeps the key object it was inserted with. *)
Abbreviation MemoryGraph := (gmap Voxel (Vertex * VertexAnnotation)).

(** [operator[]]: [vertex_set_.at(vertex_key)].  The graph after the call is
    returned next to the outcome. *)
Definition MemoryGraph_get (g : MemoryGraph) (vertex_key : Vertex)
  : result VertexAnnotation * MemoryGraph :=
  (match g !! Point vertex_key with
   | Some (_, a) => Ok a
   | None => Fail Exception
   end, g).

Definition MemoryGraph_HasVertex (g : MemoryGraph) (vertex_key : Vertex)
  : result bool * MemoryGraph :=
  (Ok (bool_decide (is_Some (g !! Point vertex_key))), g).

(** [vertex_set.insert(std::make_pair(key, annotation))]: no effect when the
    key is present. *)
Definition unordered_insert (g : MemoryGraph) (key : Vertex) (a : VertexAnnotation)
  : MemoryGraph :=
  match g !! Point key with
  | Some _ => g
  | None => <[Point key := (key, a)]> g
  end.

(** centerline/memory_graph_builder.h: [MemoryGraphBuilder::Build]. *)
Definition MemoryGraphBuilder_Build (image : AnnotatedImage) (original : TernaryImage)
  : MemoryGraph :=
  map_fold (fun point annotation vertex_set =>
              if negb (IsObjectPoint original point) then vertex_set
              else unordered_insert vertex_set
                     (mkVertex point (Z_to_double (distance annotation)))
                     VertexAnnotation_default)
           ∅ image.

(** The vertices of the graph, as its iterators yield them. *)
Definition MemoryGraph_vertices (g : MemoryGraph) : list Vertex :=
  (fun kv => kv.2.1) <$> map_to_list g.

(** *** graph/speed_graph.h *)

Record SpeedGraph : Type := mkSpeedGraph {
  vertex_set_ : list (Vertex * VertexAnnotation);
  has_annotation_list_ : list bool;
  convert_sizes_ : Z * Z * Z        (* the image extents [convert_key_] uses *)
}.

Definition convert_key_ (g : SpeedGraph) (vertex_key : Vertex) : nat :=
  ConvertToLinearIndex (Point vertex_key) (convert_sizes_ g).

(** [operator[]]: the presence bit is read with the unchecked [operator[]] of
    [std::vector<bool>], the annotation with [at]. *)
Definition SpeedGraph_get (g : SpeedGraph) (vertex_key : Vertex)
  : result VertexAnnotation * SpeedGraph :=
  let index := convert_key_ g vertex_key in
  (present ← vec_index (has_annotation_list_ g) index;
   if negb present then Fail Exception
   else snd <$> vec_at (vertex_set_ g) index, g).

(** [HasVertex] is [noexcept] and reads the bit with [at]. *)
Definition SpeedGraph_HasVertex (g : SpeedGraph) (vertex_key : Vertex)
  : result bool * SpeedGraph :=
  let index := convert_key_ g vertex_key in
  (noexcept (vec_at (has_annotation_list_ g) index), g).

(** centerline/speed_graph_builder.h: [SpeedGraphBuilder::Build] ([noexcept]). *)
Definition SpeedGraphBuilder_step (original_image : TernaryImage)
    (point : Voxel) (annotation : Annotation)
    (acc : result (list (Vertex * VertexAnnotation) * list bool))
  : result (list (Vertex * VertexAnnotation) * list bool) :=
  '(vertex_set, vertex_is_annotated_) ← acc;
  let index := ConvertToLinearIndex point (sizes_ original_image) in
  if negb (IsObjectPoint original_image point) then Ok (vertex_set, vertex_is_annotated_)
  else
    _ ← vec_at vertex_set index;
    let vertex_set :=
      <[index := (mkVertex point (Z_to_double (distance annotation)),
                  VertexAnnotation_default)]> vertex_set in
    _ ← vec_at vertex_is_annotated_ index;
    Ok (vertex_set, <[index := true]> vertex_is_annotated_).

Definition SpeedGraphBuilder_Build (image : AnnotatedImage) (original_image : TernaryImage)
  : result SpeedGraph :=
  let total := GetTotalSize original_image in
  '(vertex_set, flags) ←
     noexcept (map_fold (SpeedGraphBuilder_step original_image)
                 (Ok (replicate total (Vertex_default, VertexAnnotation_default),
                      replicate total false))
                 image);
  Ok (mkSpeedGraph vertex_set flags (sizes_ original_image)).

(** The vertices of the graph, as its iterators yield them: the keys stored
    in the slots whose presence bit is set. *)
Definition SpeedGraph_vertices (g : SpeedGraph) : list Vertex :=
  omap (fun '(kv, present) => if present : bool then Some (fst kv) else None)
       (zip (vertex_set_ g) (has_annotation_list_ g)).

(** *** The other operations of the two graphs

    [Insert] takes an annotated vertex: its key and its annotation. *)



Definition MemoryGraph_Clear (g : MemoryGraph) : MemoryGraph := ∅.



(** [SpeedGraph::Clear]: [has_annotation_list_.assign(size, false)]. *)
Definition SpeedGraph_Clear (g : SpeedGraph) : SpeedGraph :=
  mkSpeedGraph (vertex_set_ g) (replicate (length (has_annotation_list_ g)) false)
               (convert_sizes_ g).

(** centerline/vertex_neighbour_calculator.h: the 26 neighbours of the point
    that carry an annotation in the annotated image, each with its annotated
    distance as property value. *)
Fixpoint annotated_neighbours (image : AnnotatedImage) (pt_neighbours : list Voxel)
  : result (list Vertex) :=
  match pt_neighbours with
  | [] => Ok []
  | pt_neighbour :: pt_neighbours =>
    if negb (HasAnnotation image pt_neighbour) then annotated_neighbours image pt_neighbours
    else
      annotation ← ReadAnnotation image pt_neighbour;
      neighbours ← annotated_neighbours image pt_neighbours;
      Ok (mkVertex pt_neighbour (Z_to_double (distance annotation)) :: neighbours)
  end.

Definition VertexNeighbourCalculator_GetNeighbours (image : AnnotatedImage) (vertex : Vertex)
  : result (list Vertex) :=
  noexcept (annotated_neighbours image (GetNeighbours (Point vertex))).

(** The loop of [GetVertexNeighbours] that keeps the neighbours that are
    vertices of the graph. *)
Fixpoint keep_vertices (HasVertex : Vertex -> result bool) (neighbours : list Vertex)
  : result (list Vertex) :=
  match neighbours with
  | [] => Ok []
  | neighbour :: neighbours =>
    present ← HasVertex neighbour;
    output ← keep_vertices HasVertex neighbours;
    Ok (if present : bool then neighbour :: output else output)
  end.

(** [GetVertexNeighbours(key)]; [image] is the annotated image the
    calculator of the graph refers to. *)
Definition MemoryGraph_GetVertexNeighbours (image : AnnotatedImage) (g : MemoryGraph)
    (vertex_key : Vertex) : result (list Vertex) :=
  present ← (MemoryGraph_HasVertex g vertex_key).1;
  if negb present then Fail Exception
  else
    neighbours ← VertexNeighbourCalculator_GetNeighbours image vertex_key;
    keep_vertices (fun v => (MemoryGraph_HasVertex g v).1) neighbours.

Definition SpeedGraph_GetVertexNeighbours (image : AnnotatedImage) (g : SpeedGraph)
    (vertex_key : Vertex) : result (list Vertex) :=
  present ← (SpeedGraph_HasVertex g vertex_key).1;
  if negb present then Fail Exception
  else
    neighbours ← VertexNeighbourCalculator_GetNeighbours image vertex_key;
    keep_vertices (fun v => (SpeedGraph_HasVertex g v).1) neighbours.

End Graph.

(** ** src/skeleton/centerline/centerline.h, centerline_set.h, centerline_calculator.h *)

Module Centerlines.
Import Graph.

(** [CenterlineSet::CenterLineNode]. *)
Record CenterLineNode : Type := mkNode {
  node_point_ : Vertex;
  node_distance_ : float
}.

(** A [Centerline] is its vector [nodes_]. *)
Abbreviation Centerline := (list CenterLineNode).

(** [Centerline::split]: the centerline after the call and the returned one.
    [GetNumPoints() - 1] is a [size_t] difference; for an index below
    2^64 - 1 the test [index == GetNumPoints() - 1] is [S index = length]. *)
Definition split (nodes_ : Centerline) (index : nat) : result (Centerline * Centerline) :=
  if bool_decide (index = 0%nat) || bool_decide (S index = length nodes_) then
    Ok (nodes_, [])
  else if bool_decide (length nodes_ < index)%nat then
    Fail UndefinedBehaviour                 (* nodes_.begin() + index passes the end *)
  else if bool_decide (length nodes_ = index) then
    Fail UndefinedBehaviour                 (* the loop pops an empty vector *)
  else
    let new_nodes := drop index nodes_ in
    Ok (take (S index) nodes_, new_nodes).

(** [CenterlineSet::Statistics]. *)
Record Statistics : Type := mkStatistics {
  size_ : float;
  tortuosity_ : float;
  average_property_value_ : float
}.

Fixpoint GetSize_from (previews_vertex : Voxel) (rest : Centerline) (size : float) : float :=
  match rest with
  | [] => size
  | node :: rest =>
    let vertex := Point (node_point_ node) in
    GetSize_from vertex rest (size + GetWeight vertex previews_vertex)%float
  end.

(** The loop of [GetSize] starts at index 1 and ends when the index meets
    [GetNumPoints()]: on an empty centerline it reads [centerline[1]]. *)
Definition GetSize (centerline : Centerline) : result float :=
  match centerline with
  | [] => Fail Exception
  | node :: rest => Ok (GetSize_from (Point (node_point_ node)) rest 0%float)
  end.

Definition GetTortuosity (size_ : float) (centerline : Centerline) : result float :=
  first ← vec_at centerline 0;
  last ← vec_at centerline (length centerline - 1);
  let ends_distance := GetWeight (Point (node_point_ first)) (Point (node_point_ last)) in
  Ok (size_ / ends_distance - 1)%float.

Fixpoint GetAveragePropertyValue_from (centerline : Centerline) (average count : float)
  : float :=
  match centerline with
  | [] => average
  | node :: rest =>
    let count := (count + 1)%float in
    GetAveragePropertyValue_from rest
      (average + (PrimFloat.sqrt (PropertyValue (node_point_ node)) - average) / count)%float
      count
  end.

Definition Statistics_of (centerline : Centerline) : result Statistics :=
  size_ ← GetSize centerline;
  tortuosity_ ← GetTortuosity size_ centerline;
  Ok (mkStatistics size_ tortuosity_
        (GetAveragePropertyValue_from centerline 0%float 0%float)).

Record CenterlineSet : Type := mkCenterlineSet {
  paths_ : list Centerline;
  statistics_ : list Statistics;
  used_nodes_ : gset Voxel;
  branch_nodes_ : gset Voxel
}.

Definition CenterlineSet_empty : CenterlineSet := mkCenterlineSet [] [] ∅ ∅.

Definition IsBranch (branch_nodes_ : gset Voxel) (point : Vertex) : bool :=
  bool_decide (Point point ∈ branch_nodes_).

(** The inner loop of [SplitByBranchPoints] on one path, from index [i]:
    the path after the loop, and the path pushed back (if any).  [steps]
    bounds the number of iterations. *)
Fixpoint scan_path (branch_nodes_ : gset Voxel) (steps : nat) (path : Centerline) (i : nat)
  : result (Centerline * option Centerline) :=
  match steps with
  | O => Ok (path, None)
  | S steps =>
    if bool_decide (i = length path) then Ok (path, None)
    else
      node ← vec_at path i;
      if IsBranch branch_nodes_ (node_point_ node) then
        '(path', new_path) ← split path i;
        if bool_decide (0 < length new_path)%nat then Ok (path', Some new_path)
        else scan_path branch_nodes_ steps path' (S i)
      else scan_path branch_nodes_ steps path (S i)
  end.

(** The outer loop: [j] runs until it meets [paths_.size()], which grows. *)
Fixpoint split_paths (fuel : nat) (branch_nodes_ : gset Voxel)
    (paths_ : list Centerline) (j : nat) : result (list Centerline) :=
  match paths_ !! j with
  | None => Ok paths_
  | Some path =>
    match fuel with
    | O => Fail OutOfFuel
    | S fuel =>
      '(path', pushed) ← scan_path branch_nodes_ (length path) path 0;
      let paths_ := <[j := path']> paths_ in
      let paths_ := match pushed with
                    | Some new_path => paths_ ++ [new_path]
                    | None => paths_
                    end in
      split_paths fuel branch_nodes_ paths_ (S j)
    end
  end.

Fixpoint all_statistics (paths_ : list Centerline) : result (list Statistics) :=
  match paths_ with
  | [] => Ok []
  | path :: rest =>
    s ← Statistics_of path; stats ← all_statistics rest; Ok (s :: stats)
  end.

(** The number of iterations the outer loop can need. *)
Definition split_fuel (paths_ : list Centerline) : nat :=
  sum_list_with (fun path => S (length path)) paths_.

Definition SplitByBranchPoints (set : CenterlineSet) : result CenterlineSet :=
  paths ← split_paths (split_fuel (paths_ set)) (branch_nodes_ set) (paths_ set) 0;
  stats ← all_statistics paths;
  Ok (mkCenterlineSet paths stats (used_nodes_ set) (branch_nodes_ set)).

(** *** centerline/centerline_calculator.h

    The router object ([Dijkstra]) is a template argument of the calculator.
    Of [Dijkstra::ExecuteGradient] the membership test on the source is
    modelled; its search (initialisation and main loop, floating point
    throughout) is the state transformer [search].  [add_sets] stands for the
    calls of [CenterlineSet::AddSet] that follow an executed search. *)
Section Router.
Variable algorithm_type : Type.
Variable graph_HasVertex : Vertex -> bool.
Variable search : algorithm_type -> Vertex -> algorithm_type.
Variable add_sets : algorithm_type -> list Vertex -> CenterlineSet -> CenterlineSet.

Definition ExecuteGradient (algorithm : algorithm_type) (source : Vertex)
  : bool * algorithm_type :=
  if negb (graph_HasVertex source) then (false, algorithm)
  else (true, search algorithm source).

Definition ExecuteSingleComputation (algorithm : algorithm_type) (source_vertex : Vertex)
    (centerlines : CenterlineSet) (end_points : list Vertex)
  : bool * algorithm_type * CenterlineSet :=
  let '(executed, algorithm) := ExecuteGradient algorithm source_vertex in
  if negb executed then (false, algorithm, centerlines)
  else (true, algorithm, add_sets algorithm end_points centerlines).

(** The [for] loop of [ComputeForSources], with its [break]. *)
Fixpoint for_sources (source_points : list Vertex) (end_points : list Vertex)
    (algorithm : algorithm_type) (centerlines : CenterlineSet)
  : algorithm_type * CenterlineSet :=
  match source_points with
  | [] => (algorithm, centerlines)
  | source_point :: source_points =>
    let '(executed, algorithm, centerlines) :=
      ExecuteSingleComputation algorithm source_point centerlines end_points in
    if executed then (algorithm, centerlines)
    else for_sources source_points end_points algorithm centerlines
  end.

Definition ComputeForSources (source_points end_points : list Vertex)
    (algorithm : algorithm_type) : algorithm_type * result CenterlineSet :=
  let '(algorithm, centerlines) :=
    for_sources source_points end_points algorithm CenterlineSet_empty in
  (algorithm, SplitByBranchPoints centerlines).

End Router.

(** *** centerline/maximal_clusters_discoverer.h

    [GetPairKey]: labels are [int64_t]; a signed product or sum that leaves
    the 64-bit range is undefined. *)
Definition in_int64 (z : Z) : bool :=
  (-9223372036854775808 <=? z) && (z <=? 9223372036854775807).

Definition GetPairKey (num_of_labels label_a label_b : Z) : result Z :=
  let product := Z.min label_a label_b * num_of_labels in
  if negb (in_int64 product) then Fail UndefinedBehaviour
  else
    let key := product + Z.max label_a label_b in
    if negb (in_int64 key) then Fail UndefinedBehaviour else Ok key.

End Centerlines.

(** ** src/cluster_label/cluster_label.cc *)

Module ClusterLabel.

(** Labels and coordinates are [arma::uword], cluster sizes and links
    [arma::sword] (64 bits); labels and sizes are bounded by the number of
    sites of the cube.  Armadillo checks the bounds of every element access
    and throws outside. *)
Definition uword (z : Z) : Z := z mod 18446744073709551616.

Definition elem {A} (v : list A) (x : Z) : result A :=
  if bool_decide (0 <= x) then vec_at v (Z.to_nat x) else Fail Exception.

Definition set_elem {A} (v : list A) (x : Z) (a : A) : result (list A) :=
  _ ← elem v x; Ok (<[Z.to_nat x := a]> v).

Definition cube_at (c : Cube) (i j k : nat) : result Z :=
  match cube_get c i j k with Some v => Ok v | None => Fail Exception end.

(** [for (...) body], threading the state and stopping at the first failure. *)
Fixpoint for_each {A S} (xs : list A) (body : A -> S -> result S) (s : S) : result S :=
  match xs with
  | [] => Ok s
  | x :: xs => s ← body x s; for_each xs body s
  end.

(** The sites of a cube in the order of the three nested loops: slices,
    then columns, then rows. *)
Definition sites (c : Cube) : list (nat * nat * nat) :=
  k ← seq 0 (n_slices c); j ← seq 0 (n_cols c); i ← seq 0 (n_rows c); [(i, j, k)].

(** *** HKProper *)

(** The two [static] variables of [HKProper]; they live as long as the
    program and start as [-1U]. *)
Record Cache : Type := mkCache { prev_label : Z; prev_proper : Z }.

Definition Cache_initial : Cache := mkCache 4294967295 4294967295.

(** [while (n(proper) < 0) proper = -n(proper);] *)
Fixpoint follow_links (fuel : nat) (n : list Z) (proper : Z) : result Z :=
  v ← elem n proper;
  if v <? 0 then
    match fuel with
    | O => Fail OutOfFuel
    | S fuel => follow_links fuel n (- v)
    end
  else Ok proper.

Definition HKProper (fuel : nat) (label : Z) (n : list Z) (c : Cache)
  : result (Z * list Z * Cache) :=
  if prev_label c =? label then Ok (prev_proper c, n, c)
  else
    proper ← follow_links fuel n label;
    n ← (if bool_decide (proper ≠ label) then set_elem n label (- proper) else Ok n);
    Ok (proper, n, mkCache label proper).

(** [HKProper] applied to the entries of a vector, from the first to the
    last ([transform]). *)
Fixpoint transform (fuel : nat) (labels : list Z) (n : list Z) (c : Cache)
  : result (list Z * list Z * Cache) :=
  match labels with
  | [] => Ok ([], n, c)
  | x :: labels =>
    '(p, n, c) ← HKProper fuel x n c;
    '(ps, n, c) ← transform fuel labels n c;
    Ok (p :: ps, n, c)
  end.

(** *** PreviousNeighbours and AllNeighbours *)

(** A neighbour: whether it lies inside the cube, and its coordinates. *)
Definition neighbour : Type := bool * (nat * nat * nat).

Definition previous_sites (l : Cube) (i j k : nat) : list neighbour :=
  let imax := (n_rows l - 1)%nat in
  let jmax := (n_cols l - 1)%nat in
  let i' := negb (i =? 0)%nat in
  let j' := negb (j =? 0)%nat in
  let k' := negb (k =? 0)%nat in
  let i_imax := negb (i =? imax)%nat in     (* i - imax, non-zero *)
  let j_jmax := negb (j =? jmax)%nat in
  [ (i' && j' && k',           (i - 1, j - 1, k - 1));
    (j' && k',                 (i,     j - 1, k - 1));
    (i_imax && j' && k',       (i + 1, j - 1, k - 1));
    (i' && k',                 (i - 1, j,     k - 1));
    (k',                       (i,     j,     k - 1));
    (i_imax && k',             (i + 1, j,     k - 1));
    (i' && j_jmax && k',       (i - 1, j + 1, k - 1));
    (j_jmax && k',             (i,     j + 1, k - 1));
    (i_imax && j_jmax && k',   (i + 1, j + 1, k - 1));
    (i' && j',                 (i - 1, j - 1, k));
    (j',                       (i,     j - 1, k));
    (i_imax && j',             (i + 1, j - 1, k));
    (i',                       (i - 1, j,     k)) ]%nat.

Definition neighbour_label (l : Cube) (outside : Z) (s : neighbour) : result Z :=
  let '(inside, (i, j, k)) := s in
  if inside then cube_at l i j k else Ok outside.

(** [nnl(m) = HKProper(... ? l(...) : 0, n)] for the listed neighbours. *)
Fixpoint previous_labels (fuel : nat) (l : Cube) (ss : list neighbour)
    (n : list Z) (c : Cache) : result (list Z * list Z * Cache) :=
  match ss with
  | [] => Ok ([], n, c)
  | s :: ss =>
    x ← neighbour_label l 0 s;
    '(p, n, c) ← HKProper fuel x n c;
    '(ps, n, c) ← previous_labels fuel l ss n c;
    Ok (p :: ps, n, c)
  end.

Definition PreviousNeighbours (fuel : nat) (i j k : nat) (l : Cube) (n : list Z) (c : Cache)
  : result (list Z * list Z * Cache) :=
  previous_labels fuel l (previous_sites l i j k) n c.

Definition all_sites (l : Cube) (i j k : nat) : list neighbour :=
  let imax := (n_rows l - 1)%nat in
  let jmax := (n_cols l - 1)%nat in
  let kmax := (n_slices l - 1)%nat in
  let i' := negb (i =? 0)%nat in
  let j' := negb (j =? 0)%nat in
  let k' := negb (k =? 0)%nat in
  let i_imax := negb (i =? imax)%nat in
  let j_jmax := negb (j =? jmax)%nat in
  let k_kmax := negb (k =? kmax)%nat in
  previous_sites l i j k ++
  [ (i_imax,                     (i + 1, j,     k));
    (i' && j_jmax,               (i - 1, j + 1, k));
    (j_jmax,                     (i,     j + 1, k));
    (i_imax && j_jmax,           (i + 1, j + 1, k));
    (i' && j' && k_kmax,         (i - 1, j - 1, k + 1));
    (j' && k_kmax,               (i,     j - 1, k + 1));
    (i_imax && j' && k_kmax,     (i + 1, j - 1, k + 1));
    (i' && k_kmax,               (i - 1, j,     k + 1));
    (k_kmax,                     (i,     j,     k + 1));
    (i_imax && k_kmax,           (i + 1, j,     k + 1));
    (i' && j_jmax && k_kmax,     (i - 1, j + 1, k + 1));
    (j_jmax && k_kmax,           (i,     j + 1, k + 1));
    (i_imax && j_jmax && k_kmax, (i + 1, j + 1, k + 1)) ]%nat.

Fixpoint map_result {A B} (f : A -> result B) (xs : list A) : result (list B) :=
  match xs with
  | [] => Ok []
  | x :: xs => y ← f x; ys ← map_result f xs; Ok (y :: ys)
  end.

Definition AllNeighbours (i j k : nat) (l : Cube) : result (list Z) :=
  map_result (neighbour_label l 4294967295) (all_sites l i j k).

(** *** The sweep *)

(** [arma::unique(nnl.elem(arma::find(nnl)))]: the non-zero entries, sorted
    in ascending order, without duplicates. *)
Fixpoint insert_unique (x : Z) (s : list Z) : list Z :=
  match s with
  | [] => [x]
  | y :: s' => if x <? y then x :: s else if x =? y then s else y :: insert_unique x s'
  end.

Definition unique (v : list Z) : list Z := foldr insert_unique [] v.

Definition nonzero (v : list Z) : list Z := filter (fun x => x ≠ 0) v.

(** A row of [bbox_min] or [bbox_max]. *)
Definition row : Type := Z * Z * Z.

Definition min_row (a b : row) : row :=
  (Z.min a.1.1 b.1.1, Z.min a.1.2 b.1.2, Z.min a.2 b.2).
Definition max_row (a b : row) : row :=
  (Z.max a.1.1 b.1.1, Z.max a.1.2 b.1.2, Z.max a.2 b.2).

(** [v(indices).fill(a)] *)
Definition fill {A} (v : list A) (indices : list Z) (a : A) : result (list A) :=
  for_each indices (fun x v => set_elem v x a) v.

Record State : Type := mkState {
  l : Cube;
  n : list Z;
  cache : Cache;
  largest_label : Z;
  bbox_min : list row;
  bbox_max : list row
}.

(** The body of the three loops at site (i, j, k). *)
Definition label_site (fuel : nat) (site : nat * nat * nat) (st : State) : result State :=
  let '(i, j, k) := site in
  flag ← cube_at (l st) i j k;
  if flag =? 0 then Ok st
  else
    '(nnl, n1, c) ← PreviousNeighbours fuel i j k (l st) (n st) (cache st);
    '(nnl, n2, c) ← transform fuel nnl n1 c;
    let uniq_non0 := unique (nonzero nnl) in
    let t : row := (Z.of_nat i, Z.of_nat j, Z.of_nat k) in
    match uniq_non0 with
    | [label] =>
      let l' := cube_set (l st) i j k label in
      size ← elem n2 label;
      n3 ← set_elem n2 label (size + 1);
      lo ← elem (bbox_min st) label;
      bmin ← set_elem (bbox_min st) label (min_row t lo);
      hi ← elem (bbox_max st) label;
      bmax ← set_elem (bbox_max st) label (max_row t hi);
      Ok (mkState l' n3 c (largest_label st) bmin bmax)
    | [] =>
      let largest := largest_label st + 1 in
      let l' := cube_set (l st) i j k largest in
      size ← elem n2 largest;
      n3 ← set_elem n2 largest (size + 1);
      bmin ← set_elem (bbox_min st) largest t;
      bmax ← set_elem (bbox_max st) largest t;
      Ok (mkState l' n3 c largest bmin bmax)
    | label :: tail =>
      let l' := cube_set (l st) i j k label in
      sizes ← map_result (elem n2) tail;
      size ← elem n2 label;
      n3 ← set_elem n2 label (size + (1 + foldr Z.add 0 sizes));
      n4 ← fill n3 tail (- label);
      los ← map_result (elem (bbox_min st)) uniq_non0;
      bmin ← set_elem (bbox_min st) label (foldr min_row t los);
      his ← map_result (elem (bbox_max st)) uniq_non0;
      bmax ← set_elem (bbox_max st) label (foldr max_row t his);
      bmin ← fill bmin tail (0, 0, 0);
      bmax ← fill bmax tail (0, 0, 0);
      Ok (mkState l' n4 c (largest_label st) bmin bmax)
    end.

(** The state before the sweep: no label and all sizes zero.  The source
    does not fill [bbox_min] and [bbox_max]; the model takes the zeros that
    the matrix constructor of Armadillo (10.5 and later) leaves in them. *)
Definition State_initial (cube : Cube) (c : Cache) : State :=
  let half := (n_elem cube / 2)%nat in
  mkState cube (replicate half 0) c 0 (replicate half (0, 0, 0)) (replicate half (0, 0, 0)).

(** The sweep over the listed sites. *)
Definition sweep (fuel : nat) (ss : list (nat * nat * nat)) (st : State) : result State :=
  for_each ss (label_site fuel) st.

(** *** HKCheck *)

Definition check_site (cube : Cube) (site : nat * nat * nat) (_ : unit) : result unit :=
  let '(i, j, k) := site in
  label ← cube_at cube i j k;
  if label =? 0 then Ok ()
  else
    nnl ← AllNeighbours i j k cube;
    if forallb (fun x => (x =? 4294967295) || (x =? 0) || (x =? label)) nnl
    then Ok () else Fail Terminated.      (* assert; absent under NDEBUG *)

Definition with_mem (cube : Cube) (m : list Z) : Cube :=
  mkCube (n_rows cube) (n_cols cube) (n_slices cube) m.

Definition HKCheck (fuel : nat) (st : State) : result State :=
  '(m, n', c) ← transform fuel (mem (l st)) (n st) (cache st);
  let l' := with_mem (l st) m in
  _ ← for_each (sites l') (check_site l') ();
  Ok (mkState l' n' c (largest_label st) (bbox_min st) (bbox_max st)).

(** *** The infinite clusters *)

(** [arma::sort_index(n, "descend")] returns the indices of [n] arranged so
    that the entries descend.  The library sorts with an unstable sort and
    leaves the order of equal entries open, so the model takes the call as an
    argument [sort_index] of the functions that use it; [descending_index]
    is what the library promises of the vector it returns. *)
Definition descending_index (sizes : list Z) (idx : list Z) : Prop :=
  idx ≡ₚ (Z.of_nat <$> seq 0 (length sizes))
  /\ forall (i j : nat) (x y a b : Z), (i <= j)%nat ->
       idx !! i = Some x -> idx !! j = Some y ->
       sizes !! Z.to_nat x = Some a -> sizes !! Z.to_nat y = Some b -> b <= a.

(** Two of the orders the library may return: equal entries in ascending
    index order ([ties_ascending = true]) and in descending index order. *)
Fixpoint insert_descend (ties_ascending : bool) (x : Z * Z) (s : list (Z * Z))
  : list (Z * Z) :=
  match s with
  | [] => [x]
  | y :: s' =>
    if (if ties_ascending then y.1 <=? x.1 else y.1 <? x.1) then x :: s
    else y :: insert_descend ties_ascending x s'
  end.

Definition sort_index_by (ties_ascending : bool) (sizes : list Z) : list Z :=
  snd <$> foldr (insert_descend ties_ascending) []
                (zip sizes (Z.of_nat <$> seq 0 (length sizes))).

Definition sort_index_descend : list Z -> list Z := sort_index_by true.
Definition sort_index_descend_last : list Z -> list Z := sort_index_by false.

(** [arma::prod(bbox_max.row(x) - bbox_min.row(x) + one)] *)
Definition extent_product (lo hi : row) : Z :=
  let e (a b : Z) := uword (uword (b - a) + 1) in
  uword (uword (e lo.1.1 hi.1.1 * e lo.1.2 hi.1.2) * e lo.2 hi.2).

(** The loop over [idx] that counts the leading clusters whose bounding box
    is the whole cube and leaves at the first other one. *)
Fixpoint count_infinite (idx : list Z) (bmin bmax : list row) (total : Z) : result nat :=
  match idx with
  | [] => Ok 0%nat
  | x :: idx =>
    hi ← elem bmax x;
    lo ← elem bmin x;
    if extent_product lo hi =? total then S <$> count_infinite idx bmin bmax total
    else Ok 0%nat
  end.

(** The last loop: an element [x] of the cube becomes 1 when [HKProper(x, n)]
    is one of [idx.head(infinite_clusters)], and 0 otherwise. *)
Fixpoint keep_infinite (fuel : nat) (labels : list Z) (head : list Z)
    (sizes : list Z) (c : Cache) : result (list Z * list Z * Cache) :=
  match labels with
  | [] => Ok ([], sizes, c)
  | x :: labels =>
    '(p, sizes, c) ← HKProper fuel x sizes c;
    '(out, sizes, c) ← keep_infinite fuel labels head sizes c;
    Ok ((if bool_decide (p ∈ head) then 1 else 0) :: out, sizes, c)
  end.

(** The labelling up to and including [HKCheck]. *)
Definition label_clusters (fuel : nat) (cube : Cube) (c : Cache) : result State :=
  st ← sweep fuel (sites cube) (State_initial cube c);
  HKCheck fuel st.

(** The number of infinite clusters found in a labelled state. *)
Definition infinite_clusters (sort_index : list Z -> list Z) (st : State)
  : result nat :=
  count_infinite (sort_index (n st)) (bbox_min st) (bbox_max st)
                 (Z.of_nat (n_elem (l st))).

(** [EnhancedHoshenKopelman]: the cube it leaves in [l] and the cache. *)
Definition EnhancedHoshenKopelman (sort_index : list Z -> list Z) (fuel : nat)
    (cube : Cube) (c : Cache) : result (Cube * Cache) :=
  st ← label_clusters fuel cube c;
  count ← infinite_clusters sort_index st;
  let idx := sort_index (n st) in
  '(out, _, c) ← keep_infinite fuel (mem (l st)) (take count idx) (n st) (cache st);
  Ok (with_mem (l st) out, c).

End ClusterLabel.

(** ** src/skeleton/skeletonizer_key.h, heaps/binary_heap.h, contours, skeletonizer_by_ift.h *)

Module Skeletonizer.

(** [SkeletonizerKey<Voxel, uint32_t>]. *)
Record SkeletonizerKey : Type := mkKey {
  key_distance : Z;
  key_counter : Z;
  key_point : Voxel
}.

(** The default constructor: both numeric fields at their maximum. *)
Definition Key_default : SkeletonizerKey := mkKey 4294967295 4294967295 Voxel_default.

(** [operator<]. *)
Definition Key_IsLess (a b : SkeletonizerKey) : bool :=
  (key_distance a <? key_distance b)
  || ((key_distance a =? key_distance b) && (key_counter a <? key_counter b)).

(** [operator==] and [GetHash] look at the distance and the counter only:
    this pair is what [key_to_index_] is keyed by. *)
Definition key_id (k : SkeletonizerKey) : Z * Z := (key_distance k, key_counter k).

(** *** [BinaryHeap<SkeletonizerKey>] *)

Record BinaryHeap : Type := mkBinaryHeap {
  elements_ : list SkeletonizerKey;
  key_to_index_ : gmap (Z * Z) nat
}.

Definition BinaryHeap_empty : BinaryHeap := mkBinaryHeap [] ∅.

Definition Parent (index : nat) : nat := ((index - 1) / 2)%nat.
Definition Left (index : nat) : nat := (1 + index * 2)%nat.
Definition Right (index : nat) : nat := (2 + index * 2)%nat.
Definition HeapSize (h : BinaryHeap) : nat := length (elements_ h).
Definition IsValid (h : BinaryHeap) (index : nat) : bool :=
  bool_decide (index < HeapSize h)%nat.

(** [key_to_index_.at(key) = index]. *)
Definition map_at_set (m : gmap (Z * Z) nat) (key : SkeletonizerKey) (index : nat)
  : result (gmap (Z * Z) nat) :=
  match m !! key_id key with
  | Some _ => Ok (<[key_id key := index]> m)
  | None => Fail Exception
  end.

(** [key_to_index_.insert(std::make_pair(key, index))]. *)
Definition map_insert_new (m : gmap (Z * Z) nat) (key : SkeletonizerKey) (index : nat)
  : gmap (Z * Z) nat :=
  match m !! key_id key with
  | Some _ => m
  | None => <[key_id key := index]> m
  end.

(** [std::swap(elements_.at(i), elements_.at(j))] followed by the two updates
    of [key_to_index_]. *)
Definition swap_and_reindex (h : BinaryHeap) (i j : nat) : result BinaryHeap :=
  a ← vec_at (elements_ h) i;
  b ← vec_at (elements_ h) j;
  let els := <[j := a]> (<[i := b]> (elements_ h)) in
  ki ← vec_at els i;
  m ← map_at_set (key_to_index_ h) ki i;
  kj ← vec_at els j;
  m ← map_at_set m kj j;
  Ok (mkBinaryHeap els m).

Fixpoint MinHeapify (fuel : nat) (h : BinaryHeap) (index : nat) : result BinaryHeap :=
  let left := Left index in
  let right := Right index in
  smallest ←
    (if IsValid h left then
       l ← vec_at (elements_ h) left; x ← vec_at (elements_ h) index;
       Ok (if Key_IsLess l x then left else index)
     else Ok index);
  smallest ←
    (if IsValid h right then
       r ← vec_at (elements_ h) right; s ← vec_at (elements_ h) smallest;
       Ok (if Key_IsLess r s then right else smallest)
     else Ok smallest);
  if bool_decide (smallest ≠ index) then
    h ← swap_and_reindex h index smallest;
    match fuel with
    | O => Fail OutOfFuel
    | S fuel => MinHeapify fuel h smallest
    end
  else Ok h.

(** The [while] loop of [IncreasePriority(size_type, const TKey&)]. *)
Fixpoint sift_up (fuel : nat) (h : BinaryHeap) (index : nat) : result BinaryHeap :=
  if bool_decide (0 < index)%nat then
    x ← vec_at (elements_ h) index;
    p ← vec_at (elements_ h) (Parent index);
    if Key_IsLess x p then
      let parent_index := Parent index in
      h ← swap_and_reindex h index parent_index;
      match fuel with
      | O => Fail OutOfFuel
      | S fuel => sift_up fuel h (Parent index)
      end
    else Ok h
  else Ok h.

Definition IncreasePriority_at (h : BinaryHeap) (index : nat) (new_priority : SkeletonizerKey)
  : result BinaryHeap :=
  old_priority ← vec_at (elements_ h) index;
  if Key_IsLess old_priority new_priority then Fail Exception
  else
    let m := delete (key_id old_priority) (key_to_index_ h) in
    let els := <[index := new_priority]> (elements_ h) in
    let m := map_insert_new m new_priority index in
    sift_up index (mkBinaryHeap els m) index.

Definition IncreasePriority (h : BinaryHeap) (old_priority new_priority : SkeletonizerKey)
  : result BinaryHeap :=
  if Key_IsLess old_priority new_priority then Fail Exception
  else
    match key_to_index_ h !! key_id old_priority with
    | None => Fail Exception
    | Some old_index => IncreasePriority_at h old_index new_priority
    end.

Definition Insert (h : BinaryHeap) (key : SkeletonizerKey) : result BinaryHeap :=
  let maximum_key := Key_default in
  let h := mkBinaryHeap (elements_ h ++ [maximum_key]) (key_to_index_ h) in
  IncreasePriority_at h (HeapSize h - 1) key.

Definition First (h : BinaryHeap) : result SkeletonizerKey := vec_at (elements_ h) 0.

Definition Remove (h : BinaryHeap) : result (SkeletonizerKey * BinaryHeap) :=
  if bool_decide (HeapSize h < 1)%nat then Fail Exception
  else
    minimum ← First h;
    last ← vec_at (elements_ h) (HeapSize h - 1);
    let els := pop_back (<[0%nat := last]> (elements_ h)) in
    let m := delete (key_id minimum) (key_to_index_ h) in
    h ← noexcept (MinHeapify (length els) (mkBinaryHeap els m) 0);
    Ok (minimum, h).

Definition HasElements (h : BinaryHeap) : bool := negb (bool_decide (elements_ h = [])).

(** *** contours/contour_calculator.h *)

Record ContourCalculator : Type := mkContourCalculator {
  maximum_pixel_label_ : Z;
  pixels_per_contour_ : list Z;
  labeled_points_ : list Voxel
}.

Definition BuildAnnotation (contour_label pixel_label : Z) : Annotation :=
  mkAnnotation (distance Annotation_default) (displacements Annotation_default)
               contour_label pixel_label (tag Annotation_default)
               (status Annotation_default) (point Annotation_default).

(** The loop of [BuildContourFromPoint] over the queue [points_stack]; it
    returns the annotations, the labelled points, the next pixel label and
    [has_built]. *)
Fixpoint contour_loop (fuel : nat) (img : TernaryImage) (contour_label : Z)
    (annotated_image : AnnotatedImage) (labeled : list Voxel)
    (points_stack : list Voxel) (pixel_label : Z) (has_built : bool)
  : result (AnnotatedImage * list Voxel * Z * bool) :=
  match points_stack with
  | [] => Ok (annotated_image, labeled, pixel_label, has_built)
  | current_point :: points_stack =>
    match fuel with
    | O => Fail OutOfFuel
    | S fuel =>
      (* TryAddAndPush *)
      if IsContourPoint img current_point then
        let neighbours := GetNeighbours current_point in
        let '(added, annotated_image') :=
          TryAddAnnotation annotated_image current_point
                           (BuildAnnotation contour_label pixel_label) in
        if added then
          contour_loop fuel img contour_label annotated_image'
            (labeled ++ [current_point])
            (points_stack ++ filter (fun n => IsContourPoint img n = true) neighbours)
            (uint32 (pixel_label + 1)) true
        else
          contour_loop fuel img contour_label annotated_image labeled points_stack
                       pixel_label has_built
      else
        contour_loop fuel img contour_label annotated_image labeled points_stack
                     pixel_label has_built
    end
  end.

(** The loop of [ComputeContours] over the points of the image. *)
Fixpoint contours_from (fuel : nat) (img : TernaryImage) (points : list Voxel)
    (contour_label : Z) (annotated_image : AnnotatedImage) (cc : ContourCalculator)
  : result (AnnotatedImage * ContourCalculator) :=
  match points with
  | [] => Ok (annotated_image, cc)
  | p :: points =>
    if negb (IsContourPoint img p) then
      contours_from fuel img points contour_label annotated_image cc
    else
      '(annotated_image, labeled, pixel_label, has_built) ←
        contour_loop fuel img contour_label annotated_image (labeled_points_ cc) [p] 1 false;
      if has_built : bool then
        let max_label := pixel_label in
        let cc := mkContourCalculator
                    (if maximum_pixel_label_ cc <? max_label then max_label
                     else maximum_pixel_label_ cc)
                    (pixels_per_contour_ cc ++ [max_label]) labeled in
        contours_from fuel img points (uint32 (contour_label + 1)) annotated_image cc
      else
        contours_from fuel img points contour_label annotated_image
          (mkContourCalculator (maximum_pixel_label_ cc) (pixels_per_contour_ cc) labeled)
  end.

Definition ComputeContours (fuel : nat) (img : TernaryImage) (annotated_image : AnnotatedImage)
  : result (AnnotatedImage * ContourCalculator) :=
  contours_from fuel img (image_points img) 1 annotated_image (mkContourCalculator 0 [] []).

(** *** paths/quadratic_path_calculator.h

    The accumulated distance is an [int32_t], the difference of coordinates an
    [int]; sums and products are taken in [int] and then cast to [uint32_t].
    An [int] product above [INT32_MAX] (a distance above 46340) is undefined
    in C++; the model gives it the two's complement value. *)
Definition step_distance (origin : Voxel) (origin_annotation : Annotation)
    (neighbour : Voxel) (index : nat) : Z :=
  int32 (GetAccumulatedDistance origin_annotation index
         + Z.abs (GetCoordinate neighbour index - GetCoordinate origin index)).

Definition squared (d : Z) : Z := uint32 (int32 (d * d)).

Definition GetConcatenatedPathCost (origin : Voxel) (origin_annotation : Annotation)
    (neighbour : Voxel) : Z :=
  let d0 := step_distance origin origin_annotation neighbour 0 in
  let d1 := step_distance origin origin_annotation neighbour 1 in
  let d2 := step_distance origin origin_annotation neighbour 2 in
  uint32 (uint32 (uint32 (0 + squared d0) + squared d1) + squared d2).

Definition UpdatePointPathCost (origin : Voxel) (origin_annotation : Annotation)
    (neighbour : Voxel) (neighbour_annotation : Annotation) : Annotation :=
  let d0 := step_distance origin origin_annotation neighbour 0 in
  let d1 := step_distance origin origin_annotation neighbour 1 in
  let d2 := step_distance origin origin_annotation neighbour 2 in
  let new_distance := uint32 (uint32 (uint32 (0 + squared d0) + squared d1) + squared d2) in
  mkAnnotation new_distance (d0, d1, d2)
               (contour_label neighbour_annotation) (pixel_label neighbour_annotation)
               (tag neighbour_annotation) (status neighbour_annotation)
               (point neighbour_annotation).

(** *** skeletonizer_by_ift.h *)

Record Skeletonizer : Type := mkSkeletonizer {
  annotations_ : AnnotatedImage;
  counter_value_ : Z;
  queue : BinaryHeap
}.

Definition with_status (a : Annotation) (s : AnnotationStatus) : Annotation :=
  mkAnnotation (distance a) (displacements a) (contour_label a) (pixel_label a)
               (tag a) s (point a).

(** [GetKey]: the key and the skeletonizer with the counter advanced. *)
Definition GetKey (st : Skeletonizer) (d : Z) (p : Voxel) : SkeletonizerKey * Skeletonizer :=
  (mkKey d (counter_value_ st) p,
   mkSkeletonizer (annotations_ st) (uint32 (counter_value_ st + 1)) (queue st)).

Definition InitialiseAnnotationOfSeedPoint (anns : AnnotatedImage) (p : Voxel) (counter : Z)
  : result AnnotatedImage :=
  new_annotation ← ReadAnnotation anns p;
  let new_annotation :=
    mkAnnotation 0 (0, 0, 0) (contour_label new_annotation) (pixel_label new_annotation)
                 counter inserted p in
  ModifyAnnotation anns p new_annotation.

Definition SetPointAsRemoved (anns : AnnotatedImage) (p : Voxel) (annotation : Annotation)
  : result (Annotation * AnnotatedImage) :=
  let new_annotation := with_status annotation removed in
  anns ← ModifyAnnotation anns p new_annotation;
  Ok (new_annotation, anns).

Definition GetCurrentAnnotation (anns : AnnotatedImage) (neighbour : Voxel) : Annotation :=
  match anns !! neighbour with
  | Some a => a
  | None => Annotation_default
  end.

Definition PropagateLabelToNeighbour (img : TernaryImage) (origin neighbour : Voxel)
    (origin_annotation : Annotation) (st : Skeletonizer) : result Skeletonizer :=
  if negb (IsObjectPoint img neighbour) then Ok st
  else
    let annotation := GetCurrentAnnotation (annotations_ st) neighbour in
    if bool_decide (status annotation = removed) then Ok st
    else
      let d := GetConcatenatedPathCost origin origin_annotation neighbour in
      if d <? distance annotation then
        let old_key := mkKey (distance annotation) (tag annotation) neighbour in
        let annotation := UpdatePointPathCost origin origin_annotation neighbour annotation in
        let annotation :=
          mkAnnotation (distance annotation) (displacements annotation)
                       (contour_label origin_annotation) (pixel_label origin_annotation)
                       (tag annotation) (status annotation) (point origin_annotation) in
        let '(key, st) := GetKey st d neighbour in
        let annotation :=
          mkAnnotation (distance annotation) (displacements annotation)
                       (contour_label annotation) (pixel_label annotation)
                       (key_counter key) (status annotation) (point annotation) in
        if bool_decide (status annotation ≠ inserted) then
          q ← Insert (queue st) key;
          let annotation := with_status annotation inserted in
          anns ← AddPointAnnotation (annotations_ st) neighbour annotation;
          Ok (mkSkeletonizer anns (counter_value_ st) q)
        else
          q ← IncreasePriority (queue st) old_key key;
          anns ← ModifyAnnotation (annotations_ st) neighbour annotation;
          Ok (mkSkeletonizer anns (counter_value_ st) q)
      else Ok st.

Fixpoint propagate_to (img : TernaryImage) (origin : Voxel) (neighbours : list Voxel)
    (origin_annotation : Annotation) (st : Skeletonizer) : result Skeletonizer :=
  match neighbours with
  | [] => Ok st
  | neighbour :: neighbours =>
    st ← PropagateLabelToNeighbour img origin neighbour origin_annotation st;
    propagate_to img origin neighbours origin_annotation st
  end.

Definition PropagateLabelToNeighboursIfApplicable (img : TernaryImage) (p : Voxel)
    (point_annotation : Annotation) (st : Skeletonizer) : result Skeletonizer :=
  propagate_to img p (GetNeighbours p) point_annotation st.

(** The loop of [InitialiseAndEnqueueSeedPoints] over the contour points. *)
Fixpoint enqueue_seeds (points : list Voxel) (st : Skeletonizer) : result Skeletonizer :=
  match points with
  | [] => Ok st
  | p :: points =>
    let '(key, st) := GetKey st 0 p in
    q ← Insert (queue st) key;
    anns ← InitialiseAnnotationOfSeedPoint (annotations_ st) p (key_counter key);
    enqueue_seeds points (mkSkeletonizer anns (counter_value_ st) q)
  end.

Definition InitialiseAndEnqueueSeedPoints (fuel : nat) (img : TernaryImage)
  : result (Skeletonizer * ContourCalculator) :=
  '(anns, cc) ← ComputeContours fuel img ∅;
  st ← enqueue_seeds (labeled_points_ cc) (mkSkeletonizer anns 0 BinaryHeap_empty);
  Ok (st, cc).

(** The first half of an iteration of [ExecuteIftIterations]: the minimum
    leaves the queue and its point is marked as removed. *)
Definition remove_minimum (st : Skeletonizer)
  : result (Voxel * Annotation * Skeletonizer) :=
  '(key, q) ← Remove (queue st);
  let p := key_point key in
  annotation ← ReadAnnotation (annotations_ st) p;
  '(annotation, anns) ← SetPointAsRemoved (annotations_ st) p annotation;
  Ok (p, annotation, mkSkeletonizer anns (counter_value_ st) q).

Fixpoint ExecuteIftIterations (fuel : nat) (img : TernaryImage) (st : Skeletonizer)
  : result Skeletonizer :=
  if HasElements (queue st) then
    match fuel with
    | O => Fail OutOfFuel
    | S fuel =>
      '(p, annotation, st) ← remove_minimum st;
      st ← PropagateLabelToNeighboursIfApplicable img p annotation st;
      ExecuteIftIterations fuel img st
    end
  else Ok st.

Definition ComputeSkeleton (fuel : nat) (img : TernaryImage) : result Skeletonizer :=
  '(st, _) ← InitialiseAndEnqueueSeedPoints fuel img;
  ExecuteIftIterations fuel img st.

End Skeletonizer.
(** ** src/skeleton/centerline/centerline_centerpoint_discoverer.h and the end
       points of centerline_calculator.h *)

Module Discoverer.
Import Graph.

(** [GetProperty]: [annotated_image_.ReadAnnotation(point).distance]. *)
Definition GetProperty (annotated_image_ : AnnotatedImage) (p : Voxel) : result Z :=
  distance <$> ReadAnnotation annotated_image_ p.

(** [UpdateMaxAndEnqueueNeighbours]: the references [current_max],
    [current_center] and [queue] are returned. *)
Fixpoint UpdateMaxAndEnqueueNeighbours (image_ : TernaryImage)
    (annotated_image_ : AnnotatedImage) (used_points_ : gset Voxel)
    (neighbours : list Voxel) (current_max : Z) (current_center : Voxel)
    (queue : list Voxel) : result (Z * Voxel * list Voxel) :=
  match neighbours with
  | [] => Ok (current_max, current_center, queue)
  | neighbour :: neighbours =>
    if negb (IsObjectPoint image_ neighbour)
       || negb (HasAnnotation annotated_image_ neighbour)
       || bool_decide (neighbour ∈ used_points_)
    then UpdateMaxAndEnqueueNeighbours image_ annotated_image_ used_points_ neighbours
           current_max current_center queue
    else
      let queue := queue ++ [neighbour] in
      candidate_property ← GetProperty annotated_image_ neighbour;
      if current_max <? candidate_property then
        UpdateMaxAndEnqueueNeighbours image_ annotated_image_ used_points_ neighbours
          candidate_property neighbour queue
      else
        UpdateMaxAndEnqueueNeighbours image_ annotated_image_ used_points_ neighbours
          current_max current_center queue
  end.

(** The [while] loop of [ComputeBoundedCenter]; [point] is the point the
    search started from (the test [IsObjectPoint(point)] looks at it, not at
    [next_point]). *)
Fixpoint center_loop (fuel : nat) (image_ : TernaryImage)
    (annotated_image_ : AnnotatedImage) (point : Voxel) (direction : Z)
    (used_points_ : gset Voxel) (current_max : Z) (current_center : Voxel)
    (queue : list Voxel) : result (gset Voxel * Z * Voxel) :=
  match queue with
  | [] => Ok (used_points_, current_max, current_center)
  | next_point :: queue =>
    match fuel with
    | O => Fail OutOfFuel
    | S fuel =>
      if bool_decide (next_point ∈ used_points_) then
        center_loop fuel image_ annotated_image_ point direction used_points_
                    current_max current_center queue
      else
        let used_points_ := {[next_point]} ∪ used_points_ in
        if negb (IsObjectPoint image_ point) then
          center_loop fuel image_ annotated_image_ point direction used_points_
                      current_max current_center queue
        else
          let neighbours := GetNeighboursInPlane next_point direction in
          '(current_max, current_center, queue) ←
            UpdateMaxAndEnqueueNeighbours image_ annotated_image_ used_points_
              neighbours current_max current_center queue;
          center_loop fuel image_ annotated_image_ point direction used_points_
                      current_max current_center queue
    end
  end.

(** [ComputeBoundedCenter]: the vertex it returns and [used_points_] after
    the call. *)
Definition ComputeBoundedCenter (fuel : nat) (image_ : TernaryImage)
    (annotated_image_ : AnnotatedImage) (used_points_ : gset Voxel)
    (point : Voxel) (property : Z) (direction : Z) : result (Vertex * gset Voxel) :=
  '(used_points_, current_max, current_center) ←
    center_loop fuel image_ annotated_image_ point direction used_points_
                property point [point];
  Ok (mkVertex current_center (Z_to_double current_max), used_points_).

(** [IsInPlane]: [point.GetCoordinate(direction)] is [values_[direction]] on
    a [std::array] of three coordinates. *)
Definition IsInPlane (point : Voxel) (direction : nat) (coordinate : Z) : result bool :=
  if bool_decide (3 <= direction)%nat then Fail UndefinedBehaviour
  else Ok (GetCoordinate point direction =? coordinate).

(** The loop of [GetPoints] over [annotated_image_]; [entries] are the
    entries of the [unordered_map] in the order its iterator yields them. *)
Fixpoint points_loop (fuel : nat) (image_ : TernaryImage)
    (annotated_image_ : AnnotatedImage) (entries : list (Voxel * Annotation))
    (direction : nat) (coordinate : Z) (used_points_ : gset Voxel)
    (output : list Vertex) : result (list Vertex) :=
  match entries with
  | [] => Ok output
  | pt_and_annot :: entries =>
    let point := pt_and_annot.1 in
    if negb (IsObjectPoint image_ point) then
      points_loop fuel image_ annotated_image_ entries direction coordinate
                  used_points_ output
    else
      in_plane ← IsInPlane point direction coordinate;
      if negb in_plane || bool_decide (point ∈ used_points_) then
        points_loop fuel image_ annotated_image_ entries direction coordinate
                    used_points_ output
      else
        let property := distance pt_and_annot.2 in
        '(new_center, used_points_) ←
          ComputeBoundedCenter fuel image_ annotated_image_ used_points_
                               point property (Z.of_nat direction);
        points_loop fuel image_ annotated_image_ entries direction coordinate
                    used_points_ (output ++ [new_center])
  end.

(** [GetPoints]: [MarkAllUnused()] first, so the call does not depend on
    earlier calls. *)
Definition GetPoints (fuel : nat) (image_ : TernaryImage)
    (annotated_image_ : AnnotatedImage) (entries : list (Voxel * Annotation))
    (direction : nat) (coordinate : Z) : result (list Vertex) :=
  points_loop fuel image_ annotated_image_ entries direction coordinate ∅ [].

(** *** centerline/centerline_calculator.h: [GetSourcePoints], [GetEndPoints]

    [discoverer_GetPoints] stands for [discoverer.GetPoints]; [sizes_] is the
    [std::array] of the three extents, read with [operator[]]. *)
Section EndPoints.
Variable sizes_ : Z * Z * Z.
Variable discoverer_GetPoints : nat -> Z -> result (list Vertex).

Definition sizes_at (coord_index : nat) : result Z :=
  match coord_index with
  | 0%nat => Ok sizes_.1.1
  | 1%nat => Ok sizes_.1.2
  | 2%nat => Ok sizes_.2
  | _ => Fail UndefinedBehaviour
  end.

(** The loops over [coord_index]; [output] is the vector [result]. *)
Fixpoint source_points_from (coords : list nat) (output : list Vertex)
  : result (list Vertex) :=
  match coords with
  | [] => Ok output
  | coord_index :: coords =>
    points ← discoverer_GetPoints coord_index 0;
    source_points_from coords (output ++ points)
  end.

Definition GetSourcePoints (num_coords : nat) : result (list Vertex) :=
  source_points_from (seq 0 num_coords) [].

Fixpoint end_points_from (coords : list nat) (output : list Vertex)
  : result (list Vertex) :=
  match coords with
  | [] => Ok output
  | coord_index :: coords =>
    points ← discoverer_GetPoints coord_index 0;
    let output := output ++ points in
    size ← sizes_at coord_index;
    points_opposite ← discoverer_GetPoints coord_index (uint16 (size - 1));
    end_points_from coords (output ++ points_opposite)
  end.

Definition GetEndPoints (num_coords : nat) : result (list Vertex) :=
  end_points_from (seq 0 num_coords) [].

End EndPoints.

End Discoverer.
(** ** src/skeleton/centerline/centerline_set.h: [GetSegments] and [AddSet] *)

Module Segments.
Import Graph Centerlines.

(** What [HandleNewNode] returns and leaves in its reference arguments. *)
Record handled : Type := mkHandled {
  h_result : bool;
  h_builder : Centerline;
  h_centerlines : list Centerline;
  h_add_prev : bool;
  h_is_building : bool
}.

(** [CenterlineBuilder::HasNodes]. *)
Definition HasNodes (builder : Centerline) : bool :=
  match builder with [] => false | _ :: _ => true end.

Definition IsNotUsed (used_nodes_ : gset Voxel) (point : Vertex) : bool :=
  bool_decide (Point point ∉ used_nodes_).

Definition HandleNewNode (used_nodes_ : gset Voxel) (builder : Centerline)
    (centerlines : list Centerline) (point : Vertex) (annotation : VertexAnnotation)
    (prev_point : Vertex) (prev_annotation : VertexAnnotation) (is_building : bool)
  : handled :=
  if IsNotUsed used_nodes_ point then
    let builder :=
      if negb is_building then builder ++ [mkNode prev_point (distance_ prev_annotation)]
      else builder in
    let add_prev := negb is_building in
    mkHandled true (builder ++ [mkNode point (distance_ annotation)]) centerlines
              add_prev true
  else if HasNodes builder then
    if is_building then
      let builder := builder ++ [mkNode point (distance_ annotation)] in
      mkHandled false [] (centerlines ++ [builder]) false false
    else mkHandled false builder centerlines false false
  else mkHandled false builder centerlines false false.

(** The local variables of [GetSegments] and the two sets of the object. *)
Record walk : Type := mkWalk {
  w_builder : Centerline;
  w_centerlines : list Centerline;
  w_point : Vertex;
  w_prev_point : Vertex;
  w_annotation : VertexAnnotation;
  w_prev_annotation : VertexAnnotation;
  w_is_end_point : bool;
  w_is_building : bool;
  w_used_nodes_ : gset Voxel;
  w_branch_nodes_ : gset Voxel
}.

Section GetSegments.
(** [annotated_graph[point]] and [annotated_graph.HasVertex(point)] on the
    graph the router has annotated. *)
Variable annotated_graph_at : Vertex -> result VertexAnnotation.
Variable annotated_graph_HasVertex : Vertex -> result bool.

(** The [while] loop of [GetSegments]. *)
Fixpoint segments_loop (fuel : nat) (w : walk) : result walk :=
  if has_predecessor_ (w_annotation w) then
    match fuel with
    | O => Fail OutOfFuel
    | S fuel =>
      let was_building := w_is_building w in
      let h := HandleNewNode (w_used_nodes_ w) (w_builder w) (w_centerlines w)
                 (w_point w) (w_annotation w) (w_prev_point w) (w_prev_annotation w)
                 (w_is_building w) in
      let branch_nodes_ :=
        if negb (h_result h)
           && (was_building && negb (h_is_building h) && negb (w_is_end_point w))
        then {[Point (w_point w)]} ∪ w_branch_nodes_ w
        else w_branch_nodes_ w in
      let branch_nodes_ :=
        if h_add_prev h then {[Point (w_prev_point w)]} ∪ branch_nodes_
        else branch_nodes_ in
      let used_nodes_ := {[Point (w_point w)]} ∪ w_used_nodes_ w in
      let point := predecessor_ (w_annotation w) in
      annotation ← annotated_graph_at point;
      segments_loop fuel
        (mkWalk (h_builder h) (h_centerlines h) point (w_point w) annotation
                (w_annotation w) false (h_is_building h) used_nodes_ branch_nodes_)
    end
  else Ok w.

(** [GetSegments] ([noexcept]): the centerlines it returns, [used_nodes_] and
    [branch_nodes_] after the call. *)
Definition GetSegments (fuel : nat) (used_nodes_ branch_nodes_ : gset Voxel)
    (end_point : Vertex) : result (list Centerline * gset Voxel * gset Voxel) :=
  noexcept (
    annotation ← annotated_graph_at end_point;
    w ← segments_loop fuel
          (mkWalk [] [] end_point end_point annotation annotation true true
                  used_nodes_ branch_nodes_);
    (* add source *)
    let h := HandleNewNode (w_used_nodes_ w) (w_builder w) (w_centerlines w)
               (w_point w) (w_annotation w) (w_prev_point w) (w_prev_annotation w)
               (w_is_building w) in
    if h_result h then
      let branch_nodes_ :=
        if h_add_prev h then {[Point (w_prev_point w)]} ∪ w_branch_nodes_ w
        else w_branch_nodes_ w in
      Ok (h_centerlines h ++ [h_builder h],
          {[Point (w_point w)]} ∪ w_used_nodes_ w, branch_nodes_)
    else Ok (h_centerlines h, w_used_nodes_ w, w_branch_nodes_ w)).

(** [AddPathsAndStatistics]. *)
Fixpoint AddPathsAndStatistics (new_paths : list Centerline)
    (paths_ : list Centerline) (statistics_ : list Statistics)
  : result (list Centerline * list Statistics) :=
  match new_paths with
  | [] => Ok (paths_, statistics_)
  | path :: new_paths =>
    let paths_ := paths_ ++ [path] in
    s ← Statistics_of path;
    AddPathsAndStatistics new_paths paths_ (statistics_ ++ [s])
  end.

(** [HasFiniteDistance]: [distance_ < numeric_limits<double>::max()]. *)
Definition HasFiniteDistance (a : VertexAnnotation) : bool :=
  PrimFloat.ltb (distance_ a) 0x1.fffffffffffffp+1023%float.

(** [AddSet(annotated_graph, end_point)]. *)
Definition AddSet (fuel : nat) (set : CenterlineSet) (end_point : Vertex)
  : result CenterlineSet :=
  has ← annotated_graph_HasVertex end_point;
  if negb has then Ok set
  else
    annotation ← annotated_graph_at end_point;
    if negb (HasFiniteDistance annotation) then Ok set
    else
      '(paths, used_nodes_, branch_nodes_) ←
        GetSegments fuel (used_nodes_ set) (branch_nodes_ set) end_point;
      '(paths_, statistics_) ←
        AddPathsAndStatistics paths (paths_ set) (statistics_ set);
      Ok (mkCenterlineSet paths_ statistics_ used_nodes_ branch_nodes_).

End GetSegments.

End Segments.

(** ** Concrete inputs used by the examples below *)

Module Examples.
Import Graph Centerlines.

(** A centerline node at voxel (x, 0, 0). *)
Definition node_at (x : Z) : CenterLineNode :=
  mkNode (mkVertex (mkVoxel x 0 0) 1%float) 0%float.

(** One centerline of five nodes whose middle voxel is a branch point. *)
Definition branching_set : CenterlineSet :=
  mkCenterlineSet [[node_at 0; node_at 1; node_at 2; node_at 3; node_at 4]] []
                  ∅ {[mkVoxel 2 0 0]}.

(** Two inlet centerpoints, both vertices of the graph. *)
Definition inlet_1 : Vertex := mkVertex (mkVoxel 0 0 0) 1%float.
Definition inlet_2 : Vertex := mkVertex (mkVoxel 0 2 0) 1%float.

(** A router whose state is the list of the sources it has searched from. *)
Definition logging_search (log : list Vertex) (source : Vertex) : list Vertex :=
  log ++ [source].

(** A cube of zeros with ones at the listed sites. *)
Definition cube_of_ones (nr nc ns : nat) (ones : list (nat * nat * nat)) : Cube :=
  foldr (fun '(i, j, k) c => cube_set c i j k 1)
        (mkCube nr nc ns (replicate (nr * nc * ns) 0)) ones.

(** Three voxels in a row; the first one is solid surface (value 1), the
    others are pore (value 0). *)
Definition line_img : TernaryImage :=
  TernaryImage_of_cube (cube_of_ones 3 1 1 [(0, 0, 0)]%nat).

Definition line_annotation : Annotation :=
  mkAnnotation 4 (2, 0, 0) 1 1 2 removed (mkVoxel 0 0 0).

(** An 8 x 14 x 1 image of pore voxels with three solid-surface voxels. *)
Definition plane_img : TernaryImage :=
  TernaryImage_of_cube (cube_of_ones 8 14 1 [(5, 12, 0); (1, 13, 0); (7, 11, 0)]%nat).

Definition plane_annotation : Annotation :=
  mkAnnotation 170 (7, 11, 0) 1 1 125 removed (mkVoxel 7 11 0).

(** The state [ComputeSkeleton] returns (the empty state if it fails). *)
Definition skeleton_of (fuel : nat) (img : TernaryImage) : Skeletonizer.Skeletonizer :=
  match Skeletonizer.ComputeSkeleton fuel img with
  | Ok st => st
  | Fail _ => Skeletonizer.mkSkeletonizer ∅ 0 Skeletonizer.BinaryHeap_empty
  end.

(** A 4 x 3 x 2 cube with five flagged sites: the sweep creates label 1 at
    (3,0,0) and label 2 at (1,1,0), merges them at (2,1,1), and then visits
    (2,2,1), whose first neighbour (1,1,0) still carries label 2. *)
Definition merge_cube : Cube :=
  cube_of_ones 4 3 2 [(3, 0, 0); (1, 1, 0); (1, 1, 1); (2, 1, 1); (2, 2, 1)]%nat.

(** A 4 x 4 x 4 cube with two clusters: the diagonal, of four sites, whose
    bounding box is the whole cube, and five sites along the edge i = 3,
    j = 0, whose bounding box is not. *)
Definition diagonal_cube : Cube :=
  cube_of_ones 4 4 4 [(0, 0, 0); (1, 1, 1); (2, 2, 2); (3, 3, 3);
                      (3, 0, 0); (3, 0, 1); (3, 0, 2); (3, 0, 3); (3, 1, 0)]%nat.

(** The same cube without the site (3,1,0): two clusters of four sites. *)
Definition tie_cube : Cube :=
  cube_of_ones 4 4 4 [(0, 0, 0); (1, 1, 1); (2, 2, 2); (3, 3, 3);
                      (3, 0, 0); (3, 0, 1); (3, 0, 2); (3, 0, 3)]%nat.

(** The annotations of one pore voxel of [line_img], at squared distance 4
    from the solid surface. *)
Definition line_annotations : AnnotatedImage :=
  {[ mkVoxel 2 0 0 := line_annotation ]}.

(** A 2 x 2 x 1 image of pore voxels, and the annotation of its voxel
    (0,1,0). *)
Definition square_img : TernaryImage :=
  TernaryImage_of_cube (cube_of_ones 2 2 1 []).

Definition square_annotations : AnnotatedImage :=
  {[ mkVoxel 0 1 0 := mkAnnotation 1 (0, 1, 0) 1 1 1 removed (mkVoxel 0 2 0) ]}.

(** Two keys that are not vertices of the graph of [square_annotations]:
    their voxels lie outside the 2 x 2 x 1 cube. *)
Definition key_beside : Vertex := mkVertex (mkVoxel 2 0 0) 0%float.
Definition key_above : Vertex := mkVertex (mkVoxel 0 0 1) 0%float.

(** A key inside the cube of [line_img] that is not a vertex. *)
Definition key_inside : Vertex := mkVertex (mkVoxel 1 0 0) 0%float.

(** A 2 x 2 x 2 cube whose flagged sites (0,0,0) and (1,1,1) form one
    cluster; its bounding box is the whole cube. *)
Definition spanning_cube : Cube :=
  cube_of_ones 2 2 2 [(0, 0, 0); (1, 1, 1)]%nat.

End Examples.

(** * Proofs *)

(** ** Shared lemmas on the [result] monad and on vectors *)

Lemma bind_Ok {A B} (m : result A) (k : A -> result B) (b : B) :
  m ≫= k = Ok b <-> exists a, m = Ok a /\ k a = Ok b.
Proof.
  destruct m as [a|f]; simpl; split.
  - intros H. exists a. auto.
  - intros (a' & [= ->] & H). exact H.
  - discriminate.
  - intros (a' & [=] & _).
Qed.

Lemma fmap_Ok {A B} (g : A -> B) (m : result A) (b : B) :
  g <$> m = Ok b <-> exists a, m = Ok a /\ b = g a.
Proof.
  destruct m as [a|f]; simpl; split.
  - intros [= <-]. eauto.
  - intros (a' & [= ->] & ->). reflexivity.
  - discriminate.
  - intros (a' & [=] & _).
Qed.

Lemma vec_at_Ok {A} (v : list A) (i : nat) (x : A) :
  vec_at v i = Ok x <-> v !! i = Some x.
Proof. unfold vec_at. destruct (v !! i); split; congruence. Qed.

Lemma vec_index_Ok {A} (v : list A) (i : nat) (x : A) :
  vec_index v i = Ok x <-> v !! i = Some x.
Proof. unfold vec_index. destruct (v !! i); split; congruence. Qed.

Lemma noexcept_Ok {A} (m : result A) (a : A) :
  noexcept m = Ok a <-> m = Ok a.
Proof. destruct m as [|[]]; simpl; split; congruence. Qed.

Lemma lookup_pop_back {A} (v : list A) (i : nat) :
  (i < length v - 1)%nat -> pop_back v !! i = v !! i.
Proof. intros Hi. unfold pop_back. apply lookup_take_lt. exact Hi. Qed.

Lemma length_pop_back {A} (v : list A) : length (pop_back v) = (length v - 1)%nat.
Proof. unfold pop_back. rewrite length_take. lia. Qed.

(** Exchanging the contents of two slots permutes the vector. *)
Lemma insert_swap_Permutation {A} (l : list A) (i j : nat) (a b : A) :
  l !! i = Some a -> l !! j = Some b ->
  <[j := a]> (<[i := b]> l) ≡ₚ l.
Proof.
  intros Hi Hj. apply Permutation_inj. split.
  - by rewrite !length_insert.
  - exists (fun k => if decide (k = i) then j else if decide (k = j) then i else k).
    split.
    + intros x y. repeat case_decide; intros; subst; congruence.
    + intros k. pose proof (lookup_lt_Some _ _ _ Hi). pose proof (lookup_lt_Some _ _ _ Hj).
      rewrite !list_lookup_insert, !length_insert.
      repeat case_decide; subst; try congruence; try lia;
        destruct_and?; subst; try congruence; try lia.
      all: try (exfalso; naive_solver lia).
Qed.

(** Filters that agree on the elements of a list. *)
Lemma filter_ext_elem {A} (P1 P2 : A -> Prop) `{!forall x, Decision (P1 x)}
    `{!forall x, Decision (P2 x)} (xs : list A) :
  (forall x, x ∈ xs -> P1 x <-> P2 x) -> filter P1 xs = filter P2 xs.
Proof.
  induction xs as [|x xs IH]; intros Hext; [done|].
  rewrite !filter_cons. rewrite IH by (intros y Hy; apply Hext; by right).
  destruct (decide (P1 x)) as [Q1|Q1], (decide (P2 x)) as [Q2|Q2]; try done.
  - destruct Q2. apply Hext; [by left|done].
  - destruct Q1. apply Hext; [by left|done].
Qed.

(** Dropping one element from what a filter keeps. *)
Lemma filter_length_one {A} (P Q : A -> Prop) `{!forall x, Decision (P x)}
    `{!forall x, Decision (Q x)} (xs : list A) (p : A) :
  NoDup xs -> p ∈ xs -> P p -> ~ Q p -> (forall q, q <> p -> Q q <-> P q) ->
  S (length (filter Q xs)) = length (filter P xs).
Proof.
  induction xs as [|x xs IH]; intros Hnd Hin HP HQ Hext; [by apply elem_of_nil in Hin|].
  apply NoDup_cons in Hnd as [Hx Hnd]. rewrite !filter_cons.
  apply elem_of_cons in Hin as [->|Hin].
  - rewrite (decide_True (P := P x)) by done. rewrite (decide_False (P := Q x)) by done.
    simpl. f_equal. f_equal.
    apply filter_ext_elem. intros q Hq. apply Hext. by intros ->.
  - assert (Hne : x <> p) by (by intros ->).
    specialize (IH Hnd Hin HP HQ Hext).
    destruct (decide (Q x)) as [Q1|Q1], (decide (P x)) as [P1|P1]; simpl.
    + by rewrite IH.
    + destruct P1. by apply Hext.
    + destruct Q1. by apply Hext.
    + done.
Qed.

(** Tactic: decompose hypotheses stating that a monadic computation returned. *)
Ltac inv_ok :=
  repeat match goal with
  | H : (_ ≫= _) = Ok _ |- _ => apply bind_Ok in H; destruct H as (? & ? & H)
  | H : (_ <$> _) = Ok _ |- _ => apply fmap_Ok in H; destruct H as (? & H & ?)
  | H : vec_at _ _ = Ok _ |- _ => apply vec_at_Ok in H
  | H : vec_index _ _ = Ok _ |- _ => apply vec_index_Ok in H
  | H : noexcept _ = Ok _ |- _ => apply noexcept_Ok in H
  | H : Ok _ = Ok _ |- _ => injection H as H
  | H : Fail _ = Ok _ |- _ => discriminate H
  | H : mret _ = Ok _ |- _ => injection H as H
  end.

(** ** The handle-based binary heap *)

Section HandleHeapProofs.
Context {TKey : Type} (IsLess : TKey -> TKey -> bool) (maximum_key : TKey).

(** The comparer is a strict weak order: asymmetric, and its complement
    ("not greater than") is transitive. *)
Hypothesis IsLess_asym : forall a b, IsLess a b = true -> IsLess b a = false.
Hypothesis IsLess_le_trans :
  forall a b c, IsLess b a = false -> IsLess c b = false -> IsLess c a = false.

Import HandleHeap.
Local Abbreviation Handle := (@Handle TKey).
Local Abbreviation Heap := (@Heap TKey).

(** [key_le a b]: [a] is not greater than [b]. *)
Definition key_le (a b : TKey) : Prop := IsLess b a = false.

Definition keys (els : list Handle) : list TKey := priority_ <$> els.

(** The entry at [i] is not smaller than its parent. *)
Definition ordered_at (els : list Handle) (i : nat) : Prop :=
  forall x p, els !! i = Some x -> els !! Parent i = Some p ->
    key_le (priority_ p) (priority_ x).

Definition heap_ordered (els : list Handle) : Prop :=
  forall i, (0 < i)%nat -> ordered_at els i.

(** Every handle knows its slot. *)
Definition indexed (els : list Handle) : Prop :=
  forall i x, els !! i = Some x -> index_ x = i.

Definition fresh_ids (h : Heap) : Prop :=
  forall x, x ∈ elements_ h -> (hid x < allocated h)%nat.

Definition wf (h : Heap) : Prop :=
  heap_ordered (elements_ h) /\ indexed (elements_ h) /\ fresh_ids h.

Lemma key_le_refl a : key_le a a.
Proof.
  unfold key_le. destruct (IsLess a a) eqn:E; [|reflexivity].
  by rewrite (IsLess_asym _ _ E) in E.
Qed.

Lemma key_le_trans a b c : key_le a b -> key_le b c -> key_le a c.
Proof. unfold key_le. intros H1 H2. exact (IsLess_le_trans _ _ _ H1 H2). Qed.

Lemma IsLess_key_le a b : IsLess a b = true -> key_le a b.
Proof. apply IsLess_asym. Qed.

Lemma Parent_lt i : (0 < i)%nat -> (Parent i < i)%nat.
Proof. unfold Parent. intros. apply Nat.Div0.div_lt_upper_bound; lia. Qed.

Lemma Parent_Left k : Parent (Left k) = k.
Proof.
  unfold Parent, Left. replace (1 + k * 2 - 1)%nat with (k * 2)%nat by lia.
  apply Nat.div_mul. lia.
Qed.

Lemma Parent_Right k : Parent (Right k) = k.
Proof.
  unfold Parent, Right. replace (2 + k * 2 - 1)%nat with (1 + k * 2)%nat by lia.
  rewrite Nat.div_add by lia. reflexivity.
Qed.

Lemma Parent_inv c k : (0 < c)%nat -> Parent c = k -> c = Left k \/ c = Right k.
Proof.
  unfold Parent, Left, Right. intros Hc <-.
  pose proof (Nat.div_mod_eq (c - 1) 2) as E.
  pose proof (Nat.mod_upper_bound (c - 1) 2) as U.
  lia.
Qed.

Lemma heap_ordered_root els i x r :
  heap_ordered els -> els !! i = Some x -> els !! 0%nat = Some r ->
  key_le (priority_ r) (priority_ x).
Proof.
  intros Hord. revert x. induction (lt_wf i) as [i _ IH]. intros x Hx Hr.
  destruct (decide (i = 0%nat)) as [->|Hi].
  - rewrite Hx in Hr. injection Hr as ->. apply key_le_refl.
  - assert (Hlt : (Parent i < i)%nat) by (apply Parent_lt; lia).
    destruct (els !! Parent i) as [p|] eqn:Hp.
    + eapply key_le_trans; [apply (IH _ Hlt p Hp Hr)|].
      apply (Hord i); [lia|done..].
    + apply lookup_ge_None in Hp. apply lookup_lt_Some in Hx. lia.
Qed.

(** *** [Swap] *)

Definition swapped (els : list Handle) (i j : nat) (a b : Handle) : list Handle :=
  <[j := SetIndex a j]> (<[i := SetIndex b i]> els).

Lemma Swap_spec els i j a b :
  i <> j -> els !! i = Some a -> els !! j = Some b ->
  Swap els i j = Ok (swapped els i j a b).
Proof.
  intros Hij Ha Hb. unfold Swap, swapped.
  pose proof (lookup_lt_Some _ _ _ Ha). pose proof (lookup_lt_Some _ _ _ Hb).
  rewrite (proj2 (vec_at_Ok _ _ _) Hb). simpl.
  rewrite (proj2 (vec_at_Ok _ _ _) Ha). simpl.
  assert (E1 : (<[i:=b]> (<[j:=a]> els)) !! i = Some b).
  { apply list_lookup_insert_eq. by rewrite length_insert. }
  rewrite (proj2 (vec_index_Ok _ _ _) E1). simpl.
  assert (E2 : (<[i:=SetIndex b i]> (<[i:=b]> (<[j:=a]> els))) !! j = Some a).
  { rewrite list_lookup_insert_ne by done. rewrite list_lookup_insert_ne by done.
    by apply list_lookup_insert_eq. }
  rewrite (proj2 (vec_index_Ok _ _ _) E2). simpl.
  f_equal. rewrite list_insert_insert_eq.
  rewrite (list_insert_insert_ne _ i j) by done.
  by rewrite list_insert_insert_eq.
Qed.

Lemma length_swapped els i j a b : length (swapped els i j a b) = length els.
Proof. unfold swapped. by rewrite !length_insert. Qed.

Lemma lookup_swapped els i j a b k :
  i <> j -> (i < length els)%nat -> (j < length els)%nat ->
  swapped els i j a b !! k =
    if decide (k = j) then Some (SetIndex a j)
    else if decide (k = i) then Some (SetIndex b i) else els !! k.
Proof.
  intros Hij Hi Hj. unfold swapped.
  rewrite !list_lookup_insert, !length_insert.
  repeat case_decide; destruct_and?; subst; try done; try lia; naive_solver lia.
Qed.

Lemma keys_swapped els i j a b :
  els !! i = Some a -> els !! j = Some b ->
  keys (swapped els i j a b) ≡ₚ keys els.
Proof.
  intros Ha Hb. unfold keys, swapped. rewrite !list_fmap_insert. simpl.
  apply insert_swap_Permutation; rewrite list_lookup_fmap.
  - by rewrite Ha.
  - by rewrite Hb.
Qed.

Lemma indexed_swapped els i j a b :
  i <> j -> els !! i = Some a -> els !! j = Some b ->
  indexed els -> indexed (swapped els i j a b).
Proof.
  intros Hij Ha Hb Hidx k x.
  rewrite lookup_swapped by eauto using lookup_lt_Some.
  repeat case_decide; subst.
  - by intros [= <-].
  - by intros [= <-].
  - apply Hidx.
Qed.

Lemma hids_swapped els i j a b x :
  i <> j -> els !! i = Some a -> els !! j = Some b ->
  x ∈ swapped els i j a b -> exists y, y ∈ els /\ hid y = hid x.
Proof.
  intros Hij Ha Hb (k & Hk)%list_elem_of_lookup.
  rewrite lookup_swapped in Hk by eauto using lookup_lt_Some.
  repeat case_decide; subst.
  - injection Hk as <-. exists a. split; [by eapply list_elem_of_lookup_2|done].
  - injection Hk as <-. exists b. split; [by eapply list_elem_of_lookup_2|done].
  - exists x. split; [by eapply list_elem_of_lookup_2|done].
Qed.


(** *** The loop of [DecreasePriority] *)

Definition up_inv (els : list Handle) (k : nat) : Prop :=
  (forall i, (0 < i)%nat -> i <> k -> ordered_at els i) /\
  (forall c x g, (0 < k)%nat -> (0 < c)%nat -> Parent c = k ->
     els !! c = Some x -> els !! Parent k = Some g ->
     key_le (priority_ g) (priority_ x)).

Definition same_handles (els' els : list Handle) : Prop :=
  length els' = length els /\ keys els' ≡ₚ keys els /\
  (forall x, x ∈ els' -> exists y, y ∈ els /\ hid y = hid x).

Lemma same_handles_refl els : same_handles els els.
Proof. repeat split; eauto. Qed.

Lemma same_handles_trans a b c :
  same_handles a b -> same_handles b c -> same_handles a c.
Proof.
  intros (L1 & P1 & H1) (L2 & P2 & H2). repeat split.
  - congruence.
  - by rewrite P1.
  - intros x (y & Hy & E)%H1. destruct (H2 _ Hy) as (z & Hz & E'). exists z.
    split; [done|congruence].
Qed.

Lemma same_handles_swapped els i j a b :
  i <> j -> els !! i = Some a -> els !! j = Some b ->
  same_handles (swapped els i j a b) els.
Proof.
  intros. repeat split.
  - apply length_swapped.
  - by apply keys_swapped.
  - intros x Hx. by eapply hids_swapped.
Qed.

Lemma up_inv_swap els k x p :
  (0 < k)%nat -> els !! k = Some x -> els !! Parent k = Some p ->
  IsLessH IsLess x p = true -> up_inv els k ->
  up_inv (swapped els k (Parent k) x p) (Parent k).
Proof.
  intros Hk Hx Hp Hlt [Ha Hb].
  pose proof (Parent_lt k Hk) as Hq.
  pose proof (lookup_lt_Some _ _ _ Hx) as Lk.
  pose proof (lookup_lt_Some _ _ _ Hp) as Lq.
  assert (Hxp : key_le (priority_ x) (priority_ p)) by (by apply IsLess_key_le).
  split.
  - intros i Hi Hiq y g.
    rewrite !lookup_swapped by lia.
    destruct (decide (i = k)) as [->|Hik].
    + rewrite decide_False by lia. rewrite ?decide_True by done.
      intros [= <-] [= <-]. exact Hxp.
    + rewrite (decide_False (P := i = Parent k)) by done. intros Hy.
      destruct (decide (Parent i = Parent k)) as [E|NE].
      * intros [= <-]. simpl. eapply key_le_trans; [exact Hxp|].
        apply (Ha i Hi Hik); [done|by rewrite E].
      * destruct (decide (Parent i = k)) as [E'|NE'].
        -- intros [= <-]. simpl. by apply (Hb i y p).
        -- intros Hg. by apply (Ha i Hi Hik).
  - intros c y g Hq0 Hc Hcq.
    pose proof (Parent_lt _ Hq0) as Hqq. pose proof (Parent_lt _ Hc) as Hcc.
    rewrite !lookup_swapped by lia.
    rewrite (decide_False (P := c = Parent k)) by lia.
    rewrite (decide_False (P := Parent (Parent k) = Parent k)) by lia.
    rewrite (decide_False (P := Parent (Parent k) = k)) by lia.
    assert (Hordq : ordered_at els (Parent k)) by (apply Ha; lia).
    destruct (decide (c = k)) as [->|Hck].
    + intros [= <-] Hg. simpl. by apply Hordq.
    + intros Hy Hg. eapply key_le_trans; [by apply Hordq|].
      apply (Ha c Hc Hck); [done|by rewrite Hcq].
Qed.

Lemma sift_up_spec fuel : forall els k,
  (k <= fuel)%nat -> (k < length els)%nat -> up_inv els k -> indexed els ->
  exists els', sift_up IsLess fuel els k = Ok els' /\
    heap_ordered els' /\ indexed els' /\ same_handles els' els.
Proof.
  induction fuel as [|fuel IH]; intros els k Hfuel Hlen Hinv Hidx.
  - assert (k = 0%nat) as -> by lia. simpl. exists els.
    split; [done|]. split; [|split; [done|apply same_handles_refl]].
    intros i Hi. apply Hinv; lia.
  - simpl. case_bool_decide as Hk.
    + pose proof (Parent_lt k Hk) as Hq.
      destruct (lookup_lt_is_Some_2 els k Hlen) as [x Hx].
      destruct (lookup_lt_is_Some_2 els (Parent k)) as [p Hp]; [lia|].
      rewrite (proj2 (vec_at_Ok _ _ _) Hx). simpl.
      rewrite (proj2 (vec_at_Ok _ _ _) Hp). simpl.
      destruct (IsLessH IsLess x p) eqn:Hlt.
      * rewrite (Swap_spec els k (Parent k) x p) by (done || lia). simpl.
        destruct (IH (swapped els k (Parent k) x p) (Parent k)) as (els' & E & Ho & Hi' & Hs).
        -- lia.
        -- rewrite length_swapped. lia.
        -- by apply up_inv_swap.
        -- apply indexed_swapped; (done || lia).
        -- exists els'. split; [done|]. split; [done|]. split; [done|].
           eapply same_handles_trans; [exact Hs|].
           apply same_handles_swapped; (done || lia).
      * exists els. split; [done|]. split; [|split; [done|apply same_handles_refl]].
        intros i Hi. destruct (decide (i = k)) as [->|Hik].
        -- intros y g Hy Hg. rewrite Hx in Hy. rewrite Hp in Hg.
           injection Hy as <-. injection Hg as <-. exact Hlt.
        -- by apply Hinv.
    + assert (k = 0%nat) as -> by lia. exists els.
      split; [done|]. split; [|split; [done|apply same_handles_refl]].
      intros i Hi. apply Hinv; lia.
Qed.

(** *** [MinHeapify] *)

Definition down_inv (els : list Handle) (k : nat) : Prop :=
  (forall i, (0 < i)%nat -> Parent i <> k -> ordered_at els i) /\
  (forall c x g, (0 < k)%nat -> (0 < c)%nat -> Parent c = k ->
     els !! c = Some x -> els !! Parent k = Some g ->
     key_le (priority_ g) (priority_ x)).

Lemma down_inv_swap els k s x y :
  (k < s)%nat -> Parent s = k ->
  els !! k = Some x -> els !! s = Some y ->
  key_le (priority_ y) (priority_ x) ->
  (forall o z, (0 < o)%nat -> Parent o = k -> els !! o = Some z ->
     key_le (priority_ y) (priority_ z)) ->
  down_inv els k ->
  down_inv (swapped els k s x y) s.
Proof.
  intros Hks Hps Hx Hy Hyx Hmin [Ha Hb].
  pose proof (lookup_lt_Some _ _ _ Hx) as Lk.
  pose proof (lookup_lt_Some _ _ _ Hy) as Ls.
  split.
  - intros i Hi Hpi z g.
    rewrite !lookup_swapped by lia.
    destruct (decide (i = s)) as [->|His].
    + rewrite Hps. rewrite (decide_False (P := k = s)) by lia.
      rewrite (decide_True (P := k = k)) by done.
      intros [= <-] [= <-]. exact Hyx.
    + rewrite (decide_False (P := Parent i = s)) by done.
      destruct (decide (i = k)) as [->|Hik].
      * pose proof (Parent_lt k Hi).
        rewrite (decide_False (P := Parent k = k)) by lia.
        intros [= <-] Hg. simpl. apply (Hb s y g); (done || lia).
      * intros Hz. destruct (decide (Parent i = k)) as [E|NE].
        -- intros [= <-]. simpl. by apply (Hmin i z).
        -- intros Hg. by apply (Ha i Hi NE).
  - intros c z g Hs0 Hc Hcs.
    pose proof (Parent_lt c Hc).
    rewrite !lookup_swapped by lia.
    rewrite (decide_False (P := c = s)) by lia.
    rewrite (decide_False (P := c = k)) by lia.
    rewrite Hps. rewrite (decide_False (P := k = s)) by lia.
    rewrite (decide_True (P := k = k)) by done.
    intros Hz [= <-]. simpl.
    assert (Parent c <> k) as NE by lia.
    apply (Ha c Hc NE z y); [done|by rewrite Hcs].
Qed.

Lemma MinHeapify_spec fuel : forall els k,
  (length els <= fuel + k)%nat -> (k < length els)%nat ->
  down_inv els k -> indexed els ->
  exists els', MinHeapify IsLess fuel els k = Ok els' /\
    heap_ordered els' /\ indexed els' /\ same_handles els' els.
Proof.
  induction fuel as [|fuel IH]; intros els k Hfuel Hlen Hinv Hidx; [lia|].
  destruct (lookup_lt_is_Some_2 els k Hlen) as [x Hx].
  (* the three outcomes of the selection of [smallest] *)
  assert (Hstop : (forall o z, (0 < o)%nat -> Parent o = k -> els !! o = Some z ->
                     key_le (priority_ x) (priority_ z)) ->
                  heap_ordered els).
  { intros Hch i Hi. destruct (decide (Parent i = k)) as [E|NE].
    - intros z g Hz Hg. rewrite E, Hx in Hg. injection Hg as <-. by apply (Hch i z).
    - by apply Hinv. }
  assert (Hgo : forall s y, (k < s)%nat -> Parent s = k -> els !! s = Some y ->
                  key_le (priority_ y) (priority_ x) ->
                  (forall o z, (0 < o)%nat -> Parent o = k -> els !! o = Some z ->
                     key_le (priority_ y) (priority_ z)) ->
                  exists els', (els1 ← Swap els k s; MinHeapify IsLess fuel els1 s) = Ok els' /\
                    heap_ordered els' /\ indexed els' /\ same_handles els' els).
  { intros s y Hks Hps Hy Hyx Hmin.
    pose proof (lookup_lt_Some _ _ _ Hy) as Ls.
    rewrite (Swap_spec els k s x y) by (done || lia). simpl.
    destruct (IH (swapped els k s x y) s) as (els' & E & Ho & Hi' & Hs).
    - rewrite length_swapped. lia.
    - by rewrite length_swapped.
    - by apply down_inv_swap.
    - apply indexed_swapped; (done || lia).
    - exists els'. split; [done|]. split; [done|]. split; [done|].
      eapply same_handles_trans; [exact Hs|].
      apply same_handles_swapped; (done || lia). }
  assert (Hret : heap_ordered els ->
                 exists els', Ok els = Ok els' /\
                   heap_ordered els' /\ indexed els' /\ same_handles els' els).
  { intros. exists els. split; [done|]. split; [done|]. split; [done|apply same_handles_refl]. }
  assert (HL : Parent (Left k) = k) by apply Parent_Left.
  assert (HR : Parent (Right k) = k) by apply Parent_Right.
  assert (HkL : (k < Left k)%nat) by (unfold Left; lia).
  assert (HkR : (k < Right k)%nat) by (unfold Right; lia).
  assert (HLR : (Left k < Right k)%nat) by (unfold Left, Right; lia).
  cbn [MinHeapify]. unfold IsValid, HeapSize.
  destruct (decide (Left k < length els)%nat) as [HLv|HLv].
  - rewrite (bool_decide_eq_true_2 _ HLv).
    destruct (lookup_lt_is_Some_2 els _ HLv) as [l Hl].
    rewrite (proj2 (vec_at_Ok _ _ _) Hl). cbn [mbind result_bind].
    rewrite (proj2 (vec_at_Ok _ _ _) Hx). cbn [mbind result_bind].
    destruct (decide (Right k < length els)%nat) as [HRv|HRv].
    + rewrite (bool_decide_eq_true_2 _ HRv).
      destruct (lookup_lt_is_Some_2 els _ HRv) as [r Hr].
      rewrite (proj2 (vec_at_Ok _ _ _) Hr). cbn [mbind result_bind].
      destruct (IsLessH IsLess l x) eqn:Elx.
      * rewrite (proj2 (vec_at_Ok _ _ _) Hl). cbn [mbind result_bind].
        destruct (IsLessH IsLess r l) eqn:Erl.
        -- rewrite bool_decide_eq_true_2 by lia.
           apply (Hgo (Right k) r); try done.
           ++ eapply key_le_trans; by apply IsLess_key_le.
           ++ intros o z Ho Hpo Hz. destruct (Parent_inv o k Ho Hpo) as [->| ->].
              ** rewrite Hl in Hz. injection Hz as <-. by apply IsLess_key_le.
              ** rewrite Hr in Hz. injection Hz as <-. apply key_le_refl.
        -- rewrite bool_decide_eq_true_2 by lia.
           apply (Hgo (Left k) l); try done.
           ++ by apply IsLess_key_le.
           ++ intros o z Ho Hpo Hz. destruct (Parent_inv o k Ho Hpo) as [->| ->].
              ** rewrite Hl in Hz. injection Hz as <-. apply key_le_refl.
              ** rewrite Hr in Hz. injection Hz as <-. exact Erl.
      * rewrite (proj2 (vec_at_Ok _ _ _) Hx). cbn [mbind result_bind].
        destruct (IsLessH IsLess r x) eqn:Erx.
        -- rewrite bool_decide_eq_true_2 by lia.
           apply (Hgo (Right k) r); try done.
           ++ by apply IsLess_key_le.
           ++ intros o z Ho Hpo Hz. destruct (Parent_inv o k Ho Hpo) as [->| ->].
              ** rewrite Hl in Hz. injection Hz as <-.
                 eapply key_le_trans; [by apply IsLess_key_le|exact Elx].
              ** rewrite Hr in Hz. injection Hz as <-. apply key_le_refl.
        -- rewrite bool_decide_eq_false_2 by (intros ?; lia).
           apply Hret, Hstop.
           intros o z Ho Hpo Hz. destruct (Parent_inv o k Ho Hpo) as [->| ->].
           ++ rewrite Hl in Hz. injection Hz as <-. exact Elx.
           ++ rewrite Hr in Hz. injection Hz as <-. exact Erx.
    + rewrite (bool_decide_eq_false_2 _ HRv). cbn [mbind result_bind].
      destruct (IsLessH IsLess l x) eqn:Elx.
      * rewrite bool_decide_eq_true_2 by lia.
        apply (Hgo (Left k) l); try done.
        -- by apply IsLess_key_le.
        -- intros o z Ho Hpo Hz. destruct (Parent_inv o k Ho Hpo) as [->| ->].
           ++ rewrite Hl in Hz. injection Hz as <-. apply key_le_refl.
           ++ apply lookup_lt_Some in Hz. lia.
      * rewrite bool_decide_eq_false_2 by (intros ?; lia).
        apply Hret, Hstop.
        intros o z Ho Hpo Hz. destruct (Parent_inv o k Ho Hpo) as [->| ->].
        -- rewrite Hl in Hz. injection Hz as <-. exact Elx.
        -- apply lookup_lt_Some in Hz. lia.
  - rewrite (bool_decide_eq_false_2 _ HLv). cbn [mbind result_bind].
    rewrite bool_decide_eq_false_2 by lia. cbn [mbind result_bind].
    rewrite bool_decide_eq_false_2 by (intros ?; lia).
    apply Hret, Hstop.
    intros o z Ho Hpo Hz. apply lookup_lt_Some in Hz.
    destruct (Parent_inv o k Ho Hpo) as [->| ->]; lia.
Qed.


(** *** [Insert] *)

Lemma position_snoc (els : list Handle) (h : Handle) :
  (forall x, x ∈ els -> hid x <> hid h) ->
  position (els ++ [h]) (hid h) = Some (length els).
Proof.
  induction els as [|y els IH]; intros Hne; simpl.
  - by rewrite bool_decide_eq_true_2.
  - rewrite bool_decide_eq_false_2 by (apply Hne; left).
    rewrite IH; [done|]. intros x Hx. apply Hne. by right.
Qed.

Lemma wf_empty : wf empty.
Proof.
  repeat split.
  - intros i _ x p Hx. cbn in Hx. discriminate.
  - intros i x Hx. cbn in Hx. discriminate.
  - intros x Hx. cbn in Hx. by apply elem_of_nil in Hx.
Qed.

Lemma Insert_spec (h : Heap) (k : TKey) :
  wf h -> IsLess maximum_key k = false ->
  exists h', Insert IsLess maximum_key h k = Ok (allocated h, h') /\ wf h' /\
    keys (elements_ h') ≡ₚ k :: keys (elements_ h) /\
    allocated h' = S (allocated h).
Proof.
  intros (Hord & Hidx & Hfresh) Hk. destruct h as [els al dc rc].
  unfold fresh_ids in Hfresh. simpl in *.
  unfold Insert, DecreasePriority, HeapSize. simpl.
  set (mh := mkHandle al maximum_key (length els)).
  assert (Hpos : position (els ++ [mh]) al = Some (length els)).
  { apply (position_snoc els mh). intros x Hx. apply Hfresh in Hx. simpl. lia. }
  rewrite Hpos.
  assert (Hlast : (els ++ [mh]) !! length els = Some mh).
  { rewrite lookup_app_r by lia. by rewrite Nat.sub_diag. }
  rewrite (proj2 (vec_index_Ok _ _ _) Hlast). cbn [mbind result_bind].
  simpl. rewrite Hk.
  replace (<[length els := SetPriority mh k]> (els ++ [mh]))
    with (els ++ [SetPriority mh k]).
  2:{ replace (length els) with (length els + 0)%nat at 1 by lia.
      by rewrite insert_app_r. }
  destruct (sift_up_spec (length els) (els ++ [SetPriority mh k]) (length els))
    as (els' & E & Ho & Hi & (HL & HP & HH)).
  - lia.
  - rewrite length_app. simpl. lia.
  - split.
    + intros i Hi Hne x p Hx Hp.
      assert ((i < length els)%nat).
      { apply lookup_lt_Some in Hx. rewrite length_app in Hx. simpl in Hx. lia. }
      pose proof (Parent_lt i Hi).
      rewrite lookup_app_l in Hx by lia. rewrite lookup_app_l in Hp by lia.
      by apply (Hord i).
    + intros c x g _ Hc Hpc Hx. apply lookup_lt_Some in Hx.
      rewrite length_app in Hx. simpl in Hx.
      pose proof (Parent_lt c Hc). lia.
  - intros i x Hx. destruct (decide (i < length els)%nat).
    + rewrite lookup_app_l in Hx by lia. by apply Hidx.
    + pose proof (lookup_lt_Some _ _ _ Hx) as Hl. rewrite length_app in Hl. simpl in Hl.
      assert (i = length els) as -> by lia.
      rewrite lookup_app_r in Hx by lia. rewrite Nat.sub_diag in Hx.
      by injection Hx as <-.
  - rewrite E. cbn [mbind result_bind]. eexists. split; [reflexivity|].
    split; [|split]; simpl.
    + split; [done|]. split; [done|].
      intros x Hx. simpl in *. destruct (HH x Hx) as (y & Hy & Ey).
      rewrite <- Ey. apply elem_of_app in Hy as [Hy|Hy].
      * apply Hfresh in Hy. lia.
      * apply list_elem_of_singleton in Hy. subst y. simpl. lia.
    + rewrite HP. unfold keys. rewrite fmap_app. simpl.
      by rewrite (comm (++)).
    + done.
Qed.

(** *** [Remove] *)

Lemma Remove_empty (h : Heap) :
  elements_ h = [] -> Remove IsLess h = Fail Exception.
Proof. intros E. unfold Remove, HeapSize. by rewrite E. Qed.

(** Removing the only entry reaches [elements_[0]] on the emptied vector. *)
Lemma Remove_singleton (h : Heap) (x : Handle) :
  elements_ h = [x] -> Remove IsLess h = Fail UndefinedBehaviour.
Proof. intros E. unfold Remove, HeapSize, First. by rewrite E. Qed.

Lemma Remove_spec (h : Heap) :
  wf h -> (2 <= length (elements_ h))%nat ->
  exists m h', Remove IsLess h = Ok (m, h') /\ wf h' /\
    m :: keys (elements_ h') ≡ₚ keys (elements_ h) /\
    Forall (key_le m) (keys (elements_ h')) /\
    allocated h' = allocated h.
Proof.
  intros (Hord & Hidx & Hfresh) Hlen. destruct h as [els al dc rc].
  unfold fresh_ids in Hfresh. simpl in *.
  destruct els as [|r els]; [simpl in Hlen; lia|].
  destruct (decide (els = [])) as [->|Hne]; [simpl in Hlen; lia|].
  assert (exists mid last, els = mid ++ [last]) as (mid & last & ->).
  { destruct els as [|z els] using rev_ind; [done|]. eauto. }
  clear Hne Hlen.
  unfold Remove, HeapSize, First. simpl elements_.
  rewrite bool_decide_eq_false_2 by (simpl; lia).
  cbn [vec_at lookup list_lookup fmap result_fmap mbind result_bind].
  assert (Hl : (r :: mid ++ [last]) !! (length (r :: mid ++ [last]) - 1)%nat = Some last).
  { simpl. rewrite length_app. simpl. rewrite Nat.sub_0_r.
    replace (length mid + 1)%nat with (S (length mid)) by lia.
    simpl. rewrite lookup_app_r by lia. by rewrite Nat.sub_diag. }
  unfold vec_at at 1. rewrite Hl. cbn [mbind result_bind].
  assert (Hpop : pop_back (<[0%nat := last]> (r :: mid ++ [last])) = last :: mid).
  { unfold pop_back. simpl. rewrite length_app. simpl.
    replace (length mid + 1 - 0)%nat with (S (length mid)) by lia.
    simpl. f_equal. by rewrite take_app_length. }
  rewrite Hpop. cbn [vec_index lookup list_lookup mbind result_bind list_insert insert].
  set (els3 := SetIndex last 0 :: mid).
  destruct (MinHeapify_spec (length els3) els3 0) as (els' & E & Ho & Hi & (HL & HP & HH)).
  - lia.
  - simpl. lia.
  - split.
    + intros i Hi Hpi x p Hx Hp.
      pose proof (Parent_lt i Hi).
      assert (Hx' : (r :: mid ++ [last]) !! i = Some x).
      { destruct i as [|i]; [lia|]. simpl in *. apply lookup_app_l_Some. exact Hx. }
      assert (Hp' : (r :: mid ++ [last]) !! Parent i = Some p).
      { destruct (Parent i) as [|j]; [lia|]. simpl in *. apply lookup_app_l_Some. exact Hp. }
      by apply (Hord i).
    + intros c x g Hk. lia.
  - intros i x Hx. destruct i as [|i].
    + simpl in Hx. by injection Hx as <-.
    + simpl in Hx. apply (Hidx (S i)). simpl. by apply lookup_app_l_Some.
  - unfold HeapSize. rewrite E. cbn [noexcept mbind result_bind].
    eexists _, _. split; [reflexivity|]. simpl.
    assert (HP' : priority_ r :: keys els' ≡ₚ keys (r :: mid ++ [last])).
    { rewrite HP. unfold keys, els3. simpl. rewrite fmap_app. simpl.
      f_equiv. by rewrite (comm (++)). }
    split; [|split; [exact HP'|split; [|done]]].
    + split; [done|]. split; [done|].
      intros x Hx. simpl in *. destruct (HH x Hx) as (y & Hy & Ey). rewrite <- Ey.
      apply elem_of_cons in Hy as [->|Hy].
      * simpl. apply Hfresh. right. apply elem_of_app. right. by left.
      * apply Hfresh. right. apply elem_of_app. by left.
    + apply Forall_forall. intros k Hk.
      assert (Hin : k ∈ keys (r :: mid ++ [last])).
      { rewrite <- HP'. by right. }
      apply list_elem_of_fmap in Hin as (x & -> & Hx).
      apply list_elem_of_lookup in Hx as (i & Hx).
      by apply (heap_ordered_root (r :: mid ++ [last]) i x r).
Qed.

(** *** Sequences of operations *)

Lemma insert_all_spec (ks : list TKey) : forall (h : Heap),
  wf h -> Forall (fun k => IsLess maximum_key k = false) ks ->
  exists h', insert_all IsLess maximum_key h ks = Ok h' /\ wf h' /\
    keys (elements_ h') ≡ₚ ks ++ keys (elements_ h).
Proof.
  induction ks as [|k ks IH]; intros h Hwf Hks; simpl.
  - exists h. split; [done|]. split; [exact Hwf|done].
  - apply Forall_cons in Hks as [Hk Hks].
    destruct (Insert_spec h k Hwf Hk) as (h1 & E & Hwf1 & HP1 & _).
    rewrite E. cbn [mbind result_bind].
    destruct (IH h1 Hwf1 Hks) as (h2 & E2 & Hwf2 & HP2).
    exists h2. split; [done|]. split; [done|].
    rewrite HP2, HP1. by rewrite <- Permutation_middle.
Qed.

(** Every removed key is not greater than the keys removed after it and
    than the keys that stay in the heap. *)
Fixpoint removed_in_order (out rest : list TKey) : Prop :=
  match out with
  | [] => True
  | m :: out => Forall (key_le m) (out ++ rest) /\ removed_in_order out rest
  end.

Lemma remove_n_spec (n : nat) : forall (h : Heap),
  wf h -> (n < length (elements_ h))%nat ->
  exists out h', remove_n IsLess n h = Ok (out, h') /\ wf h' /\
    length out = n /\
    out ++ keys (elements_ h') ≡ₚ keys (elements_ h) /\
    removed_in_order out (keys (elements_ h')).
Proof.
  induction n as [|n IH]; intros h Hwf Hlen; simpl.
  - exists [], h. split; [done|]. split; [exact Hwf|]. by repeat split.
  - destruct (Remove_spec h Hwf) as (m & h1 & E & Hwf1 & HP1 & Hmin & _); [lia|].
    rewrite E. cbn [mbind result_bind].
    assert (Hlen1 : (n < length (elements_ h1))%nat).
    { apply Permutation_length in HP1. unfold keys in HP1.
      simpl in HP1. rewrite !length_fmap in HP1. lia. }
    destruct (IH h1 Hwf1 Hlen1) as (out & h2 & E2 & Hwf2 & HL & HP2 & Hro).
    rewrite E2. cbn [mbind result_bind].
    exists (m :: out), h2. split; [done|]. split; [done|].
    split; [simpl; lia|]. split.
    + simpl. by rewrite HP2.
    + simpl. split; [|done]. by rewrite HP2.
Qed.

End HandleHeapProofs.

(** *** The claims on the handle-based heap *)

(** C5 (as amended).  For a comparer that is a strict weak order and keys not
    above the default key: inserting any sequence of keys and then removing
    while at least two entries are present succeeds, every removed key is not
    greater than any key removed later or still in the heap, and the removed
    keys together with the remaining ones are the inserted keys.  Inserting
    5, 3, 8, 1, 9, 2, 7 the first six removals return 1, 2, 3, 5, 7, 8 and
    leave 9; inserting 4, 4, 4 the first two removals return 4 and 4. *)
Theorem heap_removal_order :
  forall (TKey : Type) (IsLess : TKey -> TKey -> bool) (maximum_key : TKey),
  (forall a b, IsLess a b = true -> IsLess b a = false) ->
  (forall a b c, IsLess b a = false -> IsLess c b = false -> IsLess c a = false) ->
  (forall (ks : list TKey) (n : nat),
     Forall (fun k => IsLess maximum_key k = false) ks ->
     (n < length ks)%nat ->
     exists out h',
       (HandleHeap.insert_all IsLess maximum_key HandleHeap.empty ks
          ≫= HandleHeap.remove_n IsLess n) = Ok (out, h') /\
       length out = n /\
       out ++ keys (HandleHeap.elements_ h') ≡ₚ ks /\
       removed_in_order IsLess out (keys (HandleHeap.elements_ h'))) /\
  (fst <$> (HandleHeap.insert_all HandleHeap.Key_int32_IsLess HandleHeap.Key_int32_default
              HandleHeap.empty [5; 3; 8; 1; 9; 2; 7]
            ≫= HandleHeap.remove_n HandleHeap.Key_int32_IsLess 6)
     = Ok [1; 2; 3; 5; 7; 8]) /\
  (fst <$> (HandleHeap.insert_all HandleHeap.Key_int32_IsLess HandleHeap.Key_int32_default
              HandleHeap.empty [4; 4; 4]
            ≫= HandleHeap.remove_n HandleHeap.Key_int32_IsLess 2)
     = Ok [4; 4]).
Proof.
  intros TKey IsLess maximum_key Hasym Htrans. split; [|split; reflexivity].
  intros ks n Hks Hn.
  destruct (insert_all_spec IsLess maximum_key Hasym Htrans ks HandleHeap.empty)
    as (h & E & Hwf & HP); [apply wf_empty|done|].
  rewrite E. cbn [mbind result_bind].
  assert (Hlen : (n < length (HandleHeap.elements_ h))%nat).
  { apply Permutation_length in HP. unfold keys in HP.
    rewrite length_app, !length_fmap in HP. simpl in HP. lia. }
  destruct (remove_n_spec IsLess Hasym Htrans n h Hwf Hlen)
    as (out & h' & E' & _ & HL & HP' & Hro).
  exists out, h'. split; [done|]. split; [done|]. split; [|done].
  rewrite HP', HP. simpl. by rewrite app_nil_r.
Qed.

Lemma heap_removal_order_witness :
  exists out h',
    (HandleHeap.insert_all HandleHeap.Key_int32_IsLess HandleHeap.Key_int32_default
       HandleHeap.empty [5; 3; 8; 1; 9; 2; 7]
       ≫= HandleHeap.remove_n HandleHeap.Key_int32_IsLess 6) = Ok (out, h') /\
    length out = 6%nat /\
    out ++ keys (HandleHeap.elements_ h') ≡ₚ [5; 3; 8; 1; 9; 2; 7] /\
    removed_in_order HandleHeap.Key_int32_IsLess out (keys (HandleHeap.elements_ h')).
Proof.
  refine (proj1 (heap_removal_order Z HandleHeap.Key_int32_IsLess
                   HandleHeap.Key_int32_default _ _) [5; 3; 8; 1; 9; 2; 7] 6%nat _ _).
  - unfold HandleHeap.Key_int32_IsLess. intros a b H.
    apply Z.ltb_lt in H. apply Z.ltb_ge. lia.
  - unfold HandleHeap.Key_int32_IsLess. intros a b c H1 H2.
    apply Z.ltb_ge in H1, H2. apply Z.ltb_ge. lia.
  - repeat constructor.
  - simpl. lia.
Defined.

(** Against C5 as stated: entries of equal priority do not leave the heap in
    insertion order.  Of three entries of priority 4, the first removal takes
    the one inserted first and leaves the handle of the third insertion in
    front of the handle of the second; the second removal takes the entry
    inserted third.  With payloads 0, 1, 2 next to the priorities, the first
    two removals return the payloads 0 and 2. *)
Lemma heap_equal_priorities_not_fifo :
  (fun out => HandleHeap.hid <$> HandleHeap.elements_ out.2)
    <$> (HandleHeap.insert_all HandleHeap.Key_int32_IsLess HandleHeap.Key_int32_default
           HandleHeap.empty [4; 4; 4]
         ≫= HandleHeap.remove_n HandleHeap.Key_int32_IsLess 1)
    = Ok [2%nat; 1%nat]
  /\ (fun out => HandleHeap.hid <$> HandleHeap.elements_ out.2)
       <$> (HandleHeap.insert_all HandleHeap.Key_int32_IsLess HandleHeap.Key_int32_default
              HandleHeap.empty [4; 4; 4]
            ≫= HandleHeap.remove_n HandleHeap.Key_int32_IsLess 2)
      = Ok [1%nat]
  /\ fst <$> (HandleHeap.insert_all HandleHeap.TaggedKey_IsLess HandleHeap.TaggedKey_default
                HandleHeap.empty [(4, 0%nat); (4, 1%nat); (4, 2%nat)]
              ≫= HandleHeap.remove_n HandleHeap.TaggedKey_IsLess 2)
      = Ok [(4, 0%nat); (4, 2%nat)].
Proof. by repeat split. Qed.

(** C10, at the failing input.  Whatever the key type and the comparer, on a
    heap that holds one entry [Remove] pops the vector and then evaluates
    [elements_[0]] on the empty vector; so it does after [Insert(5)] on the
    empty heap. *)
Theorem remove_sole_entry_out_of_bounds :
  (forall (TKey : Type) (IsLess : TKey -> TKey -> bool)
          (h : HandleHeap.Heap) (x : HandleHeap.Handle),
     HandleHeap.elements_ h = [x] ->
     HandleHeap.Remove IsLess h = Fail UndefinedBehaviour) /\
  (HandleHeap.Insert HandleHeap.Key_int32_IsLess HandleHeap.Key_int32_default
     HandleHeap.empty 5
     ≫= fun '(_, h) => HandleHeap.Remove HandleHeap.Key_int32_IsLess h)
    = Fail UndefinedBehaviour.
Proof.
  split; [|reflexivity].
  intros TKey IsLess h x E. by apply (Remove_singleton IsLess h x).
Qed.

(** ** The centerline set and the centerline calculator *)

Section CenterlineProofs.
Import Graph Centerlines.

(** No branch point strictly inside the centerline. *)
Definition internal_clean (B : gset Voxel) (path : Centerline) : Prop :=
  forall i node, (0 < i)%nat -> (S i < length path)%nat -> path !! i = Some node ->
    IsBranch B (node_point_ node) = false.

Lemma scan_path_spec (B : gset Voxel) (steps : nat) : forall (path : Centerline) (i : nat),
  (length path <= steps + i)%nat -> (i <= length path)%nat ->
  (forall k node, (0 < k < i)%nat -> (S k < length path)%nat -> path !! k = Some node ->
     IsBranch B (node_point_ node) = false) ->
  exists path' pushed, scan_path B steps path i = Ok (path', pushed) /\
    internal_clean B path' /\
    (path' = [] -> path = []) /\
    match pushed with
    | None => path' = path
    | Some new_path => (0 < length new_path < length path)%nat
    end.
Proof.
  induction steps as [|steps IH]; intros path i Hfuel Hi Hclean.
  - exists path, None. simpl. split; [done|]. split; [|done].
    intros k node Hk HSk Hn. apply (Hclean k node); (done || lia).
  - simpl. case_bool_decide as Hend.
    + exists path, None. split; [done|]. split; [|done].
      intros k node Hk HSk Hn. apply (Hclean k node); (done || lia).
    + destruct (lookup_lt_is_Some_2 path i) as [node Hnode]; [lia|].
      rewrite (proj2 (vec_at_Ok _ _ _) Hnode). cbn [mbind result_bind].
      destruct (IsBranch B (node_point_ node)) eqn:Hb.
      * unfold split.
        destruct (bool_decide (i = 0%nat) || bool_decide (S i = length path)) eqn:Hedge.
        -- cbn [mbind result_bind]. simpl length.
           rewrite bool_decide_eq_false_2 by lia.
           apply IH; [lia|lia|].
           intros k n' Hk HSk Hn'. destruct (decide (k = i)) as [->|].
           ++ apply orb_true_iff in Hedge as [E|E]; apply bool_decide_eq_true in E; lia.
           ++ apply (Hclean k n'); (done || lia).
        -- apply orb_false_iff in Hedge as [E1 E2].
           apply bool_decide_eq_false in E1, E2.
           rewrite bool_decide_eq_false_2 by lia.
           rewrite bool_decide_eq_false_2 by lia.
           cbn [mbind result_bind].
           rewrite bool_decide_eq_true_2 by (rewrite length_drop; lia).
           exists (take (S i) path), (Some (drop i path)).
           split; [done|]. split; [|split].
           ++ intros k n' Hk HSk Hn'. rewrite length_take in HSk.
              rewrite lookup_take_lt in Hn' by lia.
              apply (Hclean k n'); (done || lia).
           ++ intros E. apply (f_equal length) in E. rewrite length_take in E.
              cbn [length] in E. lia.
           ++ rewrite length_drop. lia.
      * apply IH; [lia|lia|].
        intros k n' Hk HSk Hn'. destruct (decide (k = i)) as [->|].
        -- rewrite Hnode in Hn'. by injection Hn' as <-.
        -- apply (Hclean k n'); (done || lia).
Qed.

(** The work left for the outer loop at index [j]. *)
Definition split_measure (paths : list Centerline) (j : nat) : nat :=
  split_fuel (drop j paths).

Lemma split_fuel_app (a b : list Centerline) :
  split_fuel (a ++ b) = (split_fuel a + split_fuel b)%nat.
Proof.
  unfold split_fuel. apply sum_list_with_app.
Qed.

Lemma split_paths_spec (B : gset Voxel) (fuel : nat) : forall (paths : list Centerline) (j : nat),
  (split_measure paths j <= fuel)%nat ->
  (forall k path, (k < j)%nat -> paths !! k = Some path -> internal_clean B path) ->
  (forall path, path ∈ paths -> path <> []) ->
  exists paths', split_paths fuel B paths j = Ok paths' /\
    (forall path, path ∈ paths' -> internal_clean B path) /\
    (forall path, path ∈ paths' -> path <> []).
Proof.
  induction fuel as [|fuel IH]; intros paths j Hfuel Hdone Hne.
  - destruct (paths !! j) as [path|] eqn:Hj.
    + exfalso. unfold split_measure in Hfuel.
      rewrite (drop_S _ _ _ Hj) in Hfuel. unfold split_fuel in Hfuel. simpl in Hfuel. lia.
    + exists paths. simpl. rewrite Hj. split; [done|]. split; [|done].
      intros path (k & Hk)%list_elem_of_lookup. apply (Hdone k); [|done].
      apply lookup_lt_Some in Hk. apply lookup_ge_None in Hj. lia.
  - simpl. destruct (paths !! j) as [path|] eqn:Hj.
    + destruct (scan_path_spec B (length path) path 0) as (path' & pushed & E & Hc & Hnil & Hp);
        [lia|lia|intros; lia|].
      rewrite E. cbn [mbind result_bind].
      pose proof (lookup_lt_Some _ _ _ Hj) as Hlt.
      assert (Hpath' : path' <> []).
      { intros ->. apply (Hne path); [by eapply list_elem_of_lookup_2|by apply Hnil]. }
      apply IH.
      * unfold split_measure in *. rewrite (drop_S _ _ _ Hj) in Hfuel.
        unfold split_fuel in Hfuel. simpl in Hfuel. fold (split_fuel (drop (S j) paths)) in Hfuel.
        destruct pushed as [np|].
        -- rewrite drop_app_le by (rewrite length_insert; lia).
           rewrite drop_insert_lt by lia. rewrite split_fuel_app.
           unfold split_fuel at 2. simpl. lia.
        -- rewrite drop_insert_lt by lia. lia.
      * intros k p Hk Hkp.
        assert (Hkp' : (<[j:=path']> paths) !! k = Some p).
        { destruct pushed as [np|]; [|done].
          rewrite lookup_app_l in Hkp; [done|rewrite length_insert; lia]. }
        destruct (decide (k = j)) as [->|].
        -- rewrite list_lookup_insert_eq in Hkp' by lia. by injection Hkp' as <-.
        -- rewrite list_lookup_insert_ne in Hkp' by done. apply (Hdone k); [lia|done].
      * intros p Hin.
        assert (Hin' : p ∈ <[j:=path']> paths \/ (exists np, pushed = Some np /\ p = np)).
        { destruct pushed as [np|]; [|by left].
          apply elem_of_app in Hin as [?|Hin]; [by left|].
          apply list_elem_of_singleton in Hin. right. eauto. }
        destruct Hin' as [Hin'|(np & -> & ->)].
        -- apply list_elem_of_lookup in Hin' as (k & Hk).
           destruct (decide (k = j)) as [->|].
           ++ rewrite list_lookup_insert_eq in Hk by lia. by injection Hk as <-.
           ++ rewrite list_lookup_insert_ne in Hk by done.
              apply Hne. by eapply list_elem_of_lookup_2.
        -- intros ->. simpl in Hp. lia.
    + exists paths. split; [done|]. split; [|done].
      intros path (k & Hk)%list_elem_of_lookup. apply (Hdone k); [|done].
      apply lookup_lt_Some in Hk. apply lookup_ge_None in Hj. lia.
Qed.

Lemma all_statistics_total (paths : list Centerline) :
  (forall path, path ∈ paths -> path <> []) ->
  exists stats, all_statistics paths = Ok stats.
Proof.
  induction paths as [|path paths IH]; intros Hne; simpl; [eauto|].
  destruct IH as (stats & E); [intros p Hp; apply Hne; by right|].
  assert (path <> []) as Hp by (apply Hne; left).
  destruct path as [|node rest]; [done|].
  unfold Statistics_of, GetSize, GetTortuosity. cbn [mbind result_bind].
  destruct (lookup_lt_is_Some_2 (node :: rest) (length (node :: rest) - 1)) as [last Hl];
    [simpl; lia|].
  rewrite (proj2 (vec_at_Ok (node :: rest) 0 node) eq_refl). cbn [mbind result_bind].
  rewrite (proj2 (vec_at_Ok _ _ _) Hl). cbn [mbind result_bind].
  rewrite E. cbn [mbind result_bind]. eauto.
Qed.

End CenterlineProofs.

(** C8.  After [SplitByBranchPoints] returns, no stored centerline has a
    recorded branch point at an internal position; and it does return for
    every set whose centerlines are non-empty. *)
Theorem split_by_branch_points_no_internal_branch :
  forall (set : Centerlines.CenterlineSet),
  (forall set', Centerlines.SplitByBranchPoints set = Ok set' ->
     forall c i node, c ∈ Centerlines.paths_ set' ->
       (0 < i)%nat -> (S i < length c)%nat -> c !! i = Some node ->
       Centerlines.IsBranch (Centerlines.branch_nodes_ set')
         (Centerlines.node_point_ node) = false) /\
  ((forall c, c ∈ Centerlines.paths_ set -> c <> []) ->
   exists set', Centerlines.SplitByBranchPoints set = Ok set').
Proof.
  intros set.
  assert (Hloop : forall paths',
            Centerlines.split_paths (Centerlines.split_fuel (Centerlines.paths_ set))
              (Centerlines.branch_nodes_ set) (Centerlines.paths_ set) 0 = Ok paths' ->
            forall path, path ∈ paths' -> internal_clean (Centerlines.branch_nodes_ set) path).
  { (* empty centerlines play no part in the loop: decide on the general lemma *)
    intros paths' E.
    assert (G : forall fuel paths j,
              (forall k path, (k < j)%nat -> paths !! k = Some path ->
                 internal_clean (Centerlines.branch_nodes_ set) path) ->
              forall out, Centerlines.split_paths fuel (Centerlines.branch_nodes_ set) paths j = Ok out ->
              forall path, path ∈ out -> internal_clean (Centerlines.branch_nodes_ set) path).
    { induction fuel as [|fuel IH]; intros paths j Hdone out Hout path Hin.
      - simpl in Hout. destruct (paths !! j) eqn:Hj; [done|]. injection Hout as <-.
        apply list_elem_of_lookup in Hin as (k & Hk). apply (Hdone k); [|done].
        apply lookup_lt_Some in Hk. apply lookup_ge_None in Hj. lia.
      - simpl in Hout. destruct (paths !! j) as [p|] eqn:Hj.
        + destruct (scan_path_spec (Centerlines.branch_nodes_ set) (length p) p 0)
            as (path' & pushed & Es & Hc & _ & _); [lia|lia|intros; lia|].
          rewrite Es in Hout. cbn [mbind result_bind] in Hout.
          pose proof (lookup_lt_Some _ _ _ Hj) as Hlt.
          eapply IH; [|exact Hout|exact Hin].
          intros k q Hk Hkq.
          assert (Hkq' : (<[j:=path']> paths) !! k = Some q).
          { destruct pushed as [np|]; [|done].
            rewrite lookup_app_l in Hkq; [done|rewrite length_insert; lia]. }
          destruct (decide (k = j)) as [->|].
          * rewrite list_lookup_insert_eq in Hkq' by lia. by injection Hkq' as <-.
          * rewrite list_lookup_insert_ne in Hkq' by done. apply (Hdone k); [lia|done].
        + injection Hout as <-.
          apply list_elem_of_lookup in Hin as (k & Hk). apply (Hdone k); [|done].
          apply lookup_lt_Some in Hk. apply lookup_ge_None in Hj. lia. }
    eapply G; [|exact E]. intros; lia. }
  split.
  - intros set' E c i node Hc Hi HSi Hn.
    unfold Centerlines.SplitByBranchPoints in E. inv_ok. subst set'. simpl in *.
    by eapply Hloop.
  - intros Hne. unfold Centerlines.SplitByBranchPoints.
    destruct (split_paths_spec (Centerlines.branch_nodes_ set)
                (Centerlines.split_fuel (Centerlines.paths_ set)) (Centerlines.paths_ set) 0)
      as (paths' & E & _ & Hne'); [unfold split_measure; by rewrite drop_0|intros; lia|done|].
    rewrite E. cbn [mbind result_bind].
    destruct (all_statistics_total paths' Hne') as (stats & Es).
    rewrite Es. cbn [mbind result_bind]. eauto.
Qed.

Lemma split_by_branch_points_witness :
  exists set',
    Centerlines.SplitByBranchPoints Examples.branching_set = Ok set' /\
    Centerlines.paths_ set' =
      [[Examples.node_at 0; Examples.node_at 1; Examples.node_at 2];
       [Examples.node_at 2; Examples.node_at 3; Examples.node_at 4]] /\
    forall c i node, c ∈ Centerlines.paths_ set' ->
      (0 < i)%nat -> (S i < length c)%nat -> c !! i = Some node ->
      Centerlines.IsBranch (Centerlines.branch_nodes_ set')
        (Centerlines.node_point_ node) = false.
Proof.
  eexists. split; [vm_compute; reflexivity|]. split; [reflexivity|].
  apply (proj1 (split_by_branch_points_no_internal_branch Examples.branching_set)).
  vm_compute. reflexivity.
Defined.

(** C3 (as amended).  The loop over the inlet centerpoints stops after the first
    search that executes: the search runs from the first inlet centerpoint
    that is a vertex of the graph, and from no other. *)
Theorem router_searches_from_first_inlet_only :
  forall (algorithm_type : Type) (graph_HasVertex : Graph.Vertex -> bool)
         (search : algorithm_type -> Graph.Vertex -> algorithm_type)
         (add_sets : algorithm_type -> list Graph.Vertex ->
                     Centerlines.CenterlineSet -> Centerlines.CenterlineSet)
         (source_points end_points : list Graph.Vertex)
         (algorithm : algorithm_type),
  Centerlines.ComputeForSources algorithm_type graph_HasVertex search add_sets
      source_points end_points algorithm =
    match List.find graph_HasVertex source_points with
    | Some source =>
        (search algorithm source,
         Centerlines.SplitByBranchPoints
           (add_sets (search algorithm source) end_points Centerlines.CenterlineSet_empty))
    | None => (algorithm, Centerlines.SplitByBranchPoints Centerlines.CenterlineSet_empty)
    end.
Proof.
  intros A HasVertex search add_sets sources ends alg.
  unfold Centerlines.ComputeForSources.
  assert (H : forall cl a,
    Centerlines.for_sources A HasVertex search add_sets sources ends a cl =
    match List.find HasVertex sources with
    | Some source => (search a source, add_sets (search a source) ends cl)
    | None => (a, cl)
    end).
  { induction sources as [|s sources IH]; intros cl a; simpl; [done|].
    unfold Centerlines.ExecuteSingleComputation, Centerlines.ExecuteGradient.
    destruct (HasVertex s); simpl; [done|]. apply IH. }
  rewrite H. by destruct (List.find HasVertex sources).
Qed.

(** Against C3 as stated: with two inlet centerpoints in the graph the search
    runs from the first one only. *)
Lemma router_second_inlet_not_searched :
  fst (Centerlines.ComputeForSources (list Graph.Vertex) (fun _ => true)
         Examples.logging_search (fun _ _ centerlines => centerlines)
         [Examples.inlet_1; Examples.inlet_2] [] [])
    = [Examples.inlet_1].
Proof. reflexivity. Qed.

(** ** The graph builders and the two graphs *)

Section GraphProofs.
Import Graph.

Definition in_limits (sizes : Z * Z * Z) (p : Voxel) : Prop :=
  0 <= vx p < sizes.1.1 /\ 0 <= vy p < sizes.1.2 /\ 0 <= vz p < sizes.2.

Lemma IsOffLimitsPoint_false (img : TernaryImage) (p : Voxel) :
  IsOffLimitsPoint img p = false <-> in_limits (sizes_ img) p.
Proof.
  unfold IsOffLimitsPoint, in_limits. destruct (sizes_ img) as [[sx sy] sz]. simpl.
  rewrite !orb_false_iff, !Z.ltb_ge, !Z.leb_gt. lia.
Qed.

Lemma IsObjectPoint_in_limits (img : TernaryImage) (p : Voxel) :
  IsObjectPoint img p = true -> in_limits (sizes_ img) p.
Proof.
  unfold IsObjectPoint. destruct (IsOffLimitsPoint img p) eqn:E; [done|].
  intros _. by apply IsOffLimitsPoint_false.
Qed.

Lemma linear_index_lt (sizes : Z * Z * Z) (p : Voxel) :
  in_limits sizes p ->
  (ConvertToLinearIndex p sizes < Z.to_nat (sizes.1.1 * sizes.1.2 * sizes.2))%nat.
Proof.
  destruct sizes as [[sx sy] sz]. unfold in_limits, ConvertToLinearIndex. simpl.
  intros (Hx & Hy & Hz).
  assert (0 <= sx * vy p) by (apply Z.mul_nonneg_nonneg; lia).
  assert (0 < sx * sy) by (apply Z.mul_pos_pos; lia).
  assert (0 <= sx * sy * vz p) by (apply Z.mul_nonneg_nonneg; lia).
  assert (0 < sx * sy * sz) by (apply Z.mul_pos_pos; lia).
  assert (sx * vy p <= sx * (sy - 1)) by (apply Z.mul_le_mono_nonneg_l; lia).
  assert (sx * sy * vz p <= sx * sy * (sz - 1)) by (apply Z.mul_le_mono_nonneg_l; lia).
  apply Z2Nat.inj_lt; lia.
Qed.

Lemma linear_index_inj (sizes : Z * Z * Z) (p q : Voxel) :
  in_limits sizes p -> in_limits sizes q ->
  ConvertToLinearIndex p sizes = ConvertToLinearIndex q sizes -> p = q.
Proof.
  destruct sizes as [[sx sy] sz]. unfold in_limits, ConvertToLinearIndex. simpl.
  intros (Hx & Hy & Hz) (Hx' & Hy' & Hz') E.
  assert (0 <= sx * vy p) by (apply Z.mul_nonneg_nonneg; lia).
  assert (0 <= sx * vy q) by (apply Z.mul_nonneg_nonneg; lia).
  assert (0 < sx * sy) by (apply Z.mul_pos_pos; lia).
  assert (0 <= sx * sy * vz p) by (apply Z.mul_nonneg_nonneg; lia).
  assert (0 <= sx * sy * vz q) by (apply Z.mul_nonneg_nonneg; lia).
  assert (sx * vy p <= sx * (sy - 1)) by (apply Z.mul_le_mono_nonneg_l; lia).
  assert (sx * vy q <= sx * (sy - 1)) by (apply Z.mul_le_mono_nonneg_l; lia).
  apply Z2Nat.inj in E; [|lia|lia].
  assert (Ez : vz p = vz q).
  { destruct (Z.lt_trichotomy (vz p) (vz q)) as [L|[L|L]]; [|done|].
    - assert (sx * sy * (vz p + 1) <= sx * sy * vz q) by (apply Z.mul_le_mono_nonneg_l; lia). lia.
    - assert (sx * sy * (vz q + 1) <= sx * sy * vz p) by (apply Z.mul_le_mono_nonneg_l; lia). lia. }
  rewrite Ez in E.
  assert (Ey : vy p = vy q).
  { destruct (Z.lt_trichotomy (vy p) (vy q)) as [L|[L|L]]; [|done|].
    - assert (sx * (vy p + 1) <= sx * vy q) by (apply Z.mul_le_mono_nonneg_l; lia). lia.
    - assert (sx * (vy q + 1) <= sx * vy p) by (apply Z.mul_le_mono_nonneg_l; lia). lia. }
  rewrite Ey in E.
  assert (Ex : vx p = vx q) by lia.
  destruct p, q. simpl in *. by subst.
Qed.

(** What [MemoryGraphBuilder::Build] stores: one vertex per annotated object
    point, with the annotated distance as property value. *)
Lemma MemoryGraphBuilder_Build_lookup (image : AnnotatedImage) (original : TernaryImage)
    (p : Voxel) :
  MemoryGraphBuilder_Build image original !! p =
    if IsObjectPoint original p
    then (fun a => (mkVertex p (Z_to_double (distance a)), VertexAnnotation_default))
           <$> image !! p
    else None.
Proof.
  unfold MemoryGraphBuilder_Build. revert p.
  apply (map_fold_weak_ind (fun r m => forall p,
           r !! p = if IsObjectPoint original p
                    then (fun a => (mkVertex p (Z_to_double (distance a)),
                                    VertexAnnotation_default)) <$> m !! p
                    else None)).
  - intros p. rewrite !lookup_empty. by destruct (IsObjectPoint original p).
  - intros i x m r Hi IH p.
    destruct (IsObjectPoint original i) eqn:Hobj; simpl.
    + unfold unordered_insert. simpl. rewrite (IH i), Hobj, Hi. simpl.
      destruct (decide (p = i)) as [->|Hne].
      * by rewrite !lookup_insert_eq, Hobj.
      * rewrite !lookup_insert_ne by done. apply IH.
    + destruct (decide (p = i)) as [->|Hne].
      * by rewrite IH, Hobj.
      * rewrite lookup_insert_ne by done. apply IH.
Qed.

(** What [SpeedGraphBuilder::Build] stores. *)
Definition speed_slot (image : AnnotatedImage) (original : TernaryImage) (p : Voxel)
  : (Vertex * VertexAnnotation) * bool :=
  match image !! p with
  | Some a =>
    if IsObjectPoint original p
    then ((mkVertex p (Z_to_double (distance a)), VertexAnnotation_default), true)
    else ((Vertex_default, VertexAnnotation_default), false)
  | None => ((Vertex_default, VertexAnnotation_default), false)
  end.

Lemma SpeedGraphBuilder_Build_spec (image : AnnotatedImage) (original : TernaryImage) :
  exists g, SpeedGraphBuilder_Build image original = Ok g /\
    convert_sizes_ g = sizes_ original /\
    length (vertex_set_ g) = GetTotalSize original /\
    length (has_annotation_list_ g) = GetTotalSize original /\
    forall p, in_limits (sizes_ original) p ->
      vertex_set_ g !! ConvertToLinearIndex p (sizes_ original)
        = Some (speed_slot image original p).1 /\
      has_annotation_list_ g !! ConvertToLinearIndex p (sizes_ original)
        = Some (speed_slot image original p).2.
Proof.
  unfold SpeedGraphBuilder_Build.
  set (total := GetTotalSize original).
  assert (Htotal : forall p, in_limits (sizes_ original) p ->
            (ConvertToLinearIndex p (sizes_ original) < total)%nat).
  { intros p Hp. unfold total, GetTotalSize.
    pose proof (linear_index_lt _ _ Hp) as H. by destruct (sizes_ original) as [[? ?] ?]. }
  assert (H : exists vs fl,
            map_fold (SpeedGraphBuilder_step original)
              (Ok (replicate total (Vertex_default, VertexAnnotation_default),
                   replicate total false)) image = Ok (vs, fl) /\
            length vs = total /\ length fl = total /\
            forall p, in_limits (sizes_ original) p ->
              vs !! ConvertToLinearIndex p (sizes_ original)
                = Some (speed_slot image original p).1 /\
              fl !! ConvertToLinearIndex p (sizes_ original)
                = Some (speed_slot image original p).2).
  { apply (map_fold_weak_ind (fun r m => exists vs fl, r = Ok (vs, fl) /\
             length vs = total /\ length fl = total /\
             forall p, in_limits (sizes_ original) p ->
               vs !! ConvertToLinearIndex p (sizes_ original)
                 = Some (speed_slot m original p).1 /\
               fl !! ConvertToLinearIndex p (sizes_ original)
                 = Some (speed_slot m original p).2)).
    - eexists _, _. split; [reflexivity|]. rewrite !length_replicate.
      split; [done|]. split; [done|]. intros p Hp. unfold speed_slot.
      rewrite lookup_empty. simpl. split; apply lookup_replicate_2; by apply Htotal.
    - intros i x m r Hi (vs & fl & -> & Lv & Lf & IH).
      unfold SpeedGraphBuilder_step. cbn [mbind result_bind].
      destruct (IsObjectPoint original i) eqn:Hobj; simpl.
      + pose proof (IsObjectPoint_in_limits _ _ Hobj) as Hlim.
        pose proof (Htotal _ Hlim) as Hlt.
        destruct (lookup_lt_is_Some_2 vs (ConvertToLinearIndex i (sizes_ original))) as [v0 Hv0];
          [lia|].
        destruct (lookup_lt_is_Some_2 fl (ConvertToLinearIndex i (sizes_ original))) as [f0 Hf0];
          [lia|].
        rewrite (proj2 (vec_at_Ok _ _ _) Hv0). cbn [mbind result_bind].
        rewrite (proj2 (vec_at_Ok _ _ _) Hf0). cbn [mbind result_bind].
        eexists _, _. split; [reflexivity|]. rewrite !length_insert.
        split; [done|]. split; [done|]. intros p Hp. unfold speed_slot.
        destruct (decide (p = i)) as [->|Hne].
        * rewrite lookup_insert_eq, Hobj. simpl.
          rewrite !list_lookup_insert_eq by lia. done.
        * rewrite lookup_insert_ne by done.
          assert (ConvertToLinearIndex i (sizes_ original)
                  <> ConvertToLinearIndex p (sizes_ original)).
          { intros E. apply Hne. symmetry. by eapply linear_index_inj. }
          rewrite !list_lookup_insert_ne by done. by apply IH.
      + eexists _, _. split; [reflexivity|]. split; [done|]. split; [done|].
        intros p Hp. unfold speed_slot. destruct (decide (p = i)) as [->|Hne].
        * rewrite lookup_insert_eq, Hobj. simpl. specialize (IH i Hp).
          unfold speed_slot in IH. by rewrite Hi in IH.
        * rewrite lookup_insert_ne by done. by apply IH. }
  destruct H as (vs & fl & E & Lv & Lf & Hs). rewrite E. cbn [noexcept mbind result_bind].
  eexists. split; [reflexivity|]. simpl. done.
Qed.

End GraphProofs.

(** C4 (as amended).  For every annotated pore voxel, the vertex of both graph
    flavours carries as property value the voxel's annotated squared distance
    itself, converted to [double]. *)
Theorem graph_vertex_property_is_squared_distance :
  forall (image : AnnotatedImage) (original : TernaryImage) (p : Voxel) (a : Annotation),
  image !! p = Some a -> IsObjectPoint original p = true ->
  Graph.MemoryGraphBuilder_Build image original !! p
    = Some (Graph.mkVertex p (Z_to_double (distance a)), Graph.VertexAnnotation_default) /\
  exists g, Graph.SpeedGraphBuilder_Build image original = Ok g /\
    Graph.vertex_set_ g !! Graph.convert_key_ g (Graph.mkVertex p 0%float)
      = Some (Graph.mkVertex p (Z_to_double (distance a)), Graph.VertexAnnotation_default) /\
    Graph.has_annotation_list_ g !! Graph.convert_key_ g (Graph.mkVertex p 0%float)
      = Some true.
Proof.
  intros image original p a Hp Hobj. split.
  - by rewrite MemoryGraphBuilder_Build_lookup, Hobj, Hp.
  - destruct (SpeedGraphBuilder_Build_spec image original) as (g & E & Hc & _ & _ & Hs).
    exists g. split; [done|]. unfold Graph.convert_key_. rewrite Hc. simpl.
    destruct (Hs p (IsObjectPoint_in_limits _ _ Hobj)) as [H1 H2].
    unfold speed_slot in H1, H2. rewrite Hp, Hobj in H1, H2. done.
Qed.

Lemma graph_vertex_property_is_squared_distance_witness :
  Examples.line_annotations !! mkVoxel 2 0 0 = Some Examples.line_annotation
  /\ IsObjectPoint Examples.line_img (mkVoxel 2 0 0) = true
  /\ Graph.MemoryGraphBuilder_Build Examples.line_annotations Examples.line_img
       !! mkVoxel 2 0 0
     = Some (Graph.mkVertex (mkVoxel 2 0 0) (Z_to_double (distance Examples.line_annotation)),
             Graph.VertexAnnotation_default)
  /\ exists g,
       Graph.SpeedGraphBuilder_Build Examples.line_annotations Examples.line_img = Ok g
       /\ Graph.vertex_set_ g !! Graph.convert_key_ g (Graph.mkVertex (mkVoxel 2 0 0) 0%float)
          = Some (Graph.mkVertex (mkVoxel 2 0 0)
                    (Z_to_double (distance Examples.line_annotation)),
                  Graph.VertexAnnotation_default)
       /\ Graph.has_annotation_list_ g
            !! Graph.convert_key_ g (Graph.mkVertex (mkVoxel 2 0 0) 0%float)
          = Some true.
Proof.
  assert (H1 : Examples.line_annotations !! mkVoxel 2 0 0 = Some Examples.line_annotation)
    by (vm_compute; reflexivity).
  assert (H2 : IsObjectPoint Examples.line_img (mkVoxel 2 0 0) = true)
    by (vm_compute; reflexivity).
  split; [exact H1|]. split; [exact H2|].
  exact (graph_vertex_property_is_squared_distance _ _ _ _ H1 H2).
Defined.

(** Against C4 as stated: the voxel (2,0,0) of the three-voxel image is
    annotated with the squared distance 4; both builders store 4.0 as the
    property value of its vertex, and the square root of 4.0 is 2.0. *)
Lemma graph_vertex_property_is_not_the_root :
  (Graph.PropertyValue ∘ fst)
    <$> (Graph.MemoryGraphBuilder_Build Examples.line_annotations Examples.line_img
           !! mkVoxel 2 0 0) = Some 4%float
  /\ (g ← Graph.SpeedGraphBuilder_Build Examples.line_annotations Examples.line_img;
      Ok ((Graph.PropertyValue ∘ fst)
            <$> (Graph.vertex_set_ g
                   !! Graph.convert_key_ g (Graph.mkVertex (mkVoxel 2 0 0) 0%float))))
     = Ok (Some 4%float)
  /\ PrimFloat.sqrt (Z_to_double (distance Examples.line_annotation)) = 2%float
  /\ PrimFloat.eqb 4%float 2%float = false.
Proof. vm_compute. by repeat split. Qed.

(** In the hash-keyed graph, and in the flat-indexed graph for a key whose
    voxel lies inside the cube, looking up a key that is not a vertex throws
    and leaves the graph as it was, and [HasVertex] returns false. *)
Lemma absent_key_lookup_throws :
  (forall (g : Graph.MemoryGraph) (key : Graph.Vertex),
     g !! Graph.Point key = None ->
     Graph.MemoryGraph_get g key = (Fail Exception, g) /\
     Graph.MemoryGraph_HasVertex g key = (Ok false, g)) /\
  (forall (image : AnnotatedImage) (original : TernaryImage) (key : Graph.Vertex),
     IsOffLimitsPoint original (Graph.Point key) = false ->
     Graph.MemoryGraphBuilder_Build image original !! Graph.Point key = None ->
     exists g, Graph.SpeedGraphBuilder_Build image original = Ok g /\
       Graph.SpeedGraph_get g key = (Fail Exception, g) /\
       Graph.SpeedGraph_HasVertex g key = (Ok false, g)).
Proof.
  split.
  - intros g key Hk. unfold Graph.MemoryGraph_get, Graph.MemoryGraph_HasVertex.
    rewrite Hk. split; [done|]. rewrite bool_decide_eq_false_2; [done|].
    by intros [? ?].
  - intros image original key Hlim Habs.
    apply IsOffLimitsPoint_false in Hlim.
    destruct (SpeedGraphBuilder_Build_spec image original) as (g & E & Hc & _ & _ & Hs).
    exists g. split; [done|].
    destruct (Hs _ Hlim) as [_ H2].
    assert (Hslot : (speed_slot image original (Graph.Point key)).2 = false).
    { rewrite MemoryGraphBuilder_Build_lookup in Habs. unfold speed_slot.
      destruct (image !! Graph.Point key); [|done].
      by destruct (IsObjectPoint original (Graph.Point key)). }
    rewrite Hslot in H2.
    unfold Graph.SpeedGraph_get, Graph.SpeedGraph_HasVertex, Graph.convert_key_.
    rewrite Hc. rewrite (proj2 (vec_index_Ok _ _ _) H2), (proj2 (vec_at_Ok _ _ _) H2).
    done.
Qed.

Example absent_key_lookup_throws_inside :
  Graph.MemoryGraphBuilder_Build Examples.line_annotations Examples.line_img
    !! Graph.Point Examples.key_inside = None
  /\ IsOffLimitsPoint Examples.line_img (Graph.Point Examples.key_inside) = false
  /\ (Graph.MemoryGraph_get
        (Graph.MemoryGraphBuilder_Build Examples.line_annotations Examples.line_img)
        Examples.key_inside
      = (Fail Exception,
         Graph.MemoryGraphBuilder_Build Examples.line_annotations Examples.line_img)
      /\ Graph.MemoryGraph_HasVertex
           (Graph.MemoryGraphBuilder_Build Examples.line_annotations Examples.line_img)
           Examples.key_inside
         = (Ok false,
            Graph.MemoryGraphBuilder_Build Examples.line_annotations Examples.line_img))
  /\ exists g,
       Graph.SpeedGraphBuilder_Build Examples.line_annotations Examples.line_img = Ok g
       /\ Graph.SpeedGraph_get g Examples.key_inside = (Fail Exception, g)
       /\ Graph.SpeedGraph_HasVertex g Examples.key_inside = (Ok false, g).
Proof.
  assert (H1 : Graph.MemoryGraphBuilder_Build Examples.line_annotations Examples.line_img
               !! Graph.Point Examples.key_inside = None) by (vm_compute; reflexivity).
  assert (H2 : IsOffLimitsPoint Examples.line_img (Graph.Point Examples.key_inside) = false)
    by (vm_compute; reflexivity).
  split; [exact H1|]. split; [exact H2|]. split.
  - exact (proj1 absent_key_lookup_throws _ _ H1).
  - exact (proj2 absent_key_lookup_throws _ _ _ H2 H1).
Defined.

(** C9, at the failing input.  The flat-indexed graph of the 2 x 2 x 1 image
    has the single vertex (0,1,0), at index 2.  The key (2,0,0) is not a
    vertex, but it has index 2 as well: its lookup returns the annotation of
    (0,1,0) and [HasVertex] returns true.  The key (0,0,1) is not a vertex
    either and has index 4, past the end of the vectors: the lookup reads the
    presence bit outside the vector, and [HasVertex] terminates the program. *)
Theorem flat_graph_absent_key_found :
  exists g,
    Graph.SpeedGraphBuilder_Build Examples.square_annotations Examples.square_img = Ok g
    /\ Graph.Point <$> Graph.SpeedGraph_vertices g = [mkVoxel 0 1 0]
    /\ Graph.convert_key_ g Examples.key_beside = 2%nat
    /\ (Graph.SpeedGraph_get g Examples.key_beside).1 = Ok Graph.VertexAnnotation_default
    /\ (Graph.SpeedGraph_HasVertex g Examples.key_beside).1 = Ok true
    /\ Graph.convert_key_ g Examples.key_above = 4%nat
    /\ length (Graph.has_annotation_list_ g) = 4%nat
    /\ (Graph.SpeedGraph_get g Examples.key_above).1 = Fail UndefinedBehaviour
    /\ (Graph.SpeedGraph_HasVertex g Examples.key_above).1 = Fail Terminated.
Proof.
  eexists. split; [vm_compute; reflexivity|].
  vm_compute. by repeat split.
Qed.

(** ** The image-foresting transform *)

(** The extents of an image are [uint16_t] values. *)
Definition sizes_fit (img : TernaryImage) : Prop :=
  (sizes_ img).1.1 < 65536 /\ (sizes_ img).1.2 < 65536 /\ (sizes_ img).2 < 65536.

Section IftProofs.
Import Skeletonizer.
Variable img : TernaryImage.

Hypothesis Hfit : sizes_fit img.

Definition sum_of_squares (a : Annotation) : Z :=
  GetAccumulatedDistance a 0 * GetAccumulatedDistance a 0
  + GetAccumulatedDistance a 1 * GetAccumulatedDistance a 1
  + GetAccumulatedDistance a 2 * GetAccumulatedDistance a 2.

(** What every annotation satisfies once the seeds are initialised. *)
Record ann_inv (p : Voxel) (a : Annotation) : Prop := mk_ann_inv {
  inv_status : status a <> initial;
  inv_limits : IsOffLimitsPoint img p = false;
  inv_nonneg : 0 <= GetAccumulatedDistance a 0 /\ 0 <= GetAccumulatedDistance a 1
               /\ 0 <= GetAccumulatedDistance a 2;
  inv_distance : distance a = sum_of_squares a;
  inv_bound : distance a < INT32_MAX;
  inv_seed : IsContourPoint img (point a) = true;
  inv_reach : Z.abs (vx p - vx (point a)) <= GetAccumulatedDistance a 0
              /\ Z.abs (vy p - vy (point a)) <= GetAccumulatedDistance a 1
              /\ Z.abs (vz p - vz (point a)) <= GetAccumulatedDistance a 2
}.

Definition image_inv (anns : AnnotatedImage) : Prop :=
  forall p a, anns !! p = Some a -> ann_inv p a.

(** *** Arithmetic of the path cost *)

Lemma uint32_int32 (x : Z) : uint32 (int32 x) = uint32 x.
Proof.
  unfold uint32, int32.
  rewrite Zminus_mod, Zmod_mod, <- Zminus_mod.
  f_equal. lia.
Qed.

Lemma uint32_small (x : Z) : 0 <= x < 4294967296 -> uint32 x = x.
Proof. intros. unfold uint32. by apply Z.mod_small. Qed.

Lemma int32_small (x : Z) : -2147483648 <= x < 2147483648 -> int32 x = x.
Proof. intros. unfold int32. rewrite Z.mod_small; lia. Qed.

Lemma square_bound (d s : Z) : 0 <= d -> d * d <= s -> s < INT32_MAX -> d <= 46340.
Proof. unfold INT32_MAX. intros. nia. Qed.

Lemma path_cost_exact (d0 d1 d2 e0 e1 e2 : Z) :
  0 <= d0 -> 0 <= d1 -> 0 <= d2 ->
  d0 * d0 + d1 * d1 + d2 * d2 < INT32_MAX ->
  0 <= e0 <= 1 -> 0 <= e1 <= 1 -> 0 <= e2 <= 1 ->
  int32 (d0 + e0) = d0 + e0 /\ int32 (d1 + e1) = d1 + e1 /\ int32 (d2 + e2) = d2 + e2 /\
  uint32 (uint32 (uint32 (0 + squared (d0 + e0)) + squared (d1 + e1)) + squared (d2 + e2))
    = (d0 + e0) * (d0 + e0) + (d1 + e1) * (d1 + e1) + (d2 + e2) * (d2 + e2).
Proof.
  intros H0 H1 H2 Hs E0 E1 E2.
  assert (0 <= d0 * d0) by nia. assert (0 <= d1 * d1) by nia. assert (0 <= d2 * d2) by nia.
  assert (B0 : d0 <= 46340) by (apply (square_bound d0 (d0 * d0 + d1 * d1 + d2 * d2)); lia).
  assert (B1 : d1 <= 46340) by (apply (square_bound d1 (d0 * d0 + d1 * d1 + d2 * d2)); lia).
  assert (B2 : d2 <= 46340) by (apply (square_bound d2 (d0 * d0 + d1 * d1 + d2 * d2)); lia).
  unfold INT32_MAX in Hs.
  split; [apply int32_small; lia|]. split; [apply int32_small; lia|].
  split; [apply int32_small; lia|].
  unfold squared. rewrite !uint32_int32.
  assert (S0 : 0 <= (d0 + e0) * (d0 + e0) <= d0 * d0 + 2 * 46340 + 1) by nia.
  assert (S1 : 0 <= (d1 + e1) * (d1 + e1) <= d1 * d1 + 2 * 46340 + 1) by nia.
  assert (S2 : 0 <= (d2 + e2) * (d2 + e2) <= d2 * d2 + 2 * 46340 + 1) by nia.
  rewrite (uint32_small ((d0 + e0) * (d0 + e0))) by lia.
  rewrite (uint32_small ((d1 + e1) * (d1 + e1))) by lia.
  rewrite (uint32_small ((d2 + e2) * (d2 + e2))) by lia.
  rewrite Z.add_0_l.
  rewrite (uint32_small ((d0 + e0) * (d0 + e0))) by lia.
  rewrite (uint32_small ((d0 + e0) * (d0 + e0) + (d1 + e1) * (d1 + e1))) by lia.
  apply uint32_small. lia.
Qed.

(** *** Neighbours inside the image differ by at most one per axis *)

Lemma neighbour_coordinate (d o s : Z) :
  0 <= d <= 2 -> 0 <= o < s -> s < 65536 -> 0 <= uint16 (d + o - 1) < s ->
  0 <= Z.abs (uint16 (d + o - 1) - o) <= 1.
Proof.
  intros Hd Ho Hs Hn. unfold uint16 in *.
  destruct (decide (d + o - 1 = -1)) as [E|NE].
  - rewrite E in Hn. change (-1 mod 65536) with 65535 in Hn. lia.
  - rewrite Z.mod_small by lia. lia.
Qed.

Lemma GetNeighbours_elem (o n : Voxel) :
  n ∈ GetNeighbours o ->
  exists dx dy dz, 0 <= dx <= 2 /\ 0 <= dy <= 2 /\ 0 <= dz <= 2 /\ n = PushPoint o dx dy dz.
Proof.
  unfold GetNeighbours. intros H.
  apply list_elem_of_bind in H as (dx & H & Hdx).
  apply list_elem_of_bind in H as (dy & H & Hdy).
  apply list_elem_of_bind in H as (dz & H & Hdz).
  exists dx, dy, dz.
  assert (forall d, d ∈ [0; 1; 2] -> 0 <= d <= 2) as R.
  { intros d Hd. repeat (apply elem_of_cons in Hd as [->|Hd]; [lia|]).
    by apply elem_of_nil in Hd. }
  split; [by apply R|]. split; [by apply R|]. split; [by apply R|].
  destruct (_ || _); [by apply list_elem_of_singleton in H|by apply elem_of_nil in H].
Qed.

Lemma neighbour_delta (o n : Voxel) :
  IsOffLimitsPoint img o = false -> IsOffLimitsPoint img n = false ->
  n ∈ GetNeighbours o ->
  0 <= Z.abs (vx n - vx o) <= 1 /\ 0 <= Z.abs (vy n - vy o) <= 1
  /\ 0 <= Z.abs (vz n - vz o) <= 1.
Proof.
  intros Ho Hn Hin.
  apply IsOffLimitsPoint_false in Ho, Hn.
  destruct Hfit as (Fx & Fy & Fz).
  destruct Ho as (Ox & Oy & Oz). destruct Hn as (Nx & Ny & Nz).
  apply GetNeighbours_elem in Hin as (dx & dy & dz & Hx & Hy & Hz & ->).
  simpl in *.
  split; [|split]; eapply neighbour_coordinate; eauto.
Qed.

(** *** Seeds and relaxations keep the invariant *)

Lemma IsContourPoint_limits (p : Voxel) :
  IsContourPoint img p = true -> IsOffLimitsPoint img p = false.
Proof. unfold IsContourPoint. by destruct (IsOffLimitsPoint img p). Qed.

Lemma IsObjectPoint_limits (p : Voxel) :
  IsObjectPoint img p = true -> IsOffLimitsPoint img p = false.
Proof. unfold IsObjectPoint. by destruct (IsOffLimitsPoint img p). Qed.

Lemma seed_inv (p : Voxel) (cl pl counter : Z) :
  IsContourPoint img p = true ->
  ann_inv p (mkAnnotation 0 (0, 0, 0) cl pl counter inserted p).
Proof.
  intros Hc.
  split; simpl; rewrite ?Z.sub_diag; unfold GetAccumulatedDistance; simpl;
    first [done | lia | by apply IsContourPoint_limits].
Qed.

Lemma removed_inv (p : Voxel) (a : Annotation) :
  ann_inv p a -> ann_inv p (with_status a removed).
Proof. intros []. by split. Qed.

Lemma relaxed_inv (origin neighbour : Voxel) (oa : Annotation)
    (limit cl pl tg : Z) (s : AnnotationStatus) :
  ann_inv origin oa -> neighbour ∈ GetNeighbours origin ->
  IsObjectPoint img neighbour = true ->
  GetConcatenatedPathCost origin oa neighbour < limit -> limit <= INT32_MAX ->
  s <> initial ->
  ann_inv neighbour
    (mkAnnotation (GetConcatenatedPathCost origin oa neighbour)
       (step_distance origin oa neighbour 0, step_distance origin oa neighbour 1,
        step_distance origin oa neighbour 2) cl pl tg s (point oa)).
Proof.
  intros [Hs Hl (N0 & N1 & N2) Hd Hb Hseed (R0 & R1 & R2)] Hin Hobj Hlt Hlim Hst.
  apply IsObjectPoint_limits in Hobj.
  destruct (neighbour_delta origin neighbour Hl Hobj Hin) as (E0 & E1 & E2).
  rewrite Hd in Hb. unfold sum_of_squares in Hb.
  destruct (path_cost_exact _ _ _ _ _ _ N0 N1 N2 Hb E0 E1 E2) as (I0 & I1 & I2 & Hcost).
  unfold GetConcatenatedPathCost, step_distance in *. simpl GetCoordinate in *.
  rewrite I0, I1, I2 in *.
  split; simpl; unfold sum_of_squares, GetAccumulatedDistance in *; simpl in *;
    first [done | lia].
Qed.

Lemma GetCurrentAnnotation_bound (anns : AnnotatedImage) (p : Voxel) :
  image_inv anns -> distance (GetCurrentAnnotation anns p) <= INT32_MAX.
Proof.
  intros Hinv. unfold GetCurrentAnnotation.
  destruct (anns !! p) as [a|] eqn:E; [|done].
  destruct (Hinv p a E). lia.
Qed.

Lemma GetCurrentAnnotation_status (anns : AnnotatedImage) (p : Voxel) :
  image_inv anns -> status (GetCurrentAnnotation anns p) <> inserted ->
  status (GetCurrentAnnotation anns p) <> removed -> anns !! p = None.
Proof.
  intros Hinv. unfold GetCurrentAnnotation.
  destruct (anns !! p) as [a|] eqn:E; [|done].
  destruct (Hinv p a E) as [Hs]. by destruct (status a).
Qed.

Lemma image_inv_insert (anns : AnnotatedImage) (p : Voxel) (a : Annotation) :
  image_inv anns -> ann_inv p a -> image_inv (<[p := a]> anns).
Proof.
  intros Hinv Ha q b. destruct (decide (p = q)) as [->|NE].
  - rewrite lookup_insert_eq. by intros [= <-].
  - rewrite lookup_insert_ne by done. apply Hinv.
Qed.

Lemma PropagateLabelToNeighbour_inv (origin neighbour : Voxel) (oa : Annotation)
    (st st' : Skeletonizer) :
  image_inv (annotations_ st) -> ann_inv origin oa ->
  neighbour ∈ GetNeighbours origin ->
  PropagateLabelToNeighbour img origin neighbour oa st = Ok st' ->
  image_inv (annotations_ st').
Proof.
  intros Hinv Ho Hin. unfold PropagateLabelToNeighbour.
  destruct (IsObjectPoint img neighbour) eqn:Hobj; simpl; [|by intros [= <-]].
  destruct (bool_decide _) eqn:Hrem; [by intros [= <-]|].
  destruct (_ <? _) eqn:Hlt; [|by intros [= <-]].
  apply Z.ltb_lt in Hlt.
  pose proof (GetCurrentAnnotation_bound _ neighbour Hinv) as Hb.
  destruct (bool_decide (_ ≠ inserted)) eqn:Hins; simpl.
  - destruct (Insert _ _) as [q|]; simpl; [|done].
    unfold AddPointAnnotation, TryAddAnnotation.
    destruct (annotations_ st !! neighbour); simpl; [done|].
    intros [= <-]. simpl. apply image_inv_insert; [done|].
    exact (relaxed_inv origin neighbour oa _ _ _ _ inserted Ho Hin Hobj Hlt Hb
             ltac:(done)).
  - destruct (IncreasePriority _ _ _) as [q|]; simpl; [|done].
    unfold ModifyAnnotation.
    destruct (annotations_ st !! neighbour); simpl; [|done].
    intros [= <-]. simpl. apply image_inv_insert; [done|].
    apply bool_decide_eq_false in Hins.
    refine (relaxed_inv origin neighbour oa _ _ _ _ _ Ho Hin Hobj Hlt Hb _).
    simpl. destruct (status (GetCurrentAnnotation (annotations_ st) neighbour)); try done.
    by destruct Hins.
Qed.

Lemma remove_minimum_inv (st st' : Skeletonizer) (p : Voxel) (a : Annotation) :
  image_inv (annotations_ st) -> remove_minimum st = Ok (p, a, st') ->
  image_inv (annotations_ st') /\ annotations_ st' !! p = Some a /\ status a = removed.
Proof.
  intros Hinv. unfold remove_minimum.
  destruct (Remove (queue st)) as [[key q]|]; simpl; [|done].
  unfold ReadAnnotation, SetPointAsRemoved, ModifyAnnotation.
  destruct (annotations_ st !! key_point key) as [b|] eqn:E; simpl; [|done].
  intros [= <- <- <-]. simpl.
  split; [|split; [by rewrite lookup_insert_eq|done]].
  apply image_inv_insert; [done|]. apply removed_inv. by apply Hinv.
Qed.

(** *** The contour stage annotates contour points only *)

Definition contour_inv (anns : AnnotatedImage) (labeled : list Voxel) : Prop :=
  (forall p a, anns !! p = Some a -> p ∈ labeled)
  /\ (forall p, p ∈ labeled -> IsContourPoint img p = true).

Lemma contour_loop_inv (fuel : nat) :
  forall cl anns labeled points_stack pl hb anns' labeled' pl' hb',
  contour_inv anns labeled ->
  contour_loop fuel img cl anns labeled points_stack pl hb
    = Ok (anns', labeled', pl', hb') ->
  contour_inv anns' labeled'.
Proof.
  induction fuel as [|fuel IH]; intros cl anns labeled [|cur points_stack] pl hb
    anns' labeled' pl' hb' Hinv; simpl; try done.
  - by intros [= <- <- <- <-].
  - by intros [= <- <- <- <-].
  - destruct (IsContourPoint img cur) eqn:Hc; [|by apply IH].
    unfold TryAddAnnotation. destruct (anns !! cur) as [b|] eqn:E; [by apply IH|].
    apply IH. destruct Hinv as [H1 H2]. split.
    + intros p a. destruct (decide (cur = p)) as [->|NE].
      * intros _. apply elem_of_app. right. by apply list_elem_of_singleton.
      * rewrite lookup_insert_ne by done. intros Hp.
        apply elem_of_app. left. by eapply H1.
    + intros p [Hp|Hp%list_elem_of_singleton]%elem_of_app; [by apply H2|by subst].
Qed.

Lemma contours_from_inv (fuel : nat) (points : list Voxel) :
  forall cl anns cc anns' cc',
  contour_inv anns (labeled_points_ cc) ->
  contours_from fuel img points cl anns cc = Ok (anns', cc') ->
  contour_inv anns' (labeled_points_ cc').
Proof.
  induction points as [|p points IH]; intros cl anns cc anns' cc' Hinv; simpl.
  - by intros [= <- <-].
  - destruct (IsContourPoint img p); simpl; [|by apply IH].
    destruct (contour_loop _ _ _ _ _ _ _ _) as [[[[anns1 labeled1] pl1] hb1]|] eqn:E;
      simpl; [|done].
    apply contour_loop_inv in E; [|done].
    destruct hb1; by apply IH.
Qed.

Lemma enqueue_seeds_inv (points : list Voxel) :
  forall st st',
  (forall p, p ∈ points -> IsContourPoint img p = true) ->
  (forall p a, annotations_ st !! p = Some a -> ann_inv p a \/ p ∈ points) ->
  enqueue_seeds points st = Ok st' -> image_inv (annotations_ st').
Proof.
  induction points as [|q points IH]; intros st st' Hc Hinv; simpl.
  - intros [= <-] p a Hp. destruct (Hinv p a Hp) as [|Hin]; [done|].
    by apply elem_of_nil in Hin.
  - destruct (Insert _ _) as [h|]; simpl; [|done].
    unfold InitialiseAnnotationOfSeedPoint, ReadAnnotation, ModifyAnnotation.
    destruct (annotations_ st !! q) as [b|] eqn:E; simpl; [|done].
    apply IH.
    + intros p Hp. apply Hc. by right.
    + simpl. intros p a. destruct (decide (q = p)) as [->|NE].
      * rewrite lookup_insert_eq. intros [= <-]. left. apply seed_inv, Hc. by left.
      * rewrite lookup_insert_ne by done. intros Hp.
        destruct (Hinv p a Hp) as [|Hin]; [by left|].
        apply elem_of_cons in Hin as [->|Hin]; [done|by right].
Qed.

Lemma InitialiseAndEnqueueSeedPoints_inv (fuel : nat) (st : Skeletonizer)
    (cc : ContourCalculator) :
  InitialiseAndEnqueueSeedPoints fuel img = Ok (st, cc) -> image_inv (annotations_ st).
Proof.
  unfold InitialiseAndEnqueueSeedPoints, ComputeContours.
  destruct (contours_from _ _ _ _ _ _) as [[anns cc1]|] eqn:E; simpl; [|done].
  apply contours_from_inv in E.
  2:{ split; simpl; [intros p a Hp; by rewrite lookup_empty in Hp|].
      intros p Hp. by apply elem_of_nil in Hp. }
  destruct E as [H1 H2].
  destruct (enqueue_seeds _ _) as [st1|] eqn:E1; simpl; [|done].
  intros [= <- <-]. eapply enqueue_seeds_inv; [exact H2| |exact E1].
  simpl. intros p a Hp. right. by eapply H1.
Qed.

(** *** The states of a run *)

(** The states the transform passes through: the state after the seeds are
    enqueued, after the minimum leaves the queue, and after each relaxation
    of a neighbour of a stored point. *)
Inductive reachable : Skeletonizer -> Prop :=
| reach_seeds fuel st cc :
    InitialiseAndEnqueueSeedPoints fuel img = Ok (st, cc) -> reachable st
| reach_remove st p a st' :
    reachable st -> remove_minimum st = Ok (p, a, st') -> reachable st'
| reach_relax st origin neighbour oa st' :
    reachable st -> annotations_ st !! origin = Some oa ->
    neighbour ∈ GetNeighbours origin ->
    PropagateLabelToNeighbour img origin neighbour oa st = Ok st' -> reachable st'.

Lemma reachable_inv (st : Skeletonizer) : reachable st -> image_inv (annotations_ st).
Proof.
  induction 1 as [fuel st cc H|st p a st' _ IH H|st origin neighbour oa st' _ IH Ho Hn H].
  - by eapply InitialiseAndEnqueueSeedPoints_inv.
  - by apply (remove_minimum_inv _ _ _ _ IH H).
  - eapply PropagateLabelToNeighbour_inv; [exact IH|by apply IH|exact Hn|exact H].
Qed.

Lemma PropagateLabelToNeighbour_origin (origin neighbour : Voxel) (oa : Annotation)
    (st st' : Skeletonizer) :
  annotations_ st !! origin = Some oa -> status oa = removed ->
  PropagateLabelToNeighbour img origin neighbour oa st = Ok st' ->
  annotations_ st' !! origin = Some oa.
Proof.
  intros Ho Hs. unfold PropagateLabelToNeighbour.
  destruct (IsObjectPoint img neighbour); simpl; [|by intros [= <-]].
  destruct (bool_decide _) eqn:Hrem; [by intros [= <-]|].
  apply bool_decide_eq_false in Hrem.
  assert (neighbour <> origin) as NE.
  { intros ->. apply Hrem. unfold GetCurrentAnnotation. by rewrite Ho. }
  destruct (_ <? _); [|by intros [= <-]].
  destruct (bool_decide (_ ≠ inserted)); simpl.
  - destruct (Insert _ _) as [q|]; simpl; [|done].
    unfold AddPointAnnotation, TryAddAnnotation.
    destruct (annotations_ st !! neighbour); simpl; [done|].
    intros [= <-]. simpl. by rewrite lookup_insert_ne.
  - destruct (IncreasePriority _ _ _) as [q|]; simpl; [|done].
    unfold ModifyAnnotation.
    destruct (annotations_ st !! neighbour); simpl; [|done].
    intros [= <-]. simpl. by rewrite lookup_insert_ne.
Qed.

Lemma propagate_to_reachable (origin : Voxel) (oa : Annotation) (neighbours : list Voxel) :
  forall st st',
  reachable st -> annotations_ st !! origin = Some oa -> status oa = removed ->
  (forall n, n ∈ neighbours -> n ∈ GetNeighbours origin) ->
  propagate_to img origin neighbours oa st = Ok st' -> reachable st'.
Proof.
  induction neighbours as [|n neighbours IH]; intros st st' Hr Ho Hs Hn; simpl.
  - by intros [= <-].
  - destruct (PropagateLabelToNeighbour img origin n oa st) as [st1|] eqn:E; simpl; [|done].
    apply IH.
    + eapply reach_relax; [exact Hr|exact Ho| |exact E]. apply Hn. by left.
    + by eapply PropagateLabelToNeighbour_origin.
    + done.
    + intros m Hm. apply Hn. by right.
Qed.

Lemma ExecuteIftIterations_reachable (fuel : nat) :
  forall st st', reachable st -> ExecuteIftIterations fuel img st = Ok st' -> reachable st'.
Proof.
  induction fuel as [|fuel IH]; intros st st' Hr; simpl.
  - destruct (HasElements (queue st)); [done|by intros [= <-]].
  - destruct (HasElements (queue st)); [|by intros [= <-]].
    destruct (remove_minimum st) as [[[p a] st1]|] eqn:E; simpl; [|done].
    unfold PropagateLabelToNeighboursIfApplicable.
    destruct (propagate_to _ _ _ _ _) as [st2|] eqn:E2; simpl; [|done].
    apply IH.
    destruct (remove_minimum_inv _ _ _ _ (reachable_inv _ Hr) E) as (_ & Hp & Hs).
    eapply propagate_to_reachable; [|exact Hp|exact Hs| |exact E2]; [|done].
    by eapply reach_remove.
Qed.

Lemma ComputeSkeleton_reachable (fuel : nat) (st : Skeletonizer) :
  ComputeSkeleton fuel img = Ok st -> reachable st.
Proof.
  unfold ComputeSkeleton.
  destruct (InitialiseAndEnqueueSeedPoints fuel img) as [[st0 cc]|] eqn:E; simpl; [|done].
  apply ExecuteIftIterations_reachable. by eapply reach_seeds.
Qed.

Lemma seed_distance_bound (p : Voxel) (a : Annotation) :
  ann_inv p a -> GetSquaredDistance p (point a) <= distance a.
Proof.
  intros [_ _ (N0 & N1 & N2) Hd _ _ (R0 & R1 & R2)].
  rewrite Hd. unfold sum_of_squares, GetSquaredDistance. nia.
Qed.

End IftProofs.

(** C7: in every state of the transform -- after the seeds are initialised,
    after a point leaves the queue and after every relaxation of a neighbour --
    each annotation satisfies
    distance = displacements[0]^2 + displacements[1]^2 + displacements[2]^2. *)
Theorem ift_distance_is_sum_of_squared_displacements
    (img : TernaryImage) (st : Skeletonizer.Skeletonizer) (p : Voxel) (a : Annotation) :
  sizes_fit img -> reachable img st ->
  Skeletonizer.annotations_ st !! p = Some a ->
  distance a = sum_of_squares a.
Proof.
  intros Hfit Hr Hp. by destruct (reachable_inv img Hfit st Hr p a Hp).
Qed.

Lemma ift_distance_is_sum_of_squared_displacements_witness :
  sizes_fit Examples.line_img
  /\ Skeletonizer.ComputeSkeleton 10 Examples.line_img
     = Ok (Examples.skeleton_of 10 Examples.line_img)
  /\ Skeletonizer.annotations_ (Examples.skeleton_of 10 Examples.line_img) !! mkVoxel 2 0 0
     = Some Examples.line_annotation
  /\ distance Examples.line_annotation = sum_of_squares Examples.line_annotation.
Proof.
  assert (Hfit : sizes_fit Examples.line_img) by (by vm_compute).
  assert (Hrun : Skeletonizer.ComputeSkeleton 10 Examples.line_img
                 = Ok (Examples.skeleton_of 10 Examples.line_img))
    by (vm_compute; reflexivity).
  assert (Hp : Skeletonizer.annotations_ (Examples.skeleton_of 10 Examples.line_img)
               !! mkVoxel 2 0 0 = Some Examples.line_annotation)
    by (vm_compute; reflexivity).
  split; [exact Hfit|]. split; [exact Hrun|]. split; [exact Hp|].
  apply (ift_distance_is_sum_of_squared_displacements Examples.line_img
           (Examples.skeleton_of 10 Examples.line_img) (mkVoxel 2 0 0)); [exact Hfit| |exact Hp].
  exact (ComputeSkeleton_reachable Examples.line_img Hfit 10 _ Hrun).
Defined.

(** C1 (as amended): after [ComputeSkeleton] returns, the point recorded in an
    annotation is a contour voxel and the annotated distance is at least the
    squared Euclidean distance from the annotated voxel to that contour voxel:
    the distance never underestimates the minimum over the contour voxels. *)
Theorem ift_distance_bounds_distance_to_seed
    (img : TernaryImage) (fuel : nat) (st : Skeletonizer.Skeletonizer)
    (p : Voxel) (a : Annotation) :
  sizes_fit img -> Skeletonizer.ComputeSkeleton fuel img = Ok st ->
  Skeletonizer.annotations_ st !! p = Some a ->
  IsContourPoint img (point a) = true
  /\ GetSquaredDistance p (point a) <= distance a.
Proof.
  intros Hfit Hrun Hp.
  pose proof (reachable_inv img Hfit st (ComputeSkeleton_reachable img Hfit fuel st Hrun) p a Hp)
    as Hinv.
  split; [by destruct Hinv|by apply (seed_distance_bound img)].
Qed.

Lemma ift_distance_bounds_distance_to_seed_witness :
  sizes_fit Examples.plane_img
  /\ Skeletonizer.ComputeSkeleton 200 Examples.plane_img
     = Ok (Examples.skeleton_of 200 Examples.plane_img)
  /\ Skeletonizer.annotations_ (Examples.skeleton_of 200 Examples.plane_img) !! mkVoxel 0 0 0
     = Some Examples.plane_annotation
  /\ IsContourPoint Examples.plane_img (point Examples.plane_annotation) = true
  /\ GetSquaredDistance (mkVoxel 0 0 0) (point Examples.plane_annotation)
     <= distance Examples.plane_annotation.
Proof.
  assert (Hfit : sizes_fit Examples.plane_img) by (by vm_compute).
  assert (Hrun : Skeletonizer.ComputeSkeleton 200 Examples.plane_img
                 = Ok (Examples.skeleton_of 200 Examples.plane_img))
    by (vm_compute; reflexivity).
  assert (Hp : Skeletonizer.annotations_ (Examples.skeleton_of 200 Examples.plane_img)
               !! mkVoxel 0 0 0 = Some Examples.plane_annotation)
    by (vm_compute; reflexivity).
  split; [exact Hfit|]. split; [exact Hrun|]. split; [exact Hp|].
  exact (ift_distance_bounds_distance_to_seed Examples.plane_img 200 _ _ _ Hfit Hrun Hp).
Defined.

(** Against C1 as stated: on the 8 x 14 x 1 image the pore voxel (0,0,0) is
    annotated with distance 170, while the contour voxel (5,12,0) lies at
    squared distance 169. *)
Lemma ift_distance_not_minimal :
  Skeletonizer.ComputeSkeleton 200 Examples.plane_img
    = Ok (Examples.skeleton_of 200 Examples.plane_img)
  /\ IsObjectPoint Examples.plane_img (mkVoxel 0 0 0) = true
  /\ distance <$> (Skeletonizer.annotations_ (Examples.skeleton_of 200 Examples.plane_img)
                   !! mkVoxel 0 0 0) = Some 170
  /\ IsContourPoint Examples.plane_img (mkVoxel 5 12 0) = true
  /\ GetSquaredDistance (mkVoxel 0 0 0) (mkVoxel 5 12 0) = 169.
Proof. vm_compute. by repeat split. Qed.

(** ** Cluster labelling *)

Section ClusterProofs.
Import ClusterLabel.

(** A link points to a smaller, positive label. *)
Definition links_ok (n : list Z) : Prop :=
  forall t v, n !! t = Some v -> v < 0 -> 0 < - v < Z.of_nat t.

(** A label without a link: the end of its own alias chain. *)
Definition proper_label (n : list Z) (x : Z) : Prop :=
  0 <= x /\ forall v, n !! Z.to_nat x = Some v -> 0 <= v.

(** The static variables agree with the links: the remembered label is
    proper and remembered as itself, or it is linked to the remembered
    proper label. *)
Definition valid (n : list Z) (c : Cache) : Prop :=
  (prev_proper c = prev_label c /\ proper_label n (prev_label c))
  \/ (0 <= prev_label c /\ n !! Z.to_nat (prev_label c) = Some (- prev_proper c)
      /\ 0 < prev_proper c /\ proper_label n (prev_proper c)).

(** The remembered label has been linked since it was remembered. *)
Definition stale (n : list Z) (c : Cache) : Prop :=
  0 < prev_proper c <= prev_label c
  /\ exists v, n !! Z.to_nat (prev_label c) = Some v /\ v < 0.

Definition semi_valid (n : list Z) (c : Cache) : Prop := valid n c \/ stale n c.

(** [n'] has the links of [n], and the same labels without a link. *)
Definition same_links (n n' : list Z) : Prop :=
  length n' = length n
  /\ forall t v, n !! t = Some v ->
       (v < 0 -> n' !! t = Some v) /\ (0 <= v -> exists w, n' !! t = Some w /\ 0 <= w).

(** [n'] has links where [n] has, and agrees with [n] elsewhere. *)
Definition compressed (n n' : list Z) : Prop :=
  length n' = length n
  /\ forall t v, n !! t = Some v ->
       (v < 0 -> exists w, n' !! t = Some w /\ w < 0) /\ (0 <= v -> n' !! t = Some v).

Lemma elem_Ok {A} (v : list A) (x : Z) (a : A) :
  elem v x = Ok a <-> 0 <= x /\ v !! Z.to_nat x = Some a.
Proof.
  unfold elem. case_bool_decide; [|split; [done|lia]].
  rewrite vec_at_Ok. tauto.
Qed.

Lemma set_elem_Ok {A} (v v' : list A) (x : Z) (a : A) :
  set_elem v x a = Ok v' <->
  0 <= x /\ (Z.to_nat x < length v)%nat /\ v' = <[Z.to_nat x := a]> v.
Proof.
  unfold set_elem. split.
  - intros H. apply bind_Ok in H as (b & Hb & [= <-]). apply elem_Ok in Hb as [? Hb].
    apply lookup_lt_Some in Hb. done.
  - intros (H0 & Hlt & ->). apply lookup_lt_is_Some_2 in Hlt as [b Hb].
    by rewrite (proj2 (elem_Ok v x b) (conj H0 Hb)).
Qed.

Lemma links_ok_no_link (n : list Z) (x : Z) :
  links_ok n -> 0 <= x <= 1 -> proper_label n x.
Proof.
  intros Hl Hx. split; [lia|]. intros v Hv.
  destruct (Z.lt_ge_cases v 0) as [Hneg|]; [|done].
  specialize (Hl _ _ Hv Hneg). lia.
Qed.

Lemma compressed_refl (n : list Z) : compressed n n.
Proof. split; [done|]. intros t v Hv. split; eauto. Qed.

Lemma compressed_trans (n1 n2 n3 : list Z) :
  compressed n1 n2 -> compressed n2 n3 -> compressed n1 n3.
Proof.
  intros [L1 H1] [L2 H2]. split; [congruence|].
  intros t v Hv. destruct (H1 t v Hv) as [Hn Hp]. split.
  - intros Hneg. destruct (Hn Hneg) as (w & Hw & Hwn). by apply (H2 t w Hw).
  - intros Hpos. by apply (H2 t v (Hp Hpos)).
Qed.

Lemma same_links_refl (n : list Z) : same_links n n.
Proof. split; [done|]. intros t v Hv. split; eauto. Qed.

Lemma proper_label_compressed (n n' : list Z) (x : Z) :
  compressed n n' -> proper_label n x -> proper_label n' x.
Proof.
  intros [Hlen H] [H0 Hx]. split; [done|]. intros v' Hv'.
  destruct (lookup_lt_is_Some_2 n (Z.to_nat x)) as [v Hv].
  { rewrite <- Hlen. by eapply lookup_lt_Some. }
  destruct (H _ _ Hv) as [_ Hp]. specialize (Hp (Hx _ Hv)).
  rewrite Hp in Hv'. injection Hv' as <-. by apply Hx.
Qed.

Lemma proper_label_same_links (n n' : list Z) (x : Z) :
  same_links n n' -> proper_label n x -> proper_label n' x.
Proof.
  intros [Hlen H] [H0 Hx]. split; [done|]. intros v' Hv'.
  destruct (lookup_lt_is_Some_2 n (Z.to_nat x)) as [v Hv].
  { rewrite <- Hlen. by eapply lookup_lt_Some. }
  destruct (H _ _ Hv) as [_ Hp]. destruct (Hp (Hx _ Hv)) as (w & Hw & Hw0).
  rewrite Hw in Hv'. by injection Hv' as <-.
Qed.

Lemma links_ok_same_links (n n' : list Z) :
  same_links n n' -> links_ok n -> links_ok n'.
Proof.
  intros [Hlen H] Hl t v' Hv' Hneg.
  destruct (lookup_lt_is_Some_2 n t) as [v Hv].
  { rewrite <- Hlen. by eapply lookup_lt_Some. }
  destruct (H _ _ Hv) as [Hn Hp].
  destruct (Z.lt_ge_cases v 0) as [Hv0|Hv0].
  - rewrite (Hn Hv0) in Hv'. injection Hv' as <-. by apply (Hl t).
  - destruct (Hp Hv0) as (w & Hw & Hw0). rewrite Hw in Hv'. injection Hv' as <-. lia.
Qed.

Lemma valid_same_links (n n' : list Z) (c : Cache) :
  same_links n n' -> valid n c -> valid n' c.
Proof.
  intros Hs [[HP HL]|(H0 & Hn & HP & Hp)].
  - left. split; [done|]. by eapply proper_label_same_links.
  - right. split; [done|]. split; [|split; [done|by eapply proper_label_same_links]].
    destruct Hs as [_ Hs]. apply (Hs _ _ Hn). lia.
Qed.

Lemma same_links_insert (n : list Z) (t : nat) (v w : Z) :
  n !! t = Some v -> 0 <= v -> 0 <= w -> same_links n (<[t := w]> n).
Proof.
  intros Hv Hv0 Hw0. split; [by rewrite length_insert|].
  intros t' v' Hv'. destruct (decide (t = t')) as [<-|NE].
  - rewrite Hv in Hv'. injection Hv' as <-. split; [lia|]. intros _.
    exists w. split; [|done]. apply list_lookup_insert_eq. by eapply lookup_lt_Some.
  - rewrite list_lookup_insert_ne by done. split; eauto.
Qed.

(** *** HKProper *)

Lemma follow_links_spec (fuel : nat) (n : list Z) :
  links_ok n -> forall x p, follow_links fuel n x = Ok p ->
  proper_label n p /\ 0 <= p <= x
  /\ (exists v, n !! Z.to_nat p = Some v)
  /\ (p <> x -> 0 < p /\ exists v, n !! Z.to_nat x = Some v /\ v < 0).
Proof.
  intros Hl. induction fuel as [|fuel IH]; intros x p; simpl; intros H;
    apply bind_Ok in H as (v & Hv & H); apply elem_Ok in Hv as [Hx Hv];
    destruct (v <? 0) eqn:Hneg.
  - done.
  - injection H as <-. apply Z.ltb_ge in Hneg. split; [|split; [lia|split; [eauto|done]]].
    split; [done|]. intros v'. rewrite Hv. by intros [= <-].
  - apply Z.ltb_lt in Hneg. pose proof (Hl _ _ Hv Hneg) as Hlink.
    rewrite Z2Nat.id in Hlink by done.
    destruct (IH _ _ H) as (Hp & Hb & He & Hne).
    split; [done|]. split; [lia|]. split; [done|]. intros _.
    split; [|eauto]. destruct (decide (p = - v)) as [->|NE]; [lia|]. by apply Hne.
  - injection H as <-. apply Z.ltb_ge in Hneg. split; [|split; [lia|split; [eauto|done]]].
    split; [done|]. intros v'. rewrite Hv. by intros [= <-].
Qed.

Lemma HKProper_hit (fuel : nat) (x : Z) (n : list Z) (c : Cache) :
  prev_label c = x -> HKProper fuel x n c = Ok (prev_proper c, n, c).
Proof. unfold HKProper. intros ->. by rewrite Z.eqb_refl. Qed.

Lemma HKProper_miss (fuel : nat) (x : Z) (n : list Z) (c : Cache)
    (p : Z) (n' : list Z) (c' : Cache) :
  links_ok n -> prev_label c <> x -> HKProper fuel x n c = Ok (p, n', c') ->
  links_ok n' /\ valid n' c' /\ proper_label n' p /\ 0 <= p <= x /\ compressed n n'
  /\ (proper_label n x -> p = x /\ n' = n).
Proof.
  intros Hl Hne. unfold HKProper.
  destruct (prev_label c =? x) eqn:E; [by apply Z.eqb_eq in E|]. clear E.
  intros H. apply bind_Ok in H as (q & Hq & H).
  destruct (follow_links_spec fuel n Hl _ _ Hq) as (Hp & Hb & He & Hlink).
  case_bool_decide as Hpx.
  - destruct (Hlink Hpx) as (Hp0 & v & Hv & Hneg).
    apply bind_Ok in H as (m & Hm & [= <- <- <-]).
    apply set_elem_Ok in Hm as (Hx0 & Hlt & ->).
    assert (Hqx : Z.to_nat q <> Z.to_nat x) by lia.
    assert (Hproper : proper_label (<[Z.to_nat x := - q]> n) q).
    { destruct Hp as [? Hp]. split; [done|]. intros w.
      rewrite list_lookup_insert_ne by done. apply Hp. }
    split; [|split; [|split; [done|split; [done|split]]]].
    + intros t w Hw Hw0. destruct (decide (t = Z.to_nat x)) as [->|NE].
      * rewrite list_lookup_insert_eq in Hw by done. injection Hw as <-. lia.
      * rewrite list_lookup_insert_ne in Hw by done. by apply (Hl t).
    + right. simpl. rewrite list_lookup_insert_eq by done. done.
    + split; [by rewrite length_insert|]. intros t w Hw.
      destruct (decide (t = Z.to_nat x)) as [->|NE].
      * rewrite Hv in Hw. injection Hw as <-. rewrite list_lookup_insert_eq by done.
        split; [intros _; exists (- q); split; [done|lia]|lia].
      * rewrite list_lookup_insert_ne by done. split; eauto.
    + intros [_ Hx]. specialize (Hx _ Hv). lia.
  - injection H as <- <- <-. assert (q = x) as -> by (destruct (decide (q = x)); done).
    split; [done|]. split; [by left|]. split; [done|]. split; [lia|].
    split; [apply compressed_refl|done].
Qed.

Lemma HKProper_valid (fuel : nat) (x : Z) (n : list Z) (c : Cache)
    (p : Z) (n' : list Z) (c' : Cache) :
  links_ok n -> valid n c -> HKProper fuel x n c = Ok (p, n', c') ->
  links_ok n' /\ valid n' c' /\ proper_label n' p /\ 0 <= p <= x /\ compressed n n'
  /\ (proper_label n x -> p = x /\ n' = n).
Proof.
  intros Hl Hv H. destruct (decide (prev_label c = x)) as [E|NE];
    [|by eapply HKProper_miss].
  rewrite (HKProper_hit fuel x n c E) in H. injection H as <- <- <-.
  split; [done|]. split; [done|].
  destruct Hv as [[HP HL]|(H0 & Hn & HP & Hp)].
  - rewrite HP, E in *. split; [done|]. destruct HL. split; [lia|].
    split; [apply compressed_refl|done].
  - split; [done|]. pose proof (Hl _ _ Hn ltac:(lia)) as Hlink.
    rewrite Z2Nat.id in Hlink by done. split; [lia|]. split; [apply compressed_refl|].
    rewrite E in Hn. intros [_ Hx]. specialize (Hx _ Hn). lia.
Qed.

Lemma HKProper_semi (fuel : nat) (x : Z) (n : list Z) (c : Cache)
    (p : Z) (n' : list Z) (c' : Cache) :
  links_ok n -> semi_valid n c -> HKProper fuel x n c = Ok (p, n', c') ->
  links_ok n' /\ semi_valid n' c' /\ 0 <= p <= x /\ compressed n n'
  /\ (valid n c \/ proper_label n x -> valid n' c' /\ proper_label n' p).
Proof.
  intros Hl [Hv|Hs] H.
  - destruct (HKProper_valid _ _ _ _ _ _ _ Hl Hv H) as (? & ? & ? & ? & ? & _).
    split; [done|]. split; [by left|]. done.
  - destruct (decide (prev_label c = x)) as [E|NE].
    + rewrite (HKProper_hit fuel x n c E) in H. injection H as <- <- <-.
      split; [done|]. split; [by right|]. destruct Hs as (Hb & v & Hv & Hneg).
      split; [lia|]. split; [apply compressed_refl|].
      intros [Hval|[_ Hx]].
      * split; [done|]. destruct Hval as [[_ [_ HL]]|(_ & _ & _ & Hp)]; [|done].
        specialize (HL _ Hv). lia.
      * rewrite E in Hv. specialize (Hx _ Hv). lia.
    + destruct (HKProper_miss _ _ _ _ _ _ _ Hl NE H) as (? & ? & ? & ? & ? & _).
      split; [done|]. split; [by left|]. done.
Qed.

(** *** The calls of one site *)

Lemma previous_labels_spec (fuel : nat) (cube : Cube) (bound : Z) (ss : list neighbour) :
  forall n c ps n' c',
  links_ok n -> semi_valid n c ->
  (forall s x, s ∈ ss -> neighbour_label cube 0 s = Ok x -> x <= bound) ->
  (forall s x, last ss = Some s -> neighbour_label cube 0 s = Ok x ->
     valid n c \/ proper_label n x) ->
  previous_labels fuel cube ss n c = Ok (ps, n', c') ->
  links_ok n' /\ compressed n n' /\ Forall (fun p => 0 <= p <= bound) ps
  /\ semi_valid n' c' /\ (ss <> [] -> valid n' c').
Proof.
  induction ss as [|s rest IH]; intros n c ps n' c' Hl Hs Hb Hlast; simpl.
  - intros [= <- <- <-]. split; [done|]. split; [apply compressed_refl|]. done.
  - intros H. apply bind_Ok in H as (x & Hx & H).
    apply bind_Ok in H as ([[p n1] c1] & Hp & H).
    apply bind_Ok in H as ([[ps1 n2] c2] & Hrest & [= <- <- <-]).
    destruct (HKProper_semi _ _ _ _ _ _ _ Hl Hs Hp) as (Hl1 & Hs1 & Hpb & Hc1 & Hv1).
    assert (Hxb : x <= bound) by (apply (Hb s); [by left|done]).
    destruct rest as [|s' rest'].
    + simpl in Hrest. injection Hrest as <- <- <-.
      split; [done|]. split; [done|]. split; [constructor; [lia|constructor]|].
      split; [done|]. intros _. by apply Hv1, (Hlast s).
    + destruct (IH n1 c1 ps1 n2 c2 Hl1 Hs1) as (Hl2 & Hc2 & Hps & Hs2 & Hv2); [| |done|].
      * intros s0 x0 Hin. apply Hb. by right.
      * intros s0 x0 Hs0 Hx0. destruct (Hlast s0 x0 Hs0 Hx0) as [Hv|Hpr].
        -- left. by apply Hv1; left.
        -- right. by eapply proper_label_compressed.
      * split; [done|]. split; [by eapply compressed_trans|].
        split; [constructor; [lia|done]|]. split; [done|]. intros _. by apply Hv2.
Qed.

Lemma transform_valid (fuel : nat) (labels : list Z) :
  forall n c ps n' c',
  links_ok n -> valid n c -> transform fuel labels n c = Ok (ps, n', c') ->
  links_ok n' /\ valid n' c' /\ compressed n n' /\ Forall (proper_label n') ps
  /\ Forall2 (fun x p => 0 <= p <= x) labels ps.
Proof.
  induction labels as [|x labels IH]; intros n c ps n' c' Hl Hv; simpl.
  - intros [= <- <- <-]. split; [done|]. split; [done|].
    split; [apply compressed_refl|]. split; constructor.
  - intros H. apply bind_Ok in H as ([[p n1] c1] & Hp & H).
    apply bind_Ok in H as ([[ps1 n2] c2] & Hrest & [= <- <- <-]).
    destruct (HKProper_valid _ _ _ _ _ _ _ Hl Hv Hp) as (Hl1 & Hv1 & Hpp & Hpb & Hc1 & _).
    destruct (IH _ _ _ _ _ Hl1 Hv1 Hrest) as (Hl2 & Hv2 & Hc2 & Hps & Hbs).
    split; [done|]. split; [done|]. split; [by eapply compressed_trans|].
    split; constructor; try done. by eapply proper_label_compressed.
Qed.

(** *** unique, fill and map_result *)

Fixpoint ascending (s : list Z) : Prop :=
  match s with
  | [] => True
  | x :: s' => (forall y, y ∈ s' -> x < y) /\ ascending s'
  end.

Lemma insert_unique_elem (x : Z) (s : list Z) (y : Z) :
  y ∈ insert_unique x s <-> y = x \/ y ∈ s.
Proof.
  induction s as [|z s IH]; simpl.
  - rewrite list_elem_of_singleton, elem_of_nil. tauto.
  - destruct (x <? z) eqn:E1; [by rewrite elem_of_cons|].
    destruct (x =? z) eqn:E2.
    + apply Z.eqb_eq in E2 as ->. rewrite elem_of_cons. tauto.
    + rewrite !elem_of_cons, IH. tauto.
Qed.

Lemma insert_unique_ascending (x : Z) (s : list Z) :
  ascending s -> ascending (insert_unique x s).
Proof.
  induction s as [|z s IH]; simpl.
  - intros _. split; [|done]. intros y Hy. by apply elem_of_nil in Hy.
  - intros [Hz Hs]. destruct (x <? z) eqn:E1.
    + apply Z.ltb_lt in E1. split; [|done].
      intros y [->|Hy]%elem_of_cons; [done|]. specialize (Hz y Hy). lia.
    + destruct (x =? z) eqn:E2; [done|].
      apply Z.ltb_ge in E1. apply Z.eqb_neq in E2. split; [|by apply IH].
      intros y [->|Hy]%insert_unique_elem; [lia|by apply Hz].
Qed.

Lemma unique_elem (v : list Z) (y : Z) : y ∈ unique v <-> y ∈ v.
Proof.
  unfold unique. induction v as [|x v IH]; simpl; [done|].
  rewrite insert_unique_elem, elem_of_cons, IH. tauto.
Qed.

Lemma unique_ascending (v : list Z) : ascending (unique v).
Proof.
  unfold unique. induction v as [|x v IH]; simpl; [done|].
  by apply insert_unique_ascending.
Qed.

Lemma nonzero_elem (v : list Z) (y : Z) : y ∈ nonzero v <-> y <> 0 /\ y ∈ v.
Proof. unfold nonzero. by rewrite list_elem_of_filter. Qed.

Lemma fill_spec {A} (indices : list Z) (a : A) :
  forall v v', fill v indices a = Ok v' ->
  length v' = length v
  /\ (forall x, x ∈ indices -> 0 <= x /\ v' !! Z.to_nat x = Some a)
  /\ (forall t, (forall x, x ∈ indices -> Z.to_nat x <> t) -> v' !! t = v !! t).
Proof.
  unfold fill. induction indices as [|x indices IH]; intros v v'; simpl.
  - intros [= <-]. split; [done|]. split; [|done]. intros x Hx. by apply elem_of_nil in Hx.
  - intros H. apply bind_Ok in H as (v1 & Hv1 & H).
    apply set_elem_Ok in Hv1 as (Hx0 & Hlt & ->).
    destruct (IH _ _ H) as (Hlen & Hin & Hout). rewrite length_insert in Hlen.
    split; [done|]. split.
    + intros y [->|Hy]%elem_of_cons; [|by apply Hin]. split; [done|].
      destruct (decide (x ∈ indices)) as [Hx|Hx]; [by apply Hin|].
      rewrite Hout.
      * by apply list_lookup_insert_eq.
      * intros y Hy E. destruct (Hin y Hy) as [Hy0 _].
        assert (y = x) as -> by lia. done.
    + intros t Ht. rewrite Hout.
      * apply list_lookup_insert_ne. apply Ht. by left.
      * intros y Hy. apply Ht. by right.
Qed.

Lemma map_result_spec {A B} (f : A -> result B) (xs : list A) :
  forall ys, map_result f xs = Ok ys -> Forall2 (fun x y => f x = Ok y) xs ys.
Proof.
  induction xs as [|x xs IH]; intros ys; simpl.
  - intros [= <-]. constructor.
  - intros H. apply bind_Ok in H as (y & Hy & H).
    apply bind_Ok in H as (ys' & Hys & [= <-]). constructor; [done|by apply IH].
Qed.

Lemma sizes_nonneg (n : list Z) (tail sizes : list Z) :
  Forall (proper_label n) tail -> Forall2 (fun x y => elem n x = Ok y) tail sizes ->
  0 <= foldr Z.add 0 sizes.
Proof.
  intros Hp H. induction H as [|x y tail sizes Hxy _ IH]; simpl; [done|].
  apply Forall_cons in Hp as [[_ Hx] Hp]. apply elem_Ok in Hxy as [_ Hxy].
  specialize (Hx _ Hxy). specialize (IH Hp). lia.
Qed.

(** *** The invariant of the sweep *)

Record sweep_inv (st : State) : Prop := mk_sweep_inv {
  inv_links : links_ok (n st);
  inv_cache : semi_valid (n st) (cache st);
  inv_linked : forall t v, n st !! t = Some v -> v < 0 -> Z.of_nat t <= largest_label st;
  inv_labels : forall m x, mem (l st) !! m = Some x -> 0 <= x <= Z.max 1 (largest_label st);
  inv_largest : 0 <= largest_label st
}.

Lemma cube_at_Ok (c : Cube) (i j k : nat) (x : Z) :
  cube_at c i j k = Ok x <-> cube_get c i j k = Some x.
Proof. unfold cube_at. destruct (cube_get c i j k); split; congruence. Qed.

Lemma cube_get_mem (c : Cube) (i j k : nat) (x : Z) :
  cube_get c i j k = Some x ->
  in_cube c i j k = true /\ mem c !! cube_index c i j k = Some x.
Proof. unfold cube_get. by destruct (in_cube c i j k). Qed.

Lemma cube_get_set_same (c : Cube) (i j k : nat) (v x : Z) :
  cube_get (cube_set c i j k v) i j k = Some x -> x = v.
Proof.
  intros H. apply cube_get_mem in H as [_ H]. simpl in H.
  change (cube_index (cube_set c i j k v) i j k) with (cube_index c i j k) in H.
  apply list_lookup_insert_Some in H as [(_ & -> & _)|[? _]]; done.
Qed.

Lemma mem_cube_set (c : Cube) (i j k : nat) (v : Z) (m : nat) (x : Z) :
  mem (cube_set c i j k v) !! m = Some x -> x = v \/ mem c !! m = Some x.
Proof.
  simpl. intros H. apply list_lookup_insert_Some in H as [(_ & -> & _)|[_ H]]; auto.
Qed.

Lemma linked_compressed (n n' : list Z) (P : nat -> Prop) :
  compressed n n' ->
  (forall t v, n !! t = Some v -> v < 0 -> P t) ->
  forall t v, n' !! t = Some v -> v < 0 -> P t.
Proof.
  intros [Hlen H] HP t v' Hv' Hneg.
  destruct (lookup_lt_is_Some_2 n t) as [v Hv].
  { rewrite <- Hlen. by eapply lookup_lt_Some. }
  destruct (Z.lt_ge_cases v 0) as [Hv0|Hv0]; [by eapply HP|].
  destruct (H _ _ Hv) as [_ Hp]. rewrite (Hp Hv0) in Hv'. injection Hv' as <-. lia.
Qed.

Lemma linked_same_links (n n' : list Z) (P : nat -> Prop) :
  same_links n n' ->
  (forall t v, n !! t = Some v -> v < 0 -> P t) ->
  forall t v, n' !! t = Some v -> v < 0 -> P t.
Proof.
  intros [Hlen H] HP t v' Hv' Hneg.
  destruct (lookup_lt_is_Some_2 n t) as [v Hv].
  { rewrite <- Hlen. by eapply lookup_lt_Some. }
  destruct (Z.lt_ge_cases v 0) as [Hv0|Hv0]; [by eapply HP|].
  destruct (H _ _ Hv) as [_ Hp]. destruct (Hp Hv0) as (w & Hw & Hw0).
  rewrite Hw in Hv'. injection Hv' as <-. lia.
Qed.

Lemma neighbour_label_bound (st : State) (s : neighbour) (x : Z) :
  sweep_inv st -> neighbour_label (l st) 0 s = Ok x ->
  x <= Z.max 1 (largest_label st).
Proof.
  intros Hinv. destruct s as [inside [[i j] k]]. simpl. destruct inside.
  - intros H. apply cube_at_Ok, cube_get_mem in H as [_ H].
    by apply (inv_labels st Hinv) in H as [_ H].
  - intros [= <-]. lia.
Qed.

(** The links after a merge of the labels [tail] into [label]. *)
Lemma merge_links (n3 n4 : list Z) (c : Cache) (label : Z) (tail : list Z) :
  links_ok n3 -> valid n3 c -> 0 < label -> proper_label n3 label ->
  (forall t, t ∈ tail -> label < t /\ proper_label n3 t) ->
  fill n3 tail (- label) = Ok n4 ->
  links_ok n4 /\ semi_valid n4 c /\ proper_label n4 label
  /\ (forall t v, n4 !! t = Some v -> v < 0 ->
        n3 !! t = Some v \/ exists x, x ∈ tail /\ t = Z.to_nat x).
Proof.
  intros Hl Hv Hlabel Hproper Htail Hfill.
  destruct (fill_spec _ _ _ _ Hfill) as (Hlen & Hin & Hout).
  assert (Hcases : forall t, (exists x, x ∈ tail /\ t = Z.to_nat x)
                             \/ n4 !! t = n3 !! t).
  { intros t. destruct (decide (Z.of_nat t ∈ tail)) as [Ht|Ht].
    - left. exists (Z.of_nat t). split; [done|lia].
    - right. apply Hout. intros x Hx E. destruct (Hin x Hx) as [Hx0 _].
      apply Ht. by replace (Z.of_nat t) with x by lia. }
  assert (Hkeep : forall x, proper_label n3 x -> x ∉ tail -> proper_label n4 x).
  { intros x [Hx0 Hx] Hnot. split; [done|]. intros v Hv4.
    destruct (Hcases (Z.to_nat x)) as [(y & Hy & E)|E].
    - destruct (Hin y Hy) as [Hy0 _]. assert (x = y) as -> by lia. done.
    - rewrite E in Hv4. by apply Hx. }
  assert (Hnot : label ∉ tail).
  { intros Hin'. destruct (Htail _ Hin'). lia. }
  split; [|split; [|split; [by apply Hkeep|]]].
  - intros t v Hv4 Hneg. destruct (Hcases t) as [(x & Hx & ->)|E].
    + destruct (Hin x Hx) as [Hx0 Hx4]. rewrite Hx4 in Hv4. injection Hv4 as <-.
      destruct (Htail x Hx). lia.
    + rewrite E in Hv4. by apply (Hl t).
  - destruct Hv as [[HP HL]|(H0 & Hn & HP & Hp)].
    + destruct (decide (prev_label c ∈ tail)) as [Ht|Ht].
      * right. destruct (Htail _ Ht) as [? _]. destruct (Hin _ Ht) as [_ H4].
        split; [lia|]. exists (- label). split; [done|lia].
      * left. left. split; [done|]. by apply Hkeep.
    + assert (Hn4 : n4 !! Z.to_nat (prev_label c) = Some (- prev_proper c)).
      { destruct (Hcases (Z.to_nat (prev_label c))) as [(x & Hx & E)|E].
        - destruct (Htail x Hx) as [_ [Hx0 Hpx]]. rewrite <- E in Hpx.
          specialize (Hpx _ Hn). lia.
        - by rewrite E. }
      destruct (decide (prev_proper c ∈ tail)) as [Ht|Ht].
      * right. pose proof (Hl _ _ Hn ltac:(lia)) as Hlink.
        split; [lia|]. exists (- prev_proper c). split; [done|lia].
      * left. right. split; [done|]. split; [done|]. split; [done|]. by apply Hkeep.
  - intros t v Hv4 Hneg. destruct (Hcases t) as [?|E]; [by right|].
    left. by rewrite <- E.
Qed.

(** What one site of the sweep does to the invariant.  The last of the 13
    calls of [PreviousNeighbours] is on the label of the site (i-1, j, k), or
    on 0. *)
Lemma label_site_inv (fuel : nat) (i j k : nat) (st st' : State) :
  sweep_inv st ->
  (forall x, neighbour_label (l st) 0 (negb (i =? 0)%nat, ((i - 1)%nat, j, k)) = Ok x ->
     valid (n st) (cache st) \/ proper_label (n st) x) ->
  label_site fuel (i, j, k) st = Ok st' ->
  sweep_inv st'
  /\ (valid (n st') (cache st')
      \/ forall x, cube_get (l st') i j k = Some x -> proper_label (n st') x)
  /\ (l st' = l st
      \/ exists label, 0 <= label <= largest_label st + 1
                       /\ l st' = cube_set (l st) i j k label).
Proof.
  intros Hinv Hlast. unfold label_site.
  intros H. apply bind_Ok in H as (flag & Hflag & H). apply cube_at_Ok in Hflag.
  destruct (flag =? 0) eqn:Eflag.
  { injection H as <-. apply Z.eqb_eq in Eflag as ->. split; [done|]. split; [|by left].
    right. intros x Hx. rewrite Hflag in Hx. injection Hx as <-.
    apply links_ok_no_link; [apply Hinv|lia]. }
  clear Eflag.
  apply bind_Ok in H as ([[nnl1 n1] c1] & Hprev & H).
  apply bind_Ok in H as ([[nnl n2] c2] & Htrans & H).
  pose proof (inv_largest st Hinv) as Hlargest.
  set (bound := Z.max 1 (largest_label st)) in *.
  unfold PreviousNeighbours in Hprev.
  apply (previous_labels_spec fuel (l st) bound) in Hprev
    as (Hl1 & Hc1 & Hb1 & _ & Hv1);
    [|apply Hinv|apply Hinv|intros s x _; by apply neighbour_label_bound
     |intros s x [= <-]; apply Hlast].
  specialize (Hv1 ltac:(done)).
  apply transform_valid in Htrans as (Hl2 & Hv2 & Hc2 & Hp2 & Hb2); [|done|done].
  assert (Hlinked2 : forall t v, n2 !! t = Some v -> v < 0 ->
                       Z.of_nat t <= largest_label st).
  { apply (linked_compressed (n st)); [by eapply compressed_trans|apply Hinv]. }
  assert (Huniq : forall u, u ∈ unique (nonzero nnl) ->
                    proper_label n2 u /\ 0 < u <= bound).
  { intros u [Hu0 Hu]%unique_elem%nonzero_elem.
    rewrite Forall_forall in Hp2. split; [by apply Hp2|].
    apply list_elem_of_lookup in Hu as [m Hm].
    destruct (Forall2_lookup_r _ _ _ _ _ Hb2 Hm) as (x1 & Hx1 & Hx).
    rewrite Forall_lookup in Hb1. specialize (Hb1 _ _ Hx1). simpl in Hb1. lia. }
  pose proof (unique_ascending (nonzero nnl)) as Hasc.
  destruct (unique (nonzero nnl)) as [|label [|t1 tail]] eqn:Euniq.
  - (* a new cluster *)
    apply bind_Ok in H as (size & Hsize & H). apply elem_Ok in Hsize as [Hnew Hsize].
    apply bind_Ok in H as (n3 & Hn3 & H). apply set_elem_Ok in Hn3 as (_ & _ & ->).
    apply bind_Ok in H as (bmin & _ & H). apply bind_Ok in H as (bmax & _ & [= <-]).
    assert (Hsize0 : 0 <= size).
    { destruct (Z.lt_ge_cases size 0) as [Hneg|]; [|done].
      specialize (Hlinked2 _ _ Hsize Hneg). lia. }
    pose proof (same_links_insert n2 _ size (size + 1) Hsize Hsize0 ltac:(lia)) as Hsame.
    simpl. split; [split; simpl|split; [left; by eapply valid_same_links|]].
    + by eapply links_ok_same_links.
    + left. by eapply valid_same_links.
    + intros t v Hv Hneg.
      pose proof (linked_same_links n2 _ _ Hsame Hlinked2 t v Hv Hneg) as Ht.
      simpl in Ht. lia.
    + intros m x [->|Hx]%mem_cube_set; [lia|].
      apply (inv_labels st Hinv) in Hx. lia.
    + lia.
    + right. exists (largest_label st + 1). split; [lia|done].
  - (* an existing cluster *)
    destruct (Huniq label ltac:(by left)) as [[_ Hproper] Hbound].
    apply bind_Ok in H as (size & Hsize & H). apply elem_Ok in Hsize as [_ Hsize].
    apply bind_Ok in H as (n3 & Hn3 & H). apply set_elem_Ok in Hn3 as (_ & _ & ->).
    apply bind_Ok in H as (lo & _ & H). apply bind_Ok in H as (bmin & _ & H).
    apply bind_Ok in H as (hi & _ & H). apply bind_Ok in H as (bmax & _ & [= <-]).
    pose proof (Hproper _ Hsize) as Hsize0.
    pose proof (same_links_insert n2 _ size (size + 1) Hsize Hsize0 ltac:(lia)) as Hsame.
    simpl. split; [split; simpl|split; [left; by eapply valid_same_links|]].
    + by eapply links_ok_same_links.
    + left. by eapply valid_same_links.
    + by apply (linked_same_links n2).
    + intros m x [->|Hx]%mem_cube_set; [unfold bound in Hbound; lia|].
      by apply (inv_labels st Hinv) in Hx.
    + done.
    + right. exists label. split; [unfold bound in Hbound; lia|done].
  - (* a merge *)
    destruct (Huniq label ltac:(by left)) as [Hproper Hbound].
    apply bind_Ok in H as (sizes & Hsizes & H). apply map_result_spec in Hsizes.
    apply bind_Ok in H as (size & Hsize & H). apply elem_Ok in Hsize as [_ Hsize].
    apply bind_Ok in H as (n3 & Hn3 & H). apply set_elem_Ok in Hn3 as (_ & _ & ->).
    apply bind_Ok in H as (n4 & Hn4 & H).
    apply bind_Ok in H as (los & _ & H). apply bind_Ok in H as (bmin & _ & H).
    apply bind_Ok in H as (his & _ & H). apply bind_Ok in H as (bmax & _ & H).
    apply bind_Ok in H as (bmin' & _ & H). apply bind_Ok in H as (bmax' & _ & [= <-]).
    destruct Hasc as [Hlt _].
    assert (Htail2 : Forall (proper_label n2) (t1 :: tail)).
    { apply Forall_forall. intros t Ht. apply Huniq. by right. }
    pose proof (sizes_nonneg _ _ _ Htail2 Hsizes) as Hsum.
    destruct Hproper as [Hlabel0 Hproper]. pose proof (Hproper _ Hsize) as Hsize0.
    pose proof (same_links_insert n2 _ size (size + (1 + foldr Z.add 0 sizes))
                  Hsize Hsize0 ltac:(lia)) as Hsame.
    assert (Htail3 : forall t, t ∈ t1 :: tail ->
              label < t
              /\ proper_label
                   (<[Z.to_nat label := size + (1 + foldr Z.add 0 sizes)]> n2) t).
    { intros t Ht. split; [by apply Hlt|].
      eapply proper_label_same_links; [done|]. apply Huniq. by right. }
    destruct (merge_links _ n4 c2 label (t1 :: tail)
                (links_ok_same_links _ _ Hsame Hl2) (valid_same_links _ _ _ Hsame Hv2)
                ltac:(lia)
                (proper_label_same_links _ _ _ Hsame (conj Hlabel0 Hproper))
                Htail3 Hn4) as (Hl4 & Hs4 & Hp4 & Hlinked4).
    simpl. split; [split; simpl|split].
    + done.
    + done.
    + intros t v Hv Hneg. destruct (Hlinked4 t v Hv Hneg) as [H3|(x & Hx & ->)].
      * by apply (linked_same_links n2 _ _ Hsame Hlinked2 t v).
      * destruct (Huniq x ltac:(by right)) as [_ Hxb]. specialize (Hlt x Hx).
        unfold bound in Hxb. lia.
    + intros m x [->|Hx]%mem_cube_set; [unfold bound in Hbound; lia|].
      by apply (inv_labels st Hinv) in Hx.
    + done.
    + right. intros x Hx. apply cube_get_set_same in Hx as ->. done.
    + right. exists label. split; [unfold bound in Hbound; lia|done].
Qed.

(** *** The order of the sites *)

(** In the order of the loops, a site (i, j, k) with i > 0 comes right
    after the site (i-1, j, k). *)
Fixpoint adjacent (prev : option (nat * nat * nat)) (ss : list (nat * nat * nat)) : Prop :=
  match ss with
  | [] => True
  | (i, j, k) :: rest =>
    (i <> 0%nat -> prev = Some ((i - 1)%nat, j, k)) /\ adjacent (Some (i, j, k)) rest
  end.

Lemma adjacent_app (a b : list (nat * nat * nat)) :
  forall prev, adjacent prev a -> (forall p, adjacent p b) -> adjacent prev (a ++ b).
Proof.
  induction a as [|[[i j] k] a IH]; intros prev Ha Hb; simpl; [apply Hb|].
  destruct Ha as [H1 H2]. split; [done|]. by apply IH.
Qed.

Lemma row_adjacent (j k len : nat) :
  forall a prev, (a <> 0%nat -> prev = Some ((a - 1)%nat, j, k)) ->
  adjacent prev (seq a len ≫= fun i => [(i, j, k)]).
Proof.
  induction len as [|len IH]; intros a prev Hprev; simpl; [done|].
  split; [done|]. apply IH. intros _. do 3 f_equal. lia.
Qed.

Lemma bind_adjacent {A} (xs : list A) (f : A -> list (nat * nat * nat)) :
  (forall x p, adjacent p (f x)) -> forall p, adjacent p (xs ≫= f).
Proof.
  intros Hf. induction xs as [|x xs IH]; intros p; [done|].
  rewrite bind_cons. apply adjacent_app; [apply Hf|apply IH].
Qed.

Lemma sites_adjacent (cube : Cube) (p : option (nat * nat * nat)) :
  adjacent p (sites cube).
Proof.
  unfold sites. revert p. apply bind_adjacent. intros k.
  apply bind_adjacent. intros j p. by apply row_adjacent.
Qed.

Lemma sites_elem (cube : Cube) (i j k : nat) :
  (i, j, k) ∈ sites cube <->
  (i < n_rows cube)%nat /\ (j < n_cols cube)%nat /\ (k < n_slices cube)%nat.
Proof.
  unfold sites. rewrite list_elem_of_bind. split.
  - intros (k' & (j' & (i' & Hs & Hi)%list_elem_of_bind & Hj)%list_elem_of_bind & Hk).
    apply list_elem_of_singleton in Hs as [= -> -> ->].
    apply elem_of_seq in Hi, Hj, Hk. lia.
  - intros (Hi & Hj & Hk). exists k. split; [|apply elem_of_seq; lia].
    apply list_elem_of_bind. exists j. split; [|apply elem_of_seq; lia].
    apply list_elem_of_bind. exists i. split; [|apply elem_of_seq; lia].
    by apply list_elem_of_singleton.
Qed.

Lemma sites_NoDup (cube : Cube) : NoDup (sites cube).
Proof.
  unfold sites. apply NoDup_bind; [| |apply NoDup_seq].
  - intros k1 k2 [[i j] k] _ _
      (j1 & (i1 & Hs1 & _)%list_elem_of_bind & _)%list_elem_of_bind
      (j2 & (i2 & Hs2 & _)%list_elem_of_bind & _)%list_elem_of_bind.
    apply list_elem_of_singleton in Hs1, Hs2. congruence.
  - intros k _. apply NoDup_bind; [| |apply NoDup_seq].
    + intros j1 j2 [[i j] k'] _ _ (i1 & Hs1 & _)%list_elem_of_bind
        (i2 & Hs2 & _)%list_elem_of_bind.
      apply list_elem_of_singleton in Hs1, Hs2. congruence.
    + intros j _. apply NoDup_bind; [| |apply NoDup_seq].
      * intros i1 i2 s _ _ Hs1 Hs2.
        apply list_elem_of_singleton in Hs1, Hs2. congruence.
      * intros i _. apply NoDup_singleton.
Qed.

(** The sweep starts at site (0, 0, 0) and does not come back to it. *)
Lemma sites_cases (cube : Cube) :
  sites cube = []
  \/ exists rest, sites cube = (0, 0, 0)%nat :: rest
                  /\ forall s, s ∈ rest -> s <> (0, 0, 0)%nat.
Proof.
  pose proof (sites_NoDup cube) as Hnd. revert Hnd.
  destruct (n_rows cube) as [|r] eqn:ER; [|destruct (n_cols cube) as [|c] eqn:EC;
    [|destruct (n_slices cube) as [|s] eqn:ES]].
  1-3: intros _; left; apply elem_of_nil_inv; intros [[i j] k] H;
       apply sites_elem in H; lia.
  unfold sites. rewrite ER, EC, ES. simpl. intros Hnd. right.
  eexists. split; [reflexivity|].
  apply NoDup_cons in Hnd as [Hnot _]. intros s0 Hs ->. done.
Qed.

Lemma cube_index_zero (c : Cube) (i j k : nat) :
  in_cube c i j k = true -> cube_index c i j k = 0%nat -> (i, j, k) = (0, 0, 0)%nat.
Proof.
  unfold in_cube, cube_index. intros H E.
  apply andb_true_iff in H as [H Hk]. apply andb_true_iff in H as [Hi Hj].
  apply bool_decide_eq_true in Hi, Hj, Hk.
  assert (i = 0%nat) as -> by lia.
  assert (j = 0%nat) as -> by nia.
  assert (k = 0%nat) as -> by nia. done.
Qed.

(** *** The sweep *)

(** The label of the first site is 0 or 1. *)
Definition first_label_ok (st : State) : Prop :=
  forall x, mem (l st) !! 0%nat = Some x -> x <= 1.

Lemma label_site_in_cube (fuel : nat) (i j k : nat) (st st' : State) :
  label_site fuel (i, j, k) st = Ok st' -> in_cube (l st) i j k = true.
Proof.
  unfold label_site. intros H. apply bind_Ok in H as (flag & Hflag & _).
  by apply cube_at_Ok, cube_get_mem in Hflag as [? _].
Qed.

Lemma sweep_rest (fuel : nat) (ss : list (nat * nat * nat)) :
  forall prev st st',
  adjacent prev ss -> (forall s, s ∈ ss -> s <> (0, 0, 0)%nat) ->
  sweep_inv st -> first_label_ok st ->
  (forall i j k, prev = Some (i, j, k) ->
     valid (n st) (cache st)
     \/ forall x, cube_get (l st) i j k = Some x -> proper_label (n st) x) ->
  sweep fuel ss st = Ok st' -> sweep_inv st' /\ first_label_ok st'.
Proof.
  unfold sweep. induction ss as [|[[i j] k] ss IH]; intros prev st st' Hadj Hne Hinv Hfirst Hprev;
    simpl.
  - by intros [= <-].
  - intros H. apply bind_Ok in H as (st1 & Hsite & H).
    destruct Hadj as [Hi Hadj].
    pose proof (label_site_in_cube _ _ _ _ _ _ Hsite) as Hin.
    apply label_site_inv in Hsite as (Hinv1 & Hpost & Hl); [|done|].
    + apply (IH (Some (i, j, k)) st1 st'); try done.
      * intros s Hs. apply Hne. by right.
      * unfold first_label_ok. destruct Hl as [->|(label & _ & ->)]; [done|].
        intros x. simpl. rewrite list_lookup_insert_ne; [apply Hfirst|].
        intros E. apply (Hne (i, j, k)); [by left|]. by apply (cube_index_zero (l st)).
      * by intros ? ? ? [= <- <- <-].
    + intros x. destruct (i =? 0)%nat eqn:Ei; simpl.
      * intros [= <-]. right. apply links_ok_no_link; [apply Hinv|lia].
      * intros Hx%cube_at_Ok. apply Nat.eqb_neq in Ei.
        destruct (Hprev _ _ _ (Hi Ei)) as [?|Hp]; [by left|right; by apply Hp].
Qed.

Lemma State_initial_inv (cube : Cube) :
  Forall (fun x => x = 0 \/ x = 1) (mem cube) ->
  sweep_inv (State_initial cube Cache_initial).
Proof.
  intros Hflags. unfold State_initial. split; simpl.
  - intros t v Hv. apply lookup_replicate in Hv as [-> _]. lia.
  - left. left. split; [done|]. split; [done|]. simpl.
    intros v Hv. apply lookup_replicate in Hv as [-> _]. lia.
  - intros t v Hv. apply lookup_replicate in Hv as [-> _]. lia.
  - intros m x Hx. rewrite Forall_lookup in Hflags. destruct (Hflags _ _ Hx); lia.
  - lia.
Qed.

Lemma sweep_all (fuel : nat) (cube : Cube) (st' : State) :
  Forall (fun x => x = 0 \/ x = 1) (mem cube) ->
  sweep fuel (sites cube) (State_initial cube Cache_initial) = Ok st' ->
  sweep_inv st' /\ first_label_ok st'.
Proof.
  intros Hflags. pose proof (State_initial_inv cube Hflags) as Hinv0.
  assert (Hfirst0 : first_label_ok (State_initial cube Cache_initial)).
  { intros x Hx. by apply (inv_labels _ Hinv0) in Hx as [_ Hx]. }
  pose proof (sites_adjacent cube None) as Hadj.
  destruct (sites_cases cube) as [E|(rest & E & Hrest)]; rewrite E in *.
  - by intros [= <-].
  - unfold sweep. cbn [for_each]. intros H. apply bind_Ok in H as (st1 & Hsite & H).
    destruct Hadj as [_ Hadj].
    apply label_site_inv in Hsite as (Hinv1 & Hpost & Hl); [|done|].
    + apply (sweep_rest fuel rest (Some (0, 0, 0)%nat) st1 st'); try done.
      * unfold first_label_ok. destruct Hl as [->|(label & Hlabel & ->)]; [done|].
        intros x [->|Hx]%mem_cube_set; [simpl in Hlabel; lia|by apply Hfirst0].
      * by intros ? ? ? [= <- <- <-].
    + simpl. intros x [= <-]. right. apply links_ok_no_link; [apply Hinv0|lia].
Qed.

(** *** HKCheck and the last loop *)

Lemma for_each_unit {A} (xs : list A) (body : A -> unit -> result unit) (u : unit) :
  for_each xs body () = Ok u -> u = ().
Proof. by destruct u. Qed.

Lemma HKCheck_spec (fuel : nat) (st st1 : State) :
  sweep_inv st -> first_label_ok st -> HKCheck fuel st = Ok st1 ->
  links_ok (n st1)
  /\ Forall (proper_label (n st1)) (mem (l st1))
  /\ (mem (l st1) = [] \/ valid (n st1) (cache st1))
  /\ n_rows (l st1) = n_rows (l st) /\ n_cols (l st1) = n_cols (l st)
  /\ n_slices (l st1) = n_slices (l st)
  /\ bbox_min st1 = bbox_min st /\ bbox_max st1 = bbox_max st.
Proof.
  intros Hinv Hfirst. unfold HKCheck. intros H.
  apply bind_Ok in H as ([[m n'] c'] & Ht & H).
  apply bind_Ok in H as (u & _ & [= <-]). simpl.
  assert (links_ok n' /\ Forall (proper_label n') m /\ (m = [] \/ valid n' c')) as (? & ? & ?);
    [|done].
  destruct (mem (l st)) as [|x rest] eqn:Emem; simpl in Ht.
  - injection Ht as <- <- <-. split; [apply Hinv|]. split; [constructor|by left].
  - apply bind_Ok in Ht as ([[p n1] c1] & Hp & Ht).
    apply bind_Ok in Ht as ([[ps n2] c2] & Hrest & [= <- <- <-]).
    assert (Hx : proper_label (n st) x).
    { apply links_ok_no_link; [apply Hinv|]. split.
      - apply (inv_labels st Hinv 0%nat). by rewrite Emem.
      - apply Hfirst. by rewrite Emem. }
    destruct (HKProper_semi _ _ _ _ _ _ _ (inv_links st Hinv) (inv_cache st Hinv) Hp)
      as (Hl1 & _ & _ & _ & Hv1).
    destruct (Hv1 (or_intror Hx)) as [Hvalid1 Hp1].
    destruct (transform_valid _ _ _ _ _ _ _ Hl1 Hvalid1 Hrest) as (Hl2 & Hv2 & Hc2 & Hps & _).
    split; [done|]. split; [|by right].
    constructor; [by eapply proper_label_compressed|done].
Qed.

Lemma keep_infinite_spec (fuel : nat) (head : list Z) (labels : list Z) :
  forall sizes c out sizes' c',
  links_ok sizes -> labels = [] \/ valid sizes c ->
  Forall (proper_label sizes) labels ->
  keep_infinite fuel labels head sizes c = Ok (out, sizes', c') ->
  out = (fun x => if bool_decide (x ∈ head) then 1 else 0) <$> labels.
Proof.
  induction labels as [|x labels IH]; intros sizes c out sizes' c' Hl Hv Hp; simpl.
  - by intros [= <- _ _].
  - intros H. apply bind_Ok in H as ([[p n1] c1] & Hx & H).
    apply bind_Ok in H as ([[out1 n2] c2] & Hrest & [= <- _ _]).
    destruct Hv as [|Hv]; [done|]. apply Forall_cons in Hp as [Hpx Hp].
    destruct (HKProper_valid _ _ _ _ _ _ _ Hl Hv Hx) as (_ & Hv1 & _ & _ & _ & Heq).
    destruct (Heq Hpx) as [-> ->].
    by rewrite (IH _ _ _ _ _ Hl (or_intror Hv1) Hp Hrest).
Qed.

(** The bounding box of label [x] has as many sites as the cube. *)
Definition percolates (st : State) (x : Z) : Prop :=
  exists lo hi, elem (bbox_min st) x = Ok lo /\ elem (bbox_max st) x = Ok hi
                /\ extent_product lo hi = Z.of_nat (n_elem (l st)).

Lemma count_infinite_spec (bmin bmax : list row) (total : Z) (idx : list Z) :
  forall count, count_infinite idx bmin bmax total = Ok count ->
  (forall x, x ∈ take count idx ->
     exists lo hi, elem bmin x = Ok lo /\ elem bmax x = Ok hi
                   /\ extent_product lo hi = total)
  /\ (forall x, idx !! count = Some x ->
        ~ exists lo hi, elem bmin x = Ok lo /\ elem bmax x = Ok hi
                        /\ extent_product lo hi = total).
Proof.
  induction idx as [|y idx IH]; intros count; simpl.
  - intros [= <-]. split; [intros x Hx; by apply elem_of_nil in Hx|done].
  - intros H. apply bind_Ok in H as (hi & Hhi & H). apply bind_Ok in H as (lo & Hlo & H).
    destruct (extent_product lo hi =? total) eqn:E.
    + apply fmap_Ok in H as (count' & Hc & ->). apply Z.eqb_eq in E.
      destruct (IH _ Hc) as [Hin Hnext]. split; [|done].
      simpl. intros x [->|Hx]%elem_of_cons; [by exists lo, hi|by apply Hin].
    + injection H as <-. apply Z.eqb_neq in E. split.
      * intros x Hx. by apply elem_of_nil in Hx.
      * simpl. intros x [= <-] (lo' & hi' & Hlo' & Hhi' & E'). congruence.
Qed.

(** *** The index vector of [sort_index] *)

Fixpoint descending (s : list (Z * Z)) : Prop :=
  match s with
  | [] => True
  | p :: s' => Forall (fun q => q.1 <= p.1) s' /\ descending s'
  end.

Lemma insert_descend_perm (b : bool) (x : Z * Z) (s : list (Z * Z)) :
  insert_descend b x s ≡ₚ x :: s.
Proof.
  induction s as [|y s IH]; simpl; [done|].
  destruct (if b then _ else _); [done|]. rewrite IH. apply Permutation_swap.
Qed.

Lemma insert_descend_descending (b : bool) (x : Z * Z) (s : list (Z * Z)) :
  descending s -> descending (insert_descend b x s).
Proof.
  induction s as [|y s IH]; simpl; [done|]. intros [Hy Hs].
  destruct (if b then y.1 <=? x.1 else y.1 <? x.1) eqn:E.
  - assert (y.1 <= x.1) by (destruct b; lia).
    simpl. split; [|done]. constructor; [done|].
    eapply Forall_impl; [exact Hy|]. simpl. intros; lia.
  - assert (x.1 <= y.1) by (destruct b; lia).
    simpl. split; [|by apply IH].
    rewrite insert_descend_perm. by constructor.
Qed.

Lemma sorted_pairs_perm (b : bool) (ps : list (Z * Z)) :
  foldr (insert_descend b) [] ps ≡ₚ ps.
Proof.
  induction ps as [|p ps IH]; simpl; [done|]. by rewrite insert_descend_perm, IH.
Qed.

Lemma sorted_pairs_descending (b : bool) (ps : list (Z * Z)) :
  descending (foldr (insert_descend b) [] ps).
Proof.
  induction ps as [|p ps IH]; simpl; [done|]. by apply insert_descend_descending.
Qed.

Lemma descending_lookup (s : list (Z * Z)) :
  descending s ->
  forall i j p q, (i <= j)%nat -> s !! i = Some p -> s !! j = Some q -> q.1 <= p.1.
Proof.
  induction s as [|r s IH]; intros Hs i j p q Hij Hi Hj; [done|].
  destruct Hs as [Hr Hs]. destruct i as [|i], j as [|j]; simpl in *.
  - injection Hi as <-. injection Hj as <-. lia.
  - injection Hi as <-. apply (proj1 (Forall_forall _ _) Hr).
    by eapply list_elem_of_lookup_2.
  - lia.
  - eapply IH; [done| |done|done]. lia.
Qed.

(** Both orders of the model are orders the library may return. *)
Lemma sort_index_by_descending (b : bool) (sizes : list Z) :
  descending_index sizes (sort_index_by b sizes).
Proof.
  unfold sort_index_by.
  assert (Hpairs : forall a x,
            (a, x) ∈ foldr (insert_descend b) []
                       (zip sizes (Z.of_nat <$> seq 0 (length sizes))) ->
            sizes !! Z.to_nat x = Some a).
  { intros a x Hin. rewrite sorted_pairs_perm in Hin.
    apply list_elem_of_lookup in Hin as [t Ht].
    apply lookup_zip_with_Some in Ht as (a' & x' & [= <- <-] & Ha & Hx).
    rewrite list_lookup_fmap in Hx.
    destruct (seq 0 (length sizes) !! t) as [t'|] eqn:E; [|done].
    apply lookup_seq in E as [-> _]. injection Hx as <-. by rewrite Nat2Z.id. }
  split.
  - rewrite sorted_pairs_perm, snd_zip; [done|]. by rewrite length_fmap, length_seq.
  - intros i j x y a c Hij Hi Hj Ha Hc.
    rewrite list_lookup_fmap in Hi, Hj.
    destruct (foldr _ _ _ !! i) as [[a' x']|] eqn:Ei; [|done].
    destruct (foldr _ _ _ !! j) as [[c' y']|] eqn:Ej; [|done].
    simpl in Hi, Hj. injection Hi as ->. injection Hj as ->.
    pose proof (Hpairs a' x (list_elem_of_lookup_2 _ _ _ Ei)) as Ha'.
    pose proof (Hpairs c' y (list_elem_of_lookup_2 _ _ _ Ej)) as Hc'.
    assert (a' = a) as -> by congruence. assert (c' = c) as -> by congruence.
    exact (descending_lookup _ (sorted_pairs_descending b _) i j _ _ Hij Ei Ej).
Qed.

Lemma descending_index_elem (sizes idx : list Z) (x : Z) :
  descending_index sizes idx -> 0 <= x -> (Z.to_nat x < length sizes)%nat ->
  exists p : nat, idx !! p = Some x.
Proof.
  intros [Hperm _] Hx Hlen. apply list_elem_of_lookup. rewrite Hperm.
  apply list_elem_of_fmap. exists (Z.to_nat x). split; [lia|].
  apply elem_of_seq. lia.
Qed.

(** In a descending order, a label with a greater entry than that of the
    label at position [count] stands before it, and a label with a smaller
    entry does not. *)
Lemma leading_labels (sizes idx : list Z) (count : nat) (f sf x sx : Z) :
  descending_index sizes idx ->
  idx !! count = Some f -> sizes !! Z.to_nat f = Some sf ->
  0 <= x -> sizes !! Z.to_nat x = Some sx ->
  (sf < sx -> x ∈ take count idx) /\ (sx < sf -> x ∉ take count idx).
Proof.
  intros Hd Hf Hsf Hx Hsx.
  destruct (descending_index_elem sizes idx x Hd Hx) as [p Hp];
    [by eapply lookup_lt_Some|].
  split.
  - intros Hlt. apply list_elem_of_lookup. exists p.
    destruct (decide (p < count)%nat) as [Hpc|Hpc].
    + by rewrite lookup_take_lt.
    + assert (Hle : (count <= p)%nat) by lia.
      pose proof (proj2 Hd count p f x sf sx Hle Hf Hp Hsf Hsx). lia.
  - intros Hlt Hin. apply list_elem_of_lookup in Hin as [q Hq].
    apply lookup_take_Some in Hq as [Hq Hqc].
    assert (Hle : (q <= count)%nat) by lia.
    pose proof (proj2 Hd q count x f sx sf Hle Hq Hf Hsx Hsf). lia.
Qed.

(** The label with the greatest entry, when there is only one, is the first
    of every descending order. *)
Lemma descending_index_head (sizes idx : list Z) (m : nat) (a : Z) :
  descending_index sizes idx -> sizes !! m = Some a ->
  Forall (fun b => b < a) (take m sizes) ->
  Forall (fun b => b < a) (drop (S m) sizes) ->
  exists rest, idx = Z.of_nat m :: rest.
Proof.
  intros Hd Hm Hbefore Hafter.
  destruct (descending_index_elem sizes idx (Z.of_nat m) Hd) as [p Hp];
    [lia|rewrite Nat2Z.id; by eapply lookup_lt_Some|].
  destruct idx as [|x rest]; [done|]. exists rest. f_equal.
  assert (Hx : x ∈ x :: rest) by left.
  rewrite (proj1 Hd) in Hx. apply list_elem_of_fmap in Hx as (t & -> & Ht).
  apply elem_of_seq in Ht.
  destruct (lookup_lt_is_Some_2 sizes t) as [b Hb]; [lia|].
  destruct (decide (t = m)) as [->|Hne]; [done|].
  pose proof (proj2 Hd 0%nat p (Z.of_nat t) (Z.of_nat m) b a) as H.
  rewrite !Nat2Z.id in H. specialize (H ltac:(lia) eq_refl Hp Hb Hm).
  assert (b < a); [|lia].
  destruct (decide (t < m)%nat) as [Htm|Htm].
  - apply (proj1 (Forall_forall _ _) Hbefore). apply list_elem_of_lookup. exists t.
    by rewrite lookup_take_lt.
  - apply (proj1 (Forall_forall _ _) Hafter). apply list_elem_of_lookup.
    exists (t - S m)%nat. rewrite lookup_drop. by replace (S m + (t - S m))%nat with t by lia.
Qed.

(** When the first label of the order fails the test, no label is kept. *)
Lemma EnhancedHoshenKopelman_none_kept (sort_index : list Z -> list Z) (fuel : nat)
    (cube : Cube) (c : Cache) (st : State) (x : Z) (rest : list Z) (lo hi : row) :
  label_clusters fuel cube c = Ok st -> sort_index (n st) = x :: rest ->
  elem (bbox_max st) x = Ok hi -> elem (bbox_min st) x = Ok lo ->
  extent_product lo hi <> Z.of_nat (n_elem (l st)) ->
  EnhancedHoshenKopelman sort_index fuel cube c
  = ('(out, _, c) ← keep_infinite fuel (mem (l st)) [] (n st) (cache st);
     Ok (with_mem (l st) out, c)).
Proof.
  intros Hst Hidx Hhi Hlo Hne. unfold EnhancedHoshenKopelman, infinite_clusters.
  rewrite Hst. cbn [mbind result_bind]. rewrite Hidx. cbn [count_infinite].
  rewrite Hhi, Hlo. cbn [mbind result_bind].
  rewrite (proj2 (Z.eqb_neq _ _) Hne). by cbn [mbind result_bind take].
Qed.

End ClusterProofs.

(** C2 (as amended): [idx] is any arrangement of the labels by descending
    entry of [n], as [sort_index] may return it.  After
    [EnhancedHoshenKopelman] returns on a cube of flags 0 and 1, every site
    carries, at the end of the labelling, a proper label (a label without
    link), and the output at a site is 1 if and only if that label is one of
    the first [count] labels of [idx], where [count] is the number of leading
    labels of [idx] whose bounding box has as many sites as the cube: all of
    the first [count] labels have such a bounding box, and the label that
    follows them has not.  A label whose entry of [n] is greater than that of
    this first failing label is kept, a label whose entry is smaller is not,
    whatever its bounding box; among labels with the entry of the first
    failing label the order chosen by the library decides. *)
Theorem kept_sites_belong_to_leading_clusters
    (sort_index : list Z -> list Z) (fuel : nat) (cube out : Cube)
    (c' : ClusterLabel.Cache) :
  (forall sizes, ClusterLabel.descending_index sizes (sort_index sizes)) ->
  Forall (fun x => x = 0 \/ x = 1) (mem cube) ->
  ClusterLabel.EnhancedHoshenKopelman sort_index fuel cube ClusterLabel.Cache_initial
    = Ok (out, c') ->
  exists st count,
    ClusterLabel.label_clusters fuel cube ClusterLabel.Cache_initial = Ok st
    /\ ClusterLabel.infinite_clusters sort_index st = Ok count
    /\ Forall (proper_label (ClusterLabel.n st)) (mem (ClusterLabel.l st))
    /\ (forall x, x ∈ take count (sort_index (ClusterLabel.n st)) -> percolates st x)
    /\ (forall x, sort_index (ClusterLabel.n st) !! count = Some x -> ~ percolates st x)
    /\ (forall i j k x, cube_get (ClusterLabel.l st) i j k = Some x ->
          cube_get out i j k
          = Some (if bool_decide (x ∈ take count (sort_index (ClusterLabel.n st)))
                  then 1 else 0))
    /\ forall f sf x sx,
         sort_index (ClusterLabel.n st) !! count = Some f ->
         ClusterLabel.n st !! Z.to_nat f = Some sf ->
         0 <= x -> ClusterLabel.n st !! Z.to_nat x = Some sx ->
         (sf < sx -> x ∈ take count (sort_index (ClusterLabel.n st)))
         /\ (sx < sf -> x ∉ take count (sort_index (ClusterLabel.n st))).
Proof.
  intros Hsort Hflags H. unfold ClusterLabel.EnhancedHoshenKopelman in H.
  apply bind_Ok in H as (st & Hst & H). apply bind_Ok in H as (count & Hcount & H).
  apply bind_Ok in H as ([[m n'] c1] & Hkeep & [= <- <-]).
  exists st, count. split; [done|]. split; [done|].
  pose proof Hst as Hst'. unfold ClusterLabel.label_clusters in Hst'.
  apply bind_Ok in Hst' as (st0 & Hsweep & Hcheck).
  destruct (sweep_all _ _ _ Hflags Hsweep) as [Hinv Hfirst].
  destruct (HKCheck_spec _ _ _ Hinv Hfirst Hcheck) as (Hl & Hp & Hv & _).
  split; [done|].
  destruct (count_infinite_spec _ _ _ _ _ Hcount) as [Hin Hnext].
  split; [done|]. split; [done|].
  assert (Hv' : mem (ClusterLabel.l st) = [] \/ valid (ClusterLabel.n st) (ClusterLabel.cache st))
    by done.
  rewrite (keep_infinite_spec _ _ _ _ _ _ _ _ Hl Hv' Hp Hkeep).
  split.
  - intros i j k x. unfold cube_get, in_cube, cube_index. simpl.
    destruct (_ && _); [|done]. intros Hx. by rewrite list_lookup_fmap, Hx.
  - intros f sf x sx Hf Hsf Hx Hsx.
    exact (leading_labels _ _ _ _ _ _ _ (Hsort _) Hf Hsf Hx Hsx).
Qed.

Lemma kept_sites_belong_to_leading_clusters_witness :
  (forall sizes,
     ClusterLabel.descending_index sizes (ClusterLabel.sort_index_descend sizes))
  /\ Forall (fun x => x = 0 \/ x = 1) (mem Examples.spanning_cube)
  /\ ClusterLabel.EnhancedHoshenKopelman ClusterLabel.sort_index_descend 8
       Examples.spanning_cube ClusterLabel.Cache_initial
     = Ok (Examples.spanning_cube, ClusterLabel.mkCache 1 1)
  /\ exists st count,
       ClusterLabel.label_clusters 8 Examples.spanning_cube ClusterLabel.Cache_initial = Ok st
       /\ ClusterLabel.infinite_clusters ClusterLabel.sort_index_descend st = Ok count
       /\ Forall (proper_label (ClusterLabel.n st)) (mem (ClusterLabel.l st))
       /\ (forall x,
             x ∈ take count (ClusterLabel.sort_index_descend (ClusterLabel.n st)) ->
             percolates st x)
       /\ (forall x,
             ClusterLabel.sort_index_descend (ClusterLabel.n st) !! count = Some x ->
             ~ percolates st x)
       /\ (forall i j k x, cube_get (ClusterLabel.l st) i j k = Some x ->
             cube_get Examples.spanning_cube i j k
             = Some (if bool_decide
                          (x ∈ take count
                                 (ClusterLabel.sort_index_descend (ClusterLabel.n st)))
                     then 1 else 0))
       /\ forall f sf x sx,
            ClusterLabel.sort_index_descend (ClusterLabel.n st) !! count = Some f ->
            ClusterLabel.n st !! Z.to_nat f = Some sf ->
            0 <= x -> ClusterLabel.n st !! Z.to_nat x = Some sx ->
            (sf < sx ->
             x ∈ take count (ClusterLabel.sort_index_descend (ClusterLabel.n st)))
            /\ (sx < sf ->
                x ∉ take count (ClusterLabel.sort_index_descend (ClusterLabel.n st))).
Proof.
  assert (H0 : forall sizes,
             ClusterLabel.descending_index sizes (ClusterLabel.sort_index_descend sizes))
    by (intros sizes; apply sort_index_by_descending).
  assert (H1 : Forall (fun x => x = 0 \/ x = 1) (mem Examples.spanning_cube)).
  { apply (bool_decide_unpack _). by vm_compute. }
  assert (H2 : ClusterLabel.EnhancedHoshenKopelman ClusterLabel.sort_index_descend 8
                 Examples.spanning_cube ClusterLabel.Cache_initial
               = Ok (Examples.spanning_cube, ClusterLabel.mkCache 1 1))
    by (vm_compute; reflexivity).
  split; [exact H0|]. split; [exact H1|]. split; [exact H2|].
  exact (kept_sites_belong_to_leading_clusters _ 8 _ _ _ H0 H1 H2).
Defined.

(** C6, at the failing input.  A call of [HKProper] on the label held by the
    static variables returns the remembered answer whatever the links are.
    On the 4 x 3 x 2 cube with flagged sites (3,0,0), (1,1,0), (1,1,1),
    (2,1,1) and (2,2,1), when the sweep arrives at site (2,2,1) the links are
    n(2) = -1 and n(1) = 4, so the alias chain of label 2 ends at the proper
    label 1; the first call of [PreviousNeighbours] at that site is
    [HKProper(2, n)], on the label of the neighbour (1,1,0), and it returns 2:
    the static variables still hold the answer given before the merge at site
    (2,1,1). *)
Theorem HKProper_stale_after_merge :
  (forall (fuel : nat) (label : Z) (n : list Z) (c : ClusterLabel.Cache),
     ClusterLabel.prev_label c = label ->
     ClusterLabel.HKProper fuel label n c = Ok (ClusterLabel.prev_proper c, n, c)) /\
  exists st : ClusterLabel.State,
    ClusterLabel.sweep 24 (take 22 (ClusterLabel.sites Examples.merge_cube))
      (ClusterLabel.State_initial Examples.merge_cube ClusterLabel.Cache_initial) = Ok st
    /\ ClusterLabel.sites Examples.merge_cube !! 22%nat = Some (2, 2, 1)%nat
    /\ ClusterLabel.cube_at (ClusterLabel.l st) 2 2 1 = Ok 1
    /\ head (ClusterLabel.previous_sites (ClusterLabel.l st) 2 2 1)
       = Some (true, (1, 1, 0)%nat)
    /\ ClusterLabel.cube_at (ClusterLabel.l st) 1 1 0 = Ok 2
    /\ ClusterLabel.n st !! 2%nat = Some (-1)
    /\ ClusterLabel.n st !! 1%nat = Some 4
    /\ ClusterLabel.follow_links 24 (ClusterLabel.n st) 2 = Ok 1
    /\ ClusterLabel.HKProper 24 2 (ClusterLabel.n st) (ClusterLabel.cache st)
       = Ok (2, ClusterLabel.n st, ClusterLabel.cache st).
Proof.
  split; [intros fuel label n c E; by apply HKProper_hit|].
  eexists. split; [vm_compute; reflexivity|].
  vm_compute. by repeat split.
Qed.

(** Against C2 as stated: on the 4 x 4 x 4 cube with the diagonal cluster
    (label 1, four sites, bounding box 4 x 4 x 4 = 64 = the number of sites)
    and the edge cluster (label 2, five sites, bounding box 1 x 2 x 4), every
    arrangement of the labels by descending size starts at label 2, and the
    walk stops there: no cluster is kept, and the sites of the diagonal are 0
    in the output. *)
Lemma percolating_cluster_dropped :
  exists st : ClusterLabel.State,
    ClusterLabel.label_clusters 64 Examples.diagonal_cube ClusterLabel.Cache_initial = Ok st
    /\ ClusterLabel.cube_at (ClusterLabel.l st) 0 0 0 = Ok 1
    /\ ClusterLabel.n st !! 1%nat = Some 4
    /\ (lo ← ClusterLabel.elem (ClusterLabel.bbox_min st) 1;
        hi ← ClusterLabel.elem (ClusterLabel.bbox_max st) 1;
        Ok (ClusterLabel.extent_product lo hi)) = Ok 64
    /\ Z.of_nat (n_elem Examples.diagonal_cube) = 64
    /\ forall sort_index : list Z -> list Z,
         ClusterLabel.descending_index (ClusterLabel.n st)
                                       (sort_index (ClusterLabel.n st)) ->
         (out ← ClusterLabel.EnhancedHoshenKopelman sort_index 64 Examples.diagonal_cube
                  ClusterLabel.Cache_initial;
          ClusterLabel.cube_at out.1 0 0 0) = Ok 0.
Proof.
  evar (st0 : ClusterLabel.State).
  assert (Hst : ClusterLabel.label_clusters 64 Examples.diagonal_cube
                  ClusterLabel.Cache_initial = Ok st0)
    by (unfold st0; vm_compute; reflexivity).
  exists st0. split; [exact Hst|].
  split; [by vm_compute|]. split; [by vm_compute|]. split; [by vm_compute|].
  split; [by vm_compute|].
  intros sort_index Hd.
  destruct (descending_index_head _ _ 2%nat 5 Hd) as [rest Hidx].
  - by vm_compute.
  - apply (bool_decide_unpack _). by vm_compute.
  - apply (bool_decide_unpack _). by vm_compute.
  - erewrite (EnhancedHoshenKopelman_none_kept sort_index 64 _ _ st0 2 rest);
      [|exact Hst|exact Hidx|by vm_compute|by vm_compute|by vm_compute].
    by vm_compute.
Qed.

(** The order of equal sizes decides.  On the 4 x 4 x 4 cube with the
    diagonal cluster (label 1) and the edge cluster (label 2) of four sites
    each, the order that puts label 1 first keeps the diagonal, and the order
    that puts label 2 first keeps nothing. *)
Example kept_clusters_depend_on_the_order_of_ties :
  (forall sizes,
     ClusterLabel.descending_index sizes (ClusterLabel.sort_index_descend sizes))
  /\ (forall sizes,
        ClusterLabel.descending_index sizes (ClusterLabel.sort_index_descend_last sizes))
  /\ (out ← ClusterLabel.EnhancedHoshenKopelman ClusterLabel.sort_index_descend 64
              Examples.tie_cube ClusterLabel.Cache_initial;
      ClusterLabel.cube_at out.1 0 0 0) = Ok 1
  /\ (out ← ClusterLabel.EnhancedHoshenKopelman ClusterLabel.sort_index_descend_last 64
              Examples.tie_cube ClusterLabel.Cache_initial;
      ClusterLabel.cube_at out.1 0 0 0) = Ok 0.
Proof.
  split; [intros sizes; apply sort_index_by_descending|].
  split; [intros sizes; apply sort_index_by_descending|].
  split; by vm_compute.
Qed.
(** ** Points and neighbourhoods *)

(** A point whose coordinates are [uint16_t] values. *)
Definition valid_point (p : Voxel) : Prop :=
  0 <= vx p < 65536 /\ 0 <= vy p < 65536 /\ 0 <= vz p < 65536.

(** The largest and the summed absolute difference of the coordinates. *)
Definition chebyshev (p q : Voxel) : Z :=
  Z.max (Z.abs (vx p - vx q)) (Z.max (Z.abs (vy p - vy q)) (Z.abs (vz p - vz q))).

Definition manhattan (p q : Voxel) : Z :=
  Z.abs (vx p - vx q) + Z.abs (vy p - vy q) + Z.abs (vz p - vz q).

(** The two points are not at opposite ends of the [uint16_t] range on any
    axis. *)
Definition no_wrap (p q : Voxel) : Prop := chebyshev p q < 65535.

Lemma axis_difference_abs (a b : Z) : axis_difference a b = Z.abs (a - b).
Proof. unfold axis_difference. destruct (Z.ltb_spec b a); lia. Qed.

Lemma accumulate_step (p q : Voxel) (i : nat) (axes : list nat) (diff : Z) :
  0 <= diff ->
  diff + Z.abs (GetCoordinate p i - GetCoordinate q i) < 65536 ->
  accumulate_differences p q (i :: axes) diff =
    if 1 <? Z.abs (GetCoordinate p i - GetCoordinate q i) then None
    else accumulate_differences p q axes
           (diff + Z.abs (GetCoordinate p i - GetCoordinate q i)).
Proof.
  intros Hd Ha. cbn [accumulate_differences]. rewrite axis_difference_abs.
  unfold uint16. rewrite Z.mod_small by lia.
  replace (diff + Z.abs (GetCoordinate p i - GetCoordinate q i) - diff)
    with (Z.abs (GetCoordinate p i - GetCoordinate q i)) by lia.
  done.
Qed.

(** The accumulator can wrap on the last axis only, from 2 + 65534 to 0. *)
Lemma accumulate_differences_spec (p q : Voxel) :
  no_wrap p q ->
  match accumulate_differences p q [0; 1; 2]%nat 0 with
  | Some diff => (chebyshev p q <= 1 /\ diff = manhattan p q)
                 \/ (1 < chebyshev p q /\ diff = 0)
  | None => 1 < chebyshev p q
  end.
Proof.
  unfold no_wrap, chebyshev, manhattan. intros H.
  rewrite accumulate_step by (simpl; lia). simpl GetCoordinate.
  destruct (Z.ltb_spec 1 (Z.abs (vx p - vx q))) as [L0|L0]; [lia|].
  rewrite accumulate_step by (simpl; lia). simpl GetCoordinate.
  destruct (Z.ltb_spec 1 (Z.abs (vy p - vy q))) as [L1|L1]; [lia|].
  destruct (decide (0 + Z.abs (vx p - vx q) + Z.abs (vy p - vy q)
                    + Z.abs (vz p - vz q) < 65536)) as [S|S].
  - rewrite accumulate_step by (simpl; lia). simpl GetCoordinate.
    destruct (Z.ltb_spec 1 (Z.abs (vz p - vz q))) as [L2|L2]; [lia|].
    simpl. left. lia.
  - assert (E0 : Z.abs (vx p - vx q) = 1) by lia.
    assert (E1 : Z.abs (vy p - vy q) = 1) by lia.
    assert (E2 : Z.abs (vz p - vz q) = 65534) by lia.
    cbn [accumulate_differences GetCoordinate]. rewrite axis_difference_abs.
    rewrite E0, E1, E2. change (uint16 (0 + 1 + 1 + 65534)) with 0. simpl.
    right. lia.
Qed.

Lemma IsNeighbour_spec (p q : Voxel) :
  no_wrap p q -> IsNeighbour p q = true <-> chebyshev p q = 1.
Proof.
  intros H. unfold IsNeighbour.
  pose proof (accumulate_differences_spec p q H) as A.
  destruct (accumulate_differences p q [0; 1; 2]%nat 0) as [d|].
  - rewrite andb_true_iff, Z.leb_le, Z.leb_le.
    unfold chebyshev, manhattan in *. lia.
  - split; [done|lia].
Qed.

(** X1.  Between two points that are not at opposite ends of the coordinate
    range on any axis (no coordinate is 0 in one and 65535 in the other), the
    predicates of [Point] classify neighbours by the number of
    axes on which the points differ: all differences are at most 1, and their
    sum is 1 for a face neighbour, 2 for an edge neighbour, 3 for a vertex
    neighbour; [IsNeighbour] holds when the largest difference is 1. *)
Theorem neighbour_predicates_classify (p q : Voxel) :
  no_wrap p q ->
  (IsFaceNeighbour p q = true <-> chebyshev p q <= 1 /\ manhattan p q = 1) /\
  (IsEdgeNeighbour p q = true <-> chebyshev p q <= 1 /\ manhattan p q = 2) /\
  (IsVertexNeighbour p q = true <-> chebyshev p q <= 1 /\ manhattan p q = 3) /\
  (IsNeighbour p q = true <-> chebyshev p q = 1).
Proof.
  intros H.
  unfold IsFaceNeighbour, IsEdgeNeighbour, IsVertexNeighbour.
  pose proof (accumulate_differences_spec p q H) as A.
  split; [|split; [|split; [|by apply IsNeighbour_spec]]];
    (destruct (accumulate_differences p q [0; 1; 2]%nat 0) as [d|];
     [rewrite Z.eqb_eq; lia | split; [done|lia]]).
Qed.

Lemma neighbour_predicates_classify_witness :
  no_wrap (mkVoxel 4 7 2) (mkVoxel 5 7 1) /\
  IsEdgeNeighbour (mkVoxel 4 7 2) (mkVoxel 5 7 1) = true.
Proof.
  assert (H : no_wrap (mkVoxel 4 7 2) (mkVoxel 5 7 1)) by (by vm_compute).
  split; [exact H|].
  apply (proj1 (proj2 (neighbour_predicates_classify _ _ H))).
  by vm_compute.
Defined.

(** A point that has all its 26 neighbours in the coordinate range. *)
Definition interior_point (p : Voxel) : Prop :=
  1 <= vx p <= 65534 /\ 1 <= vy p <= 65534 /\ 1 <= vz p <= 65534.

Lemma offset_range (d : Z) : d ∈ [0; 1; 2] <-> d = 0 \/ d = 1 \/ d = 2.
Proof.
  rewrite !elem_of_cons, elem_of_nil. tauto.
Qed.

Lemma GetNeighbours_elem_iff (p q : Voxel) :
  q ∈ GetNeighbours p <->
  exists dx dy dz, dx ∈ [0; 1; 2] /\ dy ∈ [0; 1; 2] /\ dz ∈ [0; 1; 2] /\
    (Z.abs (dx - 1) =? 1) || (Z.abs (dy - 1) =? 1) || (Z.abs (dz - 1) =? 1) = true /\
    q = PushPoint p dx dy dz.
Proof.
  unfold GetNeighbours. split.
  - intros H.
    apply list_elem_of_bind in H as (dx & H & Hdx).
    apply list_elem_of_bind in H as (dy & H & Hdy).
    apply list_elem_of_bind in H as (dz & H & Hdz).
    exists dx, dy, dz. repeat (split; [done|]).
    destruct (_ || _); [by apply list_elem_of_singleton in H|by apply elem_of_nil in H].
  - intros (dx & dy & dz & Hdx & Hdy & Hdz & Hc & ->).
    apply list_elem_of_bind. exists dx. split; [|done].
    apply list_elem_of_bind. exists dy. split; [|done].
    apply list_elem_of_bind. exists dz. split; [|done].
    rewrite Hc. by apply list_elem_of_singleton.
Qed.

Lemma SixNeighbour_GetNeighbours_elem_iff (p q : Voxel) :
  q ∈ SixNeighbour_GetNeighbours p <->
  exists dx dy dz, dx ∈ [0; 1; 2] /\ dy ∈ [0; 1; 2] /\ dz ∈ [0; 1; 2] /\
    Z.abs (dx - 1) + Z.abs (dy - 1) + Z.abs (dz - 1) = 1 /\
    q = PushPoint p dx dy dz.
Proof.
  unfold SixNeighbour_GetNeighbours. split.
  - intros H.
    apply list_elem_of_bind in H as (dx & H & Hdx).
    apply list_elem_of_bind in H as (dy & H & Hdy).
    apply list_elem_of_bind in H as (dz & H & Hdz).
    exists dx, dy, dz. repeat (split; [done|]).
    destruct (Z.eqb_spec (Z.abs (dx - 1) + Z.abs (dy - 1) + Z.abs (dz - 1)) 1);
      simpl in H; [by apply list_elem_of_singleton in H|by apply elem_of_nil in H].
  - intros (dx & dy & dz & Hdx & Hdy & Hdz & Hc & ->).
    apply list_elem_of_bind. exists dx. split; [|done].
    apply list_elem_of_bind. exists dy. split; [|done].
    apply list_elem_of_bind. exists dz. split; [|done].
    rewrite Hc. simpl. by apply list_elem_of_singleton.
Qed.

Lemma PushPoint_interior (p : Voxel) (dx dy dz : Z) :
  interior_point p -> 0 <= dx <= 2 -> 0 <= dy <= 2 -> 0 <= dz <= 2 ->
  PushPoint p dx dy dz = mkVoxel (vx p + (dx - 1)) (vy p + (dy - 1)) (vz p + (dz - 1)).
Proof.
  intros (Hx & Hy & Hz) Hdx Hdy Hdz. unfold PushPoint, uint16.
  rewrite !Z.mod_small by lia. f_equal; lia.
Qed.

(** X2.  Around a point whose coordinates lie in 1..65534, the 26-neighbour
    calculator returns exactly the points for which [IsNeighbour] holds, and
    the 6-neighbour calculator exactly those for which [IsFaceNeighbour]
    holds. *)
Theorem calculators_agree_with_predicates (p q : Voxel) :
  interior_point p -> valid_point q ->
  (q ∈ GetNeighbours p <-> IsNeighbour p q = true) /\
  (q ∈ SixNeighbour_GetNeighbours p <-> IsFaceNeighbour p q = true).
Proof.
  intros Hp Hq.
  assert (Hw : no_wrap p q).
  { destruct Hp as (? & ? & ?), Hq as (? & ? & ?). unfold no_wrap, chebyshev. lia. }
  destruct (neighbour_predicates_classify p q Hw) as (Hface & _ & _ & Hnb).
  rewrite Hnb, Hface. clear Hnb Hface.
  rewrite GetNeighbours_elem_iff, SixNeighbour_GetNeighbours_elem_iff.
  unfold chebyshev, manhattan. split; split.
  - intros (dx & dy & dz & Hdx & Hdy & Hdz & Hc & ->).
    apply offset_range in Hdx, Hdy, Hdz.
    rewrite PushPoint_interior by (done || lia). simpl.
    rewrite !orb_true_iff, !Z.eqb_eq in Hc. lia.
  - intros H.
    exists (vx q - vx p + 1), (vy q - vy p + 1), (vz q - vz p + 1).
    rewrite !offset_range, !orb_true_iff, !Z.eqb_eq.
    split; [lia|]. split; [lia|]. split; [lia|]. split; [lia|].
    rewrite PushPoint_interior by (done || lia).
    destruct q. simpl in *. f_equal; lia.
  - intros (dx & dy & dz & Hdx & Hdy & Hdz & Hc & ->).
    apply offset_range in Hdx, Hdy, Hdz.
    rewrite PushPoint_interior by (done || lia). simpl. lia.
  - intros H.
    exists (vx q - vx p + 1), (vy q - vy p + 1), (vz q - vz p + 1).
    rewrite !offset_range.
    split; [lia|]. split; [lia|]. split; [lia|]. split; [lia|].
    rewrite PushPoint_interior by (done || lia).
    destruct q. simpl in *. f_equal; lia.
Qed.

Lemma calculators_agree_with_predicates_witness :
  interior_point (mkVoxel 1 1 65534) /\ valid_point (mkVoxel 0 2 65535) /\
  (mkVoxel 0 2 65535 ∈ GetNeighbours (mkVoxel 1 1 65534)
     <-> IsNeighbour (mkVoxel 1 1 65534) (mkVoxel 0 2 65535) = true) /\
  (mkVoxel 0 2 65535 ∈ SixNeighbour_GetNeighbours (mkVoxel 1 1 65534)
     <-> IsFaceNeighbour (mkVoxel 1 1 65534) (mkVoxel 0 2 65535) = true).
Proof.
  assert (H1 : interior_point (mkVoxel 1 1 65534)) by (unfold interior_point; simpl; lia).
  assert (H2 : valid_point (mkVoxel 0 2 65535)) by (unfold valid_point; simpl; lia).
  split; [exact H1|]. split; [exact H2|].
  exact (calculators_agree_with_predicates _ _ H1 H2).
Defined.

Lemma plane_offsets_elem (direction axis d : Z) :
  d ∈ plane_offsets direction axis <->
  if direction =? axis then d = 1 else d = 0 \/ d = 1 \/ d = 2.
Proof.
  unfold plane_offsets. destruct (direction =? axis).
  - rewrite list_elem_of_singleton. done.
  - apply offset_range.
Qed.

Lemma GetNeighboursInPlane_elem_iff (p q : Voxel) (direction : Z) :
  q ∈ GetNeighboursInPlane p direction <->
  exists dx dy dz, dx ∈ plane_offsets direction 0 /\ dy ∈ plane_offsets direction 1 /\
    dz ∈ plane_offsets direction 2 /\
    (Z.abs (dx - 1) =? 1) || (Z.abs (dy - 1) =? 1) || (Z.abs (dz - 1) =? 1) = true /\
    q = PushPoint p dx dy dz.
Proof.
  unfold GetNeighboursInPlane. split.
  - intros H.
    apply list_elem_of_bind in H as (dx & H & Hdx).
    apply list_elem_of_bind in H as (dy & H & Hdy).
    apply list_elem_of_bind in H as (dz & H & Hdz).
    exists dx, dy, dz. repeat (split; [done|]).
    destruct (_ || _); [by apply list_elem_of_singleton in H|by apply elem_of_nil in H].
  - intros (dx & dy & dz & Hdx & Hdy & Hdz & Hc & ->).
    apply list_elem_of_bind. exists dx. split; [|done].
    apply list_elem_of_bind. exists dy. split; [|done].
    apply list_elem_of_bind. exists dz. split; [|done].
    rewrite Hc. by apply list_elem_of_singleton.
Qed.

(** X3.  Around a point whose coordinates lie in 1..65534,
    [GetNeighboursInPlane] with direction 0, 1 or 2 returns exactly the
    26-neighbours that share the point's coordinate on that axis; with any
    other direction it returns the whole 26-neighbourhood. *)
Theorem neighbours_in_plane_keep_the_coordinate (p q : Voxel) (direction : Z) :
  interior_point p ->
  (0 <= direction < 3 ->
   q ∈ GetNeighboursInPlane p direction <->
   q ∈ GetNeighbours p
   /\ GetCoordinate q (Z.to_nat direction) = GetCoordinate p (Z.to_nat direction)) /\
  (3 <= direction -> GetNeighboursInPlane p direction = GetNeighbours p).
Proof.
  intros Hp. split.
  - intros Hd.
    assert (Hdir : direction = 0 \/ direction = 1 \/ direction = 2) by lia.
    rewrite GetNeighboursInPlane_elem_iff, GetNeighbours_elem_iff. split.
    + intros (dx & dy & dz & Hdx & Hdy & Hdz & Hc & ->).
      apply plane_offsets_elem in Hdx, Hdy, Hdz.
      assert (Rx : dx = 0 \/ dx = 1 \/ dx = 2) by (destruct (_ =? _) in Hdx; lia).
      assert (Ry : dy = 0 \/ dy = 1 \/ dy = 2) by (destruct (_ =? _) in Hdy; lia).
      assert (Rz : dz = 0 \/ dz = 1 \/ dz = 2) by (destruct (_ =? _) in Hdz; lia).
      split.
      * exists dx, dy, dz. rewrite !offset_range. done.
      * rewrite PushPoint_interior by (done || lia).
        destruct Hdir as [->|[->| ->]]; simpl in *; lia.
    + intros [(dx & dy & dz & Hdx & Hdy & Hdz & Hc & ->) Hsame].
      apply offset_range in Hdx, Hdy, Hdz.
      rewrite PushPoint_interior in Hsame by (done || lia).
      exists dx, dy, dz. rewrite !plane_offsets_elem.
      split; [|split; [|split; [|done]]];
        destruct Hdir as [->|[->| ->]]; simpl in *; lia.
  - intros Hd. unfold GetNeighboursInPlane, GetNeighbours, plane_offsets.
    destruct (Z.eqb_spec direction 0); [lia|].
    destruct (Z.eqb_spec direction 1); [lia|].
    destruct (Z.eqb_spec direction 2); [lia|]. done.
Qed.

Lemma neighbours_in_plane_keep_the_coordinate_witness :
  interior_point (mkVoxel 5 6 3) /\
  (mkVoxel 4 6 2 ∈ GetNeighboursInPlane (mkVoxel 5 6 3) 1 <->
   mkVoxel 4 6 2 ∈ GetNeighbours (mkVoxel 5 6 3)
   /\ GetCoordinate (mkVoxel 4 6 2) 1 = GetCoordinate (mkVoxel 5 6 3) 1) /\
  GetNeighboursInPlane (mkVoxel 5 6 3) 7 = GetNeighbours (mkVoxel 5 6 3).
Proof.
  assert (H : interior_point (mkVoxel 5 6 3)) by (unfold interior_point; simpl; lia).
  split; [exact H|]. split.
  - apply (proj1 (neighbours_in_plane_keep_the_coordinate
                    (mkVoxel 5 6 3) (mkVoxel 4 6 2) 1 H)). lia.
  - apply (proj2 (neighbours_in_plane_keep_the_coordinate
                    (mkVoxel 5 6 3) (mkVoxel 4 6 2) 7 H)). lia.
Defined.

Lemma Point_less_irrefl (a : list Z) : Point_less a a = false.
Proof.
  induction a as [|x a IH]; [done|]. simpl. by rewrite Z.ltb_irrefl.
Qed.

Lemma Point_less_trans (a b c : list Z) :
  Point_less a b = true -> Point_less b c = true -> Point_less a c = true.
Proof.
  revert b c. induction a as [|x a IH]; intros [|y b] [|z c]; simpl; try done.
  destruct (Z.ltb_spec x y), (Z.ltb_spec y x), (Z.ltb_spec y z), (Z.ltb_spec z y),
    (Z.ltb_spec x z), (Z.ltb_spec z x); try done; try lia.
  apply IH.
Qed.

Lemma Point_less_total (a b : list Z) :
  length a = length b ->
  Point_less a b = false -> Point_less b a = false -> a = b.
Proof.
  revert b. induction a as [|x a IH]; intros [|y b]; simpl; try done.
  intros L. destruct (Z.ltb_spec x y), (Z.ltb_spec y x); try done; try lia.
  intros H1 H2. f_equal; [lia|]. apply IH; [lia|done|done].
Qed.

Lemma Point_greater_less (a b : list Z) : Point_greater a b = Point_less b a.
Proof.
  revert b. induction a as [|x a IH]; intros [|y b]; simpl; try done.
  by rewrite IH.
Qed.

(** X4.  [operator<] of [Point] is a strict total order on points (the
    lexicographic one, first coordinate first): irreflexive, transitive, and
    two points that are not ordered either way are equal; [operator>] is its
    converse. *)
Theorem point_order_is_strict_and_total :
  (forall p, Point_lt p p = false) /\
  (forall p q r, Point_lt p q = true -> Point_lt q r = true -> Point_lt p r = true) /\
  (forall p q, Point_lt p q = false -> Point_lt q p = false -> p = q) /\
  (forall p q, Point_gt p q = Point_lt q p).
Proof.
  unfold Point_lt, Point_gt. split; [|split; [|split]].
  - intros p. apply Point_less_irrefl.
  - intros p q r. apply Point_less_trans.
  - intros [a b c] [a' b' c'] H1 H2.
    pose proof (Point_less_total [a; b; c] [a'; b'; c'] eq_refl H1 H2) as E.
    by injection E as -> -> ->.
  - intros p q. apply Point_greater_less.
Qed.
(** ** Iterating over the points of an image *)

(** Positive extents that are [uint16_t] values. *)
Definition sizes_ok (sizes : Z * Z * Z) : Prop :=
  0 < sizes.1.1 < 65536 /\ 0 < sizes.1.2 < 65536 /\ 0 < sizes.2 < 65536.

Lemma Iterator_next_spec (sizes : Z * Z * Z) (cur : Voxel) :
  sizes_ok sizes -> in_limits sizes cur ->
  (in_limits sizes (Iterator_next sizes cur) /\
   ConvertToLinearIndex (Iterator_next sizes cur) sizes
     = S (ConvertToLinearIndex cur sizes)) \/
  (Iterator_IsEnd sizes (Iterator_next sizes cur) = true /\
   S (ConvertToLinearIndex cur sizes) = Z.to_nat (sizes.1.1 * sizes.1.2 * sizes.2)).
Proof.
  destruct sizes as [[sx sy] sz]. unfold sizes_ok, in_limits. simpl.
  intros (Sx & Sy & Sz) (Hx & Hy & Hz).
  unfold Iterator_next, Iterator_IsEnd, ConvertToLinearIndex, uint16. simpl.
  rewrite (Z.mod_small (vx cur + 1)) by lia.
  assert (0 <= sx * vy cur) by (apply Z.mul_nonneg_nonneg; lia).
  assert (0 < sx * sy) by (apply Z.mul_pos_pos; lia).
  assert (0 <= sx * sy * vz cur) by (apply Z.mul_nonneg_nonneg; lia).
  destruct (Z.leb_spec sx (vx cur + 1)) as [Lx|Lx].
  - rewrite (Z.mod_small (vy cur + 1)) by lia.
    destruct (Z.leb_spec sy (vy cur + 1)) as [Ly|Ly].
    + rewrite (Z.mod_small (vz cur + 1)) by lia. simpl.
      assert (Ex : vx cur = sx - 1) by lia. assert (Ey : vy cur = sy - 1) by lia.
      destruct (Z.leb_spec sz (vz cur + 1)) as [Lz|Lz].
      * right. split; [done|]. assert (Ez : vz cur = sz - 1) by lia.
        rewrite Ex, Ey, Ez. rewrite <- Z2Nat.inj_succ by nia. f_equal. ring.
      * left. split; [lia|]. rewrite <- Z2Nat.inj_succ by nia. f_equal.
        rewrite Ex, Ey. ring.
    + simpl. left. split; [lia|]. rewrite <- Z2Nat.inj_succ by nia. f_equal.
      assert (Ex : vx cur = sx - 1) by lia. rewrite Ex. ring.
  - simpl. left. split; [lia|]. rewrite <- Z2Nat.inj_succ by nia. f_equal. ring.
Qed.

Lemma points_from_spec (sizes : Z * Z * Z) (fuel : nat) (cur : Voxel) :
  sizes_ok sizes -> in_limits sizes cur ->
  (ConvertToLinearIndex cur sizes + fuel
   >= Z.to_nat (sizes.1.1 * sizes.1.2 * sizes.2))%nat ->
  (ConvertToLinearIndex cur sizes + length (points_from fuel sizes cur)
   = Z.to_nat (sizes.1.1 * sizes.1.2 * sizes.2))%nat /\
  forall k q, points_from fuel sizes cur !! k = Some q ->
    in_limits sizes q /\
    ConvertToLinearIndex q sizes = (ConvertToLinearIndex cur sizes + k)%nat.
Proof.
  intros Hs. revert cur. induction fuel as [|fuel IH]; intros cur Hcur Hfuel.
  - pose proof (linear_index_lt _ _ Hcur). lia.
  - assert (Hend : Iterator_IsEnd sizes cur = false).
    { unfold Iterator_IsEnd. destruct Hcur as (_ & _ & Hz). apply Z.leb_gt. lia. }
    cbn [points_from]. rewrite Hend.
    destruct (Iterator_next_spec sizes cur Hs Hcur) as [[Hn En]|[Hn En]].
    + destruct (IH (Iterator_next sizes cur) Hn) as [Hlen Hget]; [lia|].
      split; [simpl; lia|].
      intros [|k] q Hq; simpl in Hq.
      * injection Hq as <-. split; [done|lia].
      * destruct (Hget k q Hq) as [? ?]. split; [done|lia].
    + assert (E : points_from fuel sizes (Iterator_next sizes cur) = []).
      { destruct fuel; simpl; by rewrite Hn. }
      rewrite E. split; [simpl; lia|].
      intros [|k] q Hq; simpl in Hq; [|done].
      injection Hq as <-. split; [done|lia].
Qed.

Lemma image_points_index (img : TernaryImage) :
  sizes_ok (sizes_ img) ->
  length (image_points img) = GetTotalSize img /\
  (forall i p, image_points img !! i = Some p ->
     in_limits (sizes_ img) p /\ ConvertToLinearIndex p (sizes_ img) = i).
Proof.
  intros Hs. unfold image_points, GetTotalSize.
  destruct (sizes_ img) as [[sx sy] sz] eqn:E.
  pose proof Hs as (Sx & Sy & Sz). simpl in Sx, Sy, Sz.
  rewrite !Z.max_l by lia.
  assert (H0 : in_limits (sx, sy, sz) (mkVoxel 0 0 0)).
  { unfold in_limits. simpl. lia. }
  assert (C0 : ConvertToLinearIndex (mkVoxel 0 0 0) (sx, sy, sz) = 0%nat).
  { unfold ConvertToLinearIndex. simpl. rewrite !Z.mul_0_r. done. }
  destruct (points_from_spec (sx, sy, sz) (Z.to_nat (sx * sy * sz)) (mkVoxel 0 0 0) Hs H0)
    as [Hlen Hget].
  { rewrite C0. simpl. lia. }
  rewrite C0 in Hlen, Hget. cbn [fst snd Nat.add] in Hlen, Hget.
  split; [done|]. intros i p Hp. by apply Hget.
Qed.

Lemma image_points_NoDup (img : TernaryImage) :
  sizes_ok (sizes_ img) -> NoDup (image_points img).
Proof.
  intros Hs. destruct (image_points_index img Hs) as [_ Hget].
  apply NoDup_alt. intros i j p Hi Hj.
  destruct (Hget _ _ Hi) as [_ <-]. by destruct (Hget _ _ Hj) as [_ <-].
Qed.

Lemma image_points_elem (img : TernaryImage) (p : Voxel) :
  sizes_ok (sizes_ img) -> in_limits (sizes_ img) p -> p ∈ image_points img.
Proof.
  intros Hs Hp. destruct (image_points_index img Hs) as [Hlen Hget].
  pose proof (linear_index_lt _ _ Hp) as Hlt.
  destruct (lookup_lt_is_Some_2 (image_points img)
              (ConvertToLinearIndex p (sizes_ img))) as [q Hq].
  { rewrite Hlen. unfold GetTotalSize. by destruct (sizes_ img) as [[? ?] ?]. }
  destruct (Hget _ _ Hq) as [Hlim Hidx].
  apply (linear_index_inj _ _ _ Hlim Hp) in Hidx. subst q.
  by eapply list_elem_of_lookup_2.
Qed.

(** X5.  For an image with positive extents, the iteration over its points
    (x fastest, then y, then z) produces [GetTotalSize] points, and the point
    at position i is the point of the image whose linear index is i: every
    point inside the limits is produced exactly once, in the order of
    [ConvertToLinearIndex]. *)
Theorem image_iteration_follows_linear_index (img : TernaryImage) :
  sizes_ok (sizes_ img) ->
  length (image_points img) = GetTotalSize img /\
  (forall p, in_limits (sizes_ img) p ->
     image_points img !! ConvertToLinearIndex p (sizes_ img) = Some p) /\
  (forall i p, image_points img !! i = Some p ->
     in_limits (sizes_ img) p /\ ConvertToLinearIndex p (sizes_ img) = i).
Proof.
  intros Hs. destruct (image_points_index img Hs) as [Hlen Hget].
  split; [done|]. split; [|done].
  intros p Hp. pose proof (linear_index_lt _ _ Hp) as Hlt.
  destruct (lookup_lt_is_Some_2 (image_points img)
              (ConvertToLinearIndex p (sizes_ img))) as [q Hq].
  { rewrite Hlen. unfold GetTotalSize. by destruct (sizes_ img) as [[? ?] ?]. }
  rewrite Hq. f_equal. destruct (Hget _ _ Hq) as [Hlim Hidx].
  by apply (linear_index_inj (sizes_ img)).
Qed.

Lemma image_iteration_follows_linear_index_witness :
  sizes_ok (sizes_ Examples.plane_img) /\
  length (image_points Examples.plane_img) = GetTotalSize Examples.plane_img.
Proof.
  assert (H : sizes_ok (sizes_ Examples.plane_img)) by (by vm_compute).
  split; [exact H|].
  exact (proj1 (image_iteration_follows_linear_index _ H)).
Defined.
(** ** Operations of the two graphs *)

Section GraphOps.
Import Graph.

(** X6.  Built from the same annotated image, the flat-indexed graph and the
    hash-keyed graph answer alike for every key whose voxel lies inside the
    image: the flat builder returns a graph (the [at] calls inside the
    [noexcept] builder stay in range), [operator[]] gives the same annotation
    or throws in both, [HasVertex] gives the same answer, which is true
    exactly for the annotated object points, and the lookups leave the graph
    as it was. *)
Theorem graph_flavours_agree_inside_the_image
    (image : AnnotatedImage) (original : TernaryImage) (key : Vertex) :
  IsOffLimitsPoint original (Point key) = false ->
  exists g, SpeedGraphBuilder_Build image original = Ok g /\
    SpeedGraph_get g key
      = ((MemoryGraph_get (MemoryGraphBuilder_Build image original) key).1, g) /\
    SpeedGraph_HasVertex g key
      = ((MemoryGraph_HasVertex (MemoryGraphBuilder_Build image original) key).1, g) /\
    (MemoryGraph_HasVertex (MemoryGraphBuilder_Build image original) key).1
      = Ok (HasAnnotation image (Point key) && IsObjectPoint original (Point key)).
Proof.
  intros Hlim. apply IsOffLimitsPoint_false in Hlim.
  destruct (SpeedGraphBuilder_Build_spec image original) as (g & E & Hc & _ & _ & Hs).
  exists g. split; [done|]. destruct (Hs _ Hlim) as [H1 H2].
  unfold SpeedGraph_get, SpeedGraph_HasVertex, MemoryGraph_get, MemoryGraph_HasVertex,
    convert_key_, HasAnnotation.
  rewrite Hc, MemoryGraphBuilder_Build_lookup. cbn [fst snd].
  rewrite (proj2 (vec_index_Ok _ _ _) H2), (proj2 (vec_at_Ok _ _ _) H2),
    (proj2 (vec_at_Ok _ _ _) H1).
  unfold speed_slot. destruct (image !! Point key) as [a|] eqn:Ea; simpl.
  - by destruct (IsObjectPoint original (Point key)).
  - by destruct (IsObjectPoint original (Point key)).
Qed.

Lemma graph_flavours_agree_inside_the_image_witness :
  IsOffLimitsPoint Examples.line_img (Point Examples.key_inside) = false /\
  exists g, SpeedGraphBuilder_Build Examples.line_annotations Examples.line_img = Ok g /\
    SpeedGraph_get g Examples.key_inside
      = ((MemoryGraph_get
            (MemoryGraphBuilder_Build Examples.line_annotations Examples.line_img)
            Examples.key_inside).1, g) /\
    SpeedGraph_HasVertex g Examples.key_inside
      = ((MemoryGraph_HasVertex
            (MemoryGraphBuilder_Build Examples.line_annotations Examples.line_img)
            Examples.key_inside).1, g) /\
    (MemoryGraph_HasVertex
       (MemoryGraphBuilder_Build Examples.line_annotations Examples.line_img)
       Examples.key_inside).1
      = Ok (HasAnnotation Examples.line_annotations (Point Examples.key_inside)
            && IsObjectPoint Examples.line_img (Point Examples.key_inside)).
Proof.
  assert (H : IsOffLimitsPoint Examples.line_img (Point Examples.key_inside) = false)
    by (vm_compute; reflexivity).
  split; [exact H|].
  exact (graph_flavours_agree_inside_the_image _ _ _ H).
Defined.





(** The annotated object points among the given points, as vertices. *)
Definition object_vertices (image : AnnotatedImage) (original : TernaryImage)
    (points : list Voxel) : list Vertex :=
  omap (fun q => match image !! q with
                 | Some a => if IsObjectPoint original q
                             then Some (mkVertex q (Z_to_double (distance a)))
                             else None
                 | None => None
                 end) points.

Lemma annotated_neighbours_spec (image : AnnotatedImage) (points : list Voxel) :
  annotated_neighbours image points
  = Ok (omap (fun q => (fun a => mkVertex q (Z_to_double (distance a))) <$> image !! q)
             points).
Proof.
  induction points as [|q points IH]; [done|].
  cbn [annotated_neighbours omap list_omap]. unfold HasAnnotation, ReadAnnotation. rewrite IH.
  by destruct (image !! q) as [a|].
Qed.

Lemma keep_vertices_spec (HasVertex : Vertex -> result bool) (has : Vertex -> bool)
    (neighbours : list Vertex) :
  (forall v, v ∈ neighbours -> HasVertex v = Ok (has v)) ->
  keep_vertices HasVertex neighbours = Ok (filter (fun v => has v = true) neighbours).
Proof.
  induction neighbours as [|v neighbours IH]; intros H; [done|].
  cbn [keep_vertices]. rewrite (H v) by (by left). cbn [mbind result_bind].
  rewrite IH by (intros w Hw; apply H; by right). cbn [mbind result_bind].
  rewrite filter_cons. by destruct (has v).
Qed.

Lemma filter_object_vertices (image : AnnotatedImage) (original : TernaryImage)
    (points : list Voxel) :
  filter (fun v => IsObjectPoint original (Point v) = true)
    (omap (fun q => (fun a => mkVertex q (Z_to_double (distance a))) <$> image !! q) points)
  = object_vertices image original points.
Proof.
  unfold object_vertices. induction points as [|q points IH]; [done|].
  cbn [omap list_omap]. destruct (image !! q) as [a|]; simpl; [|done].
  rewrite filter_cons. simpl. rewrite IH.
  by destruct (IsObjectPoint original q).
Qed.

(** X9.  On the two graphs built from an annotated image whose annotated
    points all lie inside the image, [GetVertexNeighbours] gives the same
    result for every key inside the image: for a key that is a vertex, the
    annotated object points among the 26 neighbours of its point, in the order
    of the neighbour calculator and each with its own annotated distance as
    property value; for a key that is not a vertex, an exception. *)
Theorem vertex_neighbours_are_the_annotated_object_neighbours
    (image : AnnotatedImage) (original : TernaryImage) (key : Vertex) :
  (forall p, is_Some (image !! p) -> IsOffLimitsPoint original p = false) ->
  IsOffLimitsPoint original (Point key) = false ->
  exists g, SpeedGraphBuilder_Build image original = Ok g /\
    SpeedGraph_GetVertexNeighbours image g key
      = MemoryGraph_GetVertexNeighbours image (MemoryGraphBuilder_Build image original) key /\
    MemoryGraph_GetVertexNeighbours image (MemoryGraphBuilder_Build image original) key
      = if HasAnnotation image (Point key) && IsObjectPoint original (Point key)
        then Ok (object_vertices image original (GetNeighbours (Point key)))
        else Fail Exception.
Proof.
  intros Hin Hlim.
  destruct (SpeedGraphBuilder_Build_spec image original) as (g & E & Hc & _ & _ & Hs).
  exists g. split; [done|].
  assert (Hmem : forall v, (MemoryGraph_HasVertex (MemoryGraphBuilder_Build image original) v).1
                 = Ok (HasAnnotation image (Point v) && IsObjectPoint original (Point v))).
  { intros v. unfold MemoryGraph_HasVertex, HasAnnotation. cbn [fst].
    rewrite MemoryGraphBuilder_Build_lookup.
    destruct (IsObjectPoint original (Point v)), (image !! Point v); done. }
  assert (Hspeed : forall v, IsOffLimitsPoint original (Point v) = false ->
            (SpeedGraph_HasVertex g v).1
            = Ok (HasAnnotation image (Point v) && IsObjectPoint original (Point v))).
  { intros v Hv. apply IsOffLimitsPoint_false in Hv. destruct (Hs _ Hv) as [_ H2].
    unfold SpeedGraph_HasVertex, convert_key_, HasAnnotation. cbn [fst].
    rewrite Hc, (proj2 (vec_at_Ok _ _ _) H2). unfold speed_slot.
    destruct (image !! Point v); simpl; [|done].
    by destruct (IsObjectPoint original (Point v)). }
  unfold SpeedGraph_GetVertexNeighbours, MemoryGraph_GetVertexNeighbours,
    VertexNeighbourCalculator_GetNeighbours.
  rewrite Hmem, (Hspeed key Hlim), annotated_neighbours_spec.
  cbn [mbind result_bind noexcept].
  destruct (HasAnnotation image (Point key) && IsObjectPoint original (Point key));
    cbn [negb]; [|done].
  set (ns := omap _ (GetNeighbours (Point key))).
  assert (Hns : forall v, v ∈ ns -> is_Some (image !! Point v)).
  { intros v Hv. apply list_elem_of_omap in Hv as (q & _ & Hq).
    destruct (image !! q) as [a|] eqn:Ea; [|done]. injection Hq as <-. simpl. eauto. }
  rewrite (keep_vertices_spec _
             (fun v => HasAnnotation image (Point v) && IsObjectPoint original (Point v)))
    by (intros v Hv; apply Hspeed, Hin, Hns, Hv).
  rewrite (keep_vertices_spec _
             (fun v => HasAnnotation image (Point v) && IsObjectPoint original (Point v)))
    by (intros v Hv; apply Hmem).
  split; [done|]. f_equal. rewrite <- filter_object_vertices. fold ns.
  apply filter_ext_elem. intros v Hv.
  apply Hns in Hv. unfold HasAnnotation. rewrite bool_decide_eq_true_2 by done. done.
Qed.

Lemma vertex_neighbours_are_the_annotated_object_neighbours_witness :
  exists g, SpeedGraphBuilder_Build Examples.line_annotations Examples.line_img = Ok g /\
    SpeedGraph_GetVertexNeighbours Examples.line_annotations g (mkVertex (mkVoxel 2 0 0) 0%float)
      = MemoryGraph_GetVertexNeighbours Examples.line_annotations
          (MemoryGraphBuilder_Build Examples.line_annotations Examples.line_img)
          (mkVertex (mkVoxel 2 0 0) 0%float) /\
    MemoryGraph_GetVertexNeighbours Examples.line_annotations
      (MemoryGraphBuilder_Build Examples.line_annotations Examples.line_img)
      (mkVertex (mkVoxel 2 0 0) 0%float)
      = if HasAnnotation Examples.line_annotations (Point (mkVertex (mkVoxel 2 0 0) 0%float))
           && IsObjectPoint Examples.line_img (Point (mkVertex (mkVoxel 2 0 0) 0%float))
        then Ok (object_vertices Examples.line_annotations Examples.line_img
                   (GetNeighbours (Point (mkVertex (mkVoxel 2 0 0) 0%float))))
        else Fail Exception.
Proof.
  apply vertex_neighbours_are_the_annotated_object_neighbours.
  - intros p [a Ha]. unfold Examples.line_annotations in Ha.
    apply lookup_singleton_Some in Ha as [<- _]. by vm_compute.
  - by vm_compute.
Defined.

End GraphOps.
(** ** Handles of the handle-based heap *)

Section HandleProofs.
Context {TKey : Type} (IsLess : TKey -> TKey -> bool) (maximum_key : TKey).

Hypothesis IsLess_asym : forall a b, IsLess a b = true -> IsLess b a = false.
Hypothesis IsLess_le_trans :
  forall a b c, IsLess b a = false -> IsLess c b = false -> IsLess c a = false.

Import HandleHeap.
Local Abbreviation Handle := (@Handle TKey).
Local Abbreviation Heap := (@Heap TKey).

(** The entries of the heap as seen by a caller: which handle holds which
    key. *)
Definition entries (els : list Handle) : list (nat * TKey) :=
  (fun x => (hid x, priority_ x)) <$> els.

Definition hids (els : list Handle) : list nat := hid <$> els.

(** Well-formed, and no two entries share a handle. *)
Definition handles_ok (h : Heap) : Prop :=
  wf IsLess h /\ NoDup (hids (elements_ h)).

Lemma hids_entries (els : list Handle) : hids els = fst <$> entries els.
Proof. unfold hids, entries. by rewrite <- list_fmap_compose. Qed.

Lemma keys_entries (els : list Handle) : keys els = snd <$> entries els.
Proof. unfold keys, entries. by rewrite <- list_fmap_compose. Qed.

Lemma entries_swapped (els : list Handle) (i j : nat) (a b : Handle) :
  els !! i = Some a -> els !! j = Some b ->
  entries (swapped els i j a b) ≡ₚ entries els.
Proof.
  intros Ha Hb. unfold entries, swapped. rewrite !list_fmap_insert. simpl.
  apply insert_swap_Permutation; rewrite list_lookup_fmap.
  - by rewrite Ha.
  - by rewrite Hb.
Qed.

Lemma Swap_entries (els els' : list Handle) (i j : nat) :
  i <> j -> Swap els i j = Ok els' -> entries els' ≡ₚ entries els.
Proof.
  intros Hij H. pose proof H as E. unfold Swap in H.
  apply bind_Ok in H as (b & Hb & H). apply vec_at_Ok in Hb.
  apply bind_Ok in H as (a & Ha & _). apply vec_at_Ok in Ha.
  rewrite (Swap_spec els i j a b Hij Ha Hb) in E. injection E as <-.
  by apply entries_swapped.
Qed.

Lemma sift_up_entries (fuel : nat) : forall (els els' : list Handle) (k : nat),
  sift_up IsLess fuel els k = Ok els' -> entries els' ≡ₚ entries els.
Proof.
  induction fuel as [|fuel IH]; intros els els' k; cbn [sift_up];
    (case_bool_decide as Hk; [|by intros [= <-]]);
    intros H; apply bind_Ok in H as (x & Hx & H);
    apply bind_Ok in H as (p & Hp & H);
    (destruct (IsLessH IsLess x p); [|by injection H as <-]);
    apply bind_Ok in H as (els1 & Hs & H).
  - done.
  - rewrite (IH _ _ _ H). pose proof (Parent_lt k Hk) as Hlt.
    eapply Swap_entries; [|exact Hs]. lia.
Qed.

Lemma MinHeapify_entries (fuel : nat) : forall (els els' : list Handle) (k : nat),
  MinHeapify IsLess fuel els k = Ok els' -> entries els' ≡ₚ entries els.
Proof.
  induction fuel as [|fuel IH]; intros els els' k; cbn [MinHeapify];
    intros H; apply bind_Ok in H as (s1 & _ & H);
    apply bind_Ok in H as (s2 & _ & H);
    (case_bool_decide as Hs; [|by injection H as <-]);
    apply bind_Ok in H as (els1 & Hsw & H).
  - done.
  - rewrite (IH _ _ _ H). eapply Swap_entries; [|exact Hsw]. done.
Qed.

(** A handle of the heap is found at the position of its entry. *)
Lemma position_lookup (els : list Handle) (i : nat) (x : Handle) :
  NoDup (hids els) -> els !! i = Some x -> position els (hid x) = Some i.
Proof.
  revert i. induction els as [|y els IH]; intros i Hnd Hx; [done|].
  apply NoDup_cons in Hnd as [Hy Hnd]. cbn [position]. destruct i as [|i]; simpl in Hx.
  - injection Hx as ->. by rewrite bool_decide_eq_true_2.
  - rewrite bool_decide_eq_false_2.
    + by rewrite (IH i Hnd Hx).
    + intros E. apply Hy. rewrite E. apply list_elem_of_fmap. exists x.
      split; [done|]. by eapply list_elem_of_lookup_2.
Qed.

(** A handle that is not in the heap (never returned, or of a removed entry)
    points to no entry. *)
Lemma position_absent (els : list Handle) (p : nat) :
  p ∉ hids els -> position els p = None.
Proof.
  induction els as [|y els IH]; intros Hp; [done|].
  cbn [position]. rewrite bool_decide_eq_false_2.
  - rewrite IH; [done|]. intros Hin. apply Hp. by right.
  - intros E. apply Hp. rewrite <- E. by left.
Qed.

Lemma NoDup_entries (els els' : list Handle) :
  entries els' ≡ₚ entries els -> NoDup (hids els) -> NoDup (hids els').
Proof. intros HP. rewrite !hids_entries. by rewrite HP. Qed.

Lemma entries_insert (els : list Handle) (pos : nat) (x : Handle) (k : TKey) :
  entries (<[pos := SetPriority x k]> els) = <[pos := (hid x, k)]> (entries els).
Proof. unfold entries. by rewrite list_fmap_insert. Qed.

(** What [DecreasePriority] does to the entries, when it returns. *)
Lemma DecreasePriority_entries (h h' : Heap) (pos : nat) (x : Handle) (k : TKey) :
  NoDup (hids (elements_ h)) -> elements_ h !! pos = Some x ->
  DecreasePriority IsLess h (hid x) k = Ok h' ->
  entries (elements_ h') ≡ₚ <[pos := (hid x, k)]> (entries (elements_ h))
  /\ allocated h' = allocated h.
Proof.
  intros Hnd Hx. unfold DecreasePriority.
  rewrite (position_lookup _ _ _ Hnd Hx), (proj2 (vec_index_Ok _ _ _) Hx).
  cbn [mbind result_bind]. destruct (IsLess (priority_ x) k); [done|].
  intros H. apply bind_Ok in H as (els' & Hs & [= <-]). simpl.
  split; [|done]. rewrite (sift_up_entries _ _ _ _ Hs). by rewrite entries_insert.
Qed.

Lemma DecreasePriority_spec (h : Heap) (pos : nat) (x : Handle) (k : TKey) :
  handles_ok h -> elements_ h !! pos = Some x -> IsLess (priority_ x) k = false ->
  exists h', DecreasePriority IsLess h (hid x) k = Ok h' /\ handles_ok h' /\
    entries (elements_ h') ≡ₚ <[pos := (hid x, k)]> (entries (elements_ h)).
Proof.
  intros [(Hord & Hidx & Hfresh) Hnd] Hx Hk.
  assert (E : exists h', DecreasePriority IsLess h (hid x) k = Ok h' /\ wf IsLess h').
  { unfold DecreasePriority.
    rewrite (position_lookup _ _ _ Hnd Hx), (proj2 (vec_index_Ok _ _ _) Hx).
    cbn [mbind result_bind]. rewrite Hk.
    rewrite (Hidx _ _ Hx).
    pose proof (lookup_lt_Some _ _ _ Hx) as Hlt.
    set (els2 := <[pos := SetPriority x k]> (elements_ h)).
    assert (Hget : forall i, i <> pos -> els2 !! i = elements_ h !! i).
    { intros i Hi. unfold els2. by rewrite list_lookup_insert_ne. }
    assert (Hpos : els2 !! pos = Some (SetPriority x k)).
    { unfold els2. by apply list_lookup_insert_eq. }
    destruct (sift_up_spec IsLess IsLess_asym IsLess_le_trans pos els2 pos)
      as (els' & Es & Ho & Hi & (HL & HP & HH)).
    - lia.
    - unfold els2. by rewrite length_insert.
    - split.
      + intros i Hi Hne y p Hy Hp. rewrite Hget in Hy by done.
        destruct (decide (Parent i = pos)) as [Ep|Np].
        * rewrite Ep, Hpos in Hp. injection Hp as <-. simpl.
          eapply (key_le_trans IsLess IsLess_le_trans); [exact Hk|].
          apply (Hord i Hi y x Hy). by rewrite Ep.
        * rewrite Hget in Hp by done. by apply (Hord i Hi).
      + intros c y g Hp0 Hc Hpc Hy Hg.
        pose proof (Parent_lt c Hc). pose proof (Parent_lt pos Hp0).
        rewrite Hget in Hy by lia. rewrite Hget in Hg by lia.
        eapply (key_le_trans IsLess IsLess_le_trans).
        * apply (Hord pos Hp0 x g Hx Hg).
        * apply (Hord c Hc y x Hy). by rewrite Hpc.
    - intros i y Hy. destruct (decide (i = pos)) as [->|Hi].
      + rewrite Hpos in Hy. injection Hy as <-. simpl. by apply Hidx.
      + rewrite Hget in Hy by done. by apply Hidx.
    - rewrite Es. cbn [mbind result_bind]. eexists. split; [reflexivity|].
      split; [done|]. split; [done|]. intros y Hy. simpl in *.
      destruct (HH y Hy) as (z & Hz & Ez). rewrite <- Ez.
      apply list_elem_of_lookup in Hz as (i & Hz).
      destruct (decide (i = pos)) as [->|Hne].
      + rewrite Hpos in Hz. injection Hz as <-. simpl. apply Hfresh.
        by eapply list_elem_of_lookup_2.
      + rewrite Hget in Hz by done. apply Hfresh. by eapply list_elem_of_lookup_2. }
  destruct E as (h' & E & Hwf). exists h'. split; [done|].
  destruct (DecreasePriority_entries h h' pos x k Hnd Hx E) as [HP _].
  split; [|done]. split; [done|].
  rewrite hids_entries, HP, list_fmap_insert. simpl.
  rewrite <- hids_entries. unfold hids.
  rewrite list_insert_id; [done|]. rewrite list_lookup_fmap. by rewrite Hx.
Qed.

(** What [Remove] does to the entries, when it returns: the entry at the
    front leaves. *)
Lemma Remove_entries (h h' : Heap) (m : TKey) :
  Remove IsLess h = Ok (m, h') ->
  exists x, elements_ h !! 0%nat = Some x /\ m = priority_ x /\
    (hid x, m) :: entries (elements_ h') ≡ₚ entries (elements_ h).
Proof.
  unfold Remove, First, HeapSize. case_bool_decide as Hsize; [done|].
  intros H. apply bind_Ok in H as (m' & Hmin & H).
  apply fmap_Ok in Hmin as (x & Hx & ->). apply vec_at_Ok in Hx.
  apply bind_Ok in H as (x' & _ & H).
  apply bind_Ok in H as (last & Hl & H). apply vec_at_Ok in Hl.
  apply bind_Ok in H as (front & Hf & H). apply vec_index_Ok in Hf.
  apply bind_Ok in H as (els' & Hm & [= <- <-]).
  apply (proj1 (noexcept_Ok _ _)) in Hm.
  exists x. split; [done|]. split; [done|]. simpl.
  rewrite (MinHeapify_entries _ _ _ _ Hm).
  destruct (elements_ h) as [|r rest]; [done|]. simpl in Hx. injection Hx as ->.
  destruct rest as [|z rest] using rev_ind.
  { by cbv in Hf. }
  clear IHrest.
  assert (Hlast : last = z).
  { simpl in Hl. rewrite length_app in Hl. simpl in Hl.
    replace (length rest + 1 - 0)%nat with (S (length rest)) in Hl by lia.
    simpl in Hl. rewrite lookup_app_r in Hl by lia. rewrite Nat.sub_diag in Hl.
    by injection Hl as <-. }
  subst last.
  assert (Hpop : pop_back (<[0%nat := z]> (x :: rest ++ [z])) = z :: rest).
  { unfold pop_back. simpl. rewrite length_app. simpl.
    replace (length rest + 1 - 0)%nat with (S (length rest)) by lia.
    simpl. f_equal. by rewrite take_app_length. }
  rewrite Hpop in Hf |- *. simpl in Hf. injection Hf as <-.
  unfold entries. simpl. rewrite fmap_app. simpl.
  f_equiv. by rewrite (comm (++)).
Qed.

Lemma Insert_entries (h h' : Heap) (k : TKey) (p : nat) :
  handles_ok h -> Insert IsLess maximum_key h k = Ok (p, h') ->
  p = allocated h /\ entries (elements_ h') ≡ₚ (p, k) :: entries (elements_ h).
Proof.
  intros [(_ & _ & Hfresh) Hnd]. unfold Insert, HeapSize.
  intros H. apply bind_Ok in H as (h2 & Hd & [= <- <-]). simpl. split; [done|].
  set (mh := mkHandle (allocated h) maximum_key (length (elements_ h))) in *.
  destruct (DecreasePriority_entries
              (mkHeap (elements_ h ++ [mh]) (S (allocated h)) (decreaseCounter_ h)
                      (removeCounter_ h))
              h2 (length (elements_ h)) mh k) as [HP _]; [| |exact Hd|].
  - simpl. unfold hids. rewrite fmap_app. simpl. apply NoDup_app. split; [done|].
    split; [|apply NoDup_singleton].
    intros y Hy Hin. apply list_elem_of_singleton in Hin. subst y.
    apply list_elem_of_fmap in Hy as (z & Ez & Hz). apply Hfresh in Hz. lia.
  - simpl. rewrite lookup_app_r by lia. by rewrite Nat.sub_diag.
  - rewrite HP. simpl. unfold entries. rewrite fmap_app. simpl.
    replace (length (elements_ h))
      with (length ((fun x : Handle => (hid x, priority_ x)) <$> elements_ h) + 0)%nat
      by (rewrite length_fmap; lia).
    rewrite insert_app_r. simpl. by rewrite (comm (++)).
Qed.

End HandleProofs.

(** X10.  Handles identify entries.  On a well-formed heap without shared
    handles, and for a comparer that is a strict weak order: [Insert] of a key
    not above the default key returns a handle that no entry had, adds the
    entry (handle, key) and leaves every other handle with its key; [Remove]
    on a heap of at least two entries returns the key of the front entry,
    takes that entry away and leaves every other handle with its key, and the
    handle of the removed entry points to no entry any more (using it in
    [DecreasePriority] is undefined).  Both keep the heap well formed. *)
Theorem handles_identify_entries :
  forall (TKey : Type) (IsLess : TKey -> TKey -> bool) (maximum_key : TKey),
  (forall a b, IsLess a b = true -> IsLess b a = false) ->
  (forall a b c, IsLess b a = false -> IsLess c b = false -> IsLess c a = false) ->
  forall h : HandleHeap.Heap, handles_ok IsLess h ->
  (forall k, IsLess maximum_key k = false ->
     exists h', HandleHeap.Insert IsLess maximum_key h k = Ok (HandleHeap.allocated h, h') /\
       handles_ok IsLess h' /\
       (HandleHeap.allocated h ∉ hids (HandleHeap.elements_ h)) /\
       entries (HandleHeap.elements_ h')
         ≡ₚ (HandleHeap.allocated h, k) :: entries (HandleHeap.elements_ h)) /\
  ((2 <= length (HandleHeap.elements_ h))%nat ->
     exists x h', HandleHeap.elements_ h !! 0%nat = Some x /\
       HandleHeap.Remove IsLess h = Ok (HandleHeap.priority_ x, h') /\
       handles_ok IsLess h' /\
       (HandleHeap.hid x, HandleHeap.priority_ x) :: entries (HandleHeap.elements_ h')
         ≡ₚ entries (HandleHeap.elements_ h) /\
       forall k, HandleHeap.DecreasePriority IsLess h' (HandleHeap.hid x) k
                 = Fail UndefinedBehaviour).
Proof.
  intros TKey IsLess maximum_key Hasym Htrans h Hok. split.
  - intros k Hk. pose proof Hok as [Hwf Hnd].
    destruct (Insert_spec IsLess maximum_key Hasym Htrans h k Hwf Hk)
      as (h' & E & Hwf' & _ & _).
    destruct (Insert_entries IsLess maximum_key h h' k _ Hok E) as [_ HP].
    exists h'. split; [done|].
    assert (Hfresh : HandleHeap.allocated h ∉ hids (HandleHeap.elements_ h)).
    { intros Hin. apply list_elem_of_fmap in Hin as (z & Ez & Hz).
      destruct Hwf as (_ & _ & Hf). apply Hf in Hz. lia. }
    split; [|done]. split; [done|].
    rewrite hids_entries, HP. simpl. apply NoDup_cons. by rewrite <- hids_entries.
  - intros Hlen. pose proof Hok as [Hwf Hnd].
    destruct (Remove_spec IsLess Hasym Htrans h Hwf Hlen) as (m & h' & E & Hwf' & _).
    destruct (Remove_entries IsLess h h' m E) as (x & Hx & -> & HP).
    exists x, h'. split; [done|]. split; [done|].
    assert (Hnd' : NoDup ((HandleHeap.hid x, HandleHeap.priority_ x).1
                          :: hids (HandleHeap.elements_ h'))).
    { rewrite hids_entries. change (NoDup (fst <$> (HandleHeap.hid x, HandleHeap.priority_ x)
                                            :: entries (HandleHeap.elements_ h'))).
      rewrite HP. by rewrite <- hids_entries. }
    apply NoDup_cons in Hnd' as [Hnotin Hnd']. simpl in Hnotin.
    split; [done|]. split; [done|].
    intros k. unfold HandleHeap.DecreasePriority.
    by rewrite (position_absent _ _ Hnotin).
Qed.

Lemma handles_identify_entries_witness :
  exists h1 h2 x h3,
    HandleHeap.Insert HandleHeap.Key_int32_IsLess HandleHeap.Key_int32_default
      HandleHeap.empty 5 = Ok (0%nat, h1) /\
    HandleHeap.Insert HandleHeap.Key_int32_IsLess HandleHeap.Key_int32_default
      h1 3 = Ok (HandleHeap.allocated h1, h2) /\
    HandleHeap.Remove HandleHeap.Key_int32_IsLess h2 = Ok (HandleHeap.priority_ x, h3) /\
    handles_ok HandleHeap.Key_int32_IsLess h3.
Proof.
  assert (Hasym : forall a b, HandleHeap.Key_int32_IsLess a b = true ->
                              HandleHeap.Key_int32_IsLess b a = false).
  { unfold HandleHeap.Key_int32_IsLess. intros a b H.
    apply Z.ltb_lt in H. apply Z.ltb_ge. lia. }
  assert (Htrans : forall a b c, HandleHeap.Key_int32_IsLess b a = false ->
                     HandleHeap.Key_int32_IsLess c b = false ->
                     HandleHeap.Key_int32_IsLess c a = false).
  { unfold HandleHeap.Key_int32_IsLess. intros a b c H1 H2.
    apply Z.ltb_ge in H1, H2. apply Z.ltb_ge. lia. }
  assert (H0 : handles_ok HandleHeap.Key_int32_IsLess (@HandleHeap.empty Z)).
  { split; [apply wf_empty|apply NoDup_nil_2]. }
  destruct (proj1 (handles_identify_entries Z HandleHeap.Key_int32_IsLess
                     HandleHeap.Key_int32_default Hasym Htrans _ H0) 5 eq_refl)
    as (h1 & E1 & H1 & _ & P1).
  destruct (proj1 (handles_identify_entries Z HandleHeap.Key_int32_IsLess
                     HandleHeap.Key_int32_default Hasym Htrans _ H1) 3 eq_refl)
    as (h2 & E2 & H2 & _ & P2).
  assert (L2 : (2 <= length (HandleHeap.elements_ h2))%nat).
  { apply Permutation_length in P1, P2. unfold entries in P1, P2.
    rewrite length_cons, !length_fmap in P1. rewrite length_cons, !length_fmap in P2.
    simpl in P1. lia. }
  destruct (proj2 (handles_identify_entries Z HandleHeap.Key_int32_IsLess
                     HandleHeap.Key_int32_default Hasym Htrans _ H2) L2)
    as (x & h3 & _ & E3 & H3 & _).
  exists h1, h2, x, h3. done.
Defined.

(** X11.  [DecreasePriority] through a handle.  On a well-formed heap without
    shared handles, for the handle of the entry at any position: with a new
    key that is not above the entry's key the call returns, the entry of that
    handle now holds the new key, every other handle keeps its key, and the
    heap stays well formed (so the front is again a minimum); with a new key
    above the entry's key the call throws. *)
Theorem decrease_priority_through_handle :
  forall (TKey : Type) (IsLess : TKey -> TKey -> bool),
  (forall a b, IsLess a b = true -> IsLess b a = false) ->
  (forall a b c, IsLess b a = false -> IsLess c b = false -> IsLess c a = false) ->
  forall (h : HandleHeap.Heap) (pos : nat) (x : HandleHeap.Handle) (k : TKey),
  handles_ok IsLess h -> HandleHeap.elements_ h !! pos = Some x ->
  (IsLess (HandleHeap.priority_ x) k = false ->
     exists h', HandleHeap.DecreasePriority IsLess h (HandleHeap.hid x) k = Ok h' /\
       handles_ok IsLess h' /\
       entries (HandleHeap.elements_ h')
         ≡ₚ <[pos := (HandleHeap.hid x, k)]> (entries (HandleHeap.elements_ h)) /\
       forall r, HandleHeap.elements_ h' !! 0%nat = Some r ->
         Forall (key_le IsLess (HandleHeap.priority_ r)) (keys (HandleHeap.elements_ h'))) /\
  (IsLess (HandleHeap.priority_ x) k = true ->
     HandleHeap.DecreasePriority IsLess h (HandleHeap.hid x) k = Fail Exception).
Proof.
  intros TKey IsLess Hasym Htrans h pos x k Hok Hx. split.
  - intros Hk.
    destruct (DecreasePriority_spec IsLess Hasym Htrans h pos x k Hok Hx Hk)
      as (h' & E & Hok' & HP).
    exists h'. split; [done|]. split; [done|]. split; [done|].
    intros r Hr. apply Forall_forall. intros y Hy.
    apply list_elem_of_fmap in Hy as (z & -> & Hz).
    apply list_elem_of_lookup in Hz as (i & Hz).
    destruct Hok' as [(Hord & _) _].
    by apply (heap_ordered_root IsLess Hasym Htrans (HandleHeap.elements_ h') i z r).
  - intros Hk. destruct Hok as [_ Hnd]. unfold HandleHeap.DecreasePriority.
    rewrite (position_lookup _ _ _ Hnd Hx), (proj2 (vec_index_Ok _ _ _) Hx).
    cbn [mbind result_bind]. by rewrite Hk.
Qed.

Lemma decrease_priority_through_handle_witness :
  exists h',
    HandleHeap.DecreasePriority HandleHeap.Key_int32_IsLess
      (HandleHeap.mkHeap [HandleHeap.mkHandle 0 5 0] 1 1 0) 0 2 = Ok h' /\
    handles_ok HandleHeap.Key_int32_IsLess h' /\
    entries (HandleHeap.elements_ h') ≡ₚ [(0%nat, 2)].
Proof.
  assert (Hasym : forall a b, HandleHeap.Key_int32_IsLess a b = true ->
                              HandleHeap.Key_int32_IsLess b a = false).
  { unfold HandleHeap.Key_int32_IsLess. intros a b H.
    apply Z.ltb_lt in H. apply Z.ltb_ge. lia. }
  assert (Htrans : forall a b c, HandleHeap.Key_int32_IsLess b a = false ->
                     HandleHeap.Key_int32_IsLess c b = false ->
                     HandleHeap.Key_int32_IsLess c a = false).
  { unfold HandleHeap.Key_int32_IsLess. intros a b c H1 H2.
    apply Z.ltb_ge in H1, H2. apply Z.ltb_ge. lia. }
  assert (Hok : handles_ok HandleHeap.Key_int32_IsLess
                  (HandleHeap.mkHeap [HandleHeap.mkHandle 0 5 0] 1 1 0)).
  { split; [split; [|split]|].
    - intros i Hi y p Hy. destruct i as [|i]; [lia|]. simpl in Hy. discriminate.
    - intros i y Hy. destruct i as [|i]; simpl in Hy; [|discriminate].
      by injection Hy as <-.
    - intros y Hy. simpl in Hy. apply list_elem_of_singleton in Hy. subst y. simpl. lia.
    - simpl. apply NoDup_singleton. }
  destruct (proj1 (decrease_priority_through_handle Z HandleHeap.Key_int32_IsLess
                     Hasym Htrans _ 0%nat (HandleHeap.mkHandle 0 5 0) 2 Hok eq_refl)
              eq_refl) as (h' & E & Hok' & HP & _).
  exists h'. split; [exact E|]. split; [exact Hok'|exact HP].
Defined.
(** ** Splitting keeps the steps of the centerlines *)

Section SplitProofs.
Import Graph Centerlines.

(** The steps of a centerline: its pairs of consecutive nodes. *)
Fixpoint steps (path : Centerline) : list (CenterLineNode * CenterLineNode) :=
  match path with
  | a :: (b :: _) as rest => (a, b) :: steps rest
  | _ => []
  end.

Definition all_steps (paths : list Centerline) : list (CenterLineNode * CenterLineNode) :=
  concat (steps <$> paths).

Lemma steps_take_drop (path : Centerline) (i : nat) :
  steps (take (S i) path) ++ steps (drop i path) = steps path.
Proof.
  revert path. induction i as [|i IH]; intros path.
  - destruct path as [|a [|b rest]]; done.
  - destruct path as [|a rest]; [done|].
    destruct rest as [|b rest]; [by destruct i|].
    specialize (IH (b :: rest)).
    change (take (S (S i)) (a :: b :: rest)) with (a :: take (S i) (b :: rest)).
    change (drop (S i) (a :: b :: rest)) with (drop i (b :: rest)).
    change (take (S i) (b :: rest)) with (b :: take i rest) in *.
    change (steps (a :: b :: take i rest)) with ((a, b) :: steps (b :: take i rest)).
    change (steps (a :: b :: rest)) with ((a, b) :: steps (b :: rest)).
    rewrite <- IH. done.
Qed.

Lemma split_steps (path head new_path : Centerline) (i : nat) :
  split path i = Ok (head, new_path) -> steps head ++ steps new_path = steps path.
Proof.
  unfold split. destruct (_ || _).
  - intros [= <- <-]. by rewrite app_nil_r.
  - repeat case_bool_decide; try done. intros [= <- <-]. apply steps_take_drop.
Qed.

Lemma scan_path_steps (B : gset Voxel) (n : nat) :
  forall (path path' : Centerline) (i : nat) (pushed : option Centerline),
  scan_path B n path i = Ok (path', pushed) ->
  steps path' ++ from_option steps [] pushed = steps path.
Proof.
  induction n as [|n IH]; intros path path' i pushed; cbn [scan_path].
  - intros [= <- <-]. by rewrite app_nil_r.
  - case_bool_decide as Hend; [intros [= <- <-]; by rewrite app_nil_r|].
    intros H. apply bind_Ok in H as (node & _ & H).
    destruct (IsBranch B (node_point_ node)); [|by apply IH in H].
    apply bind_Ok in H as ([head new_path] & Hs & H).
    apply split_steps in Hs. case_bool_decide as Hlen.
    + injection H as <- <-. done.
    + apply IH in H. rewrite H. destruct new_path; [|simpl in Hlen; lia].
      by rewrite app_nil_r in Hs.
Qed.

Lemma all_steps_app (a b : list Centerline) : all_steps (a ++ b) = all_steps a ++ all_steps b.
Proof. unfold all_steps. by rewrite fmap_app, concat_app. Qed.

Lemma all_steps_insert (paths : list Centerline) (j : nat) (path path' : Centerline)
    (extra : list (CenterLineNode * CenterLineNode)) :
  paths !! j = Some path -> steps path' ++ extra = steps path ->
  all_steps (<[j := path']> paths) ++ extra ≡ₚ all_steps paths.
Proof.
  intros Hj Hs. pose proof (lookup_lt_Some _ _ _ Hj) as Hlt.
  rewrite insert_take_drop by done.
  rewrite <- (take_drop_middle paths j path Hj) at 3.
  rewrite !all_steps_app.
  change (all_steps (path' :: drop (S j) paths))
    with (steps path' ++ all_steps (drop (S j) paths)).
  change (all_steps (path :: drop (S j) paths))
    with (steps path ++ all_steps (drop (S j) paths)).
  rewrite <- Hs. rewrite <- !(assoc (++)). f_equiv. f_equiv. apply (comm (++)).
Qed.

Lemma split_paths_steps (B : gset Voxel) (fuel : nat) :
  forall (paths out : list Centerline) (j : nat),
  split_paths fuel B paths j = Ok out ->
  all_steps out ≡ₚ all_steps paths /\ (length paths <= length out)%nat.
Proof.
  induction fuel as [|fuel IH]; intros paths out j; cbn [split_paths];
    destruct (paths !! j) as [path|] eqn:Hj; try done; try (by intros [= <-]).
  intros H. apply bind_Ok in H as ([path' pushed] & Hscan & H).
  apply scan_path_steps in Hscan. apply IH in H as [HP HL].
  destruct pushed as [new_path|]; simpl in Hscan.
  - rewrite length_app, length_insert in HL. split; [|lia].
    rewrite HP, all_steps_app. unfold all_steps at 2. simpl. rewrite app_nil_r.
    by apply (all_steps_insert paths j path).
  - rewrite length_insert in HL. split; [|done].
    rewrite HP. rewrite <- (app_nil_r (all_steps (<[j:=path']> paths))).
    by apply (all_steps_insert paths j path).
Qed.

Lemma all_statistics_length (paths : list Centerline) (stats : list Statistics) :
  all_statistics paths = Ok stats -> length stats = length paths.
Proof.
  revert stats. induction paths as [|path paths IH]; intros stats; simpl.
  - by intros [= <-].
  - intros H. apply bind_Ok in H as (s & _ & H). apply bind_Ok in H as (ss & Hss & [= <-]).
    simpl. f_equal. by apply IH.
Qed.

(** An empty centerline stays where it is, and its statistics throw. *)
Lemma split_paths_keeps_empty (B : gset Voxel) (fuel : nat) :
  forall (paths out : list Centerline) (j : nat),
  split_paths fuel B paths j = Ok out -> [] ∈ paths -> [] ∈ out.
Proof.
  induction fuel as [|fuel IH]; intros paths out j; cbn [split_paths];
    destruct (paths !! j) as [path|] eqn:Hj; try done; try (by intros [= <-]).
  intros H Hin. apply bind_Ok in H as ([path' pushed] & Hscan & H).
  apply (IH _ _ _ H).
  assert (Hin' : [] ∈ <[j := path']> paths).
  { apply list_elem_of_lookup in Hin as (k & Hk).
    destruct (decide (k = j)) as [->|Hne].
    - rewrite Hj in Hk. injection Hk as ->.
      destruct (length ([] : Centerline)) eqn:E in Hscan; simpl in Hscan.
      + injection Hscan as <- _. apply list_elem_of_lookup. exists j.
        apply list_lookup_insert_eq. by eapply lookup_lt_Some.
      + done.
    - apply list_elem_of_lookup. exists k. by rewrite list_lookup_insert_ne. }
  destruct pushed; [apply elem_of_app; by left|done].
Qed.

Lemma all_statistics_empty (paths : list Centerline) :
  [] ∈ paths -> all_statistics paths = Fail Exception.
Proof.
  induction paths as [|path paths IH]; intros Hin; [by apply elem_of_nil in Hin|].
  apply elem_of_cons in Hin as [<-|Hin]; [done|].
  simpl. destruct path as [|node rest]; [done|].
  unfold Statistics_of, GetSize, GetTortuosity. cbn [mbind result_bind].
  destruct (vec_at (node :: rest) 0) as [x|f] eqn:E0; [|done].
  cbn [mbind result_bind].
  destruct (lookup_lt_is_Some_2 (node :: rest) (length (node :: rest) - 1)) as [last Hl];
    [simpl; lia|].
  rewrite (proj2 (vec_at_Ok _ _ _) Hl). cbn [mbind result_bind].
  by rewrite (IH Hin).
Qed.

Lemma split_paths_total (B : gset Voxel) (fuel : nat) :
  forall (paths : list Centerline) (j : nat),
  (split_measure paths j <= fuel)%nat ->
  exists out, split_paths fuel B paths j = Ok out.
Proof.
  induction fuel as [|fuel IH]; intros paths j Hfuel.
  - destruct (paths !! j) as [path|] eqn:Hj.
    + exfalso. unfold split_measure in Hfuel.
      rewrite (drop_S _ _ _ Hj) in Hfuel. unfold split_fuel in Hfuel. simpl in Hfuel. lia.
    + exists paths. simpl. by rewrite Hj.
  - simpl. destruct (paths !! j) as [path|] eqn:Hj; [|eauto].
    destruct (scan_path_spec B (length path) path 0) as (path' & pushed & E & _ & _ & Hp);
      [lia|lia|intros; lia|].
    rewrite E. cbn [mbind result_bind].
    pose proof (lookup_lt_Some _ _ _ Hj) as Hlt.
    apply IH.
    unfold split_measure in *. rewrite (drop_S _ _ _ Hj) in Hfuel.
    unfold split_fuel in Hfuel. simpl in Hfuel. fold (split_fuel (drop (S j) paths)) in Hfuel.
    destruct pushed as [np|].
    + rewrite drop_app_le by (rewrite length_insert; lia).
      rewrite drop_insert_lt by lia. rewrite split_fuel_app.
      unfold split_fuel at 2. simpl. lia.
    + rewrite drop_insert_lt by lia. lia.
Qed.

End SplitProofs.

(** X12.  [SplitByBranchPoints] neither loses nor invents a step: when it
    returns, the pairs of consecutive nodes of the stored centerlines are,
    taken together, the pairs of consecutive nodes of the centerlines it
    started from (a centerline cut at a branch node leaves that node at the
    end of one piece and at the start of the other); no centerline is
    dropped, there is one statistics record per stored centerline, and the
    sets of used and of branch nodes are as before. *)
Theorem split_by_branch_points_keeps_the_steps
    (set set' : Centerlines.CenterlineSet) :
  Centerlines.SplitByBranchPoints set = Ok set' ->
  all_steps (Centerlines.paths_ set') ≡ₚ all_steps (Centerlines.paths_ set) /\
  (length (Centerlines.paths_ set) <= length (Centerlines.paths_ set'))%nat /\
  length (Centerlines.statistics_ set') = length (Centerlines.paths_ set') /\
  Centerlines.used_nodes_ set' = Centerlines.used_nodes_ set /\
  Centerlines.branch_nodes_ set' = Centerlines.branch_nodes_ set.
Proof.
  unfold Centerlines.SplitByBranchPoints. intros H.
  apply bind_Ok in H as (paths & Hsplit & H).
  apply bind_Ok in H as (stats & Hstats & [= <-]). simpl.
  apply split_paths_steps in Hsplit as [HP HL].
  apply all_statistics_length in Hstats. done.
Qed.

Lemma split_by_branch_points_keeps_the_steps_witness :
  exists set',
    Centerlines.SplitByBranchPoints Examples.branching_set = Ok set' /\
    all_steps (Centerlines.paths_ set') ≡ₚ all_steps (Centerlines.paths_ Examples.branching_set).
Proof.
  eexists. split; [vm_compute; reflexivity|].
  eapply (proj1 (split_by_branch_points_keeps_the_steps Examples.branching_set _ _)).
  Unshelve. vm_compute. reflexivity.
Defined.

(** X13.  A set that holds an empty centerline makes [SplitByBranchPoints]
    throw: the loops leave the empty centerline in place, and the statistics
    built for it read its node at index 1. *)
Theorem split_by_branch_points_throws_on_empty_centerline
    (set : Centerlines.CenterlineSet) :
  [] ∈ Centerlines.paths_ set ->
  Centerlines.SplitByBranchPoints set = Fail Exception.
Proof.
  intros Hin. unfold Centerlines.SplitByBranchPoints.
  destruct (split_paths_total (Centerlines.branch_nodes_ set)
              (Centerlines.split_fuel (Centerlines.paths_ set)) (Centerlines.paths_ set) 0)
    as (out & E); [unfold split_measure; by rewrite drop_0|].
  rewrite E. cbn [mbind result_bind].
  rewrite (all_statistics_empty out); [done|].
  by eapply split_paths_keeps_empty.
Qed.

Lemma split_by_branch_points_throws_on_empty_centerline_witness :
  Centerlines.SplitByBranchPoints
    (Centerlines.mkCenterlineSet [[Examples.node_at 0; Examples.node_at 1]; []] [] ∅ ∅)
    = Fail Exception.
Proof.
  apply split_by_branch_points_throws_on_empty_centerline.
  simpl. apply elem_of_cons. right. apply elem_of_cons. by left.
Defined.
(** ** Keys of pairs of cluster labels *)

(** X14.  With at most 2^31 cluster labels, and for labels between -1 (no
    cluster) and [num_of_labels - 1], [GetPairKey] stays inside the 64-bit
    range, gives a pair and the swapped pair the same key, and gives two pairs
    the same key only if they have the same smaller and the same larger
    label. *)
Theorem pair_key_identifies_unordered_pairs (num a b c d : Z) :
  0 <= num <= 2147483648 ->
  -1 <= a < num -> -1 <= b < num -> -1 <= c < num -> -1 <= d < num ->
  exists key key',
    Centerlines.GetPairKey num a b = Ok key /\
    Centerlines.GetPairKey num b a = Ok key /\
    Centerlines.GetPairKey num c d = Ok key' /\
    (key = key' -> Z.min a b = Z.min c d /\ Z.max a b = Z.max c d).
Proof.
  intros Hn Ha Hb Hc Hd.
  assert (Hkey : forall x y, -1 <= x < num -> -1 <= y < num ->
            Centerlines.GetPairKey num x y = Ok (Z.min x y * num + Z.max x y)).
  { intros x y Hx Hy. unfold Centerlines.GetPairKey, Centerlines.in_int64.
    assert (-2147483648 <= Z.min x y * num <= 2147483648 * 2147483648).
    { assert (Hmin : -1 <= Z.min x y < num) by lia. revert Hmin.
      generalize (Z.min x y). intros m Hmin.
      destruct (decide (m = -1)) as [->|Hm]; [lia|].
      assert (0 <= m * num) by (apply Z.mul_nonneg_nonneg; lia).
      assert (m * num <= 2147483648 * 2147483648)
        by (apply Z.mul_le_mono_nonneg; lia).
      lia. }
    assert (-1 <= Z.max x y <= 2147483648) by lia.
    rewrite (proj2 (Z.leb_le _ (Z.min x y * num))) by lia.
    rewrite (proj2 (Z.leb_le (Z.min x y * num) _)) by lia. simpl.
    rewrite (proj2 (Z.leb_le _ (Z.min x y * num + Z.max x y))) by lia.
    rewrite (proj2 (Z.leb_le (Z.min x y * num + Z.max x y) _)) by lia. done. }
  exists (Z.min a b * num + Z.max a b), (Z.min c d * num + Z.max c d).
  split; [by apply Hkey|]. split; [rewrite Hkey by done; by rewrite (Z.min_comm b a), (Z.max_comm b a)|].
  split; [by apply Hkey|].
  intros E.
  assert (Hm : -1 <= Z.min a b <= Z.max a b /\ Z.max a b < num) by lia.
  assert (Hm' : -1 <= Z.min c d <= Z.max c d /\ Z.max c d < num) by lia.
  revert E Hm Hm'. generalize (Z.min a b) (Z.max a b) (Z.min c d) (Z.max c d).
  intros m M m' M' E Hm Hm'.
  assert (m = m'); [|subst; lia].
  destruct (Z.lt_trichotomy m m') as [L|[L|L]]; [|done|]; nia.
Qed.

Lemma pair_key_identifies_unordered_pairs_witness :
  exists key key',
    Centerlines.GetPairKey 4 (-1) 2 = Ok key /\
    Centerlines.GetPairKey 4 2 (-1) = Ok key /\
    Centerlines.GetPairKey 4 0 3 = Ok key' /\
    (key = key' -> Z.min (-1) 2 = Z.min 0 3 /\ Z.max (-1) 2 = Z.max 0 3).
Proof.
  apply pair_key_identifies_unordered_pairs; lia.
Defined.
(** ** The path cost and the contours *)

(** X15.  No overflow and no wrap-around in the path cost.  When the
    displacements stored with the origin are non-negative and below 46340,
    the sum of their squares is below [INT32_MAX], and the neighbour differs
    from the origin by at most one on every axis, then every product
    [distance * distance] of [GetConcatenatedPathCost] and
    [UpdatePointPathCost] is at most [INT32_MAX], so that the [int]
    multiplication does not overflow, and the unsigned sum does not wrap: the
    cost is the sum of the squares of the displacements extended by the
    absolute coordinate differences, and these extended displacements are
    what [UpdatePointPathCost] stores.  (A stored displacement of 46340
    extended by 1 is outside: 46341 * 46341 exceeds [INT32_MAX].) *)
Theorem path_cost_has_no_wraparound
    (origin neighbour : Voxel) (origin_annotation neighbour_annotation : Annotation) :
  0 <= GetAccumulatedDistance origin_annotation 0 < 46340 ->
  0 <= GetAccumulatedDistance origin_annotation 1 < 46340 ->
  0 <= GetAccumulatedDistance origin_annotation 2 < 46340 ->
  sum_of_squares origin_annotation < INT32_MAX ->
  Z.abs (vx neighbour - vx origin) <= 1 ->
  Z.abs (vy neighbour - vy origin) <= 1 ->
  Z.abs (vz neighbour - vz origin) <= 1 ->
  let d0 := GetAccumulatedDistance origin_annotation 0 + Z.abs (vx neighbour - vx origin) in
  let d1 := GetAccumulatedDistance origin_annotation 1 + Z.abs (vy neighbour - vy origin) in
  let d2 := GetAccumulatedDistance origin_annotation 2 + Z.abs (vz neighbour - vz origin) in
  (d0 * d0 <= INT32_MAX /\ d1 * d1 <= INT32_MAX /\ d2 * d2 <= INT32_MAX) /\
  Skeletonizer.GetConcatenatedPathCost origin origin_annotation neighbour
    = d0 * d0 + d1 * d1 + d2 * d2 /\
  distance (Skeletonizer.UpdatePointPathCost origin origin_annotation neighbour
              neighbour_annotation)
    = d0 * d0 + d1 * d1 + d2 * d2 /\
  displacements (Skeletonizer.UpdatePointPathCost origin origin_annotation neighbour
                   neighbour_annotation)
    = (d0, d1, d2).
Proof.
  intros H0 H1 H2 Hs E0 E1 E2 d0 d1 d2.
  split.
  { subst d0 d1 d2. unfold INT32_MAX. split; [nia|]. split; nia. }
  destruct (path_cost_exact _ _ _ (Z.abs (vx neighbour - vx origin))
              (Z.abs (vy neighbour - vy origin)) (Z.abs (vz neighbour - vz origin))
              (proj1 H0) (proj1 H1) (proj1 H2) Hs) as (I0 & I1 & I2 & Hcost); [lia|lia|lia|].
  unfold Skeletonizer.GetConcatenatedPathCost, Skeletonizer.UpdatePointPathCost,
    Skeletonizer.step_distance. simpl GetCoordinate. cbn [distance displacements].
  rewrite I0, I1, I2. subst d0 d1 d2. done.
Qed.

Lemma path_cost_has_no_wraparound_witness :
  Skeletonizer.GetConcatenatedPathCost (mkVoxel 2 0 0) Examples.line_annotation
    (mkVoxel 3 1 0) = 10.
Proof.
  refine (proj1 (proj2 (path_cost_has_no_wraparound (mkVoxel 2 0 0) (mkVoxel 3 1 0)
                   Examples.line_annotation Examples.line_annotation _ _ _ _ _ _ _)));
    by vm_compute.
Defined.

Section ContourProofs.
Import Skeletonizer.
Variable img : TernaryImage.
Hypothesis Hsizes : sizes_ok (sizes_ img).

(** A contour point that has no annotation yet. *)
Definition pending (anns : AnnotatedImage) (p : Voxel) : bool :=
  IsContourPoint img p && negb (HasAnnotation anns p).

Definition unlabelled (anns : AnnotatedImage) : nat :=
  length (filter (fun p => pending anns p = true) (image_points img)).

(** The labelled points are the annotated points, each listed once; they are
    contour points and carry a fresh annotation. *)
Record labelled_inv (anns : AnnotatedImage) (labeled : list Voxel) : Prop := mk_labelled_inv {
  lab_NoDup : NoDup labeled;
  lab_elem : forall p, p ∈ labeled <-> is_Some (anns !! p);
  lab_contour : forall p, is_Some (anns !! p) -> IsContourPoint img p = true;
  lab_fresh : forall p a, anns !! p = Some a -> status a = initial /\ distance a = INT32_MAX
}.

Lemma unlabelled_insert (anns : AnnotatedImage) (p : Voxel) (a : Annotation) :
  IsContourPoint img p = true -> anns !! p = None ->
  S (unlabelled (<[p := a]> anns)) = unlabelled anns.
Proof.
  intros Hc Hp. unfold unlabelled. apply (filter_length_one _ _ _ p).
  - by apply image_points_NoDup.
  - apply image_points_elem; [done|].
    apply IsOffLimitsPoint_false. unfold IsContourPoint in Hc.
    by destruct (IsOffLimitsPoint img p).
  - unfold pending. rewrite Hc. simpl. apply negb_true_iff.
    unfold HasAnnotation. apply bool_decide_eq_false. rewrite Hp. by intros [? ?].
  - unfold pending, HasAnnotation. rewrite lookup_insert_eq.
    rewrite bool_decide_eq_true_2 by eauto. by rewrite andb_false_r.
  - intros q Hq. unfold pending, HasAnnotation. by rewrite lookup_insert_ne.
Qed.

Lemma length_GetNeighbours (p : Voxel) : length (GetNeighbours p) = 26%nat.
Proof. reflexivity. Qed.

Lemma labelled_inv_insert (anns : AnnotatedImage) (labeled : list Voxel) (cur : Voxel)
    (cl pl : Z) :
  labelled_inv anns labeled -> IsContourPoint img cur = true -> anns !! cur = None ->
  labelled_inv (<[cur := BuildAnnotation cl pl]> anns) (labeled ++ [cur]).
Proof.
  intros [H1 H2 H3 H4] Hc E. split.
  - apply NoDup_app. split; [done|]. split; [|apply NoDup_singleton].
    intros q Hq Hq'. apply list_elem_of_singleton in Hq'. subst q.
    apply H2 in Hq. rewrite E in Hq. by destruct Hq.
  - intros q. rewrite elem_of_app, list_elem_of_singleton, H2.
    destruct (decide (cur = q)) as [->|NE].
    + rewrite lookup_insert_eq. split; eauto.
    + rewrite lookup_insert_ne by done. split; [|by left].
      intros [?|?]; [done|by subst].
  - intros q. destruct (decide (cur = q)) as [->|NE]; [done|].
    rewrite lookup_insert_ne by done. apply H3.
  - intros q b. destruct (decide (cur = q)) as [->|NE].
    + rewrite lookup_insert_eq. intros [= <-]. simpl. done.
    + rewrite lookup_insert_ne by done. apply H4.
Qed.

Lemma contour_loop_total (fuel : nat) :
  forall cl anns labeled points_stack pl hb,
  (length points_stack + 26 * unlabelled anns <= fuel)%nat ->
  labelled_inv anns labeled ->
  exists anns' labeled' pl' hb',
    contour_loop fuel img cl anns labeled points_stack pl hb
      = Ok (anns', labeled', pl', hb') /\
    labelled_inv anns' labeled' /\
    (forall p a, anns !! p = Some a -> anns' !! p = Some a) /\
    (forall p, p ∈ points_stack -> IsContourPoint img p = true -> is_Some (anns' !! p)) /\
    (unlabelled anns' <= unlabelled anns)%nat.
Proof.
  induction fuel as [|fuel IH]; intros cl anns labeled [|cur points_stack] pl hb Hfuel Hinv;
    cbn [length] in Hfuel; try lia.
  - exists anns, labeled, pl, hb. split; [done|]. split; [done|]. split; [done|].
    split; [|done]. intros q Hq. by apply elem_of_nil in Hq.
  - exists anns, labeled, pl, hb. split; [done|]. split; [done|]. split; [done|].
    split; [|done]. intros q Hq. by apply elem_of_nil in Hq.
  - cbn [contour_loop]. destruct (IsContourPoint img cur) eqn:Hc.
    + unfold TryAddAnnotation. destruct (anns !! cur) as [b|] eqn:E.
      * destruct (IH cl anns labeled points_stack pl hb) as
          (anns' & labeled' & pl' & hb' & Erun & Hinv' & Hsub & Hstack & HU);
          [lia|done|].
        exists anns', labeled', pl', hb'. split; [done|]. split; [done|]. split; [done|].
        split; [|done]. intros q [->|Hq]%elem_of_cons Hcq; [|by apply Hstack].
        rewrite (Hsub _ _ E). eauto.
      * set (a := BuildAnnotation cl pl).
        pose proof (unlabelled_insert anns cur a Hc E) as HU1.
        destruct (IH cl (<[cur := a]> anns) (labeled ++ [cur])
                    (points_stack ++ filter (fun n => IsContourPoint img n = true)
                                            (GetNeighbours cur))
                    (uint32 (pl + 1)) true) as
          (anns' & labeled' & pl' & hb' & Erun & Hinv' & Hsub & Hstack & HU).
        -- rewrite length_app.
           pose proof (length_filter (fun n => IsContourPoint img n = true)
                         (GetNeighbours cur)) as Hf.
           rewrite length_GetNeighbours in Hf. lia.
        -- by apply labelled_inv_insert.
        -- exists anns', labeled', pl', hb'. split; [done|]. split; [done|].
           assert (Hcur : anns' !! cur = Some a) by (apply Hsub; by rewrite lookup_insert_eq).
           split; [|split; [|lia]].
           ++ intros q b Hq. apply Hsub. rewrite lookup_insert_ne; [done|].
              intros ->. by rewrite E in Hq.
           ++ intros q [->|Hq]%elem_of_cons Hcq; [eauto|].
              apply Hstack; [|done]. apply elem_of_app. by left.
    + destruct (IH cl anns labeled points_stack pl hb) as
          (anns' & labeled' & pl' & hb' & Erun & Hinv' & Hsub & Hstack & HU);
          [lia|done|].
      exists anns', labeled', pl', hb'. split; [done|]. split; [done|]. split; [done|].
      split; [|done]. intros q [->|Hq]%elem_of_cons Hq'; [congruence|by apply Hstack].
Qed.

Lemma contours_from_total (fuel : nat) (points : list Voxel) :
  forall cl anns cc,
  (1 + 26 * unlabelled anns <= fuel)%nat ->
  labelled_inv anns (labeled_points_ cc) ->
  exists anns' cc',
    contours_from fuel img points cl anns cc = Ok (anns', cc') /\
    labelled_inv anns' (labeled_points_ cc') /\
    (forall p a, anns !! p = Some a -> anns' !! p = Some a) /\
    (forall p, p ∈ points -> IsContourPoint img p = true -> is_Some (anns' !! p)).
Proof.
  induction points as [|p points IH]; intros cl anns cc Hfuel Hinv; cbn [contours_from].
  - exists anns, cc. split; [done|]. split; [done|]. split; [done|].
    intros q Hq. by apply elem_of_nil in Hq.
  - destruct (IsContourPoint img p) eqn:Hc; cbn [negb].
    + destruct (contour_loop_total fuel cl anns (labeled_points_ cc) [p] 1 false)
        as (anns1 & labeled1 & pl1 & hb1 & Erun & Hinv1 & Hsub1 & Hstack1 & HU1);
        [simpl; lia|done|].
      rewrite Erun. cbn [mbind result_bind].
      assert (Hp : is_Some (anns1 !! p)) by (apply Hstack1; [by left|done]).
      assert (Hnext : forall cl' cc1, labeled_points_ cc1 = labeled1 ->
                exists anns' cc',
                  contours_from fuel img points cl' anns1 cc1 = Ok (anns', cc') /\
                  labelled_inv anns' (labeled_points_ cc') /\
                  (forall q a, anns !! q = Some a -> anns' !! q = Some a) /\
                  (forall q, q ∈ p :: points -> IsContourPoint img q = true ->
                     is_Some (anns' !! q))).
      { intros cl' cc1 Ecc.
        destruct (IH cl' anns1 cc1) as (anns' & cc' & E' & Hinv' & Hsub' & Hpts');
          [lia|by rewrite Ecc|].
        exists anns', cc'. split; [done|]. split; [done|]. split.
        - intros q a Hq. by apply Hsub', Hsub1.
        - intros q [->|Hq]%elem_of_cons Hcq; [|by apply Hpts'].
          destruct Hp as [a Ha]. rewrite (Hsub' _ _ Ha). eauto. }
      destruct hb1; by apply Hnext.
    + destruct (IH cl anns cc Hfuel Hinv) as (anns' & cc' & E' & Hinv' & Hsub' & Hpts').
      exists anns', cc'. split; [done|]. split; [done|]. split; [done|].
      intros q [->|Hq]%elem_of_cons Hcq; [congruence|by apply Hpts'].
Qed.

End ContourProofs.

(** X16.  On an image with positive extents and with fuel for one more than
    26 times its number of points, [ComputeContours] returns; it has then
    annotated exactly the contour points of the image, every annotation is a
    fresh one (status [initial], the default distance), and the list of
    labelled points it leaves for the seeding holds every contour point
    exactly once. *)
Theorem contours_are_exactly_the_contour_points (fuel : nat) (img : TernaryImage) :
  sizes_ok (sizes_ img) ->
  (1 + 26 * GetTotalSize img <= fuel)%nat ->
  exists anns cc,
    Skeletonizer.ComputeContours fuel img ∅ = Ok (anns, cc) /\
    (forall p, is_Some (anns !! p) <-> IsContourPoint img p = true) /\
    (forall p a, anns !! p = Some a -> status a = initial /\ distance a = INT32_MAX) /\
    NoDup (Skeletonizer.labeled_points_ cc) /\
    (forall p, p ∈ Skeletonizer.labeled_points_ cc <-> IsContourPoint img p = true).
Proof.
  intros Hs Hfuel. unfold Skeletonizer.ComputeContours.
  destruct (contours_from_total img Hs fuel (image_points img) 1 ∅
              (Skeletonizer.mkContourCalculator 0 [] []))
    as (anns & cc & E & [H1 H2 H3 H4] & _ & Hpts).
  - unfold unlabelled. pose proof (length_filter (fun p => pending img ∅ p = true)
                                     (image_points img)) as Hf.
    destruct (image_points_index img Hs) as [Hlen _]. rewrite Hlen in Hf. lia.
  - split; simpl.
    + apply NoDup_nil_2.
    + intros p. rewrite lookup_empty. split; [by intros ?%elem_of_nil|by intros [? ?]].
    + intros p. rewrite lookup_empty. by intros [? ?].
    + intros p a. by rewrite lookup_empty.
  - exists anns, cc. split; [done|].
    assert (Hdom : forall p, is_Some (anns !! p) <-> IsContourPoint img p = true).
    { intros p. split; [apply H3|]. intros Hc. apply Hpts; [|done].
      apply image_points_elem; [done|]. apply IsOffLimitsPoint_false.
      unfold IsContourPoint in Hc. by destruct (IsOffLimitsPoint img p). }
    split; [done|]. split; [done|]. split; [done|].
    intros p. by rewrite H2.
Qed.

Lemma contours_are_exactly_the_contour_points_witness :
  exists anns cc,
    Skeletonizer.ComputeContours 100 Examples.line_img ∅ = Ok (anns, cc) /\
    (forall p, is_Some (anns !! p) <-> IsContourPoint Examples.line_img p = true) /\
    NoDup (Skeletonizer.labeled_points_ cc).
Proof.
  destruct (contours_are_exactly_the_contour_points 100 Examples.line_img)
    as (anns & cc & E & H1 & _ & H2 & _).
  - by vm_compute.
  - vm_compute. lia.
  - exists anns, cc. split; [exact E|]. split; [exact H1|exact H2].
Defined.
(** ** HKProper as find with path compression *)

Section AliasProofs.
Import ClusterLabel.







End AliasProofs.


(** ** The result of the labelling is a mask inside the input mask *)

Section MaskProofs.
Import ClusterLabel.
Variable cube : Cube.










End MaskProofs.


(** ** The index map of the binary heap (heaps/binary_heap.h) *)

Section BinaryHeapProofs.
Import Skeletonizer.

(** The slot [key_to_index_] records for the key stored at [i], when the key
    at the front is recorded at [r]. *)
Definition slot (r i : nat) : nat := match i with O => r | S _ => i end.

(** [key_to_index_] holds exactly the keys of [elements_], each one with its
    slot; no two elements share a key.  With [r = 0] the map is right for
    every element. *)
Record recorded (r : nat) (h : BinaryHeap) : Prop := {
  rec_NoDup : NoDup (key_id <$> elements_ h);
  rec_lookup : forall i x, elements_ h !! i = Some x ->
                 key_to_index_ h !! key_id x = Some (slot r i);
  rec_dom : forall k i, key_to_index_ h !! k = Some i ->
              exists j x, elements_ h !! j = Some x /\ key_id x = k
}.

Lemma recorded_inj (r : nat) (h : BinaryHeap) (i j : nat) (x y : SkeletonizerKey) :
  recorded r h -> elements_ h !! i = Some x -> elements_ h !! j = Some y ->
  key_id x = key_id y -> i = j.
Proof.
  intros [Hnd _ _] Hx Hy Hid.
  eapply (proj1 (NoDup_alt _) Hnd i j (key_id x)); rewrite list_lookup_fmap.
  - by rewrite Hx.
  - rewrite Hy. simpl. by rewrite Hid.
Qed.

Lemma recorded_empty : recorded 0 BinaryHeap_empty.
Proof.
  split; simpl.
  - apply NoDup_nil_2.
  - intros i x H. by rewrite lookup_nil in H.
  - intros k i H. by rewrite lookup_empty in H.
Qed.

(** Exchanging two slots: both keys get their new slot, so a swap with the
    front puts the record of the front right. *)
Lemma swap_and_reindex_recorded (r : nat) (h : BinaryHeap) (i j : nat)
    (a b : SkeletonizerKey) :
  recorded r h -> i <> j ->
  elements_ h !! i = Some a -> elements_ h !! j = Some b ->
  exists h', swap_and_reindex h i j = Ok h' /\
    elements_ h' = <[j := a]> (<[i := b]> (elements_ h)) /\
    recorded (if decide (i = 0 \/ j = 0)%nat then 0%nat else r) h'.
Proof.
  intros Hrec Hij Ha Hb.
  pose proof (lookup_lt_Some _ _ _ Ha) as Hi.
  pose proof (lookup_lt_Some _ _ _ Hb) as Hj.
  assert (Hab : key_id a <> key_id b).
  { intros E. apply Hij. by eapply recorded_inj. }
  unfold swap_and_reindex.
  rewrite (proj2 (vec_at_Ok _ _ _) Ha). cbn [mbind result_bind].
  rewrite (proj2 (vec_at_Ok _ _ _) Hb). cbn [mbind result_bind].
  assert (Hi' : <[j := a]> (<[i := b]> (elements_ h)) !! i = Some b).
  { rewrite list_lookup_insert_ne by done. by rewrite list_lookup_insert_eq. }
  assert (Hj' : <[j := a]> (<[i := b]> (elements_ h)) !! j = Some a).
  { rewrite list_lookup_insert_eq; [done|]. by rewrite length_insert. }
  rewrite (proj2 (vec_at_Ok _ _ _) Hi'). cbn [mbind result_bind].
  unfold map_at_set. rewrite (rec_lookup _ _ Hrec _ _ Hb). cbn [mbind result_bind].
  rewrite (proj2 (vec_at_Ok _ _ _) Hj'). cbn [mbind result_bind].
  rewrite lookup_insert_ne by (by intros E; apply Hab).
  rewrite (rec_lookup _ _ Hrec _ _ Ha). cbn [mbind result_bind].
  eexists. split; [reflexivity|]. split; [reflexivity|].
  split; cbn [elements_ key_to_index_].
  - rewrite !list_fmap_insert.
    rewrite insert_swap_Permutation; [exact (rec_NoDup _ _ Hrec)| |];
      rewrite list_lookup_fmap.
    + by rewrite Ha.
    + by rewrite Hb.
  - intros p x Hp.
    destruct (decide (p = j)) as [->|Hpj].
    { rewrite Hj' in Hp. injection Hp as <-. rewrite lookup_insert_eq. f_equal.
      unfold slot. destruct j; [|done]. case_decide; [done|lia]. }
    rewrite list_lookup_insert_ne in Hp by done.
    destruct (decide (p = i)) as [->|Hpi].
    { rewrite list_lookup_insert_eq in Hp by done. injection Hp as <-.
      rewrite lookup_insert_ne by (by intros E; apply Hab).
      rewrite lookup_insert_eq. f_equal.
      unfold slot. destruct i; [|done]. case_decide; [done|lia]. }
    rewrite list_lookup_insert_ne in Hp by done.
    assert (key_id x <> key_id a).
    { intros E. apply Hpi. by eapply recorded_inj. }
    assert (key_id x <> key_id b).
    { intros E. apply Hpj. by eapply recorded_inj. }
    rewrite !lookup_insert_ne by done.
    rewrite (rec_lookup _ _ Hrec _ _ Hp). f_equal.
    unfold slot. destruct p; [|done]. case_decide; [lia|done].
  - intros k q Hk.
    destruct (decide (k = key_id a)) as [->|Hka]; [by eauto|].
    destruct (decide (k = key_id b)) as [->|Hkb]; [by eauto|].
    rewrite !lookup_insert_ne in Hk by done.
    destruct (rec_dom _ _ Hrec _ _ Hk) as (p & x & Hp & <-).
    exists p, x. split; [|done].
    rewrite !list_lookup_insert_ne; [done| |]; intros ->; congruence.
Qed.

Lemma MinHeapify_eq (fuel : nat) (h : BinaryHeap) (index : nat) :
  MinHeapify fuel h index =
  (smallest ←
     (smallest ←
        (if IsValid h (Left index) then
           l ← vec_at (elements_ h) (Left index); x ← vec_at (elements_ h) index;
           Ok (if Key_IsLess l x then Left index else index)
         else Ok index);
      (if IsValid h (Right index) then
         r ← vec_at (elements_ h) (Right index); s ← vec_at (elements_ h) smallest;
         Ok (if Key_IsLess r s then Right index else smallest)
       else Ok smallest));
   if bool_decide (smallest <> index) then
     h ← swap_and_reindex h index smallest;
     match fuel with
     | O => Fail OutOfFuel
     | S fuel => MinHeapify fuel h smallest
     end
   else Ok h).
Proof.
  destruct fuel; cbn [MinHeapify];
    by destruct (if IsValid h (Left index) then _ else _).
Qed.

Lemma Key_IsLess_trans (a b c : SkeletonizerKey) :
  Key_IsLess a b = true -> Key_IsLess b c = true -> Key_IsLess a c = true.
Proof.
  unfold Key_IsLess. rewrite !orb_true_iff, !andb_true_iff, !Z.ltb_lt, !Z.eqb_eq. lia.
Qed.

Lemma Key_IsLess_id (a b : SkeletonizerKey) :
  Key_IsLess a b = true -> key_id a <> key_id b.
Proof.
  unfold Key_IsLess, key_id. rewrite !orb_true_iff, !andb_true_iff, !Z.ltb_lt, !Z.eqb_eq.
  intros H [= E1 E2]. lia.
Qed.

Lemma Key_IsLess_irrefl (a : SkeletonizerKey) : Key_IsLess a a = false.
Proof.
  unfold Key_IsLess. apply orb_false_iff. rewrite andb_false_iff, !Z.ltb_ge. lia.
Qed.

Lemma Key_IsLess_asym (a b : SkeletonizerKey) :
  Key_IsLess a b = true -> Key_IsLess b a = false.
Proof.
  unfold Key_IsLess. rewrite orb_true_iff, andb_true_iff, !Z.ltb_lt, Z.eqb_eq.
  intros H. apply orb_false_iff. rewrite andb_false_iff, !Z.ltb_ge, Z.eqb_neq. lia.
Qed.

Lemma Key_IsLess_le_trans (a b c : SkeletonizerKey) :
  Key_IsLess b a = false -> Key_IsLess c b = false -> Key_IsLess c a = false.
Proof.
  unfold Key_IsLess.
  rewrite !orb_false_iff, !andb_false_iff, !Z.ltb_ge, !Z.eqb_neq. lia.
Qed.

Lemma Key_IsLess_same_id (a b c : SkeletonizerKey) :
  key_id a = key_id b -> Key_IsLess a c = Key_IsLess b c.
Proof. unfold key_id, Key_IsLess. by intros [= -> ->]. Qed.

Lemma Parent_below (i : nat) : (0 < i)%nat -> (Parent i < i)%nat.
Proof. unfold Parent. intros. apply Nat.Div0.div_lt_upper_bound; lia. Qed.

Lemma Parent_of_Left (k : nat) : Parent (Left k) = k.
Proof.
  unfold Parent, Left. replace (1 + k * 2 - 1)%nat with (k * 2)%nat by lia.
  apply Nat.div_mul. lia.
Qed.

Lemma Parent_of_Right (k : nat) : Parent (Right k) = k.
Proof.
  unfold Parent, Right. replace (2 + k * 2 - 1)%nat with (1 + k * 2)%nat by lia.
  rewrite Nat.div_add by lia. reflexivity.
Qed.

Lemma Parent_children (c k : nat) :
  (0 < c)%nat -> Parent c = k -> c = Left k \/ c = Right k.
Proof.
  unfold Parent, Left, Right. intros Hc <-.
  pose proof (Nat.div_mod_eq (c - 1) 2) as E.
  pose proof (Nat.mod_upper_bound (c - 1) 2) as U.
  lia.
Qed.

(** The child [MinHeapify] selects, if any. *)
Lemma smallest_left (h : BinaryHeap) (index : nat) :
  exists s,
    (if IsValid h (Left index) then
       l ← vec_at (elements_ h) (Left index); x ← vec_at (elements_ h) index;
       Ok (if Key_IsLess l x then Left index else index)
     else Ok index) = Ok s /\
    ((s = index /\
      forall l x, elements_ h !! Left index = Some l -> elements_ h !! index = Some x ->
                  Key_IsLess l x = false) \/
     exists l x, s = Left index /\ elements_ h !! Left index = Some l /\
                 elements_ h !! index = Some x /\ Key_IsLess l x = true).
Proof.
  unfold IsValid, HeapSize. case_bool_decide as Hv.
  - destruct (lookup_lt_is_Some_2 (elements_ h) (Left index) Hv) as [l Hl].
    assert (Hi : (index < length (elements_ h))%nat) by (unfold Left in Hv; lia).
    destruct (lookup_lt_is_Some_2 (elements_ h) index Hi) as [x Hx].
    unfold vec_at. rewrite Hl, Hx. cbn [mbind result_bind].
    destruct (Key_IsLess l x) eqn:E.
    + eexists. split; [done|]. right. by eauto 10.
    + eexists. split; [done|]. left. split; [done|]. congruence.
  - eexists. split; [done|]. left. split; [done|].
    intros l x Hl. apply lookup_lt_Some in Hl. lia.
Qed.

Lemma smallest_right (h : BinaryHeap) (index s : nat) :
  (s < length (elements_ h))%nat \/ s = index ->
  exists s',
    (if IsValid h (Right index) then
       r ← vec_at (elements_ h) (Right index); y ← vec_at (elements_ h) s;
       Ok (if Key_IsLess r y then Right index else s)
     else Ok s) = Ok s' /\
    ((s' = s /\
      forall r y, elements_ h !! Right index = Some r -> elements_ h !! s = Some y ->
                  Key_IsLess r y = false) \/
     exists r y, s' = Right index /\ elements_ h !! Right index = Some r /\
                 elements_ h !! s = Some y /\ Key_IsLess r y = true).
Proof.
  intros Hs. unfold IsValid, HeapSize. case_bool_decide as Hv.
  - destruct (lookup_lt_is_Some_2 (elements_ h) (Right index) Hv) as [r Hr].
    assert (Hi : (s < length (elements_ h))%nat) by (unfold Right in Hv; lia).
    destruct (lookup_lt_is_Some_2 (elements_ h) s Hi) as [y Hy].
    unfold vec_at. rewrite Hr, Hy. cbn [mbind result_bind].
    destruct (Key_IsLess r y) eqn:E.
    + eexists. split; [done|]. right. by eauto 10.
    + eexists. split; [done|]. left. split; [done|]. congruence.
  - eexists. split; [done|]. left. split; [done|].
    intros r y Hr. apply lookup_lt_Some in Hr. lia.
Qed.

(** What [MinHeapify] decides at [index]: it stops, because no child key is
    less than the key at [index]; or it selects a child whose key is less
    than the key at [index] and not greater than the other child's. *)
Lemma MinHeapify_choice (h : BinaryHeap) (index : nat) :
  exists s,
    (smallest ←
       (if IsValid h (Left index) then
          l ← vec_at (elements_ h) (Left index); x ← vec_at (elements_ h) index;
          Ok (if Key_IsLess l x then Left index else index)
        else Ok index);
     (if IsValid h (Right index) then
        r ← vec_at (elements_ h) (Right index); s ← vec_at (elements_ h) smallest;
        Ok (if Key_IsLess r s then Right index else smallest)
      else Ok smallest)) = Ok s /\
    ((s = index /\
      forall a o z, elements_ h !! index = Some a -> (0 < o)%nat -> Parent o = index ->
                    elements_ h !! o = Some z -> Key_IsLess z a = false) \/
     exists a b, (index < s)%nat /\ Parent s = index /\
                 elements_ h !! index = Some a /\
                 elements_ h !! s = Some b /\ Key_IsLess b a = true /\
                 forall o z, (0 < o)%nat -> Parent o = index ->
                             elements_ h !! o = Some z -> Key_IsLess z b = false).
Proof.
  destruct (smallest_left h index) as (s1 & E1 & H1). rewrite E1.
  cbn [mbind result_bind].
  assert (Hs1 : (s1 < length (elements_ h))%nat \/ s1 = index).
  { destruct H1 as [[-> _]|(l & x & -> & Hl & _)]; [by right|left].
    by eapply lookup_lt_Some. }
  destruct (smallest_right h index s1 Hs1) as (s2 & E2 & H2). rewrite E2.
  exists s2. split; [done|].
  pose proof (Parent_of_Left index) as PL. pose proof (Parent_of_Right index) as PR.
  destruct H2 as [[-> Hr]|(r & y & -> & Hr & Hy & Hlt)];
    destruct H1 as [[-> Hl]|(l & x & -> & Hl & Hx & Hlt')].
  - left. split; [done|]. intros a o z Ha Ho Hpo Hz.
    destruct (Parent_children o index Ho Hpo) as [-> | ->]; eauto.
  - right. exists x, l. split; [unfold Left; lia|]. split; [done|].
    do 3 (split; [done|]). intros o z Ho Hpo Hz.
    destruct (Parent_children o index Ho Hpo) as [-> | ->].
    + rewrite Hl in Hz. injection Hz as <-. apply Key_IsLess_irrefl.
    + by eapply Hr.
  - right. exists y, r. split; [unfold Right; lia|]. split; [done|].
    do 3 (split; [done|]). intros o z Ho Hpo Hz.
    destruct (Parent_children o index Ho Hpo) as [-> | ->].
    + eapply Key_IsLess_le_trans; [by apply Key_IsLess_asym|by eapply Hl].
    + rewrite Hr in Hz. injection Hz as <-. apply Key_IsLess_irrefl.
  - rewrite Hl in Hy. injection Hy as <-.
    right. exists x, r. split; [unfold Right; lia|]. split; [done|].
    split; [done|]. split; [done|]. split; [by eapply Key_IsLess_trans|].
    intros o z Ho Hpo Hz.
    destruct (Parent_children o index Ho Hpo) as [-> | ->].
    + rewrite Hl in Hz. injection Hz as <-. by apply Key_IsLess_asym.
    + rewrite Hr in Hz. injection Hz as <-. apply Key_IsLess_irrefl.
Qed.

(** [MinHeapify] returns; it leaves the slots before [index] alone; and
    either it changes nothing, or it has exchanged the key at [index], with
    both records put right. *)
Lemma MinHeapify_recorded (fuel : nat) : forall (h : BinaryHeap) (index r : nat),
  recorded r h -> (length (elements_ h) - index <= fuel)%nat ->
  exists h', MinHeapify fuel h index = Ok h' /\
    elements_ h' ≡ₚ elements_ h /\
    (forall p, (p < index)%nat -> elements_ h' !! p = elements_ h !! p) /\
    (h' = h \/
     (recorded (match index with O => O | S _ => r end) h' /\
      exists a b, elements_ h !! index = Some a /\ elements_ h' !! index = Some b /\
                  key_id a <> key_id b)).
Proof.
  induction fuel as [|fuel IH]; intros h index r Hrec Hfuel;
    rewrite MinHeapify_eq;
    destruct (MinHeapify_choice h index) as (s & Es & Hs);
    rewrite Es; cbn [mbind result_bind];
    (destruct Hs as [[-> _]|(a & b & Hlt & _ & Ha & Hb & Hless & _)];
     [rewrite bool_decide_eq_false_2 by (by intros []);
      exists h; by eauto|]);
    rewrite bool_decide_eq_true_2 by lia;
    pose proof (lookup_lt_Some _ _ _ Hb) as Hsl.
  - lia.
  - destruct (swap_and_reindex_recorded r h index s a b Hrec ltac:(lia) Ha Hb)
      as (h1 & E1 & Hels1 & Hrec1).
    rewrite E1. cbn [mbind result_bind].
    assert (Hr1 : (if decide (index = 0 \/ s = 0)%nat then 0%nat else r)
                  = match index with O => O | S _ => r end).
    { destruct index; case_decide; try done; lia. }
    rewrite Hr1 in Hrec1.
    assert (Hlen1 : length (elements_ h1) = length (elements_ h)).
    { by rewrite Hels1, !length_insert. }
    destruct (IH h1 s _ Hrec1 ltac:(lia)) as (h' & E' & Hperm & Hpre & Hcase).
    assert (Hb1 : elements_ h1 !! index = Some b).
    { rewrite Hels1. rewrite list_lookup_insert_ne by lia.
      apply list_lookup_insert_eq. by eapply lookup_lt_Some. }
    exists h'. split; [done|]. split; [|split].
    + rewrite Hperm, Hels1. by apply insert_swap_Permutation.
    + intros p Hp. rewrite Hpre by lia. rewrite Hels1.
      by rewrite !list_lookup_insert_ne by lia.
    + right. split.
      * destruct Hcase as [->|[Hrec' _]]; [done|].
        destruct s; [lia|done].
      * exists a, b. split; [done|]. split.
        -- by rewrite Hpre by lia.
        -- intros E. by apply (Key_IsLess_id _ _ Hless).
Qed.

Lemma MinHeapify_stops (fuel : nat) (h : BinaryHeap) (index : nat) :
  (forall s a b, (index < s)%nat -> elements_ h !! index = Some a ->
     elements_ h !! s = Some b -> Key_IsLess b a = false) ->
  MinHeapify fuel h index = Ok h.
Proof.
  intros Hmin. rewrite MinHeapify_eq.
  destruct (MinHeapify_choice h index) as (s & Es & Hs).
  rewrite Es; cbn [mbind result_bind].
  destruct Hs as [[-> _]|(a & b & Hlt & _ & Ha & Hb & Hless & _)].
  - by rewrite bool_decide_eq_false_2 by (by intros []).
  - by rewrite (Hmin s a b Hlt Ha Hb) in Hless.
Qed.

(** The state of [Remove] before its call of [MinHeapify]: the last key has
    been copied to the front, and [key_to_index_] still records it at the
    slot that [pop_back] has dropped. *)
Lemma recorded_moved (h : BinaryHeap) (minimum z : SkeletonizerKey)
    (mid : list SkeletonizerKey) :
  recorded 0 h -> elements_ h = minimum :: mid ++ [z] ->
  recorded (S (length mid))
          (mkBinaryHeap (z :: mid) (delete (key_id minimum) (key_to_index_ h))).
Proof.
  intros Hrec Hels.
  assert (H0 : elements_ h !! 0%nat = Some minimum) by (by rewrite Hels).
  assert (Hz : elements_ h !! S (length mid) = Some z).
  { rewrite Hels. simpl. rewrite lookup_app_r by lia.
    by replace (length mid - length mid)%nat with 0%nat by lia. }
  assert (Hmid : forall i x, mid !! i = Some x -> elements_ h !! S i = Some x).
  { intros i x Hi. rewrite Hels. simpl. by apply lookup_app_l_Some. }
  split; cbn [elements_ key_to_index_].
  - pose proof (rec_NoDup _ _ Hrec) as Hnd. rewrite Hels in Hnd.
    rewrite fmap_cons, fmap_app in Hnd. apply NoDup_cons in Hnd as [_ Hnd].
    rewrite fmap_cons. simpl in Hnd.
    by rewrite <- Permutation_cons_append in Hnd.
  - intros i x Hi.
    assert (Hx : elements_ h !! slot (S (length mid)) i = Some x).
    { destruct i as [|i]; simpl in *; [by injection Hi as <-|by apply Hmid]. }
    rewrite lookup_delete_ne.
    + rewrite (rec_lookup _ _ Hrec _ _ Hx). by destruct i.
    + intros E. assert (0%nat = slot (S (length mid)) i) by (by eapply recorded_inj).
      by destruct i.
  - intros k i Hk.
    destruct (decide (k = key_id minimum)) as [->|Hne];
      [by rewrite lookup_delete_eq in Hk|].
    rewrite lookup_delete_ne in Hk by done.
    destruct (rec_dom _ _ Hrec _ _ Hk) as (j & x & Hj & <-).
    destruct j as [|j]; [by rewrite H0 in Hj; injection Hj as <-|].
    rewrite Hels in Hj. simpl in Hj.
    apply lookup_app_Some in Hj as [Hj|[_ Hj]].
    + exists (S j), x. by split.
    + apply list_lookup_singleton_Some in Hj as [_ <-]. exists 0%nat, z. by split.
Qed.

Lemma Remove_eq (h : BinaryHeap) (minimum z : SkeletonizerKey)
    (mid : list SkeletonizerKey) :
  elements_ h = minimum :: mid ++ [z] ->
  Remove h =
  (h' ← noexcept (MinHeapify (S (length mid))
         (mkBinaryHeap (z :: mid) (delete (key_id minimum) (key_to_index_ h))) 0);
   Ok (minimum, h')).
Proof.
  intros Hels. unfold Remove, First, HeapSize. rewrite Hels.
  rewrite bool_decide_eq_false_2 by (simpl; lia).
  cbn [vec_at lookup list_lookup mbind result_bind].
  assert (Hz : vec_at (minimum :: mid ++ [z]) (length (minimum :: mid ++ [z]) - 1) = Ok z).
  { apply vec_at_Ok. simpl. rewrite Nat.sub_0_r, length_app. simpl.
    replace (length mid + 1)%nat with (S (length mid)) by lia.
    exact (list_lookup_middle (minimum :: mid) [] z _ eq_refl). }
  rewrite Hz. cbn [mbind result_bind].
  assert (Hpop : pop_back (<[0%nat := z]> (minimum :: mid ++ [z])) = z :: mid).
  { unfold pop_back. simpl. rewrite Nat.sub_0_r, length_app. simpl.
    replace (length mid + 1)%nat with (S (length mid)) by lia.
    simpl. by rewrite take_app_length. }
  rewrite Hpop. reflexivity.
Qed.

(** [Remove] on a heap whose map is right: what the map records afterwards. *)
Lemma Remove_recorded (h : BinaryHeap) (minimum z : SkeletonizerKey)
    (mid : list SkeletonizerKey) :
  recorded 0 h -> elements_ h = minimum :: mid ++ [z] ->
  exists h', Remove h = Ok (minimum, h') /\ elements_ h' ≡ₚ (z :: mid) /\
    ((elements_ h' !! 0%nat = Some z /\ recorded (S (length mid)) h') \/
     (recorded 0 h' /\
      exists b, elements_ h' !! 0%nat = Some b /\ key_id b <> key_id z)).
Proof.
  intros Hrec Hels. rewrite (Remove_eq _ _ _ _ Hels).
  pose proof (recorded_moved _ _ _ _ Hrec Hels) as Hmoved.
  destruct (MinHeapify_recorded (S (length mid)) _ 0%nat _ Hmoved ltac:(simpl; lia))
    as (h' & E & Hperm & _ & Hcase).
  rewrite E. cbn [noexcept mbind result_bind].
  exists h'. split; [done|]. split; [done|].
  destruct Hcase as [->|(Hrec' & a & b & Ha & Hb & Hab)].
  - left. by split.
  - right. split; [done|]. exists b. split; [done|].
    simpl in Ha. injection Ha as <-. by intros E'.
Qed.

Lemma recorded_dom (r : nat) (h : BinaryHeap) (k : Z * Z) :
  recorded r h -> is_Some (key_to_index_ h !! k) <-> k ∈ key_id <$> elements_ h.
Proof.
  intros Hrec. split.
  - intros [i Hi]. destruct (rec_dom _ _ Hrec _ _ Hi) as (j & x & Hj & <-).
    apply list_elem_of_fmap. exists x. split; [done|]. by eapply list_elem_of_lookup_2.
  - intros Hk. apply list_elem_of_fmap in Hk as (x & -> & Hx).
    apply list_elem_of_lookup in Hx as [i Hi].
    rewrite (rec_lookup _ _ Hrec _ _ Hi). by eexists.
Qed.

(** A heap of two keys, as two calls of [Insert] build it when the second
    key is not less than the first. *)
Definition pair_heap (a b : SkeletonizerKey) : BinaryHeap :=
  mkBinaryHeap [a; b] (<[key_id b := 1%nat]> (<[key_id a := 0%nat]> ∅)).

Definition two_keys : BinaryHeap :=
  pair_heap (mkKey 0 0 (mkVoxel 0 0 1)) (mkKey 0 1 (mkVoxel 0 1 1)).

Lemma pair_heap_recorded (a b : SkeletonizerKey) :
  key_id a <> key_id b -> recorded 0 (pair_heap a b).
Proof.
  intros Hab. split; unfold pair_heap; cbn [elements_ key_to_index_].
  - rewrite !fmap_cons. apply NoDup_cons. split.
    + intros H. apply list_elem_of_singleton in H. done.
    + apply NoDup_singleton.
  - intros i x Hi. destruct i as [|[|i]]; simpl in Hi; [| |done]; injection Hi as <-.
    + rewrite lookup_insert_ne by done. by rewrite lookup_insert_eq.
    + by rewrite lookup_insert_eq.
  - intros k i Hk. apply lookup_insert_Some in Hk as [[<- <-]|[_ Hk]].
    { by exists 1%nat, b. }
    apply lookup_insert_Some in Hk as [[<- <-]|[_ Hk]].
    { by exists 0%nat, a. }
    by rewrite lookup_empty in Hk.
Qed.

Lemma two_keys_recorded : recorded 0 two_keys.
Proof. by apply pair_heap_recorded. Qed.

Lemma Remove_last (h : BinaryHeap) (minimum : SkeletonizerKey) :
  elements_ h = [minimum] ->
  Remove h = Ok (minimum, mkBinaryHeap [] (delete (key_id minimum) (key_to_index_ h))).
Proof.
  intros Hels. unfold Remove, First, HeapSize. rewrite Hels.
  cbn [length vec_at lookup list_lookup mbind result_bind bool_decide].
  rewrite bool_decide_eq_false_2 by lia.
  cbn [Nat.sub vec_at lookup list_lookup mbind result_bind].
  change (pop_back (<[0%nat := minimum]> [minimum])) with (@nil SkeletonizerKey).
  by rewrite MinHeapify_stops by (by intros s a b _ Ha).
Qed.

(** X19.  What [key_to_index_] records after [Remove].  On a heap whose map
    records every key at its slot, [Remove] returns the front key and keeps
    the other keys; afterwards the map holds exactly the keys that remain, and
    each of them is recorded at its slot, with one exception: when the key
    that was stored last has become the front, the map still records it at
    its old slot, which is now the size of the heap. *)
Theorem Remove_records_the_moved_key_at_its_old_slot
    (h : BinaryHeap) (minimum : SkeletonizerKey) (rest : list SkeletonizerKey) :
  recorded 0 h -> elements_ h = minimum :: rest ->
  exists h', Remove h = Ok (minimum, h') /\ elements_ h' ≡ₚ rest /\
    (forall k, is_Some (key_to_index_ h' !! k) <-> k ∈ key_id <$> elements_ h') /\
    (forall i x, elements_ h' !! i = Some x ->
       key_to_index_ h' !! key_id x =
       Some (if decide (i = 0%nat /\ key_id <$> last rest = Some (key_id x))
             then length (elements_ h') else i)).
Proof.
  intros Hrec Hels. destruct rest as [|z mid _] using rev_ind.
  - exists (mkBinaryHeap [] (delete (key_id minimum) (key_to_index_ h))).
    split; [by apply Remove_last|split; [done|split]].
    + intros k. cbn [elements_ key_to_index_]. split.
      * intros [i Hi]. apply lookup_delete_Some in Hi as [Hne Hi].
        destruct (rec_dom _ _ Hrec _ _ Hi) as (j & x & Hj & <-).
        rewrite Hels in Hj. destruct j; simpl in Hj; [|done]. by injection Hj as <-.
      * intros Hk. by apply elem_of_nil in Hk.
    + by intros i x Hi.
  - destruct (Remove_recorded _ _ _ _ Hrec Hels) as (h' & E & Hperm & Hcase).
    exists h'. split; [done|]. split; [by rewrite Hperm, <- Permutation_cons_append|].
    assert (Hlen : length (elements_ h') = S (length mid)) by (by rewrite Hperm).
    rewrite last_snoc. cbn [fmap option_fmap option_map].
    destruct Hcase as [[Hfront Hrec']|(Hrec' & b & Hb & Hbz)].
    + split; [intros k; by eapply recorded_dom|].
      intros i x Hi. rewrite (rec_lookup _ _ Hrec' _ _ Hi). f_equal.
      case_decide as Hc.
      * destruct Hc as [-> _]. by rewrite Hlen.
      * destruct i as [|i]; [|done]. destruct Hc. split; [done|]. congruence.
    + split; [intros k; by eapply recorded_dom|].
      intros i x Hi. rewrite (rec_lookup _ _ Hrec' _ _ Hi). f_equal.
      case_decide as Hc; [|by destruct i].
      destruct Hc as [-> E']. rewrite Hb in Hi. injection Hi as <-.
      destruct Hbz. congruence.
Qed.

Lemma Remove_records_the_moved_key_at_its_old_slot_witness :
  recorded 0 two_keys /\
  exists h', Remove two_keys = Ok (mkKey 0 0 (mkVoxel 0 0 1), h') /\
    elements_ h' ≡ₚ [mkKey 0 1 (mkVoxel 0 1 1)] /\
    key_to_index_ h' !! (0, 1) = Some 1%nat.
Proof.
  split; [exact two_keys_recorded|].
  destruct (Remove_records_the_moved_key_at_its_old_slot two_keys
              (mkKey 0 0 (mkVoxel 0 0 1)) [mkKey 0 1 (mkVoxel 0 1 1)]
              two_keys_recorded eq_refl) as (h' & E & Hperm & _ & Hrec).
  exists h'. split; [exact E|]. split; [exact Hperm|].
  apply Permutation_singleton_r in Hperm.
  specialize (Hrec 0%nat (mkKey 0 1 (mkVoxel 0 1 1))).
  rewrite Hperm in Hrec. exact (Hrec eq_refl).
Defined.

(** X20.  When the key stored last is not greater than any other key that
    remains, [Remove] leaves it at the front with its old slot in
    [key_to_index_]; a later [IncreasePriority] of that key then throws,
    whatever the new key is: either at the comparison of the two keys or at
    [elements_.at] with the stale slot. *)
Theorem moved_key_cannot_be_updated
    (h : BinaryHeap) (minimum z : SkeletonizerKey) (mid : list SkeletonizerKey) :
  recorded 0 h -> elements_ h = minimum :: mid ++ [z] ->
  (forall x, x ∈ mid -> Key_IsLess x z = false) ->
  exists h', Remove h = Ok (minimum, h') /\ elements_ h' = z :: mid /\
    forall new_priority, IncreasePriority h' z new_priority = Fail Exception.
Proof.
  intros Hrec Hels Hleast. rewrite (Remove_eq _ _ _ _ Hels).
  pose proof (recorded_moved _ _ _ _ Hrec Hels) as Hmoved.
  rewrite MinHeapify_stops.
  - cbn [noexcept mbind result_bind]. eexists. split; [done|]. split; [done|].
    intros new_priority. unfold IncreasePriority.
    destruct (Key_IsLess z new_priority); [done|].
    rewrite (rec_lookup _ _ Hmoved 0%nat z eq_refl).
    unfold IncreasePriority_at, vec_at. cbn [elements_ slot].
    by rewrite lookup_ge_None_2 by (simpl; lia).
  - cbn [elements_]. intros s a b Hs Ha Hb. simpl in Ha. injection Ha as <-.
    apply Hleast. destruct s as [|s]; [lia|]. simpl in Hb.
    by eapply list_elem_of_lookup_2.
Qed.

Lemma moved_key_cannot_be_updated_witness :
  exists h', Remove two_keys = Ok (mkKey 0 0 (mkVoxel 0 0 1), h') /\
    elements_ h' = [mkKey 0 1 (mkVoxel 0 1 1)] /\
    IncreasePriority h' (mkKey 0 1 (mkVoxel 0 1 1)) (mkKey 0 1 (mkVoxel 0 1 1))
    = Fail Exception.
Proof.
  destruct (moved_key_cannot_be_updated two_keys (mkKey 0 0 (mkVoxel 0 0 1))
              (mkKey 0 1 (mkVoxel 0 1 1)) [] two_keys_recorded eq_refl)
    as (h' & E & Hels & Hthrow).
  - intros x Hx. by apply elem_of_nil in Hx.
  - exists h'. split; [exact E|]. split; [exact Hels|]. apply Hthrow.
Defined.

(** The skeletonizer reaches this state.  In the 1 x 2 x 2 image below the
    voxel (0,0,0) is background (value 2), (0,1,0) is the only object voxel
    and the other two are contour voxels.  The object voxel is queued from the
    first seed at squared distance 2; when the second seed is removed its key
    is the only one left, so it stays at the front with slot 1 in the map, and
    the update of its distance to 1 throws. *)
Definition background_img : TernaryImage :=
  TernaryImage_of_cube
    (cube_set (Examples.cube_of_ones 1 2 2 [(0, 0, 1); (0, 1, 1)]%nat) 0 0 0 2).

Example ComputeSkeleton_throws_beside_background :
  ComputeSkeleton 100 background_img = Fail Exception.
Proof. by vm_compute. Qed.

(** *** The heap order *)

(** [bh_le a b]: the key [a] is not greater than the key [b]. *)
Definition bh_le (a b : SkeletonizerKey) : Prop := Key_IsLess b a = false.

(** The key at [i] is not less than the key of its parent. *)
Definition bh_ordered_at (els : list SkeletonizerKey) (i : nat) : Prop :=
  forall x p, els !! i = Some x -> els !! Parent i = Some p -> bh_le p x.

Definition bh_ordered (els : list SkeletonizerKey) : Prop :=
  forall i, (0 < i)%nat -> bh_ordered_at els i.

(** The heap order holds except between [k] and its parent. *)
Definition bh_up_inv (els : list SkeletonizerKey) (k : nat) : Prop :=
  (forall i, (0 < i)%nat -> i <> k -> bh_ordered_at els i) /\
  (forall c x g, (0 < k)%nat -> (0 < c)%nat -> Parent c = k ->
     els !! c = Some x -> els !! Parent k = Some g -> bh_le g x).

(** The heap order holds except between [k] and its children. *)
Definition bh_down_inv (els : list SkeletonizerKey) (k : nat) : Prop :=
  (forall i, (0 < i)%nat -> Parent i <> k -> bh_ordered_at els i) /\
  (forall c x g, (0 < k)%nat -> (0 < c)%nat -> Parent c = k ->
     els !! c = Some x -> els !! Parent k = Some g -> bh_le g x).

Lemma bh_le_trans (a b c : SkeletonizerKey) : bh_le a b -> bh_le b c -> bh_le a c.
Proof. unfold bh_le. intros H1 H2. exact (Key_IsLess_le_trans _ _ _ H1 H2). Qed.

Lemma bh_ordered_front (els : list SkeletonizerKey) (i : nat) (x r : SkeletonizerKey) :
  bh_ordered els -> els !! i = Some x -> els !! 0%nat = Some r -> bh_le r x.
Proof.
  intros Hord. revert x. induction (lt_wf i) as [i _ IH]. intros x Hx Hr.
  destruct (decide (i = 0%nat)) as [->|Hi].
  - rewrite Hx in Hr. injection Hr as ->. apply Key_IsLess_irrefl.
  - assert (Hlt : (Parent i < i)%nat) by (apply Parent_below; lia).
    destruct (els !! Parent i) as [p|] eqn:Hp.
    + eapply bh_le_trans; [apply (IH _ Hlt p Hp Hr)|].
      apply (Hord i); [lia|done..].
    + apply lookup_ge_None in Hp. apply lookup_lt_Some in Hx. lia.
Qed.

Lemma lookup_exchanged (els : list SkeletonizerKey) (i j : nat)
    (a b : SkeletonizerKey) (k : nat) :
  i <> j -> (i < length els)%nat -> (j < length els)%nat ->
  <[j := a]> (<[i := b]> els) !! k =
    if decide (k = j) then Some a else if decide (k = i) then Some b else els !! k.
Proof.
  intros Hij Hi Hj.
  rewrite !list_lookup_insert, !length_insert.
  repeat case_decide; destruct_and?; subst; try done; try lia; naive_solver lia.
Qed.

Lemma bh_up_inv_swap (els : list SkeletonizerKey) (k : nat) (x p : SkeletonizerKey) :
  (0 < k)%nat -> els !! k = Some x -> els !! Parent k = Some p ->
  Key_IsLess x p = true -> bh_up_inv els k ->
  bh_up_inv (<[Parent k := x]> (<[k := p]> els)) (Parent k).
Proof.
  intros Hk Hx Hp Hlt [Ha Hb].
  pose proof (Parent_below k Hk) as Hq.
  pose proof (lookup_lt_Some _ _ _ Hx) as Lk.
  pose proof (lookup_lt_Some _ _ _ Hp) as Lq.
  assert (Hxp : bh_le x p) by (by apply Key_IsLess_asym).
  split.
  - intros i Hi Hiq y g.
    rewrite !lookup_exchanged by lia.
    destruct (decide (i = k)) as [->|Hik].
    + rewrite decide_False by lia. rewrite ?decide_True by done.
      intros [= <-] [= <-]. exact Hxp.
    + rewrite (decide_False (P := i = Parent k)) by done. intros Hy.
      destruct (decide (Parent i = Parent k)) as [E|NE].
      * intros [= <-]. eapply bh_le_trans; [exact Hxp|].
        apply (Ha i Hi Hik); [done|by rewrite E].
      * destruct (decide (Parent i = k)) as [E'|NE'].
        -- intros [= <-]. by apply (Hb i y p).
        -- intros Hg. by apply (Ha i Hi Hik).
  - intros c y g Hq0 Hc Hcq.
    pose proof (Parent_below _ Hq0) as Hqq. pose proof (Parent_below _ Hc) as Hcc.
    rewrite !lookup_exchanged by lia.
    rewrite (decide_False (P := c = Parent k)) by lia.
    rewrite (decide_False (P := Parent (Parent k) = Parent k)) by lia.
    rewrite (decide_False (P := Parent (Parent k) = k)) by lia.
    assert (Hordq : bh_ordered_at els (Parent k)) by (apply Ha; lia).
    destruct (decide (c = k)) as [->|Hck].
    + intros [= <-] Hg. by apply Hordq.
    + intros Hy Hg. eapply bh_le_trans; [by apply Hordq|].
      apply (Ha c Hc Hck); [done|by rewrite Hcq].
Qed.

Lemma bh_down_inv_swap (els : list SkeletonizerKey) (k s : nat)
    (x y : SkeletonizerKey) :
  (k < s)%nat -> Parent s = k ->
  els !! k = Some x -> els !! s = Some y ->
  bh_le y x ->
  (forall o z, (0 < o)%nat -> Parent o = k -> els !! o = Some z -> bh_le y z) ->
  bh_down_inv els k ->
  bh_down_inv (<[s := x]> (<[k := y]> els)) s.
Proof.
  intros Hks Hps Hx Hy Hyx Hmin [Ha Hb].
  pose proof (lookup_lt_Some _ _ _ Hx) as Lk.
  pose proof (lookup_lt_Some _ _ _ Hy) as Ls.
  split.
  - intros i Hi Hpi z g.
    rewrite !lookup_exchanged by lia.
    destruct (decide (i = s)) as [->|His].
    + rewrite Hps. rewrite (decide_False (P := k = s)) by lia.
      rewrite (decide_True (P := k = k)) by done.
      intros [= <-] [= <-]. exact Hyx.
    + rewrite (decide_False (P := Parent i = s)) by done.
      destruct (decide (i = k)) as [->|Hik].
      * pose proof (Parent_below k Hi).
        rewrite (decide_False (P := Parent k = k)) by lia.
        intros [= <-] Hg. apply (Hb s y g); (done || lia).
      * intros Hz. destruct (decide (Parent i = k)) as [E|NE].
        -- intros [= <-]. by apply (Hmin i z).
        -- intros Hg. by apply (Ha i Hi NE).
  - intros c z g Hs0 Hc Hcs.
    pose proof (Parent_below c Hc).
    rewrite !lookup_exchanged by lia.
    rewrite (decide_False (P := c = s)) by lia.
    rewrite (decide_False (P := c = k)) by lia.
    rewrite Hps. rewrite (decide_False (P := k = s)) by lia.
    rewrite (decide_True (P := k = k)) by done.
    intros Hz [= <-].
    assert (Parent c <> k) as NE by lia.
    apply (Ha c Hc NE z y); [done|by rewrite Hcs].
Qed.

Lemma swap_and_reindex_elements (h h1 : BinaryHeap) (i j : nat) :
  swap_and_reindex h i j = Ok h1 ->
  exists a b, elements_ h !! i = Some a /\ elements_ h !! j = Some b /\
    elements_ h1 = <[j := a]> (<[i := b]> (elements_ h)).
Proof.
  unfold swap_and_reindex. intros H.
  apply bind_Ok in H as (a & Ha & H). apply vec_at_Ok in Ha.
  apply bind_Ok in H as (b & Hb & H). apply vec_at_Ok in Hb.
  cbv zeta in H.
  apply bind_Ok in H as (ki & _ & H). apply bind_Ok in H as (m1 & _ & H).
  apply bind_Ok in H as (kj & _ & H). apply bind_Ok in H as (m2 & _ & H).
  injection H as <-. by exists a, b.
Qed.

(** [MinHeapify] restores the heap order below [k]. *)
Lemma MinHeapify_ordered (fuel : nat) : forall (h : BinaryHeap) (k : nat) (h' : BinaryHeap),
  MinHeapify fuel h k = Ok h' -> bh_down_inv (elements_ h) k ->
  bh_ordered (elements_ h').
Proof.
  induction fuel as [|fuel IH]; intros h k h' H Hinv;
    rewrite MinHeapify_eq in H;
    destruct (MinHeapify_choice h k) as (s & Es & Hs);
    rewrite Es in H; cbn [mbind result_bind] in H;
    (destruct Hs as [[-> Hstop]|(a & b & Hlt & Hps & Ha & Hb & Hless & Hmin)];
     [rewrite bool_decide_eq_false_2 in H by (by intros []);
      injection H as <-; intros i Hi;
      (destruct (decide (Parent i = k)) as [E|NE]; [|by apply Hinv]);
      intros z g Hz Hg; rewrite E in Hg; by eapply Hstop|]);
    rewrite bool_decide_eq_true_2 in H by lia;
    apply bind_Ok in H as (h1 & Hsw & H).
  - done.
  - apply swap_and_reindex_elements in Hsw as (a' & b' & Ha' & Hb' & Hels).
    rewrite Ha in Ha'. injection Ha' as <-. rewrite Hb in Hb'. injection Hb' as <-.
    eapply IH; [exact H|]. rewrite Hels.
    apply bh_down_inv_swap; try done. by apply Key_IsLess_asym.
Qed.

Lemma sift_up_eq (fuel : nat) (h : BinaryHeap) (index : nat) :
  sift_up fuel h index =
  (if bool_decide (0 < index)%nat then
     x ← vec_at (elements_ h) index;
     p ← vec_at (elements_ h) (Parent index);
     if Key_IsLess x p then
       h ← swap_and_reindex h index (Parent index);
       match fuel with
       | O => Fail OutOfFuel
       | S fuel => sift_up fuel h (Parent index)
       end
     else Ok h
   else Ok h).
Proof. by destruct fuel. Qed.

(** The loop of [IncreasePriority] restores the heap order above [k]. *)
Lemma sift_up_ordered (fuel : nat) : forall (h : BinaryHeap) (k : nat) (h' : BinaryHeap),
  sift_up fuel h k = Ok h' -> bh_up_inv (elements_ h) k ->
  bh_ordered (elements_ h').
Proof.
  induction fuel as [|fuel IH]; intros h k h' H Hinv;
    rewrite sift_up_eq in H;
    (case_bool_decide as Hk;
     [|injection H as <-; intros i Hi; apply Hinv; lia]);
    apply bind_Ok in H as (x & Hx & H); apply vec_at_Ok in Hx;
    apply bind_Ok in H as (p & Hp & H); apply vec_at_Ok in Hp;
    (destruct (Key_IsLess x p) eqn:Hlt;
     [|injection H as <-; intros i Hi;
       (destruct (decide (i = k)) as [->|Hik]; [|by apply Hinv]);
       intros y g Hy Hg; rewrite Hx in Hy; rewrite Hp in Hg;
       injection Hy as <-; injection Hg as <-; exact Hlt]);
    apply bind_Ok in H as (h1 & Hsw & H).
  - done.
  - apply swap_and_reindex_elements in Hsw as (a' & b' & Ha' & Hb' & Hels).
    rewrite Hx in Ha'. injection Ha' as <-. rewrite Hp in Hb'. injection Hb' as <-.
    eapply IH; [exact H|]. rewrite Hels. by apply bh_up_inv_swap.
Qed.

(** The loop of [IncreasePriority] returns, and keeps the map right. *)
Lemma sift_up_recorded (fuel : nat) : forall (h : BinaryHeap) (k : nat),
  recorded 0 h -> (k <= fuel)%nat -> (k < length (elements_ h))%nat ->
  exists h', sift_up fuel h k = Ok h' /\ elements_ h' ≡ₚ elements_ h /\ recorded 0 h'.
Proof.
  induction fuel as [|fuel IH]; intros h k Hrec Hfuel Hlen;
    rewrite sift_up_eq;
    (case_bool_decide as Hk; [|by exists h]);
    pose proof (Parent_below k Hk) as Hq;
    destruct (lookup_lt_is_Some_2 (elements_ h) k Hlen) as [x Hx];
    destruct (lookup_lt_is_Some_2 (elements_ h) (Parent k) ltac:(lia)) as [p Hp];
    rewrite (proj2 (vec_at_Ok _ _ _) Hx); cbn [mbind result_bind];
    rewrite (proj2 (vec_at_Ok _ _ _) Hp); cbn [mbind result_bind];
    (destruct (Key_IsLess x p); [|by exists h]).
  - lia.
  - destruct (swap_and_reindex_recorded 0 h k (Parent k) x p Hrec ltac:(lia) Hx Hp)
      as (h1 & E1 & Hels1 & Hrec1).
    rewrite E1. cbn [mbind result_bind].
    assert (Hrec1' : recorded 0 h1) by (by destruct (decide _)).
    destruct (IH h1 (Parent k) Hrec1' ltac:(lia)) as (h' & E' & Hperm & Hrec').
    { rewrite Hels1, !length_insert. lia. }
    exists h'. split; [done|]. split; [|done].
    rewrite Hperm, Hels1. by apply insert_swap_Permutation.
Qed.

(** The map is right for every slot but [index], whose key it does not
    hold. *)
Definition recorded_off (index : nat) (els : list SkeletonizerKey)
    (m : gmap (Z * Z) nat) : Prop :=
  (forall i x, i <> index -> els !! i = Some x -> m !! key_id x = Some i) /\
  (forall k i, m !! k = Some i -> exists x, i <> index /\ els !! i = Some x /\ key_id x = k).

Lemma recorded_replaced (index : nat) (els : list SkeletonizerKey)
    (m : gmap (Z * Z) nat) (new : SkeletonizerKey) :
  recorded_off index els m -> (index < length els)%nat -> m !! key_id new = None ->
  recorded 0 (mkBinaryHeap (<[index := new]> els) (<[key_id new := index]> m)).
Proof.
  intros [Hl Hd] Hlen Hnew.
  assert (Hat : forall i x, <[index := new]> els !! i = Some x ->
                  (i = index /\ x = new) \/ (i <> index /\ els !! i = Some x)).
  { intros i x Hi. destruct (decide (i = index)) as [->|Hne].
    - rewrite list_lookup_insert_eq in Hi by done. injection Hi as <-. by left.
    - rewrite list_lookup_insert_ne in Hi by done. by right. }
  split; cbn [elements_ key_to_index_].
  - apply NoDup_alt. intros i j k Hi Hj.
    rewrite list_lookup_fmap in Hi, Hj.
    destruct (<[index := new]> els !! i) as [x|] eqn:Hx; [|done].
    destruct (<[index := new]> els !! j) as [y|] eqn:Hy; [|done].
    simpl in Hi, Hj. injection Hi as Hi. injection Hj as Hj.
    destruct (Hat _ _ Hx) as [[-> ->]|[Hix Hx']], (Hat _ _ Hy) as [[-> ->]|[Hjy Hy']].
    + done.
    + pose proof (Hl _ _ Hjy Hy') as E. congruence.
    + pose proof (Hl _ _ Hix Hx') as E. congruence.
    + pose proof (Hl _ _ Hix Hx') as E1. pose proof (Hl _ _ Hjy Hy') as E2.
      rewrite Hi in E1. rewrite Hj in E2. congruence.
  - intros i x Hi. destruct (Hat _ _ Hi) as [[-> ->]|[Hne Hx]].
    + rewrite lookup_insert_eq. by destruct index.
    + rewrite lookup_insert_ne.
      * rewrite (Hl _ _ Hne Hx). by destruct i.
      * intros E. rewrite E, (Hl _ _ Hne Hx) in Hnew. done.
  - intros k i Hk. apply lookup_insert_Some in Hk as [[<- <-]|[Hne Hk]].
    + exists index, new. split; [|done]. by apply list_lookup_insert_eq.
    + destruct (Hd _ _ Hk) as (x & Hi & Hx & <-).
      exists i, x. split; [|done]. by rewrite list_lookup_insert_ne.
Qed.

Lemma recorded_off_delete (h : BinaryHeap) (index : nat) (old : SkeletonizerKey) :
  recorded 0 h -> elements_ h !! index = Some old ->
  recorded_off index (elements_ h) (delete (key_id old) (key_to_index_ h)).
Proof.
  intros Hrec Hold. split.
  - intros i x Hne Hx. rewrite lookup_delete_ne.
    + rewrite (rec_lookup _ _ Hrec _ _ Hx). by destruct i.
    + intros E. apply Hne. symmetry. by eapply recorded_inj.
  - intros k i Hk. apply lookup_delete_Some in Hk as [Hne Hk].
    destruct (rec_dom _ _ Hrec _ _ Hk) as (j & x & Hj & <-).
    pose proof (rec_lookup _ _ Hrec _ _ Hj) as E. rewrite Hk in E.
    assert (i = j) as -> by (injection E as ->; by destruct j).
    exists x. split; [|done]. intros ->. rewrite Hold in Hj. by injection Hj as <-.
Qed.

(** [IncreasePriority(index, new_priority)] from a state whose map is right
    for the other slots. *)
Lemma IncreasePriority_at_spec (h : BinaryHeap) (index : nat)
    (old new : SkeletonizerKey) :
  elements_ h !! index = Some old -> Key_IsLess old new = false ->
  recorded_off index (elements_ h) (delete (key_id old) (key_to_index_ h)) ->
  delete (key_id old) (key_to_index_ h) !! key_id new = None ->
  bh_up_inv (<[index := new]> (elements_ h)) index ->
  exists h', IncreasePriority_at h index new = Ok h' /\ recorded 0 h' /\
    bh_ordered (elements_ h') /\ elements_ h' ≡ₚ <[index := new]> (elements_ h).
Proof.
  intros Hold Hle Hoff Hnew Hinv.
  pose proof (lookup_lt_Some _ _ _ Hold) as Hlen.
  unfold IncreasePriority_at.
  rewrite (proj2 (vec_at_Ok _ _ _) Hold). cbn [mbind result_bind].
  rewrite Hle. cbv zeta. unfold map_insert_new. rewrite Hnew.
  pose proof (recorded_replaced _ _ _ new Hoff Hlen Hnew) as Hrec.
  destruct (sift_up_recorded index _ index Hrec ltac:(lia))
    as (h' & E & Hperm & Hrec').
  { cbn [elements_]. by rewrite length_insert. }
  exists h'. split; [done|]. split; [done|]. split; [|done].
  by eapply sift_up_ordered.
Qed.

Lemma bh_ordered_nil : bh_ordered [].
Proof. by intros i Hi x p Hx. Qed.

Lemma pair_heap_ordered (a b : SkeletonizerKey) :
  Key_IsLess b a = false -> bh_ordered (elements_ (pair_heap a b)).
Proof.
  intros Hab i Hi x p Hx Hp. destruct i as [|[|i]]; [lia| |done].
  simpl in Hx. injection Hx as <-. change (Parent 1) with 0%nat in Hp.
  simpl in Hp. by injection Hp as <-.
Qed.

(** X21.  [Insert] on a heap that is in heap order and whose map records
    every key at its slot: when the new key is not yet in the heap, the
    default key is not in the heap and the new key is not greater than the
    default key, [Insert] returns; the heap then holds the new key besides the
    old ones, is in heap order, and its map records every key at its slot. *)
Theorem Insert_keeps_order_and_index_map (h : BinaryHeap) (key : SkeletonizerKey) :
  recorded 0 h -> bh_ordered (elements_ h) ->
  key_id key ∉ key_id <$> elements_ h ->
  key_id Key_default ∉ key_id <$> elements_ h ->
  Key_IsLess Key_default key = false ->
  exists h', Insert h key = Ok h' /\ recorded 0 h' /\ bh_ordered (elements_ h') /\
    elements_ h' ≡ₚ key :: elements_ h.
Proof.
  intros Hrec Hord Hfresh Hdef Hle. unfold Insert. cbv zeta.
  unfold HeapSize at 1. cbn [elements_]. rewrite length_app. cbn [length].
  replace (length (elements_ h) + 1 - 1)%nat with (length (elements_ h)) by lia.
  assert (Hsnoc : <[length (elements_ h) := key]> (elements_ h ++ [Key_default])
                  = elements_ h ++ [key]).
  { replace (length (elements_ h)) with (length (elements_ h) + 0)%nat at 1 by lia.
    by rewrite insert_app_r. }
  destruct (IncreasePriority_at_spec
              (mkBinaryHeap (elements_ h ++ [Key_default]) (key_to_index_ h))
              (length (elements_ h)) Key_default key) as (h' & E & Hrec' & Hord' & Hperm).
  - exact (list_lookup_middle (elements_ h) [] Key_default _ eq_refl).
  - exact Hle.
  - cbn [elements_ key_to_index_]. split.
    + intros i x Hne Hx.
      assert (Hi : (i < length (elements_ h))%nat).
      { apply lookup_lt_Some in Hx. rewrite length_app in Hx. simpl in Hx. lia. }
      rewrite lookup_app_l in Hx by done.
      rewrite lookup_delete_ne.
      * rewrite (rec_lookup _ _ Hrec _ _ Hx). by destruct i.
      * intros E. apply Hdef. rewrite E. apply list_elem_of_fmap.
        exists x. split; [done|]. by eapply list_elem_of_lookup_2.
    + intros k i Hk. apply lookup_delete_Some in Hk as [_ Hk].
      destruct (rec_dom _ _ Hrec _ _ Hk) as (j & x & Hj & <-).
      pose proof (rec_lookup _ _ Hrec _ _ Hj) as E. rewrite Hk in E.
      assert (i = j) as -> by (injection E as ->; by destruct j).
      exists x. pose proof (lookup_lt_Some _ _ _ Hj).
      split; [lia|]. split; [by apply lookup_app_l_Some|done].
  - cbn [key_to_index_]. apply lookup_delete_None. right.
    apply eq_None_not_Some. intros Hk. apply Hfresh. by eapply recorded_dom.
  - cbn [elements_]. rewrite Hsnoc. split.
    + intros i Hi Hne x p Hx Hp.
      assert ((i < length (elements_ h))%nat).
      { apply lookup_lt_Some in Hx. rewrite length_app in Hx. simpl in Hx. lia. }
      pose proof (Parent_below i Hi).
      rewrite lookup_app_l in Hx by lia. rewrite lookup_app_l in Hp by lia.
      by apply (Hord i).
    + intros c x g _ Hc Hpc Hx. apply lookup_lt_Some in Hx.
      rewrite length_app in Hx. simpl in Hx.
      pose proof (Parent_below c Hc). lia.
  - exists h'. split; [done|]. split; [done|]. split; [done|].
    cbn [elements_] in Hperm. rewrite Hperm, Hsnoc.
    by rewrite <- Permutation_cons_append.
Qed.

Lemma Insert_keeps_order_and_index_map_witness :
  exists h', Insert two_keys (mkKey 0 2 (mkVoxel 1 1 1)) = Ok h' /\ recorded 0 h' /\
    bh_ordered (elements_ h') /\
    elements_ h' ≡ₚ mkKey 0 2 (mkVoxel 1 1 1) :: elements_ two_keys.
Proof.
  apply (Insert_keeps_order_and_index_map two_keys (mkKey 0 2 (mkVoxel 1 1 1))).
  - exact two_keys_recorded.
  - by apply pair_heap_ordered.
  - apply (bool_decide_unpack _). by vm_compute.
  - apply (bool_decide_unpack _). by vm_compute.
  - reflexivity.
Defined.

(** X22.  [IncreasePriority(old_priority, new_priority)] on a heap that is in
    heap order and whose map records every key at its slot: when the old key
    is stored in the heap, the new key is not greater than the old one and no
    other key of the heap compares equal to the new key, the call returns; the
    heap then holds the new key in place of the old one, is in heap order, and
    its map records every key at its slot. *)
Theorem IncreasePriority_keeps_order_and_index_map
    (h : BinaryHeap) (i : nat) (stored old new : SkeletonizerKey) :
  recorded 0 h -> bh_ordered (elements_ h) ->
  elements_ h !! i = Some stored -> key_id stored = key_id old ->
  Key_IsLess old new = false ->
  (forall j x, elements_ h !! j = Some x -> key_id x = key_id new -> j = i) ->
  exists h', IncreasePriority h old new = Ok h' /\ recorded 0 h' /\
    bh_ordered (elements_ h') /\ elements_ h' ≡ₚ <[i := new]> (elements_ h).
Proof.
  intros Hrec Hord Hst Hid Hle Hfresh.
  pose proof (lookup_lt_Some _ _ _ Hst) as Hlen.
  assert (Hle' : Key_IsLess stored new = false).
  { by rewrite (Key_IsLess_same_id stored old new Hid). }
  unfold IncreasePriority. rewrite Hle. rewrite <- Hid.
  rewrite (rec_lookup _ _ Hrec _ _ Hst).
  replace (slot 0 i) with i by (by destruct i).
  apply (IncreasePriority_at_spec h i stored new Hst Hle').
  - by apply recorded_off_delete.
  - apply lookup_delete_None.
    destruct (decide (key_id stored = key_id new)) as [E|NE]; [by left|right].
    apply eq_None_not_Some. intros [j Hj].
    destruct (rec_dom _ _ Hrec _ _ Hj) as (j' & x & Hx & Hxid).
    pose proof (Hfresh _ _ Hx Hxid) as ->. rewrite Hst in Hx. injection Hx as <-. done.
  - split.
    + intros j Hj Hne x p Hx Hp.
      rewrite list_lookup_insert_ne in Hx by done.
      destruct (decide (Parent j = i)) as [E|NE].
      * rewrite E, list_lookup_insert_eq in Hp by done. injection Hp as <-.
        eapply bh_le_trans; [exact Hle'|]. apply (Hord j Hj); [done|by rewrite E].
      * rewrite list_lookup_insert_ne in Hp by done. by apply (Hord j).
    + intros c x g Hi Hc Hpc Hx Hg.
      pose proof (Parent_below c Hc). pose proof (Parent_below i Hi).
      rewrite list_lookup_insert_ne in Hx by lia.
      rewrite list_lookup_insert_ne in Hg by lia.
      eapply bh_le_trans; [by apply (Hord i Hi)|].
      apply (Hord c Hc); [done|by rewrite Hpc].
Qed.

Lemma IncreasePriority_keeps_order_and_index_map_witness :
  exists h',
    IncreasePriority (pair_heap (mkKey 1 0 (mkVoxel 0 0 0)) (mkKey 5 1 (mkVoxel 1 0 0)))
      (mkKey 5 1 (mkVoxel 1 0 0)) (mkKey 0 2 (mkVoxel 1 0 0)) = Ok h' /\
    recorded 0 h' /\ bh_ordered (elements_ h') /\
    elements_ h' ≡ₚ [mkKey 1 0 (mkVoxel 0 0 0); mkKey 0 2 (mkVoxel 1 0 0)].
Proof.
  apply (IncreasePriority_keeps_order_and_index_map
           (pair_heap (mkKey 1 0 (mkVoxel 0 0 0)) (mkKey 5 1 (mkVoxel 1 0 0)))
           1%nat (mkKey 5 1 (mkVoxel 1 0 0))).
  - by apply pair_heap_recorded.
  - by apply pair_heap_ordered.
  - reflexivity.
  - reflexivity.
  - reflexivity.
  - intros j x Hx Hid. destruct j as [|[|j]]; simpl in Hx; [|done|done].
    injection Hx as <-. done.
Defined.

(** X23.  [Remove] on a non-empty heap that is in heap order and whose map
    records every key at its slot returns the front key; no other key of the
    heap is less than it; the keys that remain are in heap order. *)
Theorem Remove_returns_a_least_key
    (h : BinaryHeap) (minimum : SkeletonizerKey) (rest : list SkeletonizerKey) :
  recorded 0 h -> bh_ordered (elements_ h) -> elements_ h = minimum :: rest ->
  exists h', Remove h = Ok (minimum, h') /\
    (forall x, x ∈ rest -> Key_IsLess x minimum = false) /\
    bh_ordered (elements_ h') /\ elements_ h' ≡ₚ rest.
Proof.
  intros Hrec Hord Hels.
  assert (Hleast : forall x, x ∈ rest -> Key_IsLess x minimum = false).
  { intros x Hx. apply list_elem_of_lookup in Hx as [i Hi].
    apply (bh_ordered_front (elements_ h) (S i) x minimum Hord); by rewrite Hels. }
  destruct rest as [|z mid _] using rev_ind.
  - eexists. split; [by apply Remove_last|]. split; [done|]. split; [|done].
    apply bh_ordered_nil.
  - rewrite (Remove_eq _ _ _ _ Hels).
    pose proof (recorded_moved _ _ _ _ Hrec Hels) as Hmoved.
    destruct (MinHeapify_recorded (S (length mid)) _ 0%nat _ Hmoved ltac:(simpl; lia))
      as (h' & E & Hperm & _ & _).
    rewrite E. cbn [noexcept mbind result_bind].
    exists h'. split; [done|]. split; [done|]. split.
    + eapply MinHeapify_ordered; [exact E|]. cbn [elements_]. split.
      * intros i Hi Hpi x p Hx Hp.
        destruct i as [|i]; [lia|]. pose proof (Parent_below (S i) Hi).
        destruct (Parent (S i)) as [|j] eqn:Ej; [done|].
        simpl in Hx, Hp.
        apply (Hord (S i) Hi); rewrite Hels, ?Ej; simpl; by apply lookup_app_l_Some.
      * intros c x g Hk. lia.
    + cbn [elements_] in Hperm. by rewrite Hperm, <- Permutation_cons_append.
Qed.

Lemma Remove_returns_a_least_key_witness :
  exists h', Remove two_keys = Ok (mkKey 0 0 (mkVoxel 0 0 1), h') /\
    (forall x, x ∈ [mkKey 0 1 (mkVoxel 0 1 1)] ->
       Key_IsLess x (mkKey 0 0 (mkVoxel 0 0 1)) = false) /\
    bh_ordered (elements_ h') /\ elements_ h' ≡ₚ [mkKey 0 1 (mkVoxel 0 1 1)].
Proof.
  apply (Remove_returns_a_least_key two_keys).
  - exact two_keys_recorded.
  - by apply pair_heap_ordered.
  - reflexivity.
Defined.

End BinaryHeapProofs.
(** ** Centre points of the pores of a plane
       (centerline/centerline_centerpoint_discoverer.h) *)

Section DiscovererProofs.
Import Graph Discoverer.

Variable image_ : TernaryImage.
Variable annotated_image_ : AnnotatedImage.
Variable direction : nat.
Variable coordinate : Z.

Hypothesis direction_lt : (direction < 3)%nat.
Hypothesis coordinate_range : 0 <= coordinate < 65536.

(** The points a search enters: annotated object points. *)
Definition eligible (p : Voxel) : Prop :=
  IsObjectPoint image_ p = true /\ is_Some (annotated_image_ !! p).

(** One step of a search: to an eligible neighbour in the plane. *)
Definition plane_step (q n : Voxel) : Prop :=
  n ∈ GetNeighboursInPlane q (Z.of_nat direction) /\ eligible n.

(** [plane_connected s q]: the search that starts at [s] can reach [q]. *)
Definition plane_connected : Voxel -> Voxel -> Prop := rtc plane_step.

(** The distance annotated at a point. *)
Definition annotated_distance (p : Voxel) : Z :=
  default 0 (distance <$> annotated_image_ !! p).

Definition in_plane (p : Voxel) : Prop := GetCoordinate p direction = coordinate.

Lemma plane_step_in_plane (q n : Voxel) :
  in_plane q -> plane_step q n -> in_plane n.
Proof.
  unfold in_plane. intros Hq [Hn _].
  apply GetNeighboursInPlane_elem_iff in Hn
    as (dx & dy & dz & Hdx & Hdy & Hdz & _ & ->).
  apply plane_offsets_elem in Hdx, Hdy, Hdz.
  assert (U : uint16 (1 + coordinate - 1) = coordinate).
  { unfold uint16. rewrite Z.mod_small; lia. }
  destruct direction as [|[|[|d]]]; [| | |lia]; simpl in *; subst; exact U.
Qed.

Lemma plane_connected_in_plane (s q : Voxel) :
  in_plane s -> plane_connected s q -> in_plane q.
Proof. intros Hs H. induction H; eauto using plane_step_in_plane. Qed.

Lemma length_GetNeighboursInPlane (q : Voxel) :
  length (GetNeighboursInPlane q (Z.of_nat direction)) = 8%nat.
Proof. destruct direction as [|[|[|d]]]; [done..|lia]. Qed.

Lemma GetProperty_eligible (p : Voxel) :
  is_Some (annotated_image_ !! p) ->
  GetProperty annotated_image_ p = Ok (annotated_distance p).
Proof.
  intros [a Ha]. unfold GetProperty, ReadAnnotation, annotated_distance.
  by rewrite Ha.
Qed.

(** The neighbours [UpdateMaxAndEnqueueNeighbours] pushes. *)
Definition pushed (used : gset Voxel) (neighbours : list Voxel) : list Voxel :=
  filter (fun n => eligible n /\ n ∉ used) neighbours.

Lemma UpdateMaxAndEnqueueNeighbours_spec (used : gset Voxel) (neighbours : list Voxel) :
  forall (current_max : Z) (current_center : Voxel) (queue : list Voxel),
  exists max' center',
    UpdateMaxAndEnqueueNeighbours image_ annotated_image_ used neighbours
      current_max current_center queue
    = Ok (max', center', queue ++ pushed used neighbours) /\
    current_max <= max' /\
    (forall n, n ∈ pushed used neighbours -> annotated_distance n <= max') /\
    ((center' = current_center /\ max' = current_max) \/
     (center' ∈ pushed used neighbours /\ annotated_distance center' = max')).
Proof.
  unfold pushed.
  induction neighbours as [|n ns IH]; intros current_max current_center queue.
  - exists current_max, current_center. simpl. rewrite app_nil_r.
    split; [done|]. split; [lia|]. split; [|by left].
    intros n Hn. by apply elem_of_nil in Hn.
  - cbn [UpdateMaxAndEnqueueNeighbours]. rewrite filter_cons.
    destruct (decide (eligible n /\ n ∉ used)) as [[[Hobj Hann] Hused]|Hno].
    + rewrite Hobj. unfold HasAnnotation.
      rewrite (bool_decide_eq_true_2 _ Hann), (bool_decide_eq_false_2 _ Hused).
      cbn [negb orb]. rewrite (GetProperty_eligible n Hann). cbn [mbind result_bind].
      destruct (current_max <? annotated_distance n) eqn:Hlt.
      * apply Z.ltb_lt in Hlt.
        destruct (IH (annotated_distance n) n (queue ++ [n]))
          as (max' & center' & E & Hle & Hall & Hc).
        exists max', center'. rewrite E, <- app_assoc. split; [done|].
        split; [lia|]. split.
        -- intros x Hx. apply elem_of_cons in Hx as [->|Hx]; [lia|by apply Hall].
        -- right. destruct Hc as [[-> ->]|[Hin Hd]].
           ++ split; [by left|done].
           ++ split; [by right|done].
      * apply Z.ltb_ge in Hlt.
        destruct (IH current_max current_center (queue ++ [n]))
          as (max' & center' & E & Hle & Hall & Hc).
        exists max', center'. rewrite E, <- app_assoc. split; [done|].
        split; [lia|]. split.
        -- intros x Hx. apply elem_of_cons in Hx as [->|Hx]; [lia|by apply Hall].
        -- destruct Hc as [[-> ->]|[Hin Hd]]; [by left|right].
           split; [by right|done].
    + assert (Hskip : negb (IsObjectPoint image_ n)
                      || negb (HasAnnotation annotated_image_ n)
                      || bool_decide (n ∈ used) = true).
      { unfold HasAnnotation.
        destruct (IsObjectPoint image_ n) eqn:Hobj; [|done].
        destruct (decide (is_Some (annotated_image_ !! n))) as [Hann|Hann];
          [|by rewrite (bool_decide_eq_false_2 _ Hann)].
        rewrite (bool_decide_eq_true_2 _ Hann). cbn [negb orb].
        apply bool_decide_eq_true_2.
        destruct (decide (n ∈ used)) as [|Hn]; [done|].
        destruct Hno. by repeat split. }
      rewrite Hskip. apply IH.
Qed.

Lemma length_pushed (used : gset Voxel) (q : Voxel) :
  (length (pushed used (GetNeighboursInPlane q (Z.of_nat direction))) <= 8)%nat.
Proof.
  unfold pushed. rewrite <- (length_GetNeighboursInPlane q). apply length_filter.
Qed.

Lemma elem_of_pushed (used : gset Voxel) (q n : Voxel) :
  n ∈ pushed used (GetNeighboursInPlane q (Z.of_nat direction)) <->
  plane_step q n /\ n ∉ used.
Proof. unfold pushed, plane_step. rewrite list_elem_of_filter. tauto. Qed.

(** Marking an annotated point leaves one point less to mark. *)
Lemma size_unused (used : gset Voxel) (q : Voxel) :
  is_Some (annotated_image_ !! q) -> q ∉ used ->
  S (size (dom annotated_image_ ∖ ({[q]} ∪ used))) = size (dom annotated_image_ ∖ used).
Proof.
  intros Hq Hused.
  assert (E : dom annotated_image_ ∖ used
              = {[q]} ∪ dom annotated_image_ ∖ ({[q]} ∪ used)).
  { apply set_eq. intros x. apply elem_of_dom in Hq.
    rewrite elem_of_union, !elem_of_difference, elem_of_union, elem_of_singleton.
    destruct (decide (x = q)) as [->|Hne]; tauto. }
  assert (Hd : ({[q]} : gset Voxel) ## dom annotated_image_ ∖ ({[q]} ∪ used)).
  { intros x Hx1 Hx2. apply elem_of_singleton in Hx1. subst x.
    apply elem_of_difference in Hx2 as [_ Hx2]. apply Hx2.
    apply elem_of_union. left. by apply elem_of_singleton. }
  rewrite E, (size_union _ _ Hd). by rewrite size_singleton.
Qed.

(** *** One search *)

Section Search.
Variable s : Voxel.
Variable used0 : gset Voxel.
Hypothesis s_eligible : eligible s.

Record search_inv (used : gset Voxel) (current_max : Z) (current_center : Voxel)
    (queue : list Voxel) : Prop := {
  inv_mono : used0 ⊆ used;
  inv_queue : forall q, q ∈ queue ->
                eligible q /\ plane_connected s q /\ annotated_distance q <= current_max;
  inv_center : eligible current_center /\ plane_connected s current_center /\
               annotated_distance current_center = current_max;
  inv_used : forall q, q ∈ used -> q ∉ used0 ->
               eligible q /\ plane_connected s q /\ annotated_distance q <= current_max;
  inv_closed : forall q n, q ∈ used -> q ∉ used0 -> plane_step q n ->
                 n ∈ used \/ n ∈ queue;
  inv_start : s ∈ used \/ s ∈ queue
}.

Lemma search_inv_skip (used : gset Voxel) (current_max : Z) (current_center q : Voxel)
    (queue : list Voxel) :
  search_inv used current_max current_center (q :: queue) -> q ∈ used ->
  search_inv used current_max current_center queue.
Proof.
  intros [H1 H2 H3 H4 H5 H6] Hq. split; try done.
  - intros x Hx. apply H2. by right.
  - intros x n Hx Hx0 Hstep. destruct (H5 x n Hx Hx0 Hstep) as [|Hn]; [by left|].
    apply elem_of_cons in Hn as [->|Hn]; [by left|by right].
  - destruct H6 as [|Hs]; [by left|].
    apply elem_of_cons in Hs as [->|Hs]; [by left|by right].
Qed.

Lemma search_inv_visit (used : gset Voxel) (current_max : Z) (current_center q : Voxel)
    (queue : list Voxel) (max' : Z) (center' : Voxel) :
  search_inv used current_max current_center (q :: queue) -> q ∉ used ->
  current_max <= max' ->
  (forall n, n ∈ pushed ({[q]} ∪ used) (GetNeighboursInPlane q (Z.of_nat direction)) ->
     annotated_distance n <= max') ->
  ((center' = current_center /\ max' = current_max) \/
   (center' ∈ pushed ({[q]} ∪ used) (GetNeighboursInPlane q (Z.of_nat direction)) /\
    annotated_distance center' = max')) ->
  search_inv ({[q]} ∪ used) max' center'
    (queue ++ pushed ({[q]} ∪ used) (GetNeighboursInPlane q (Z.of_nat direction))).
Proof.
  intros [H1 H2 H3 H4 H5 H6] Hq Hle Hall Hc.
  destruct (H2 q ltac:(by left)) as (Hqe & Hqc & Hqd).
  assert (Hnew : forall n,
            n ∈ pushed ({[q]} ∪ used) (GetNeighboursInPlane q (Z.of_nat direction)) ->
            eligible n /\ plane_connected s n).
  { intros n Hn. apply elem_of_pushed in Hn as [Hstep _]. split; [apply Hstep|].
    eapply rtc_r; [exact Hqc|exact Hstep]. }
  assert (Hq_in : q ∈ ({[q]} ∪ used : gset Voxel)).
  { apply elem_of_union. left. by apply elem_of_singleton. }
  assert (Hused_in : forall x, x ∈ used -> x ∈ ({[q]} ∪ used : gset Voxel)).
  { intros x Hx. apply elem_of_union. by right. }
  split.
  - intros x Hx. apply Hused_in. by apply H1.
  - intros x Hx. apply elem_of_app in Hx as [Hx|Hx].
    + destruct (H2 x ltac:(by right)) as (? & ? & ?).
      split; [done|]. split; [done|]. lia.
    + destruct (Hnew x Hx). split; [done|]. split; [done|]. by apply Hall.
  - destruct Hc as [[-> ->]|[Hin Hd]]; [done|].
    destruct (Hnew _ Hin). split; [done|]. by split.
  - intros x Hx Hx0. apply elem_of_union in Hx as [Hx|Hx].
    + apply elem_of_singleton in Hx. subst x. split; [done|]. split; [done|]. lia.
    + destruct (H4 x Hx Hx0) as (? & ? & ?). split; [done|]. split; [done|]. lia.
  - intros x n Hx Hx0 Hstep.
    destruct (decide (n ∈ {[q]} ∪ used)) as [|Hn]; [by left|right].
    apply elem_of_union in Hx as [Hx|Hx].
    + apply elem_of_singleton in Hx. subst x.
      apply elem_of_app. right. by apply elem_of_pushed.
    + destruct (H5 x n Hx Hx0 Hstep) as [Hn'|Hn']; [by destruct Hn; apply Hused_in|].
      apply elem_of_cons in Hn' as [->|Hn']; [by destruct Hn|].
      apply elem_of_app. by left.
  - destruct H6 as [Hs|Hs]; [left; by apply Hused_in|].
    apply elem_of_cons in Hs as [->|Hs]; [by left|].
    right. apply elem_of_app. by left.
Qed.

(** The loop of [ComputeBoundedCenter] returns, with the invariant on the
    empty queue. *)
Lemma center_loop_spec (fuel : nat) :
  forall (used : gset Voxel) (current_max : Z) (current_center : Voxel)
         (queue : list Voxel),
  search_inv used current_max current_center queue ->
  (length queue + 8 * size (dom annotated_image_ ∖ used) <= fuel)%nat ->
  exists used' max' center',
    center_loop fuel image_ annotated_image_ s (Z.of_nat direction)
                used current_max current_center queue
    = Ok (used', max', center') /\
    search_inv used' max' center' [].
Proof.
  induction fuel as [|fuel IH]; intros used current_max current_center queue Hinv Hfuel.
  - destruct queue as [|q queue]; [|simpl in Hfuel; lia].
    by exists used, current_max, current_center.
  - destruct queue as [|q queue]; [by exists used, current_max, current_center|].
    cbn [center_loop]. cbn [length] in Hfuel.
    destruct (decide (q ∈ used)) as [Hq|Hq].
    + rewrite (bool_decide_eq_true_2 _ Hq).
      apply IH; [by eapply search_inv_skip|lia].
    + rewrite (bool_decide_eq_false_2 _ Hq).
      rewrite (proj1 s_eligible). cbn [negb].
      destruct (UpdateMaxAndEnqueueNeighbours_spec ({[q]} ∪ used)
                  (GetNeighboursInPlane q (Z.of_nat direction))
                  current_max current_center queue)
        as (max' & center' & E & Hle & Hall & Hc).
      rewrite E. cbn [mbind result_bind].
      apply IH;
        [exact (search_inv_visit used current_max current_center q queue max' center'
                  Hinv Hq Hle Hall Hc)|].
      destruct (inv_queue _ _ _ _ Hinv q ltac:(by left)) as ([_ Hann] & _).
      pose proof (size_unused used q Hann Hq).
      pose proof (length_pushed ({[q]} ∪ used) q).
      rewrite length_app. lia.
Qed.

End Search.

(** [ComputeBoundedCenter] from an eligible point [s]: the points it marks
    are those the search reaches from [s]; the centre is one of them, and no
    marked point has a greater distance. *)
Lemma ComputeBoundedCenter_spec (fuel : nat) (used0 : gset Voxel) (s : Voxel) :
  eligible s ->
  (1 + 8 * size (dom annotated_image_ ∖ used0) <= fuel)%nat ->
  exists v used',
    ComputeBoundedCenter fuel image_ annotated_image_ used0 s (annotated_distance s)
                         (Z.of_nat direction) = Ok (v, used') /\
    used0 ⊆ used' /\ s ∈ used' /\
    eligible (Point v) /\ plane_connected s (Point v) /\
    PropertyValue v = Z_to_double (annotated_distance (Point v)) /\
    (forall q, q ∈ used' -> q ∉ used0 ->
       plane_connected s q /\ annotated_distance q <= annotated_distance (Point v)) /\
    (forall q n, q ∈ used' -> q ∉ used0 -> plane_step q n -> n ∈ used').
Proof.
  intros Hs Hfuel. unfold ComputeBoundedCenter.
  destruct (center_loop_spec s used0 Hs fuel used0 (annotated_distance s) s [s])
    as (used' & max' & center' & E & [H1 H2 H3 H4 H5 H6]).
  - split.
    + done.
    + intros q Hq. apply list_elem_of_singleton in Hq. subst q.
      split; [done|]. split; [apply rtc_refl|lia].
    + split; [done|]. split; [apply rtc_refl|done].
    + intros q Hq Hq0. done.
    + intros q n Hq Hq0. done.
    + right. by apply list_elem_of_singleton.
  - simpl. lia.
  - rewrite E. cbn [mbind result_bind].
    destruct H3 as (Hce & Hcc & Hcd).
    eexists _, _. split; [reflexivity|]. cbn [Point PropertyValue].
    split; [done|]. split.
    { destruct H6 as [|H6]; [done|by apply elem_of_nil in H6]. }
    split; [done|]. split; [done|]. split; [by rewrite Hcd|]. split.
    + intros q Hq Hq0. destruct (H4 q Hq Hq0) as (_ & Hc & Hd). split; [done|lia].
    + intros q n Hq Hq0 Hstep.
      destruct (H5 q n Hq Hq0 Hstep) as [|Hn]; [done|by apply elem_of_nil in Hn].
Qed.

(** *** The loop of [GetPoints] *)

(** [covered out q]: a centre of [out] lies in the pore of [q] and its
    distance is not less than the distance of [q]. *)
Definition covered (out : list Vertex) (q : Voxel) : Prop :=
  exists v s, v ∈ out /\ plane_connected s q /\ plane_connected s (Point v) /\
    annotated_distance q <= annotated_distance (Point v).

Definition centre_ok (v : Vertex) : Prop :=
  eligible (Point v) /\ in_plane (Point v) /\
  PropertyValue v = Z_to_double (annotated_distance (Point v)).

Record points_inv (used : gset Voxel) (out : list Vertex) : Prop := {
  pi_closed : forall q n, q ∈ used -> plane_step q n -> n ∈ used;
  pi_covered : forall q, q ∈ used -> covered out q;
  pi_out : forall v, v ∈ out -> centre_ok v
}.

Lemma IsInPlane_Ok (p : Voxel) :
  IsInPlane p direction coordinate = Ok (GetCoordinate p direction =? coordinate).
Proof. unfold IsInPlane. by rewrite bool_decide_eq_false_2 by lia. Qed.

Lemma points_loop_spec (fuel : nat) (entries : list (Voxel * Annotation)) :
  (1 + 8 * size (dom annotated_image_) <= fuel)%nat ->
  (forall p a, (p, a) ∈ entries -> annotated_image_ !! p = Some a) ->
  forall (used : gset Voxel) (out : list Vertex),
  points_inv used out ->
  exists out',
    points_loop fuel image_ annotated_image_ entries direction coordinate used out
    = Ok out' /\
    (forall v, v ∈ out' -> centre_ok v) /\
    (forall q, q ∈ used \/
               ((exists a, (q, a) ∈ entries) /\ IsObjectPoint image_ q = true /\ in_plane q) ->
       covered out' q).
Proof.
  intros Hfuel. induction entries as [|[p a] entries IH]; intros Hent used out Hinv.
  - exists out. split; [done|]. split; [apply Hinv|].
    intros q [Hq|[[a Ha] _]]; [by apply Hinv|by apply elem_of_nil in Ha].
  - assert (Hent' : forall p' a', (p', a') ∈ entries -> annotated_image_ !! p' = Some a').
    { intros p' a' H. apply Hent. by right. }
    assert (Hskip : (IsObjectPoint image_ p = true -> in_plane p -> p ∈ used) ->
              exists out',
                points_loop fuel image_ annotated_image_ entries direction coordinate
                            used out = Ok out' /\
                (forall v, v ∈ out' -> centre_ok v) /\
                (forall q, q ∈ used \/
                   ((exists a0, (q, a0) ∈ (p, a) :: entries) /\
                    IsObjectPoint image_ q = true /\ in_plane q) -> covered out' q)).
    { intros Hp. destruct (IH Hent' used out Hinv) as (out' & E & Hok & Hcov).
      exists out'. split; [done|]. split; [done|].
      intros q [Hq|[[a0 Ha0] [Hobj Hpl]]]; [apply Hcov; by left|].
      apply elem_of_cons in Ha0 as [[= -> ->]|Ha0].
      - apply Hcov. left. by apply Hp.
      - apply Hcov. right. split; [by exists a0|done]. }
    cbn [points_loop fst snd].
    destruct (IsObjectPoint image_ p) eqn:Hobj; cbn [negb];
      [|apply Hskip; intros; done].
    rewrite IsInPlane_Ok. cbn [mbind result_bind].
    destruct (GetCoordinate p direction =? coordinate) eqn:Hpl; cbn [negb orb];
      [|apply Hskip; intros _ Hin; unfold in_plane in Hin;
        apply Z.eqb_neq in Hpl; done].
    apply Z.eqb_eq in Hpl.
    destruct (decide (p ∈ used)) as [Hp|Hp].
    { rewrite (bool_decide_eq_true_2 _ Hp). apply Hskip. by intros. }
    rewrite (bool_decide_eq_false_2 _ Hp).
    assert (Hpa : annotated_image_ !! p = Some a) by (apply Hent; by left).
    assert (Hpe : eligible p) by (split; [done|by eexists]).
    assert (Hd : distance a = annotated_distance p).
    { unfold annotated_distance. by rewrite Hpa. }
    rewrite Hd.
    destruct (ComputeBoundedCenter_spec fuel used p Hpe)
      as (v & used' & E & Hmono & Hpin & Hve & Hvc & Hvp & Hnew & Hclosed).
    { pose proof (subseteq_size (dom annotated_image_ ∖ used) (dom annotated_image_)
                    ltac:(apply subseteq_difference_l; done)). lia. }
    rewrite E. cbn [mbind result_bind].
    destruct (IH Hent' used' (out ++ [v])) as (out' & E' & Hok & Hcov).
    { split.
      - intros q n Hq Hstep. destruct (decide (q ∈ used)) as [Hq0|Hq0].
        + apply Hmono. by eapply (pi_closed _ _ Hinv).
        + by eapply Hclosed.
      - intros q Hq. destruct (decide (q ∈ used)) as [Hq0|Hq0].
        + destruct (pi_covered _ _ Hinv q Hq0) as (v0 & s0 & Hv0 & H1 & H2 & H3).
          exists v0, s0. split; [|done]. apply elem_of_app. by left.
        + destruct (Hnew q Hq Hq0) as [Hc Hle].
          exists v, p. split; [|done].
          apply elem_of_app. right. by apply list_elem_of_singleton.
      - intros v0 Hv0. apply elem_of_app in Hv0 as [Hv0|Hv0].
        + by apply (pi_out _ _ Hinv).
        + apply list_elem_of_singleton in Hv0. subst v0.
          split; [done|]. split; [|done].
          by eapply plane_connected_in_plane. }
    exists out'. split; [done|]. split; [done|].
    intros q [Hq|[[a0 Ha0] [Hobj0 Hpl0]]].
    + apply Hcov. left. by apply Hmono.
    + apply elem_of_cons in Ha0 as [[= -> ->]|Ha0].
      * apply Hcov. by left.
      * apply Hcov. right. split; [by exists a0|done].
Qed.

Lemma GetPoints_spec (fuel : nat) (entries : list (Voxel * Annotation)) :
  (1 + 8 * size (dom annotated_image_) <= fuel)%nat ->
  entries ≡ₚ map_to_list annotated_image_ ->
  exists out,
    GetPoints fuel image_ annotated_image_ entries direction coordinate = Ok out /\
    (forall v, v ∈ out -> centre_ok v) /\
    (forall q, eligible q -> in_plane q -> covered out q).
Proof.
  intros Hfuel Hperm.
  assert (Hent : forall p a, (p, a) ∈ entries <-> annotated_image_ !! p = Some a).
  { intros p a. rewrite Hperm. apply elem_of_map_to_list. }
  destruct (points_loop_spec fuel entries Hfuel (fun p a => proj1 (Hent p a)) ∅ [])
    as (out & E & Hok & Hcov).
  - split.
    + intros q n Hq. by apply elem_of_empty in Hq.
    + intros q Hq. by apply elem_of_empty in Hq.
    + intros v Hv. by apply elem_of_nil in Hv.
  - exists out. split; [done|]. split; [done|].
    intros q [Hobj [a Ha]] Hpl. apply Hcov. right.
    split; [|done]. exists a. by apply Hent.
Qed.

End DiscovererProofs.

(** Two annotated pore voxels of [Examples.line_img], at squared distances
    1 and 4 from the solid voxel (0,0,0). *)
Definition pore_annotations : AnnotatedImage :=
  <[mkVoxel 1 0 0 := mkAnnotation 1 (1, 0, 0) 1 1 1 removed (mkVoxel 0 0 0)]>
    (<[mkVoxel 2 0 0 := mkAnnotation 4 (2, 0, 0) 1 1 2 removed (mkVoxel 0 0 0)]> ∅).

(** X24.  [GetPoints] returns, and every vertex it returns is an annotated
    object point of the plane [coordinate] of the axis [direction], with the
    annotated distance as its property value.  [entries] is the order in
    which the annotated image yields its entries; the search of one pore
    needs at most one step for its start and eight for every annotated
    point. *)
Theorem GetPoints_returns_centres_of_the_plane
    (image_ : TernaryImage) (annotated_image_ : AnnotatedImage)
    (entries : list (Voxel * Annotation)) (direction : nat) (coordinate : Z)
    (fuel : nat) :
  (direction < 3)%nat -> 0 <= coordinate < 65536 ->
  entries ≡ₚ map_to_list annotated_image_ ->
  (1 + 8 * size (dom annotated_image_) <= fuel)%nat ->
  exists out,
    Discoverer.GetPoints fuel image_ annotated_image_ entries direction coordinate
    = Ok out /\
    forall v, v ∈ out ->
      IsObjectPoint image_ (Graph.Point v) = true /\
      GetCoordinate (Graph.Point v) direction = coordinate /\
      exists a, annotated_image_ !! Graph.Point v = Some a /\
                Graph.PropertyValue v = Z_to_double (distance a).
Proof.
  intros Hd Hc Hperm Hfuel.
  destruct (GetPoints_spec image_ annotated_image_ direction coordinate Hd Hc
              fuel entries Hfuel Hperm) as (out & E & Hok & _).
  exists out. split; [done|]. intros v Hv.
  destruct (Hok v Hv) as ([Hobj [a Ha]] & Hpl & Hp).
  split; [done|]. split; [done|]. exists a. split; [done|].
  rewrite Hp. unfold annotated_distance. by rewrite Ha.
Qed.

Lemma GetPoints_returns_centres_of_the_plane_witness :
  exists out,
    Discoverer.GetPoints 17 Examples.line_img pore_annotations
      (map_to_list pore_annotations) 1 0 = Ok out /\
    forall v, v ∈ out ->
      IsObjectPoint Examples.line_img (Graph.Point v) = true /\
      GetCoordinate (Graph.Point v) 1 = 0 /\
      exists a, pore_annotations !! Graph.Point v = Some a /\
                Graph.PropertyValue v = Z_to_double (distance a).
Proof.
  apply (GetPoints_returns_centres_of_the_plane Examples.line_img pore_annotations).
  - lia.
  - lia.
  - reflexivity.
  - by vm_compute.
Defined.

(** X25.  Every annotated object point of the plane is accounted for by one
    of the vertices [GetPoints] returns: a search that reaches the point also
    reaches that vertex, and the annotated distance of the vertex is not less
    than the one of the point. *)
Theorem every_point_of_the_plane_has_a_centre
    (image_ : TernaryImage) (annotated_image_ : AnnotatedImage)
    (entries : list (Voxel * Annotation)) (direction : nat) (coordinate : Z)
    (fuel : nat) :
  (direction < 3)%nat -> 0 <= coordinate < 65536 ->
  entries ≡ₚ map_to_list annotated_image_ ->
  (1 + 8 * size (dom annotated_image_) <= fuel)%nat ->
  exists out,
    Discoverer.GetPoints fuel image_ annotated_image_ entries direction coordinate
    = Ok out /\
    forall p a, annotated_image_ !! p = Some a -> IsObjectPoint image_ p = true ->
      GetCoordinate p direction = coordinate ->
      exists v a_v s, v ∈ out /\ annotated_image_ !! Graph.Point v = Some a_v /\
        distance a <= distance a_v /\
        plane_connected image_ annotated_image_ direction s p /\
        plane_connected image_ annotated_image_ direction s (Graph.Point v).
Proof.
  intros Hd Hc Hperm Hfuel.
  destruct (GetPoints_spec image_ annotated_image_ direction coordinate Hd Hc
              fuel entries Hfuel Hperm) as (out & E & Hok & Hcov).
  exists out. split; [done|]. intros p a Ha Hobj Hpl.
  destruct (Hcov p) as (v & s & Hv & H1 & H2 & H3); [by split; [|eexists]|done|].
  destruct (Hok v Hv) as ([_ [a_v Hav]] & _).
  exists v, a_v, s. split; [done|]. split; [done|]. split; [|done].
  unfold annotated_distance in H3. by rewrite Ha, Hav in H3.
Qed.

Lemma every_point_of_the_plane_has_a_centre_witness :
  exists out,
    Discoverer.GetPoints 17 Examples.line_img pore_annotations
      (map_to_list pore_annotations) 1 0 = Ok out /\
    forall p a, pore_annotations !! p = Some a ->
      IsObjectPoint Examples.line_img p = true -> GetCoordinate p 1 = 0 ->
      exists v a_v s, v ∈ out /\ pore_annotations !! Graph.Point v = Some a_v /\
        distance a <= distance a_v /\
        plane_connected Examples.line_img pore_annotations 1 s p /\
        plane_connected Examples.line_img pore_annotations 1 s (Graph.Point v).
Proof.
  apply (every_point_of_the_plane_has_a_centre Examples.line_img pore_annotations).
  - lia.
  - lia.
  - reflexivity.
  - by vm_compute.
Defined.

(** *** The end points of the centerlines (centerline_calculator.h) *)

Section EndPointProofs.
Import Graph Discoverer.
Variable sizes_ : Z * Z * Z.
Variable discoverer_GetPoints : nat -> Z -> result (list Vertex).

Lemma source_points_from_spec (coords : list nat) :
  (forall c, c ∈ coords -> is_ok (discoverer_GetPoints c 0) = true) ->
  forall out, exists res,
    source_points_from discoverer_GetPoints coords out = Ok res /\
    forall v, v ∈ res <->
      v ∈ out \/ exists c pts, c ∈ coords /\ discoverer_GetPoints c 0 = Ok pts /\ v ∈ pts.
Proof.
  induction coords as [|c coords IH]; intros Hget out.
  - exists out. split; [done|]. intros v. split; [by left|].
    intros [|(c & pts & Hc & _)]; [done|by apply elem_of_nil in Hc].
  - cbn [source_points_from].
    destruct (discoverer_GetPoints c 0) as [pts|f] eqn:E.
    2:{ specialize (Hget c ltac:(by left)). by rewrite E in Hget. }
    cbn [mbind result_bind].
    destruct (IH (fun c' H => Hget c' ltac:(by right)) (out ++ pts)) as (res & Er & Hres).
    exists res. split; [done|]. intros v. rewrite Hres, elem_of_app. split.
    + intros [[|Hv]|(c' & pts' & Hc' & E' & Hv)]; [by left| |].
      * right. exists c, pts. split; [by left|done].
      * right. exists c', pts'. split; [by right|done].
    + intros [|(c' & pts' & Hc' & E' & Hv)]; [by left; left|].
      apply elem_of_cons in Hc' as [->|Hc'].
      * rewrite E in E'. injection E' as <-. left. by right.
      * right. by exists c', pts'.
Qed.

Lemma end_points_from_spec (coords : list nat) :
  (forall c, c ∈ coords ->
     is_ok (discoverer_GetPoints c 0) = true /\
     exists size, sizes_at sizes_ c = Ok size /\
       is_ok (discoverer_GetPoints c (uint16 (size - 1))) = true) ->
  forall out, exists res,
    end_points_from sizes_ discoverer_GetPoints coords out = Ok res /\
    forall v, v ∈ res <->
      v ∈ out \/
      exists c size pts, c ∈ coords /\ sizes_at sizes_ c = Ok size /\
        (discoverer_GetPoints c 0 = Ok pts \/
         discoverer_GetPoints c (uint16 (size - 1)) = Ok pts) /\ v ∈ pts.
Proof.
  induction coords as [|c coords IH]; intros Hget out.
  - exists out. split; [done|]. intros v. split; [by left|].
    intros [|(c & size & pts & Hc & _)]; [done|by apply elem_of_nil in Hc].
  - cbn [end_points_from].
    destruct (Hget c ltac:(by left)) as (Hok & size & Es & Hok2).
    destruct (discoverer_GetPoints c 0) as [pts|f] eqn:E; [|done].
    cbn [mbind result_bind]. rewrite Es. cbn [mbind result_bind].
    destruct (discoverer_GetPoints c (uint16 (size - 1))) as [pts2|f] eqn:E2; [|done].
    cbn [mbind result_bind].
    destruct (IH (fun c' H => Hget c' ltac:(by right)) ((out ++ pts) ++ pts2))
      as (res & Er & Hres).
    exists res. split; [done|]. intros v. rewrite Hres, !elem_of_app. split.
    + intros [[[|Hv]|Hv]|(c' & size' & pts' & Hc' & Es' & E' & Hv)]; [by left| | |].
      * right. exists c, size, pts. split; [by left|]. split; [done|]. by split; [left|].
      * right. exists c, size, pts2. split; [by left|]. split; [done|]. by split; [right|].
      * right. exists c', size', pts'. split; [by right|done].
    + intros [|(c' & size' & pts' & Hc' & Es' & E' & Hv)]; [by left; left; left|].
      apply elem_of_cons in Hc' as [->|Hc'].
      * rewrite Es in Es'. injection Es' as <-.
        destruct E' as [E'|E'].
        -- rewrite E in E'. injection E' as <-. left. left. by right.
        -- rewrite E2 in E'. injection E' as <-. left. by right.
      * right. by exists c', size', pts'.
Qed.

End EndPointProofs.

(** X26.  With the centre-point discoverer, [GetSourcePoints] and
    [GetEndPoints] return.  Every source point is also an end point and has
    coordinate 0 on one of the axes; every end point is an annotated object
    point that has, on one of the axes, coordinate 0 or the last coordinate
    of the image. *)
Theorem end_points_lie_on_faces
    (image_ : TernaryImage) (annotated_image_ : AnnotatedImage)
    (entries : list (Voxel * Annotation)) (sizes_ : Z * Z * Z)
    (num_coords fuel : nat) :
  (num_coords <= 3)%nat ->
  entries ≡ₚ map_to_list annotated_image_ ->
  (1 + 8 * size (dom annotated_image_) <= fuel)%nat ->
  exists sources ends,
    Discoverer.GetSourcePoints
      (Discoverer.GetPoints fuel image_ annotated_image_ entries) num_coords
    = Ok sources /\
    Discoverer.GetEndPoints sizes_
      (Discoverer.GetPoints fuel image_ annotated_image_ entries) num_coords
    = Ok ends /\
    (forall v, v ∈ sources ->
       v ∈ ends /\
       exists c, (c < num_coords)%nat /\ GetCoordinate (Graph.Point v) c = 0) /\
    (forall v, v ∈ ends ->
       IsObjectPoint image_ (Graph.Point v) = true /\
       is_Some (annotated_image_ !! Graph.Point v) /\
       exists c size, (c < num_coords)%nat /\ Discoverer.sizes_at sizes_ c = Ok size /\
         (GetCoordinate (Graph.Point v) c = 0 \/
          GetCoordinate (Graph.Point v) c = uint16 (size - 1))).
Proof.
  intros Hn Hperm Hfuel.
  assert (Hget : forall c coord, (c < 3)%nat -> 0 <= coord < 65536 ->
            exists out,
              Discoverer.GetPoints fuel image_ annotated_image_ entries c coord = Ok out /\
              forall v, v ∈ out ->
                centre_ok image_ annotated_image_ c coord v).
  { intros c coord Hc Hr.
    destruct (GetPoints_spec image_ annotated_image_ c coord Hc Hr fuel entries
                Hfuel Hperm) as (out & E & Hok & _). by exists out. }
  assert (Hu : forall z, 0 <= uint16 z < 65536).
  { intros z. unfold uint16. apply Z.mod_pos_bound. lia. }
  assert (Hseq : forall c, c ∈ seq 0 num_coords -> (c < num_coords)%nat).
  { intros c Hc. apply elem_of_seq in Hc. lia. }
  destruct (source_points_from_spec
              (Discoverer.GetPoints fuel image_ annotated_image_ entries)
              (seq 0 num_coords)) with (out := @nil Graph.Vertex)
    as (sources & Es & Hs).
  { intros c Hc. apply Hseq in Hc.
    destruct (Hget c 0 ltac:(lia) ltac:(lia)) as (out & E & _). by rewrite E. }
  assert (Hsizes : forall c, (c < 3)%nat ->
            exists size, Discoverer.sizes_at sizes_ c = Ok size).
  { intros c Hc. destruct c as [|[|[|c]]]; [by eexists..|lia]. }
  destruct (end_points_from_spec sizes_
              (Discoverer.GetPoints fuel image_ annotated_image_ entries)
              (seq 0 num_coords)) with (out := @nil Graph.Vertex)
    as (ends & Ee & He).
  { intros c Hc. apply Hseq in Hc.
    destruct (Hget c 0 ltac:(lia) ltac:(lia)) as (out & E & _). rewrite E.
    split; [done|]. destruct (Hsizes c ltac:(lia)) as [size Esz].
    exists size. split; [done|].
    destruct (Hget c (uint16 (size - 1)) ltac:(lia) (Hu _)) as (out2 & E2 & _).
    by rewrite E2. }
  exists sources, ends. split; [done|]. split; [done|]. split.
  - intros v Hv. apply Hs in Hv as [Hv|(c & pts & Hc & E & Hv)];
      [by apply elem_of_nil in Hv|].
    pose proof (Hseq c Hc) as Hlt.
    destruct (Hsizes c ltac:(lia)) as [size Esz]. split.
    + apply He. right. exists c, size, pts. split; [done|]. split; [done|].
      by split; [left|].
    + exists c. split; [done|].
      destruct (Hget c 0 ltac:(lia) ltac:(lia)) as (out & E' & Hok).
      rewrite E in E'. injection E' as <-. by destruct (Hok v Hv) as (_ & Hpl & _).
  - intros v Hv. apply He in Hv as [Hv|(c & size & pts & Hc & Esz & E & Hv)];
      [by apply elem_of_nil in Hv|].
    pose proof (Hseq c Hc) as Hlt.
    destruct E as [E|E].
    + destruct (Hget c 0 ltac:(lia) ltac:(lia)) as (out & E' & Hok).
      rewrite E in E'. injection E' as <-.
      destruct (Hok v Hv) as ([Hobj Hann] & Hpl & _).
      split; [done|]. split; [done|]. exists c, size. split; [done|]. split; [done|].
      by left.
    + destruct (Hget c (uint16 (size - 1)) ltac:(lia) (Hu _)) as (out & E' & Hok).
      rewrite E in E'. injection E' as <-.
      destruct (Hok v Hv) as ([Hobj Hann] & Hpl & _).
      split; [done|]. split; [done|]. exists c, size. split; [done|]. split; [done|].
      by right.
Qed.

Lemma end_points_lie_on_faces_witness :
  exists sources ends,
    Discoverer.GetSourcePoints
      (Discoverer.GetPoints 17 Examples.line_img pore_annotations
         (map_to_list pore_annotations)) 3 = Ok sources /\
    Discoverer.GetEndPoints (3, 1, 1)
      (Discoverer.GetPoints 17 Examples.line_img pore_annotations
         (map_to_list pore_annotations)) 3 = Ok ends /\
    (forall v, v ∈ sources ->
       v ∈ ends /\ exists c, (c < 3)%nat /\ GetCoordinate (Graph.Point v) c = 0) /\
    (forall v, v ∈ ends ->
       IsObjectPoint Examples.line_img (Graph.Point v) = true /\
       is_Some (pore_annotations !! Graph.Point v) /\
       exists c size, (c < 3)%nat /\ Discoverer.sizes_at (3, 1, 1) c = Ok size /\
         (GetCoordinate (Graph.Point v) c = 0 \/
          GetCoordinate (Graph.Point v) c = uint16 (size - 1))).
Proof.
  apply (end_points_lie_on_faces Examples.line_img pore_annotations).
  - lia.
  - reflexivity.
  - by vm_compute.
Defined.
(** ** The segments of a new centerline (centerline_set.h, [GetSegments]) *)

Section SegmentProofs.
Import Graph Centerlines Segments.

Variable annotated_graph_at : Vertex -> result VertexAnnotation.
Variable used0 : gset Voxel.
Variable branch0 : gset Voxel.

(** The chain of predecessors from a vertex to the source of the router. *)
Inductive chain : Vertex -> list (Vertex * VertexAnnotation) -> Prop :=
| chain_source (p : Vertex) (a : VertexAnnotation) :
    annotated_graph_at p = Ok a -> has_predecessor_ a = false -> chain p [(p, a)]
| chain_link (p : Vertex) (a : VertexAnnotation) (rest : list (Vertex * VertexAnnotation)) :
    annotated_graph_at p = Ok a -> has_predecessor_ a = true ->
    chain (predecessor_ a) rest -> chain p ((p, a) :: rest).

(** The centerline node of a chain entry, and the voxels of a chain. *)
Definition node_of (pa : Vertex * VertexAnnotation) : CenterLineNode :=
  mkNode pa.1 (distance_ pa.2).

Definition points_of (ch : list (Vertex * VertexAnnotation)) : list Voxel :=
  (fun pa => Point pa.1) <$> ch.

(** [piece_of seg l]: [seg] is a run of consecutive elements of [l]. *)
Definition piece_of {A} (seg l : list A) : Prop :=
  exists l1 l2, l = l1 ++ seg ++ l2.

Lemma piece_of_snoc {A} (seg l : list A) (x : A) :
  piece_of seg l -> piece_of seg (l ++ [x]).
Proof.
  intros (l1 & l2 & ->). exists l1, (l2 ++ [x]). by rewrite <- !app_assoc.
Qed.

Lemma piece_of_app {A} (seg l k : list A) :
  piece_of seg l -> piece_of seg (l ++ k).
Proof.
  intros (l1 & l2 & ->). exists l1, (l2 ++ k). by rewrite <- !app_assoc.
Qed.

Lemma suffix_piece_of {A} (seg l : list A) : seg `suffix_of` l -> piece_of seg l.
Proof. intros [k ->]. exists k, []. by rewrite app_nil_r. Qed.

(** What holds of the builder and of the finished centerlines when the
    entries [done] of the chain have been handled. *)
Record seg_inv (done : list (Vertex * VertexAnnotation)) (builder : Centerline)
    (centerlines : list Centerline) (is_building : bool) : Prop := {
  si_builder : builder `suffix_of` (node_of <$> done);
  si_building : builder <> [] -> is_building = true;
  si_idle : is_building = false ->
            exists d pa, done = d ++ [pa] /\
              (NoDup (points_of done) -> Point pa.1 ∈ used0);
  si_pieces : forall seg, seg ∈ centerlines ->
                seg <> [] /\ piece_of seg (node_of <$> done);
  si_covered : NoDup (points_of done) ->
               forall pa, pa ∈ done -> Point pa.1 ∉ used0 ->
                 node_of pa ∈ builder \/ exists seg, seg ∈ centerlines /\ node_of pa ∈ seg
}.

Lemma points_of_snoc (done : list (Vertex * VertexAnnotation)) (pa : Vertex * VertexAnnotation) :
  points_of (done ++ [pa]) = points_of done ++ [Point pa.1].
Proof. unfold points_of. by rewrite fmap_app. Qed.

Lemma NoDup_snoc_inv (l : list Voxel) (x : Voxel) :
  NoDup (l ++ [x]) -> NoDup l /\ x ∉ l.
Proof.
  intros H. apply NoDup_app in H as (H1 & H2 & _). split; [done|].
  intros Hx. apply (H2 x Hx). by apply list_elem_of_singleton.
Qed.

(** One call of [HandleNewNode], on the chain entry that follows [done]. *)
Lemma HandleNewNode_inv (done : list (Vertex * VertexAnnotation))
    (builder : Centerline) (centerlines : list Centerline) (is_building : bool)
    (used : gset Voxel) (p prev_point : Vertex) (a prev_annotation : VertexAnnotation) :
  seg_inv done builder centerlines is_building ->
  (forall x, x ∈ used <-> x ∈ points_of done \/ x ∈ used0) ->
  (forall d pa, done = d ++ [pa] -> pa = (prev_point, prev_annotation)) ->
  let h := HandleNewNode used builder centerlines p a prev_point prev_annotation
                         is_building in
  seg_inv (done ++ [(p, a)]) (h_builder h) (h_centerlines h) (h_is_building h) /\
  (h_result h = true -> h_builder h <> []) /\
  (h_result h = false -> h_builder h = [] /\ Point p ∈ used) /\
  (h_add_prev h = true ->
     exists d, done = d ++ [(prev_point, prev_annotation)] /\
       (NoDup (points_of done) -> Point prev_point ∈ used0)).
Proof.
  intros [H1 H2 H3 H4 H5] Hused Hprev. unfold HandleNewNode, IsNotUsed.
  assert (Hmono : forall seg, piece_of seg (node_of <$> done) ->
                    piece_of seg (node_of <$> (done ++ [(p, a)]))).
  { intros seg H. rewrite fmap_app. by apply piece_of_app. }
  destruct (decide (Point p ∉ used)) as [Hp|Hp].
  - rewrite (bool_decide_eq_true_2 _ Hp).
    assert (Hp0 : Point p ∉ used0) by (intros H; apply Hp, Hused; by right).
    destruct is_building; cbn [negb h_builder h_centerlines h_is_building h_result
                                    h_add_prev].
    + split; [|split; [|split]].
      * split.
        -- rewrite fmap_app. by apply suffix_app.
        -- done.
        -- done.
        -- intros seg Hseg. destruct (H4 seg Hseg). split; [done|by apply Hmono].
        -- intros Hnd pa Hpa Hpa0. rewrite points_of_snoc in Hnd.
           apply NoDup_snoc_inv in Hnd as [Hnd _].
           apply elem_of_app in Hpa as [Hpa|Hpa].
           ++ destruct (H5 Hnd pa Hpa Hpa0) as [Hb|Hs]; [left|by right].
              apply elem_of_app. by left.
           ++ apply list_elem_of_singleton in Hpa. subst pa. left.
              apply elem_of_app. right. by apply list_elem_of_singleton.
      * intros _. by destruct builder.
      * done.
      * done.
    + destruct (H3 eq_refl) as (d & pa & Hd & Hpa).
      pose proof (Hprev d pa Hd) as ->.
      assert (Hb : builder = []).
      { destruct builder as [|x b]; [done|]. by specialize (H2 ltac:(done)). }
      subst builder. split; [|split; [|split]].
      * split.
        -- rewrite Hd, !fmap_app. cbn [fmap list_fmap app].
           exists (node_of <$> d). by rewrite <- app_assoc.
        -- done.
        -- done.
        -- intros seg Hseg. destruct (H4 seg Hseg). split; [done|by apply Hmono].
        -- intros Hnd pa Hpa' Hpa0. rewrite points_of_snoc in Hnd.
           apply NoDup_snoc_inv in Hnd as [Hnd _].
           apply elem_of_app in Hpa' as [Hpa'|Hpa'].
           ++ destruct (H5 Hnd pa Hpa' Hpa0) as [Hb|Hs]; [|by right].
              by apply elem_of_nil in Hb.
           ++ apply list_elem_of_singleton in Hpa'. subst pa. left.
              apply elem_of_app. right. by apply list_elem_of_singleton.
      * done.
      * done.
      * intros _. by exists d.
  - rewrite (bool_decide_eq_false_2 _ Hp).
    assert (Hpu : Point p ∈ used) by (by apply dec_stable).
    assert (Hidle : exists d pa, done ++ [(p, a)] = d ++ [pa] /\
              (NoDup (points_of (done ++ [(p, a)])) -> Point pa.1 ∈ used0)).
    { exists done, (p, a). split; [done|]. intros Hnd.
      rewrite points_of_snoc in Hnd. apply NoDup_snoc_inv in Hnd as [_ Hnot].
      apply Hused in Hpu as [Hpu|Hpu]; [done|exact Hpu]. }
    assert (Hcov : forall (cs : list Centerline) (b : Centerline),
              (forall pa, node_of pa ∈ builder -> exists seg, seg ∈ cs /\ node_of pa ∈ seg) ->
              (forall seg, seg ∈ centerlines -> seg ∈ cs) ->
              NoDup (points_of (done ++ [(p, a)])) ->
              forall pa, pa ∈ done ++ [(p, a)] -> Point pa.1 ∉ used0 ->
                node_of pa ∈ b \/ exists seg, seg ∈ cs /\ node_of pa ∈ seg).
    { intros cs b Hb Hcs Hnd pa Hpa Hpa0. rewrite points_of_snoc in Hnd.
      apply NoDup_snoc_inv in Hnd as [Hnd Hnot]. right.
      apply elem_of_app in Hpa as [Hpa|Hpa].
      - destruct (H5 Hnd pa Hpa Hpa0) as [Hin|(seg & Hseg & Hin)]; [by apply Hb|].
        exists seg. split; [by apply Hcs|done].
      - apply list_elem_of_singleton in Hpa. subst pa. destruct Hpa0.
        apply Hused in Hpu as [Hpu|Hpu]; [done|exact Hpu]. }
    destruct builder as [|x b]; cbn [HasNodes].
    + cbn [h_builder h_centerlines h_is_building h_result h_add_prev].
      split; [|split; [|split]]; try done.
      split; try done.
      * apply suffix_nil.
      * intros seg Hseg. destruct (H4 seg Hseg). split; [done|by apply Hmono].
      * apply Hcov; [|done]. intros pa Hpa. by apply elem_of_nil in Hpa.
    + specialize (H2 ltac:(done)). subst is_building.
      cbn [h_builder h_centerlines h_is_building h_result h_add_prev].
      split; [|split; [|split]]; try done.
      split; try done.
      * apply suffix_nil.
      * intros seg Hseg. apply elem_of_app in Hseg as [Hseg|Hseg].
        -- destruct (H4 seg Hseg). split; [done|by apply Hmono].
        -- apply list_elem_of_singleton in Hseg. subst seg. split; [done|].
           apply suffix_piece_of. rewrite fmap_app. by apply suffix_app.
      * apply Hcov.
        -- intros pa Hpa. exists ((x :: b) ++ [mkNode p (distance_ a)]).
           split; [apply elem_of_app; right; by apply list_elem_of_singleton|].
           apply elem_of_app. by left.
        -- intros seg Hseg. apply elem_of_app. by left.
Qed.

Lemma chain_head (p : Vertex) (ch : list (Vertex * VertexAnnotation)) :
  chain p ch -> exists a rest, ch = (p, a) :: rest /\ annotated_graph_at p = Ok a.
Proof. intros H. destruct H; eauto. Qed.

Lemma segments_loop_eq (fuel : nat) (w : walk) :
  has_predecessor_ (w_annotation w) = false ->
  segments_loop annotated_graph_at fuel w = Ok w.
Proof. intros H. destruct fuel; simpl; by rewrite H. Qed.

(** What holds of the two sets when the entries [done] have been handled. *)
Record sets_inv (done : list (Vertex * VertexAnnotation)) (used branch : gset Voxel)
  : Prop := {
  ss_used : forall x, x ∈ used <-> x ∈ points_of done \/ x ∈ used0;
  ss_branch_mono : branch0 ⊆ branch;
  ss_branch : forall x, x ∈ branch -> x ∈ branch0 \/ x ∈ points_of done;
  ss_branch_used : NoDup (points_of done) ->
                   forall x, x ∈ branch -> x ∈ branch0 \/ x ∈ used0
}.

(** The sets after one more entry: [MarkUsed(point)] and the two calls of
    [MarkAsBranch]. *)
Lemma sets_inv_step (done : list (Vertex * VertexAnnotation)) (used branch : gset Voxel)
    (p prev_point : Vertex) (a prev_annotation : VertexAnnotation)
    (mark_point mark_prev : bool) :
  sets_inv done used branch ->
  (mark_point = true -> Point p ∈ used) ->
  (mark_prev = true ->
     exists d, done = d ++ [(prev_point, prev_annotation)] /\
       (NoDup (points_of done) -> Point prev_point ∈ used0)) ->
  sets_inv (done ++ [(p, a)]) ({[Point p]} ∪ used)
    (if mark_prev
     then {[Point prev_point]} ∪ (if mark_point then {[Point p]} ∪ branch else branch)
     else (if mark_point then {[Point p]} ∪ branch else branch)).
Proof.
  intros [H1 H2 H3 H4] Hpoint Hprev.
  assert (Hb : forall x,
            x ∈ (if mark_prev
                 then {[Point prev_point]} ∪
                      (if mark_point then {[Point p]} ∪ branch else branch)
                 else (if mark_point then {[Point p]} ∪ branch else branch)) ->
            x ∈ branch \/ (mark_point = true /\ x = Point p) \/
            (mark_prev = true /\ x = Point prev_point)).
  { intros x. destruct mark_prev, mark_point;
      rewrite ?elem_of_union, ?elem_of_singleton; intros H; tauto. }
  split.
  - intros x. rewrite points_of_snoc, elem_of_union, elem_of_singleton, elem_of_app,
      list_elem_of_singleton, H1. simpl. tauto.
  - intros x Hx. apply H2 in Hx.
    destruct mark_prev, mark_point; rewrite ?elem_of_union; tauto.
  - intros x Hx. rewrite points_of_snoc, elem_of_app, list_elem_of_singleton. simpl.
    destruct (Hb x Hx) as [Hx'|[[_ ->]|[Hm ->]]].
    + destruct (H3 x Hx'); tauto.
    + tauto.
    + destruct (Hprev Hm) as (d & -> & _). right. left.
      rewrite points_of_snoc. apply elem_of_app. right. by apply list_elem_of_singleton.
  - intros Hnd x Hx. rewrite points_of_snoc in Hnd.
    apply NoDup_snoc_inv in Hnd as [Hnd Hnot].
    destruct (Hb x Hx) as [Hx'|[[Hm ->]|[Hm ->]]].
    + by apply H4.
    + right. apply Hpoint in Hm. apply H1 in Hm as [Hm|Hm]; [done|exact Hm].
    + right. destruct (Hprev Hm) as (d & _ & Hin). by apply Hin.
Qed.

(** The loop of [GetSegments] walks the chain up to its last entry. *)
Lemma segments_loop_spec (p : Vertex) (todo : list (Vertex * VertexAnnotation)) :
  chain p todo ->
  forall (fuel : nat) (w : walk) (done : list (Vertex * VertexAnnotation)),
  w_point w = p ->
  annotated_graph_at p = Ok (w_annotation w) ->
  seg_inv done (w_builder w) (w_centerlines w) (w_is_building w) ->
  sets_inv done (w_used_nodes_ w) (w_branch_nodes_ w) ->
  (forall d pa, done = d ++ [pa] -> pa = (w_prev_point w, w_prev_annotation w)) ->
  (length todo <= S fuel)%nat ->
  exists w' mid,
    segments_loop annotated_graph_at fuel w = Ok w' /\
    todo = mid ++ [(w_point w', w_annotation w')] /\
    has_predecessor_ (w_annotation w') = false /\
    seg_inv (done ++ mid) (w_builder w') (w_centerlines w') (w_is_building w') /\
    sets_inv (done ++ mid) (w_used_nodes_ w') (w_branch_nodes_ w') /\
    (forall d pa, done ++ mid = d ++ [pa] ->
       pa = (w_prev_point w', w_prev_annotation w')).
Proof.
  induction 1 as [p a Hat Hpred|p a rest Hat Hpred Hch IH];
    intros fuel w done Hp Ha Hseg Hsets Hprev Hfuel.
  - rewrite Hat in Ha. injection Ha as Ha. symmetry in Ha.
    exists w, []. rewrite segments_loop_eq by (by rewrite Ha).
    rewrite app_nil_r, Hp, Ha. split; [done|]. split; [done|]. split; [done|].
    split; [done|]. by split.
  - rewrite Hat in Ha. injection Ha as Ha. symmetry in Ha.
    destruct (chain_head _ _ Hch) as (a' & rest' & Hrest & Hat').
    destruct fuel as [|fuel]; [subst rest; simpl in Hfuel; lia|].
    cbn [segments_loop]. rewrite Ha, Hpred, Hp, Hat'. cbn [mbind result_bind].
    destruct (HandleNewNode_inv done (w_builder w) (w_centerlines w) (w_is_building w)
                (w_used_nodes_ w) p (w_prev_point w) a (w_prev_annotation w)
                Hseg (ss_used _ _ _ Hsets) Hprev) as (Hseg' & _ & Hfalse & Hadd).
    set (h := HandleNewNode (w_used_nodes_ w) (w_builder w) (w_centerlines w) p a
                (w_prev_point w) (w_prev_annotation w) (w_is_building w)) in *.
    destruct (IH fuel
                (mkWalk (h_builder h) (h_centerlines h) (predecessor_ a) p a' a false
                   (h_is_building h) ({[Point p]} ∪ w_used_nodes_ w)
                   (if h_add_prev h
                    then {[Point (w_prev_point w)]} ∪
                         (if negb (h_result h)
                             && (w_is_building w && negb (h_is_building h)
                                 && negb (w_is_end_point w))
                          then {[Point p]} ∪ w_branch_nodes_ w else w_branch_nodes_ w)
                    else (if negb (h_result h)
                             && (w_is_building w && negb (h_is_building h)
                                 && negb (w_is_end_point w))
                          then {[Point p]} ∪ w_branch_nodes_ w else w_branch_nodes_ w)))
                (done ++ [(p, a)]))
      as (w' & mid & E & Hmid & Hlast & Hseg2 & Hsets2 & Hprev2).
    + done.
    + done.
    + exact Hseg'.
    + cbn [w_used_nodes_ w_branch_nodes_].
      apply (sets_inv_step done _ _ p (w_prev_point w) a (w_prev_annotation w));
        [done| |done].
      intros Hm. apply andb_true_iff in Hm as [Hm _]. apply negb_true_iff in Hm.
      by apply Hfalse.
    + cbn [w_prev_point w_prev_annotation]. intros d pa Hd.
      by apply app_inj_tail in Hd as [_ <-].
    + simpl in Hfuel. lia.
    + exists w', ((p, a) :: mid). split; [exact E|]. split; [by rewrite Hmid|].
      split; [done|]. rewrite <- app_assoc in Hseg2, Hsets2, Hprev2.
      cbn [app] in Hseg2, Hsets2, Hprev2.
      split; [exact Hseg2|]. split; [exact Hsets2|exact Hprev2].
Qed.

(** [GetSegments] on a vertex whose chain of predecessors is [ch]. *)
Lemma GetSegments_spec (fuel : nat) (end_point : Vertex)
    (ch : list (Vertex * VertexAnnotation)) :
  chain end_point ch -> (length ch <= S fuel)%nat ->
  exists segs used' branch',
    GetSegments annotated_graph_at fuel used0 branch0 end_point
    = Ok (segs, used', branch') /\
    sets_inv ch used' branch' /\
    (forall seg, seg ∈ segs -> seg <> [] /\ piece_of seg (node_of <$> ch)) /\
    (NoDup (points_of ch) -> forall pa, pa ∈ ch -> Point pa.1 ∉ used0 ->
       exists seg, seg ∈ segs /\ node_of pa ∈ seg).
Proof.
  intros Hch Hfuel. unfold GetSegments.
  destruct (chain_head _ _ Hch) as (a & rest & Hrest & Hat).
  rewrite Hat. cbn [mbind result_bind].
  destruct (segments_loop_spec end_point ch Hch fuel
              (mkWalk [] [] end_point end_point a a true true used0 branch0) [])
    as (w & mid & E & Hmid & Hlast & Hseg & Hsets & Hprev); try done.
  { split; try done.
    - intros seg Hs. by apply elem_of_nil in Hs.
    - intros _ pa Hpa. by apply elem_of_nil in Hpa. }
  { split; try done.
    - intros x. rewrite elem_of_nil. tauto.
    - intros x Hx. by left.
    - intros _ x Hx. by left. }
  { intros d pa Hd. by destruct d. }
  rewrite E. cbn [mbind result_bind]. cbn [app] in Hseg, Hsets, Hprev.
  destruct (HandleNewNode_inv mid (w_builder w) (w_centerlines w) (w_is_building w)
              (w_used_nodes_ w) (w_point w) (w_prev_point w) (w_annotation w)
              (w_prev_annotation w) Hseg (ss_used _ _ _ Hsets) Hprev)
    as (Hseg' & Htrue & Hfalse & Hadd).
  set (h := HandleNewNode (w_used_nodes_ w) (w_builder w) (w_centerlines w) (w_point w)
              (w_annotation w) (w_prev_point w) (w_prev_annotation w)
              (w_is_building w)) in *.
  rewrite <- Hmid in Hseg'. destruct Hseg' as [S1 S2 S3 S4 S5].
  destruct (h_result h) eqn:Hres; cbn [noexcept].
  - eexists _, _, _. split; [reflexivity|]. split; [|split].
    + rewrite Hmid.
      pose proof (sets_inv_step mid _ _ (w_point w) (w_prev_point w) (w_annotation w)
                    (w_prev_annotation w) false (h_add_prev h) Hsets
                    ltac:(done) Hadd) as H.
      exact H.
    + intros seg Hs. apply elem_of_app in Hs as [Hs|Hs]; [by apply S4|].
      apply list_elem_of_singleton in Hs. subst seg.
      split; [by apply Htrue|by apply suffix_piece_of].
    + intros Hnd pa Hpa Hpa0. destruct (S5 Hnd pa Hpa Hpa0) as [Hb|(seg & Hs & Hin)].
      * exists (h_builder h). split; [|done].
        apply elem_of_app. right. by apply list_elem_of_singleton.
      * exists seg. split; [|done]. apply elem_of_app. by left.
  - destruct (Hfalse eq_refl) as [Hnil Hin].
    eexists _, _, _. split; [reflexivity|]. split; [|split].
    + destruct Hsets as [T1 T2 T3 T4]. rewrite Hmid. split.
      * intros x. rewrite points_of_snoc, elem_of_app, list_elem_of_singleton, T1.
        simpl. split; [tauto|]. intros [[H| ->]|H]; [tauto| |tauto]. by apply T1.
      * done.
      * intros x Hx. rewrite points_of_snoc, elem_of_app. destruct (T3 x Hx); tauto.
      * intros Hnd x Hx. rewrite points_of_snoc in Hnd.
        apply NoDup_snoc_inv in Hnd as [Hnd _]. by apply T4.
    + done.
    + intros Hnd pa Hpa Hpa0. destruct (S5 Hnd pa Hpa Hpa0) as [Hb|Hs]; [|done].
      rewrite Hnil in Hb. by apply elem_of_nil in Hb.
Qed.

End SegmentProofs.

(** A graph of two annotated vertices: the router has reached (2,0,0) from
    its source (1,0,0). *)
Definition walk_v1 : Graph.Vertex := Graph.mkVertex (mkVoxel 1 0 0) 1%float.
Definition walk_v2 : Graph.Vertex := Graph.mkVertex (mkVoxel 2 0 0) 4%float.

Definition walk_a1 : Graph.VertexAnnotation :=
  Graph.mkVertexAnnotation 0%float Graph.Vertex_default 0 None false true false false (-1).
Definition walk_a2 : Graph.VertexAnnotation :=
  Graph.mkVertexAnnotation 1%float walk_v1 1 None true true false false (-1).

Definition walk_graph : Graph.MemoryGraph :=
  <[mkVoxel 2 0 0 := (walk_v2, walk_a2)]> (<[mkVoxel 1 0 0 := (walk_v1, walk_a1)]> ∅).

Definition walk_at (v : Graph.Vertex) : result Graph.VertexAnnotation :=
  (Graph.MemoryGraph_get walk_graph v).1.

Definition walk_has (v : Graph.Vertex) : result bool :=
  (Graph.MemoryGraph_HasVertex walk_graph v).1.

Lemma walk_chain : chain walk_at walk_v2 [(walk_v2, walk_a2); (walk_v1, walk_a1)].
Proof.
  apply chain_link; [done|done|]. by apply chain_source.
Qed.

(** X27.  [GetSegments] on a vertex whose chain of predecessors ends at a
    source returns.  Afterwards the used points are the points that were used
    before and those of the chain; no branch point is lost, every new branch
    point is a point of the chain, and, when the chain visits no point twice,
    every new branch point was already used before the call. *)
Theorem GetSegments_marks_the_chain
    (annotated_graph_at : Graph.Vertex -> result Graph.VertexAnnotation)
    (used0 branch0 : gset Voxel) (fuel : nat) (end_point : Graph.Vertex)
    (ch : list (Graph.Vertex * Graph.VertexAnnotation)) :
  chain annotated_graph_at end_point ch -> (length ch <= S fuel)%nat ->
  exists segs used' branch',
    Segments.GetSegments annotated_graph_at fuel used0 branch0 end_point
    = Ok (segs, used', branch') /\
    (forall x, x ∈ used' <-> x ∈ points_of ch \/ x ∈ used0) /\
    branch0 ⊆ branch' /\
    (forall x, x ∈ branch' -> x ∈ branch0 \/ x ∈ points_of ch) /\
    (NoDup (points_of ch) -> forall x, x ∈ branch' -> x ∈ branch0 \/ x ∈ used0).
Proof.
  intros Hch Hfuel.
  destruct (GetSegments_spec annotated_graph_at used0 branch0 fuel end_point ch
              Hch Hfuel) as (segs & used' & branch' & E & [H1 H2 H3 H4] & _).
  by exists segs, used', branch'.
Qed.

Lemma GetSegments_marks_the_chain_witness :
  exists segs used' branch',
    Segments.GetSegments walk_at 1 ∅ ∅ walk_v2 = Ok (segs, used', branch') /\
    (forall x, x ∈ used' <->
       x ∈ points_of [(walk_v2, walk_a2); (walk_v1, walk_a1)] \/ x ∈ (∅ : gset Voxel)) /\
    (∅ : gset Voxel) ⊆ branch' /\
    (forall x, x ∈ branch' ->
       x ∈ (∅ : gset Voxel) \/ x ∈ points_of [(walk_v2, walk_a2); (walk_v1, walk_a1)]) /\
    (NoDup (points_of [(walk_v2, walk_a2); (walk_v1, walk_a1)]) ->
     forall x, x ∈ branch' -> x ∈ (∅ : gset Voxel) \/ x ∈ (∅ : gset Voxel)).
Proof.
  apply (GetSegments_marks_the_chain walk_at ∅ ∅ 1 walk_v2).
  - exact walk_chain.
  - simpl. lia.
Defined.

(** X28.  Every centerline [GetSegments] returns is a non-empty run of
    consecutive nodes of the chain of predecessors; and when the chain visits
    no point twice, every vertex of the chain whose point was not used before
    the call is a node of one of the returned centerlines. *)
Theorem segments_are_pieces_of_the_chain
    (annotated_graph_at : Graph.Vertex -> result Graph.VertexAnnotation)
    (used0 branch0 : gset Voxel) (fuel : nat) (end_point : Graph.Vertex)
    (ch : list (Graph.Vertex * Graph.VertexAnnotation)) :
  chain annotated_graph_at end_point ch -> (length ch <= S fuel)%nat ->
  exists segs used' branch',
    Segments.GetSegments annotated_graph_at fuel used0 branch0 end_point
    = Ok (segs, used', branch') /\
    (forall seg, seg ∈ segs -> seg <> [] /\ piece_of seg (node_of <$> ch)) /\
    (NoDup (points_of ch) ->
     forall pa, pa ∈ ch -> Graph.Point pa.1 ∉ used0 ->
       exists seg, seg ∈ segs /\ node_of pa ∈ seg).
Proof.
  intros Hch Hfuel.
  destruct (GetSegments_spec annotated_graph_at used0 branch0 fuel end_point ch
              Hch Hfuel) as (segs & used' & branch' & E & _ & H1 & H2).
  by exists segs, used', branch'.
Qed.

Lemma segments_are_pieces_of_the_chain_witness :
  exists segs used' branch',
    Segments.GetSegments walk_at 1 ∅ ∅ walk_v2 = Ok (segs, used', branch') /\
    (forall seg, seg ∈ segs ->
       seg <> [] /\
       piece_of seg (node_of <$> [(walk_v2, walk_a2); (walk_v1, walk_a1)])) /\
    (NoDup (points_of [(walk_v2, walk_a2); (walk_v1, walk_a1)]) ->
     forall pa, pa ∈ [(walk_v2, walk_a2); (walk_v1, walk_a1)] ->
       Graph.Point pa.1 ∉ (∅ : gset Voxel) ->
       exists seg, seg ∈ segs /\ node_of pa ∈ seg).
Proof.
  apply (segments_are_pieces_of_the_chain walk_at ∅ ∅ 1 walk_v2).
  - exact walk_chain.
  - simpl. lia.
Defined.

Lemma Statistics_of_nonempty (path : Centerlines.Centerline) :
  path <> [] -> exists s, Centerlines.Statistics_of path = Ok s.
Proof.
  intros Hne. destruct path as [|node rest]; [done|].
  unfold Centerlines.Statistics_of, Centerlines.GetSize, Centerlines.GetTortuosity.
  cbn [mbind result_bind vec_at lookup list_lookup].
  destruct (lookup_lt_is_Some_2 (node :: rest) (length (node :: rest) - 1)) as [last Hl];
    [simpl; lia|].
  rewrite (proj2 (vec_at_Ok _ _ _) Hl). cbn [mbind result_bind]. by eexists.
Qed.

Lemma AddPathsAndStatistics_spec (new_paths : list Centerlines.Centerline) :
  (forall seg, seg ∈ new_paths -> seg <> []) ->
  forall (paths : list Centerlines.Centerline) (stats : list Centerlines.Statistics),
  exists stats',
    Segments.AddPathsAndStatistics new_paths paths stats
    = Ok (paths ++ new_paths, stats ++ stats') /\
    length stats' = length new_paths.
Proof.
  induction new_paths as [|path new_paths IH]; intros Hne paths stats.
  - exists []. by rewrite !app_nil_r.
  - cbn [Segments.AddPathsAndStatistics].
    destruct (Statistics_of_nonempty path) as [s Es]; [apply Hne; by left|].
    rewrite Es. cbn [mbind result_bind].
    destruct (IH (fun seg H => Hne seg ltac:(by right)) (paths ++ [path]) (stats ++ [s]))
      as (stats' & E & Hlen).
    exists (s :: stats'). rewrite E, <- !app_assoc. split; [done|].
    simpl. by rewrite Hlen.
Qed.

(** X29.  [AddSet] on an end point whose chain of predecessors ends at a
    source returns: the statistics of the new centerlines never throw, since
    these are not empty.  The old centerlines are kept, the new ones are runs
    of consecutive nodes of the chain, and the set has one statistics record
    for every centerline if it had so before. *)
Theorem AddSet_keeps_statistics_aligned
    (annotated_graph_at : Graph.Vertex -> result Graph.VertexAnnotation)
    (annotated_graph_HasVertex : Graph.Vertex -> result bool)
    (fuel : nat) (set : Centerlines.CenterlineSet) (end_point : Graph.Vertex)
    (ch : list (Graph.Vertex * Graph.VertexAnnotation)) (has : bool) :
  annotated_graph_HasVertex end_point = Ok has ->
  chain annotated_graph_at end_point ch -> (length ch <= S fuel)%nat ->
  length (Centerlines.statistics_ set) = length (Centerlines.paths_ set) ->
  exists set' new_paths,
    Segments.AddSet annotated_graph_at annotated_graph_HasVertex fuel set end_point
    = Ok set' /\
    Centerlines.paths_ set' = Centerlines.paths_ set ++ new_paths /\
    length (Centerlines.statistics_ set') = length (Centerlines.paths_ set') /\
    (forall seg, seg ∈ new_paths -> seg <> [] /\ piece_of seg (node_of <$> ch)) /\
    (forall x, x ∈ Centerlines.used_nodes_ set -> x ∈ Centerlines.used_nodes_ set').
Proof.
  intros Hhas Hch Hfuel Hlen. unfold Segments.AddSet.
  rewrite Hhas. cbn [mbind result_bind].
  assert (Hsame : exists set' new_paths,
            Ok set = Ok set' /\
            Centerlines.paths_ set' = Centerlines.paths_ set ++ new_paths /\
            length (Centerlines.statistics_ set') = length (Centerlines.paths_ set') /\
            (forall seg, seg ∈ new_paths -> seg <> [] /\ piece_of seg (node_of <$> ch)) /\
            (forall x, x ∈ Centerlines.used_nodes_ set ->
                       x ∈ Centerlines.used_nodes_ set')).
  { exists set, []. rewrite app_nil_r. split; [done|]. split; [done|]. split; [done|].
    split; [|done]. intros seg Hs. by apply elem_of_nil in Hs. }
  destruct has; cbn [negb]; [|exact Hsame].
  destruct (chain_head _ _ _ Hch) as (a & rest & _ & Hat).
  rewrite Hat. cbn [mbind result_bind].
  destruct (Segments.HasFiniteDistance a); cbn [negb]; [|exact Hsame].
  destruct (GetSegments_spec annotated_graph_at (Centerlines.used_nodes_ set)
              (Centerlines.branch_nodes_ set) fuel end_point ch Hch Hfuel)
    as (segs & used' & branch' & E & [H1 _ _ _] & Hpieces & _).
  rewrite E. cbn [mbind result_bind].
  destruct (AddPathsAndStatistics_spec segs (fun seg H => proj1 (Hpieces seg H))
              (Centerlines.paths_ set) (Centerlines.statistics_ set))
    as (stats' & E' & Hlen').
  rewrite E'. cbn [mbind result_bind].
  eexists _, segs. split; [reflexivity|].
  cbn [Centerlines.paths_ Centerlines.statistics_ Centerlines.used_nodes_].
  split; [done|]. split; [by rewrite !length_app, Hlen, Hlen'|].
  split; [done|]. intros x Hx. apply H1. by right.
Qed.

Lemma AddSet_keeps_statistics_aligned_witness :
  exists set' new_paths,
    Segments.AddSet walk_at walk_has 1 Centerlines.CenterlineSet_empty walk_v2 = Ok set' /\
    Centerlines.paths_ set'
    = Centerlines.paths_ Centerlines.CenterlineSet_empty ++ new_paths /\
    length (Centerlines.statistics_ set') = length (Centerlines.paths_ set') /\
    (forall seg, seg ∈ new_paths ->
       seg <> [] /\
       piece_of seg (node_of <$> [(walk_v2, walk_a2); (walk_v1, walk_a1)])) /\
    (forall x, x ∈ Centerlines.used_nodes_ Centerlines.CenterlineSet_empty ->
               x ∈ Centerlines.used_nodes_ set').
Proof.
  apply (AddSet_keeps_statistics_aligned walk_at walk_has 1
           Centerlines.CenterlineSet_empty walk_v2
           [(walk_v2, walk_a2); (walk_v1, walk_a1)] true).
  - reflexivity.
  - exact walk_chain.
  - simpl. lia.
  - reflexivity.
Defined.

(** *** Chains in a graph that looks vertices up by their point *)

Section ChainsByPoint.
Variable annotated_graph_at : Graph.Vertex -> result Graph.VertexAnnotation.
Hypothesis at_by_point : forall p q,
  Graph.Point p = Graph.Point q -> annotated_graph_at p = annotated_graph_at q.

Lemma chain_length_by_point (p : Graph.Vertex)
    (l1 : list (Graph.Vertex * Graph.VertexAnnotation)) :
  chain annotated_graph_at p l1 ->
  forall q l2, chain annotated_graph_at q l2 -> Graph.Point p = Graph.Point q ->
    length l1 = length l2.
Proof.
  induction 1 as [p a Hat Hpred|p a rest Hat Hpred Hch IH]; intros q l2 H2 Hpq;
    destruct H2 as [q a' Hat' Hpred'|q a' rest' Hat' Hpred' Hch'];
    rewrite (at_by_point p q Hpq), Hat' in Hat; injection Hat as <-.
  - done.
  - congruence.
  - congruence.
  - simpl. f_equal. by eapply IH.
Qed.

Lemma chain_drop (p : Graph.Vertex) (l : list (Graph.Vertex * Graph.VertexAnnotation)) :
  chain annotated_graph_at p l ->
  forall i pa, l !! i = Some pa -> chain annotated_graph_at pa.1 (drop i l).
Proof.
  induction 1 as [p a Hat Hpred|p a rest Hat Hpred Hch IH]; intros i pa Hi.
  - destruct i as [|i]; [|done]. injection Hi as <-. by apply chain_source.
  - destruct i as [|i].
    + injection Hi as <-. by apply chain_link.
    + simpl in *. by apply IH.
Qed.

(** A chain that ends at a source visits no point twice. *)
Lemma chain_NoDup (p : Graph.Vertex) (l : list (Graph.Vertex * Graph.VertexAnnotation)) :
  chain annotated_graph_at p l -> NoDup (points_of l).
Proof.
  induction 1 as [p a Hat Hpred|p a rest Hat Hpred Hch IH].
  - apply NoDup_singleton.
  - unfold points_of. rewrite fmap_cons. apply NoDup_cons. split; [|exact IH].
    intros Hin. apply list_elem_of_fmap in Hin as (pa & Hpa & Hin).
    apply list_elem_of_lookup in Hin as [i Hi].
    pose proof (chain_drop _ _ Hch i pa Hi) as Hsub.
    pose proof (chain_length_by_point p ((p, a) :: rest)
                  (chain_link _ p a rest Hat Hpred Hch) pa.1 _ Hsub Hpa) as Hlen.
    rewrite length_drop in Hlen. simpl in Hlen. lia.
Qed.

End ChainsByPoint.

(** X30.  On a [MemoryGraph], whose [operator[]] looks a vertex up by its
    point, a chain of predecessors that ends at a source visits no point
    twice.  So [GetSegments] puts every chain vertex whose point was not used
    before into one of the centerlines it returns, and every point it marks
    as a branch was a branch before or had been used before the call. *)
Theorem segments_cover_the_chain_of_a_memory_graph
    (g : Graph.MemoryGraph) (used0 branch0 : gset Voxel) (fuel : nat)
    (end_point : Graph.Vertex) (ch : list (Graph.Vertex * Graph.VertexAnnotation)) :
  chain (fun v => (Graph.MemoryGraph_get g v).1) end_point ch ->
  (length ch <= S fuel)%nat ->
  NoDup (points_of ch) /\
  exists segs used' branch',
    Segments.GetSegments (fun v => (Graph.MemoryGraph_get g v).1) fuel used0 branch0
                         end_point
    = Ok (segs, used', branch') /\
    (forall pa, pa ∈ ch -> Graph.Point pa.1 ∉ used0 ->
       exists seg, seg ∈ segs /\ node_of pa ∈ seg) /\
    (forall x, x ∈ branch' -> x ∈ branch0 \/ x ∈ used0).
Proof.
  intros Hch Hfuel.
  assert (Hnd : NoDup (points_of ch)).
  { eapply chain_NoDup; [|exact Hch]. intros p q Hpq.
    unfold Graph.MemoryGraph_get. simpl. by rewrite Hpq. }
  split; [done|].
  destruct (GetSegments_spec _ used0 branch0 fuel end_point ch Hch Hfuel)
    as (segs & used' & branch' & E & [_ _ _ H4] & _ & H2).
  exists segs, used', branch'. split; [done|]. split; [by apply H2|by apply H4].
Qed.

Lemma segments_cover_the_chain_of_a_memory_graph_witness :
  NoDup (points_of [(walk_v2, walk_a2); (walk_v1, walk_a1)]) /\
  exists segs used' branch',
    Segments.GetSegments (fun v => (Graph.MemoryGraph_get walk_graph v).1) 1 ∅ ∅ walk_v2
    = Ok (segs, used', branch') /\
    (forall pa, pa ∈ [(walk_v2, walk_a2); (walk_v1, walk_a1)] ->
       Graph.Point pa.1 ∉ (∅ : gset Voxel) ->
       exists seg, seg ∈ segs /\ node_of pa ∈ seg) /\
    (forall x, x ∈ branch' -> x ∈ (∅ : gset Voxel) \/ x ∈ (∅ : gset Voxel)).
Proof.
  apply (segments_cover_the_chain_of_a_memory_graph walk_graph ∅ ∅ 1 walk_v2).
  - exact walk_chain.
  - simpl. lia.
Defined.
